(** * Outline construction for LaTeX documents

    A shallow embedding of [src/providers/structurelib/latex.ts]: the
    per-file extractor ([constructFile], [parseNode]), the node renderer
    ([argContentToStr]), the tree assembler ([insertSubFile],
    [nestNonSection], [nestSection]) and the two numbering passes
    ([addFloatNumber], [addSectionNumber]), followed by the properties of
    these functions.

    Conventions of the embedding.
    - A JavaScript exception is a value [Throw e] of [result]; code that
      recurses through the file system takes fuel and answers [None] when
      the fuel runs out.
    - A plain object used as a dictionary ([structs], [secIndex], [counter])
      is a [gmap]; its keys are file paths, macro names and ranks, none of
      which is a property of [Object.prototype].
    - The elements of the source are objects that the passes write into.
      The passes are given twice.  On forests of [TeXElement] values, a
      pass is a function from the forest it is given to the forest it
      leaves, and a reference into the forest under construction (the
      [stack] of [nestSection], the [currentSection] of [nestNonSection])
      is the position of the object in that forest.  In the module [Heap],
      the passes run on a store of objects, with the writes of the source.
      The two agree when the store holds every object of the forest once
      ([assemble_agree] and the lemmas before it).  They differ when an
      object is at two places: a document that includes the same file
      twice makes [insertSubFile] return the objects of that file twice.
      The properties of the passes that depend on this are stated on the
      store.
    - Strings are sequences of 8-bit characters; [toUpperCase] is the ASCII
      one. *)

From stdpp Require Import gmap strings list sorting.
From Stdlib Require Import Ascii DecimalString.

Set Warnings "-register-all,-clear-no-such-hyp".

(** ** JavaScript values and exceptions *)

Inductive JsError := TypeError | RangeError.

Inductive result (A : Type) :=
| Ok (a : A)
| Throw (e : JsError).
Arguments Ok {A} a.
Arguments Throw {A} e.

#[global] Instance result_ret : MRet result := λ A a, Ok a.
#[global] Instance result_bind : MBind result := λ A B f m,
  match m with Ok a => f a | Throw e => Throw e end.
#[global] Instance result_fmap : FMap result := λ A B f m,
  match m with Ok a => Ok (f a) | Throw e => Throw e end.

(** [a <= b] and [a > b] on values that may be [undefined]: a comparison
    with [undefined] is [false]. *)
Definition js_le (a b : option nat) : bool :=
  match a, b with
  | Some x, Some y => bool_decide (x ≤ y)
  | _, _ => false
  end.

Definition js_gt (a b : option nat) : bool :=
  match a, b with
  | Some x, Some y => bool_decide (y < x)
  | _, _ => false
  end.

(** ** Strings *)

(** [n.toString()] for a non-negative integer. *)
Definition toString (n : nat) : string :=
  NilEmpty.string_of_uint (Nat.to_uint n).

(** [s.split(sep)] for a one-character separator: never the empty list. *)
Fixpoint split (sep : ascii) (s : string) : list string :=
  match s with
  | EmptyString => [EmptyString]
  | String c s' =>
      if decide (c = sep) then EmptyString :: split sep s'
      else match split sep s' with
           | part :: parts => String c part :: parts
           | [] => [String c EmptyString]
           end
  end.

(** [parts.join(sep)]. *)
Definition join (sep : string) (parts : list string) : string :=
  String.concat sep parts.

(** [s.repeat(n)] for [n >= 0]. *)
Fixpoint repeat_string (s : string) (n : nat) : string :=
  match n with
  | O => EmptyString
  | S n' => s +:+ repeat_string s n'
  end.

(** [s.repeat(n)]: a negative count is a [RangeError]. *)
Definition js_repeat (s : string) (n : Z) : result string :=
  if decide (n < 0)%Z then Throw RangeError
  else Ok (repeat_string s (Z.to_nat n)).

Definition toUpperCase_ascii (c : ascii) : ascii :=
  let n := nat_of_ascii c in
  if bool_decide (97 ≤ n ≤ 122) then ascii_of_nat (n - 32) else c.

(** [s.charAt(0).toUpperCase() + s.slice(1)]. *)
Definition capitalize (s : string) : string :=
  match s with
  | EmptyString => EmptyString
  | String c s' => String (toUpperCase_ascii c) s'
  end.

(** [s.endsWith('*')]. *)
Fixpoint endsWithStar (s : string) : bool :=
  match s with
  | EmptyString => false
  | String c EmptyString => bool_decide (c = "*"%char)
  | String _ s' => endsWithStar s'
  end.

(** [s.slice(0, -1)]. *)
Fixpoint dropLast (s : string) : string :=
  match s with
  | EmptyString => EmptyString
  | String _ EmptyString => EmptyString
  | String c s' => String c (dropLast s')
  end.

(** [(s.slice(0, index).match(/\n/g) || []).length]. *)
Fixpoint countNewlines (s : string) (index : nat) : nat :=
  match index, s with
  | S index', String c s' =>
      (if decide (c = "010"%char) then 1 else 0) + countNewlines s' index'
  | _, _ => 0
  end.

(** ** Structural elements ([TeXElement], declared in [../structure]) *)

Module TeXElementType.
Inductive t := Environment | Command | Section | SectionAst | SubFile.
#[global] Instance eq_dec : EqDecision t.
Proof. solve_decision. Defined.
End TeXElementType.

Inductive TeXElement := mkTeXElement {
  type : TeXElementType.t;
  name : string;
  label : string;
  index : Z;
  lineFr : Z;
  lineTo : Z;
  filePath : string;
  children : list TeXElement
}.

Definition set_children (e : TeXElement) (ch : list TeXElement) : TeXElement :=
  mkTeXElement (type e) (name e) (label e) (index e) (lineFr e) (lineTo e)
    (filePath e) ch.

Definition set_label (e : TeXElement) (l : string) : TeXElement :=
  mkTeXElement (type e) (name e) l (index e) (lineFr e) (lineTo e)
    (filePath e) (children e).

(** [element.type === Section || element.type === SectionAst]. *)
Definition isSection (e : TeXElement) : bool :=
  bool_decide (type e = TeXElementType.Section)
  || bool_decide (type e = TeXElementType.SectionAst).

(** Depth-first (pre-order) enumeration of a forest.  [nodes] lists the
    element objects, [flatten] lists them without their [children], which
    the passes rewrite. *)
Fixpoint nodes_elem (e : TeXElement) : list TeXElement :=
  match e with
  | mkTeXElement _ _ _ _ _ _ _ ch => e :: concat (map nodes_elem ch)
  end.

Definition nodes (forest : list TeXElement) : list TeXElement :=
  concat (map nodes_elem forest).

Definition flatten (forest : list TeXElement) : list TeXElement :=
  map (λ e, set_children e []) (nodes forest).

(** ** Configuration *)

Record Macros := mkMacros {
  cmds : list string;
  envs : list string;
  secs : list string
}.

Record StructureConfig := mkStructureConfig {
  macros : Macros;
  secIndex : gmap string nat;
  texDirs : list string;
  subFile : bool
}.

(** [config.secIndex[name]]. *)
Definition rank (config : StructureConfig) (name : string) : option nat :=
  secIndex config !! name.

(** ** Pass 2: [nestNonSection] *)

Section NestNonSection.
(** The recursive call [element.children = nestNonSection(element.children)]. *)
Variable nestChildren : TeXElement → TeXElement.

(** The [for] loop.  [currentSection] is the position in [elements] of the
    object the variable points to. *)
Fixpoint nestNonSection_loop (struct elements : list TeXElement)
    (currentSection : option nat) : list TeXElement :=
  match struct with
  | [] => elements
  | element :: rest =>
      let element' := nestChildren element in
      if isSection element then
        nestNonSection_loop rest (elements ++ [element'])
          (Some (length elements))
      else
        match currentSection with
        | None => nestNonSection_loop rest (elements ++ [element']) None
        | Some i =>
            nestNonSection_loop rest
              (alter (λ s, set_children s (children s ++ [element'])) i elements)
              currentSection
        end
  end.
End NestNonSection.

Fixpoint nestNonSection_elem (element : TeXElement) : TeXElement :=
  match element with
  | mkTeXElement t n l i lf lt fp ch =>
      mkTeXElement t n l i lf lt fp
        (if bool_decide (0 < length ch)
         then nestNonSection_loop nestNonSection_elem ch [] None
         else ch)
  end.

Definition nestNonSection (struct : list TeXElement) : list TeXElement :=
  nestNonSection_loop nestNonSection_elem struct [] None.

(** ** Pass 3: [nestSection] *)

(** The [children] array of the object at [path]; the empty path is the
    array [elements] itself. *)
Fixpoint childrenAt (path : list nat) (forest : list TeXElement)
    : list TeXElement :=
  match path with
  | [] => forest
  | i :: path' =>
      match forest !! i with
      | Some e => childrenAt path' (children e)
      | None => []
      end
  end.

(** [obj.children.push(element)] for the object at [path]. *)
Fixpoint pushAt (path : list nat) (element : TeXElement)
    (forest : list TeXElement) : list TeXElement :=
  match path with
  | [] => forest ++ [element]
  | i :: path' =>
      alter (λ e, set_children e (pushAt path' element (children e))) i forest
  end.

(** An entry of [stack]: where the object lives, and its [name], which the
    pass reads and never writes. *)
Record Ref := mkRef {
  ref_path : list nat;
  ref_name : string
}.

(** The element kinds that take part in the stack. *)
Definition isStackKind (e : TeXElement) : bool :=
  isSection e || bool_decide (type e = TeXElementType.SubFile).

(** The [while] loop of the last branch.  The array [stack] is kept
    innermost first: its head is [stack[stack.length - 1]], its last entry
    is [stack[0]].  On an empty stack, [stack[-1].name] throws. *)
Fixpoint popStack (config : StructureConfig) (element : TeXElement)
    (stack : list Ref) : result (list Ref) :=
  match stack with
  | [] => Throw TypeError
  | top :: below =>
      if js_le (rank config (name element)) (rank config (ref_name top))
      then popStack config element below
      else Ok stack
  end.

(** [stack[top].children.push(element); stack.push(element)]. *)
Definition pushChild (element : TeXElement)
    (elements : list TeXElement) (stack : list Ref)
    : result (list TeXElement * list Ref) :=
  match stack with
  | [] => Throw TypeError
  | top :: _ =>
      Ok (pushAt (ref_path top) element elements,
          mkRef (ref_path top ++ [length (childrenAt (ref_path top) elements)])
                (name element) :: stack)
  end.

(** One iteration of the [for] loop. *)
Definition nestSection_step (config : StructureConfig)
    (st : list TeXElement * list Ref) (element : TeXElement)
    : result (list TeXElement * list Ref) :=
  let '(elements, stack) := st in
  let r := rank config (name element) in
  if negb (isStackKind element) then
    Ok (pushAt [] element elements, stack)
  else
    match last stack, head stack with
    | Some bottom, Some top =>
        if js_le r (rank config (ref_name bottom)) then
          Ok (pushAt [] element elements,
              [mkRef [length elements] (name element)])
        else if js_gt r (rank config (ref_name top)) then
          pushChild element elements stack
        else
          stack' ← popStack config element stack;
          pushChild element elements stack'
    | _, _ =>
        Ok (pushAt [] element elements,
            [mkRef [length elements] (name element)])
    end.

Fixpoint nestSection_loop (config : StructureConfig)
    (struct : list TeXElement) (st : list TeXElement * list Ref)
    : result (list TeXElement * list Ref) :=
  match struct with
  | [] => Ok st
  | element :: rest =>
      st' ← nestSection_step config st element;
      nestSection_loop config rest st'
  end.

Definition nestSection (struct : list TeXElement) (config : StructureConfig)
    : result (list TeXElement) :=
  fst <$> nestSection_loop config struct ([], []).

(** ** Numbering: [addFloatNumber] *)

(** [element.type === Environment && element.name !== 'macro' &&
    element.name !== 'environment']. *)
Definition isNumberedFloat (e : TeXElement) : bool :=
  bool_decide (type e = TeXElementType.Environment)
  && negb (bool_decide (name e = "macro"))
  && negb (bool_decide (name e = "environment")).

(** [parts = label.split(':'); parts[0] += ` ${n}`; parts.join(':')]. *)
Definition numberLabel (l : string) (n : nat) : string :=
  match split ":" l with
  | part0 :: parts => join ":" ((part0 +:+ " " +:+ toString n) :: parts)
  | [] => join ":" []
  end.

Section AddFloatNumber.
(** The treatment of one element, children included. *)
Variable visit : TeXElement → gmap string nat → TeXElement * gmap string nat.

Fixpoint addFloatNumber_loop (struct : list TeXElement)
    (counter : gmap string nat) : list TeXElement * gmap string nat :=
  match struct with
  | [] => ([], counter)
  | element :: rest =>
      let '(element', counter') := visit element counter in
      let '(rest', counter'') := addFloatNumber_loop rest counter' in
      (element' :: rest', counter'')
  end.
End AddFloatNumber.

Fixpoint addFloatNumber_elem (element : TeXElement)
    (counter : gmap string nat) : TeXElement * gmap string nat :=
  match element with
  | mkTeXElement t n l i lf lt fp ch =>
      let '(l', counter1) :=
        if isNumberedFloat element then
          let c := default 0 (counter !! n) + 1 in
          (numberLabel l c, <[n := c]> counter)
        else (l, counter) in
      let '(ch', counter2) :=
        if bool_decide (0 < length ch)
        then addFloatNumber_loop addFloatNumber_elem ch counter1
        else (ch, counter1) in
      (mkTeXElement t n l' i lf lt fp ch', counter2)
  end.

(** [addFloatNumber(struct, counter)]; the dictionary [counter] is shared by
    all recursive calls, so the model returns it with the forest. *)
Definition addFloatNumber (struct : list TeXElement)
    (counter : gmap string nat) : list TeXElement * gmap string nat :=
  addFloatNumber_loop addFloatNumber_elem struct counter.

(** ** Numbering: [addSectionNumber] *)

(** A JavaScript number that is an integer or [Infinity] (the value of
    [Math.min()] without arguments). *)
Inductive JsNumber := Finite (z : Z) | Infinity.

(** [Math.min(...struct.filter(e => secIndex[e.name] !== undefined)
                     .map(e => secIndex[e.name]))]. *)
Definition minRank (config : StructureConfig) (struct : list TeXElement)
    : JsNumber :=
  foldr (λ r acc, match acc with
                  | Infinity => Finite (Z.of_nat r)
                  | Finite z => Finite (Z.min (Z.of_nat r) z)
                  end)
        Infinity (omap (λ e, rank config (name e)) struct).

(** ['0.'.repeat(r - lowest)]. *)
Definition zeroPadding (r : nat) (lowest : JsNumber) : result string :=
  match lowest with
  | Finite l => js_repeat "0." (Z.of_nat r - l)
  | Infinity => Throw RangeError
  end.

(** [counter[r].toString()]: [undefined.toString()] throws. *)
Definition counterToString (counter : gmap nat nat) (r : nat) : result string :=
  match counter !! r with
  | Some c => Ok (toString c)
  | None => Throw TypeError
  end.

Section AddSectionNumber.
Variable config : StructureConfig.
(** The treatment of one element of the loop, children included. *)
Variable visit : TeXElement → string → JsNumber → gmap nat nat →
                 result (TeXElement * gmap nat nat).

Fixpoint addSectionNumber_loop (struct : list TeXElement) (tag : string)
    (lowest : JsNumber) (counter : gmap nat nat) : result (list TeXElement) :=
  match struct with
  | [] => Ok []
  | element :: rest =>
      '(element', counter') ← visit element tag lowest counter;
      rest' ← addSectionNumber_loop rest tag lowest counter';
      Ok (element' :: rest')
  end.
End AddSectionNumber.

Fixpoint addSectionNumber_elem (config : StructureConfig)
    (element : TeXElement) (tag : string) (lowest : JsNumber)
    (counter : gmap nat nat) : result (TeXElement * gmap nat nat) :=
  match element with
  | mkTeXElement t n l i lf lt fp ch =>
      match rank config n with
      | None => Ok (element, counter)
      | Some r =>
          let counter' :=
            if bool_decide (t = TeXElementType.Section)
            then <[r := default 0 (counter !! r) + 1]> counter
            else counter in
          padding ← zeroPadding r lowest;
          count ← counterToString counter' r;
          let sectionNumber := tag +:+ padding +:+ count in
          let l' :=
            (if bool_decide (t = TeXElementType.Section)
             then sectionNumber else "*") +:+ " " +:+ l in
          ch' ← (if bool_decide (0 < length ch)
                 then addSectionNumber_loop (addSectionNumber_elem config) ch
                        (sectionNumber +:+ ".") (Finite (Z.of_nat r + 1)) ∅
                 else Ok ch);
          Ok (mkTeXElement t n l' i lf lt fp ch', counter')
      end
  end.

(** [addSectionNumber(struct, config, tag, lowest)] with its two optional
    arguments. *)
Definition addSectionNumber (struct : list TeXElement)
    (config : StructureConfig) (tag : option string)
    (lowest : option JsNumber) : result (list TeXElement) :=
  let tag := default "" tag in
  let lowest := default (minRank config struct) lowest in
  addSectionNumber_loop (addSectionNumber_elem config) struct tag lowest ∅.

(** ** The parsed document ([@unified-latex/unified-latex-types]) *)

Module Ast.

Record Point := mkPoint { offset : Z; line : Z; column : Z }.
Record Position := mkPosition { start : Point; end_ : Point }.

(** One constructor for each value of [node.type]; [Environment] carries
    the flag that tells ['mathenv'] from ['environment']. *)
Inductive Node :=
| Root (position : option Position) (content : list Node)
| String_ (position : option Position) (content : string)
| Whitespace (position : option Position)
| Parbreak (position : option Position)
| Comment (position : option Position) (content : string)
| Macro (position : option Position) (content : string)
    (args : option (list Argument))
| Environment (position : option Position) (mathenv : bool) (env : string)
    (content : list Node) (args : option (list Argument))
| Verbatim (position : option Position) (env : string) (content : string)
| InlineMath (position : option Position) (content : list Node)
| DisplayMath (position : option Position) (content : list Node)
| Group (position : option Position) (content : list Node)
| Verb (position : option Position) (env escape content : string)
with Argument :=
| mkArgument (content : list Node) (openMark closeMark : string).

Definition position (node : Node) : option Position :=
  match node with
  | Root p _ | String_ p _ | Whitespace p | Parbreak p | Comment p _
  | Macro p _ _ | Environment p _ _ _ _ | Verbatim p _ _ | InlineMath p _
  | DisplayMath p _ | Group p _ | Verb p _ _ _ => p
  end.

Definition arg_content (arg : Argument) : list Node :=
  match arg with mkArgument c _ _ => c end.

(** [node.content] when it is an array of nodes
    (['content' in node && typeof node.content !== 'string']). *)
Definition contentNodes (node : Node) : option (list Node) :=
  match node with
  | Root _ c | Environment _ _ _ c _ | InlineMath _ c | DisplayMath _ c
  | Group _ c => Some c
  | _ => None
  end.

(** [node.content] when it is a string. *)
Definition contentString (node : Node) : option string :=
  match node with
  | String_ _ s | Comment _ s | Macro _ s _ | Verbatim _ _ s | Verb _ _ _ s =>
      Some s
  | _ => None
  end.

End Ast.

(** [args?.[i]?.content]. *)
Definition argContent (args : option (list Ast.Argument)) (i : nat)
    : option (list Ast.Node) :=
  l ← args; Ast.arg_content <$> l !! i.

(** ** The node renderer *)

(** [`\\environment{${env.env}}`]. *)
Definition envToStr (env : string) : string :=
  "\environment{" +:+ env +:+ "}".

(** What [Array.prototype.join] makes of an array of node objects. *)
Definition objectsToString (l : list Ast.Node) : string :=
  join "," (map (λ _, "[object Object]") l).

(** [(macro.args?.[1].content[0] as Ast.String | undefined)?.content || ''].
    [args[1]] is read without a guard, and a [content] that is an array
    reaches the caller's [join] as it is. *)
Definition texorpdfstringToStr (args : option (list Ast.Argument))
    : result string :=
  match args with
  | None => Ok ""
  | Some l =>
      match l !! 1 with
      | None => Throw TypeError
      | Some arg =>
          match Ast.arg_content arg with
          | [] => Ok ""
          | first :: _ =>
              match Ast.contentString first, Ast.contentNodes first with
              | Some s, _ => Ok s
              | None, Some c => Ok (objectsToString c)
              | None, None => Ok ""
              end
          end
      end
  end.

Section Render.
(** The arrow function that [argContentToStr] maps over the nodes. *)
Variable render : Ast.Node → result string.

(** [argContent.map(render).join('')]. *)
Fixpoint argContentToStr_of (argContent : list Ast.Node) : result string :=
  match argContent with
  | [] => Ok ""
  | node :: rest =>
      s ← render node;
      t ← argContentToStr_of rest;
      Ok (s +:+ t)
  end.

(** [args.map(arg => `${arg.openMark}${argContentToStr(arg.content)}${arg.closeMark}`).join('')]. *)
Fixpoint argsToStr_of (args : list Ast.Argument) : result string :=
  match args with
  | [] => Ok ""
  | Ast.mkArgument c o cl :: rest =>
      s ← argContentToStr_of c;
      t ← argsToStr_of rest;
      Ok (o +:+ s +:+ cl +:+ t)
  end.

Definition macroToStr_of (content : string)
    (args : option (list Ast.Argument)) : result string :=
  if decide (content = "texorpdfstring") then texorpdfstringToStr args
  else
    match args with
    | None => Ok ("\" +:+ content)
    | Some l => s ← argsToStr_of l; Ok ("\" +:+ content +:+ s)
    end.
End Render.

Fixpoint nodeToStr (node : Ast.Node) : result string :=
  match node with
  | Ast.String_ _ c => Ok c
  | Ast.Whitespace _ | Ast.Parbreak _ | Ast.Comment _ _ => Ok " "
  | Ast.Macro _ c args => macroToStr_of nodeToStr c args
  | Ast.Environment _ _ env _ _ | Ast.Verbatim _ env _ => Ok (envToStr env)
  | Ast.InlineMath _ c =>
      s ← argContentToStr_of nodeToStr c; Ok ("$" +:+ s +:+ "$")
  | Ast.DisplayMath _ c =>
      s ← argContentToStr_of nodeToStr c; Ok ("\[" +:+ s +:+ "\]")
  | Ast.Group _ c => argContentToStr_of nodeToStr c
  | Ast.Verb _ _ _ c => Ok c
  | Ast.Root _ _ => Ok ""
  end.

Definition argContentToStr (argContent : list Ast.Node) : result string :=
  argContentToStr_of nodeToStr argContent.

Definition macroToStr (content : string) (args : option (list Ast.Argument))
    : result string :=
  macroToStr_of nodeToStr content args.

(** ** The collaborators of the extractor *)

(** The settings read through [vscode.workspace.getConfiguration]. *)
Record Configuration := mkConfiguration {
  view_outline_commands : list string;
  view_outline_sections : list string;
  view_outline_floats_enabled : bool;
  view_outline_floats_caption_enabled : bool;
  view_outline_floats_number_enabled : bool;
  view_outline_numbers_enabled : bool;
  latex_texDirs : list string
}.

(** What [lw.cacher.get(filePath)] holds. *)
Record Cache := mkCache {
  cache_content : option string;
  cache_ast : option (list Ast.Node)
}.

(** A match of [InputFileRegExp.execChild]: [result.path],
    [result.match.path] and [result.match.index]. *)
Record ChildMatch := mkChildMatch {
  match_file : string;
  match_path : string;
  match_index : nat
}.

(** Everything the file reads from outside: the manager, the settings, the
    open editors, the cacher, the parser, and the helpers [resolveFile],
    [path.dirname], [path.join] and [InputFileRegExp], none of which is
    part of this file.  An [ast] is given by the [content] of its root. *)
Record Host := mkHost {
  rootFile : option string;
  configuration : Configuration;
  dirtyText : string → option string;
  unifiedParse : string → list Ast.Node;
  cacherReady : string → nat → bool;
  cacherGet : string → option Cache;
  resolveFile : list string → string → option string;
  dirname : string → string;
  pathJoin : string → string → string;
  execChild : string → string → string → list ChildMatch
}.

Abbreviation FileStructureCache := (gmap string (list TeXElement)).

(** [refreshLaTeXModelConfig(subFile)], with [defaultFloats = ['frame']]. *)
Definition refreshLaTeXModelConfig (host : Host) (subFile : bool)
    : StructureConfig :=
  let configuration := configuration host in
  let cmds := view_outline_commands configuration in
  let envs := if view_outline_floats_enabled configuration
              then ["figure"; "table"; "frame"] else ["frame"] in
  let hierarchy := view_outline_sections configuration in
  let secIndex :=
    foldl (λ acc '(index, sec),
             foldl (λ acc cmd, <[cmd := index]> acc) acc (split "|" sec))
          ∅ (imap (λ index sec, (index, sec)) hierarchy) in
  mkStructureConfig
    (mkMacros cmds envs (concat (map (split "|") hierarchy)))
    secIndex (latex_texDirs configuration) subFile.

(** The polling loop of [constructFile]: the number of 100 ms waits, and
    whether [refreshCache] was forced.  [budget] is the bound of 20. *)
Fixpoint waitForCache (ready : nat → bool) (waited budget : nat) : nat * bool :=
  match budget with
  | O => (waited, true)
  | S budget' =>
      if ready waited then (waited, false)
      else waitForCache ready (S waited) budget'
  end.

(** [content] and [ast] as [constructFile] obtains them. *)
Definition loadSource (host : Host) (filePath : string)
    : option string * option (list Ast.Node) :=
  match dirtyText host filePath with
  | Some content => (Some content, Some (unifiedParse host content))
  | None =>
      let _ := waitForCache (cacherReady host filePath) 0 20 in
      match cacherGet host filePath with
      | Some cache => (cache_content cache, cache_ast cache)
      | None => (None, None)
      end
  end.

(** An entry of the list [parseRnwChildCommand] returns. *)
Record RnwChild := mkRnwChild {
  rnw_subFile : string;
  rnw_path : string;
  rnw_line : nat
}.

Definition parseRnwChildCommand (host : Host) (content file rootFile : string)
    : list RnwChild :=
  map (λ result,
         mkRnwChild (match_file result) (match_path result)
                    (countNewlines content (match_index result)))
      (execChild host content file rootFile).

(** ** The per-file extractor: [parseNode] and [constructFile] *)

(** [attributes]: [index], [lineFr] and [lineTo] of a node. *)
Definition nodeIndex (node : Ast.Node) : Z :=
  default 0%Z (Ast.offset ∘ Ast.start <$> Ast.position node).
Definition nodeLineFr (node : Ast.Node) : Z :=
  (default 1 (Ast.line ∘ Ast.start <$> Ast.position node) - 1)%Z.
Definition nodeLineTo (node : Ast.Node) : Z :=
  (default 1 (Ast.line ∘ Ast.end_ <$> Ast.position node) - 1)%Z.

(** [{ type, name, label, ...attributes }]. *)
Definition newElement (t : TeXElementType.t) (name label : string)
    (node : Ast.Node) (filePath : string) : TeXElement :=
  mkTeXElement t name label (nodeIndex node) (nodeLineFr node)
    (nodeLineTo node) filePath [].

(** [content.find(sub => sub.type === 'macro' && sub.content === name)?.args]. *)
Fixpoint findMacroArgs (name : string) (content : list Ast.Node)
    : option (list Ast.Argument) :=
  match content with
  | [] => None
  | Ast.Macro _ c args :: rest =>
      if decide (c = name) then args else findMacroArgs name rest
  | _ :: rest => findMacroArgs name rest
  end.

(** [base + (enabled && caption ? `: ${caption}` : '')]. *)
Definition withCaption (host : Host) (base caption : string) : string :=
  if view_outline_floats_caption_enabled (configuration host)
     && negb (bool_decide (caption = ""))
  then base +:+ ": " +:+ caption else base.

(** [`${caption}`] for [caption = node.content[0]?.content[0]] of the DocTeX
    branch, [None] when [caption] is falsy.  A first node without [content]
    makes the index expression throw. *)
Definition docCaption (content : list Ast.Node) : result (option string) :=
  match content with
  | [] => Ok None
  | first :: _ =>
      match Ast.contentNodes first, Ast.contentString first with
      | Some (_ :: _), _ => Ok (Some "[object Object]")
      | Some [], _ => Ok None
      | None, Some (String c _) => Ok (Some (String c EmptyString))
      | None, Some EmptyString => Ok None
      | None, None => Throw TypeError
      end
  end.

(** A [SubFile] element for a resolved inclusion, and the file to extract. *)
Definition subFileElement (config : StructureConfig) (name raw : string)
    (resolved : option string) (node : Ast.Node) (filePath : string)
    : option TeXElement * option string :=
  match resolved with
  | Some file =>
      if bool_decide (file = "") then (None, None)
      else (Some (newElement TeXElementType.SubFile name
                    (if subFile config then file else raw) node filePath),
            if subFile config then Some file else None)
  | None => (None, None)
  end.

Definition inputMacros : list string :=
  ["input"; "InputIfFileExists"; "include"; "SweaveInput"; "subfile";
   "loadglsentries"; "markdownInput"].
Definition importMacros : list string := ["import"; "inputfrom"; "includefrom"].
Definition subimportMacros : list string :=
  ["subimport"; "subinputfrom"; "subincludefrom"].

(** The chain of [if]/[else if] that opens [parseNode]: the element the node
    produces, if any, and the file that [constructFile] is then called on.
    Every condition of the chain starts with a test of [node.type]; the
    model branches on the node first and keeps, for macros and for
    environments, the conditions in the order of the source. *)
Definition classify (host : Host) (config : StructureConfig)
    (filePath : string) (node : Ast.Node)
    : result (option TeXElement * option string) :=
  let args0 a := argContentToStr (default [] (argContent a 0)) in
  let args1 a := argContentToStr (default [] (argContent a 1)) in
  let root := default "" (rootFile host) in
  match node with
  | Ast.Macro _ c args =>
      if bool_decide (c ∈ secs (macros config)) then
        let t := match argContent args 0 with
                 | Some (_ :: _) => TeXElementType.SectionAst
                 | _ => TeXElementType.Section
                 end in
        let title := match argContent args 1 with
                     | Some (n :: l) => n :: l
                     | _ => default [] (argContent args 2)
                     end in
        l ← argContentToStr title;
        Ok (Some (newElement t c l node filePath), None)
      else if bool_decide (c ∈ cmds (macros config)) then
        argStr ← args1 args;
        Ok (Some (newElement TeXElementType.Command c
                    ("#" +:+ c +:+
                     (if bool_decide (argStr = "") then ""
                      else ": " +:+ argStr))
                    node filePath), None)
      else if bool_decide (c ∈ inputMacros) then
        arg0 ← args0 args;
        Ok (subFileElement config c arg0
              (resolveFile host
                 (dirname host filePath :: dirname host root :: texDirs config)
                 arg0)
              node filePath)
      else if bool_decide (c ∈ importMacros) then
        arg0 ← args0 args;
        arg1 ← args1 args;
        Ok (subFileElement config c arg1
              (resolveFile host
                 [arg0; pathJoin host (dirname host root) arg0] arg1)
              node filePath)
      else if bool_decide (c ∈ subimportMacros) then
        arg0 ← args0 args;
        arg1 ← args1 args;
        Ok (subFileElement config c arg1
              (resolveFile host [dirname host filePath]
                 (pathJoin host arg0 arg1))
              node filePath)
      else Ok (None, None)
  | Ast.Environment _ mathenv env content args =>
      if negb mathenv && bool_decide (env = "frame") then
        caption3 ← argContentToStr (default [] (argContent args 3));
        caption ← (if bool_decide (caption3 = "")
                   then argContentToStr
                          (default [] (argContent
                                         (findMacroArgs "frametitle" content) 2))
                   else Ok caption3);
        Ok (Some (newElement TeXElementType.Environment env
                    (withCaption host (capitalize env) caption)
                    node filePath), None)
      else if negb mathenv
              && ((bool_decide (env = "figure") || bool_decide (env = "figure*"))
                  && bool_decide ("figure" ∈ envs (macros config))
                  || (bool_decide (env = "table") || bool_decide (env = "table*"))
                     && bool_decide ("table" ∈ envs (macros config))) then
        caption ← argContentToStr
                    (default [] (argContent (findMacroArgs "caption" content) 1));
        let env' := if endsWithStar env then dropLast env else env in
        Ok (Some (newElement TeXElementType.Environment env'
                    (withCaption host (capitalize env') caption)
                    node filePath), None)
      else if negb mathenv
              && (bool_decide (env = "macro")
                  || bool_decide (env = "environment")) then
        caption ← docCaption content;
        Ok (Some (newElement TeXElementType.Environment env
                    (withCaption host (capitalize env) (default "" caption))
                    node filePath), None)
      else if bool_decide (env ∈ envs (macros config)) then
        Ok (Some (newElement TeXElementType.Environment env (capitalize env)
                    node filePath), None)
      else Ok (None, None)
  | _ => Ok (None, None)
  end.

(** The state [parseNode] threads through one file: the queue [rnwSub],
    which it pops, and the cache [structs], which the calls of
    [constructFile] fill. *)
Record ParseState := mkParseState {
  ps_rnwSub : list RnwChild;
  ps_structs : FileStructureCache
}.

(** A computation over that state: [None] when the fuel ran out, an
    exception, or a value and the new state. *)
Definition Extract (A : Type) : Type :=
  ParseState → option (result (A * ParseState)).

#[global] Instance Extract_ret : MRet Extract :=
  λ A a st, Some (Ok (a, st)).
#[global] Instance Extract_bind : MBind Extract := λ A B k m st,
  match m st with
  | Some (Ok (a, st')) => k a st'
  | Some (Throw e) => Some (Throw e)
  | None => None
  end.

Definition liftResult {A} (r : result A) : Extract A := λ st,
  match r with
  | Ok a => Some (Ok (a, st))
  | Throw e => Some (Throw e)
  end.

Section ParseNode.
Variable host : Host.
Variable config : StructureConfig.
Variable filePath : string.
(** [constructFile], with the fuel that is left for it. *)
Variable constructFile_rec :
  string → FileStructureCache → option (result FileStructureCache).

(** [await constructFile(file, config, structs)]. *)
Definition callConstructFile (file : string) : Extract unit := λ st,
  match constructFile_rec file (ps_structs st) with
  | Some (Ok structs') => Some (Ok ((), mkParseState (ps_rnwSub st) structs'))
  | Some (Throw e) => Some (Throw e)
  | None => None
  end.

(** The element pushed for a popped entry of [rnwSub]. *)
Definition rnwElement (rnw : RnwChild) (node : Ast.Node) : TeXElement :=
  mkTeXElement TeXElementType.SubFile "RnwChild"
    (if subFile config then rnw_subFile rnw else rnw_path rnw)
    (default 1 (Ast.offset ∘ Ast.start <$> Ast.position node) - 1)%Z
    (nodeLineFr node) (nodeLineTo node) filePath [].

(** [rnwSub.length > 0 && rnwSub[rnwSub.length - 1].line >= attributes.lineFr],
    then [rnwSub.pop()]. *)
Definition takeRnwChild (node : Ast.Node) : Extract (option RnwChild) := λ st,
  match last (ps_rnwSub st) with
  | Some rnw =>
      if bool_decide (nodeLineFr node ≤ Z.of_nat (rnw_line rnw))%Z
      then Some (Ok (Some rnw,
                     mkParseState (removelast (ps_rnwSub st)) (ps_structs st)))
      else Some (Ok (None, st))
  | None => Some (Ok (None, st))
  end.

(** [parseNode(node, rnwSub, root, filePath, config, structs)]: the value is
    the list of elements the call pushes onto [root.children], in order. *)
Fixpoint parseNode (node : Ast.Node) : Extract (list TeXElement) :=
  '(element, file) ← liftResult (classify host config filePath node);
  _ ← match file with
      | Some file => callConstructFile file
      | None => mret ()
      end;
  rnw ← takeRnwChild node;
  pushed ← match rnw with
           | Some rnw =>
               _ ← (if subFile config
                    then callConstructFile (rnw_subFile rnw) else mret ());
               mret [rnwElement rnw node]
           | None => mret []
           end;
  let parseNodes :=
    fix parseNodes (content : list Ast.Node) : Extract (list TeXElement) :=
      match content with
      | [] => mret []
      | sub :: rest =>
          l ← parseNode sub;
          l' ← parseNodes rest;
          mret (l ++ l')
      end in
  below ← match node with
          | Ast.Root _ content | Ast.Environment _ _ _ content _
          | Ast.InlineMath _ content | Ast.DisplayMath _ content
          | Ast.Group _ content => parseNodes content
          | _ => mret []
          end;
  mret (pushed ++ match element with
                  | Some element => [set_children element below]
                  | None => below
                  end).

(** The loop [for (const node of ast.content) await parseNode(node, ...)]. *)
Fixpoint parseNodes (content : list Ast.Node) : Extract (list TeXElement) :=
  match content with
  | [] => mret []
  | node :: rest =>
      l ← parseNode node;
      l' ← parseNodes rest;
      mret (l ++ l')
  end.
End ParseNode.

(** [constructFile(filePath, config, structs)]; [fuel] bounds the depth of
    the chain of files that include one another. *)
Fixpoint constructFile (fuel : nat) (host : Host) (filePath : string)
    (config : StructureConfig) (structs : FileStructureCache)
    : option (result FileStructureCache) :=
  match fuel with
  | O => None
  | S fuel' =>
      match structs !! filePath with
      | Some _ => Some (Ok structs)
      | None =>
          match loadSource host filePath with
          | (Some content, Some ast) =>
              if bool_decide (content = "") then Some (Ok structs)
              else
                let rnwSub :=
                  parseRnwChildCommand host content filePath
                    (default "" (rootFile host)) in
                match
                  parseNodes host config filePath
                    (λ file, constructFile fuel' host file config)
                    ast (mkParseState rnwSub structs)
                with
                | Some (Ok (rootChildren, st)) =>
                    Some (Ok (<[filePath := rootChildren]> (ps_structs st)))
                | Some (Throw e) => Some (Throw e)
                | None => None
                end
          | _ => Some (Ok structs)
          end
      end
  end.

(** ** Pass 1: [insertSubFile] *)

Section InsertSubFileLoop.
(** What one element contributes to [elements]. *)
Variable visit : TeXElement → option (list TeXElement).

Fixpoint insertSubFile_loop (struct : list TeXElement)
    : option (list TeXElement) :=
  match struct with
  | [] => Some []
  | element :: rest =>
      l ← visit element;
      l' ← insertSubFile_loop rest;
      Some (l ++ l')
  end.
End InsertSubFileLoop.

Section InsertSubFileElem.
Variable structs : FileStructureCache.
(** [insertSubFile(structs, structs[element.label])], with the fuel left. *)
Variable spliceFile : list TeXElement → option (list TeXElement).

Fixpoint insertSubFile_elem (element : TeXElement)
    : option (list TeXElement) :=
  match element with
  | mkTeXElement t n l i lf lt fp ch =>
      match (if bool_decide (t = TeXElementType.SubFile)
             then structs !! l else None) with
      | Some sub => spliceFile sub
      | None =>
          ch' ← (if bool_decide (0 < length ch)
                 then insertSubFile_loop insertSubFile_elem ch
                 else Some ch);
          Some [mkTeXElement t n l i lf lt fp ch']
      end
  end.
End InsertSubFileElem.

(** [insertSubFile(structs, struct)] for a given [struct]; [fuel] bounds the
    depth of the chain of cached files spliced into one another, and the
    answer is [None] when it runs out. *)
Fixpoint insertSubFile_struct (fuel : nat) (host : Host)
    (structs : FileStructureCache) (struct : list TeXElement)
    : option (list TeXElement) :=
  match fuel with
  | O => None
  | S fuel' =>
      match rootFile host with
      | None => Some []
      | Some _ =>
          insertSubFile_loop
            (insertSubFile_elem structs
               (insertSubFile_struct fuel' host structs))
            struct
      end
  end.

(** [insertSubFile(structs, struct?)]. *)
Definition insertSubFile (fuel : nat) (host : Host)
    (structs : FileStructureCache) (struct : option (list TeXElement))
    : option (list TeXElement) :=
  match rootFile host with
  | None => Some []
  | Some root =>
      insertSubFile_struct fuel host structs
        (default (default [] (structs !! root)) struct)
  end.

(** ** The entry point: [construct] *)

(** The passes that follow the choice of [struct] in [construct]. *)
Definition assemble (host : Host) (config : StructureConfig) (subFile : bool)
    (struct : list TeXElement) : result (list TeXElement) :=
  let struct := nestNonSection struct in
  struct ← nestSection struct config;
  let struct :=
    if subFile && view_outline_floats_number_enabled (configuration host)
    then (addFloatNumber struct ∅).1 else struct in
  if subFile && view_outline_numbers_enabled (configuration host)
  then addSectionNumber struct config None None
  else Ok struct.

(** [construct(filePath, subFile)].  Iterating over [structs[filePath]] when
    it is [undefined] throws. *)
Definition construct (fuel : nat) (host : Host) (filePath : option string)
    (subFile : bool) : option (result (list TeXElement)) :=
  match (match filePath with Some f => Some f | None => rootFile host end) with
  | None => Some (Ok [])
  | Some filePath =>
      let config := refreshLaTeXModelConfig host subFile in
      match constructFile fuel host filePath config ∅ with
      | None => None
      | Some (Throw e) => Some (Throw e)
      | Some (Ok structs) =>
          if subFile then
            struct ← insertSubFile fuel host structs None;
            Some (assemble host config subFile struct)
          else
            match structs !! filePath with
            | Some struct => Some (assemble host config subFile struct)
            | None => Some (Throw TypeError)
            end
      end
  end.


(** * Properties of the pipeline *)

(** ** Notions used to state the properties *)

(** A parent and a direct child that are both sections with configured
    ranks have ranks in strictly increasing order. *)
Definition pairOk (config : StructureConfig) (parent child : TeXElement)
    : bool :=
  if isSection parent && isSection child then
    match rank config (name parent), rank config (name child) with
    | Some rp, Some rc => bool_decide (rp < rc)
    | _, _ => true
    end
  else true.

Fixpoint rankOrdered_elem (config : StructureConfig) (e : TeXElement) : bool :=
  match e with
  | mkTeXElement _ _ _ _ _ _ _ ch =>
      forallb (pairOk config e) ch && forallb (rankOrdered_elem config) ch
  end.

(** The same, for every parent and child of a forest (decidable form). *)
Definition rankOrdered (config : StructureConfig) (forest : list TeXElement)
    : bool :=
  forallb (rankOrdered_elem config) forest.

(** The invariant of pass 3 as the specification states it. *)
Definition RankOrdered (config : StructureConfig) (forest : list TeXElement)
    : Prop :=
  ∀ parent child rp rc,
    parent ∈ nodes forest → child ∈ children parent →
    isSection parent = true → isSection child = true →
    rank config (name parent) = Some rp → rank config (name child) = Some rc →
    rp < rc.

(** The ranks of the stack entries that have one, innermost first. *)
Definition stackRanks (config : StructureConfig) (stack : list Ref) : list nat :=
  omap (λ r, rank config (ref_name r)) stack.

Definition hasRank (config : StructureConfig) (e : TeXElement) : bool :=
  bool_decide (is_Some (rank config (name e))).

(** No stack element without a rank comes after a stack element with one. *)
Fixpoint unrankedLead (config : StructureConfig) (struct : list TeXElement)
    : bool :=
  match struct with
  | [] => true
  | e :: rest =>
      if isStackKind e && hasRank config e
      then forallb (λ x, implb (isStackKind x) (hasRank config x)) rest
      else unrankedLead config rest
  end.

(** No other element comes after a stack element. *)
Fixpoint stackElementsLast (struct : list TeXElement) : bool :=
  match struct with
  | [] => true
  | e :: rest =>
      if isStackKind e then forallb isStackKind rest
      else stackElementsLast rest
  end.

(** Every section of the forest is still without children: the state of a
    forest that comes out of the extractor and the splice pass. *)
Fixpoint sectionsBare_elem (e : TeXElement) : bool :=
  match e with
  | mkTeXElement _ _ _ _ _ _ _ ch =>
      (if isSection e then bool_decide (ch = []) else true)
      && forallb sectionsBare_elem ch
  end.

Definition sectionsBare (forest : list TeXElement) : bool :=
  forallb sectionsBare_elem forest.

(** No section of the forest has a section among its children. *)
Fixpoint sectionsApart_elem (e : TeXElement) : bool :=
  match e with
  | mkTeXElement _ _ _ _ _ _ _ ch =>
      (if isSection e then forallb (λ c, negb (isSection c)) ch else true)
      && forallb sectionsApart_elem ch
  end.

Definition sectionsApart (forest : list TeXElement) : bool :=
  forallb sectionsApart_elem forest.

(** The kinds and names of a forest, without labels and positions: what the
    rank order of parents and children depends on. *)
Fixpoint skeleton_elem (e : TeXElement) : TeXElement :=
  match e with
  | mkTeXElement t n _ _ _ _ _ ch =>
      mkTeXElement t n "" 0 0 0 "" (map skeleton_elem ch)
  end.

Definition skeleton (forest : list TeXElement) : list TeXElement :=
  map skeleton_elem forest.

(** Every forest of the cache has sections without children. *)
Definition CacheBare (structs : gmap string (list TeXElement)) : Prop :=
  ∀ file forest, structs !! file = Some forest → sectionsBare forest = true.

(** A recursive call of [constructFile] that keeps the cache in that state. *)
Definition KeepsBare
    (rec : string → gmap string (list TeXElement) →
           option (result (gmap string (list TeXElement)))) : Prop :=
  ∀ file structs structs',
    rec file structs = Some (Ok structs') → CacheBare structs → CacheBare structs'.

(** What [parseNode] pushes for [node] has sections without children, and
    the cache stays in that state. *)
Definition parseBare (host : Host) (config : StructureConfig)
    (filePath : string)
    (rec : string → gmap string (list TeXElement) →
           option (result (gmap string (list TeXElement))))
    (node : Ast.Node) : Prop :=
  ∀ st out st',
    parseNode host config filePath rec node st = Some (Ok (out, st')) →
    CacheBare (ps_structs st) →
    sectionsBare out = true ∧ CacheBare (ps_structs st').

(** The numbering of [addFloatNumber], run over a depth-first sequence. *)
Fixpoint numberSequence (l : list TeXElement) (counter : gmap string nat)
    : list TeXElement * gmap string nat :=
  match l with
  | [] => ([], counter)
  | e :: rest =>
      let '(e', counter') :=
        if isNumberedFloat e then
          let c := default 0 (counter !! name e) + 1 in
          (set_label e (numberLabel (label e) c), <[name e := c]> counter)
        else (e, counter) in
      let '(rest', counter'') := numberSequence rest counter' in
      (e' :: rest', counter'')
  end.

(** How many numbered floats named [nm] a sequence holds. *)
Definition countFloats (nm : string) (l : list TeXElement) : nat :=
  length (filter (λ e, isNumberedFloat e = true ∧ name e = nm) l).

(** The arguments of a macro or environment node ([node.args ?? []]). *)
Definition nodeArgs (node : Ast.Node) : list Ast.Argument :=
  match node with
  | Ast.Macro _ _ (Some l) | Ast.Environment _ _ _ _ (Some l) => l
  | _ => []
  end.

(** Every [texorpdfstring] macro that the renderer reaches carries no
    argument list or at least two arguments. *)
Fixpoint renderable (node : Ast.Node) : bool :=
  match node with
  | Ast.Macro _ c args =>
      if decide (c = "texorpdfstring") then
        match args with
        | None => true
        | Some l => bool_decide (2 ≤ length l)
        end
      else
        match args with
        | None => true
        | Some l => forallb (λ a, forallb renderable (Ast.arg_content a)) l
        end
  | Ast.InlineMath _ c | Ast.DisplayMath _ c | Ast.Group _ c =>
      forallb renderable c
  | _ => true
  end.

(** ** The loop of [nestSection] as the proofs follow it *)

(** The object at [path] in a forest. *)
Fixpoint elemAt (path : list nat) (forest : list TeXElement)
    : option TeXElement :=
  match path with
  | [] => None
  | i :: path' =>
      match forest !! i with
      | None => None
      | Some e =>
          match path' with
          | [] => Some e
          | _ => elemAt path' (children e)
          end
      end
  end.

(** A path that [pushAt] can follow: the array itself, or an object. *)
Definition validPath (path : list nat) (forest : list TeXElement) : Prop :=
  path = [] ∨ is_Some (elemAt path forest).

(** [path] ends at the last object of every array it goes through. *)
Fixpoint rightmost (path : list nat) (forest : list TeXElement) : Prop :=
  match path with
  | [] => True
  | i :: path' =>
      S i = length forest ∧
      match forest !! i with
      | Some e => rightmost path' (children e)
      | None => False
      end
  end.

(** What one iteration of the loop of [nestSection] does to [elements] and
    [stack]: the element stays at top level and leaves the stack alone, or
    it opens a new stack at top level, or it becomes the last child of an
    entry [top] that the stack already holds and whose rank does not reach
    its own. *)
Inductive stepCase (config : StructureConfig) (elements : list TeXElement)
    (stack : list Ref) (element : TeXElement)
    : list TeXElement → list Ref → Prop :=
| step_plain :
    isStackKind element = false →
    stepCase config elements stack element (elements ++ [element]) stack
| step_top :
    isStackKind element = true →
    (stack = [] ∨
     ∃ bottom, last stack = Some bottom ∧
       js_le (rank config (name element)) (rank config (ref_name bottom)) = true) →
    stepCase config elements stack element (elements ++ [element])
      [mkRef [length elements] (name element)]
| step_child top below :
    isStackKind element = true →
    (top :: below) `suffix_of` stack →
    js_le (rank config (name element)) (rank config (ref_name top)) = false →
    stepCase config elements stack element
      (pushAt (ref_path top) element elements)
      (mkRef (ref_path top ++ [length (childrenAt (ref_path top) elements)])
             (name element) :: top :: below).

(** An entry of the stack points to an object of the forest that bears the
    name the entry records. *)
Definition RefValid (elements : list TeXElement) (r : Ref) : Prop :=
  ∃ x, elemAt (ref_path r) elements = Some x ∧ name x = ref_name r.

(** Every entry of the stack lies on the path of the entries above it. *)
Fixpoint chain (stack : list Ref) : Prop :=
  match stack with
  | [] => True
  | r :: below =>
      Forall (λ r', ref_path r' `prefix_of` ref_path r) below ∧ chain below
  end.

(** The stack is the right spine of the forest: every entry is the last
    object of the array that holds it. *)
Definition spineInv (elements : list TeXElement) (stack : list Ref) : Prop :=
  Forall (λ r, rightmost (ref_path r) elements) stack ∧ chain stack.

(** What is left of the input when the order is kept: stack elements only,
    once the stack is open. *)
Definition restOk (stack : list Ref) (struct : list TeXElement) : Prop :=
  match stack with
  | [] => stackElementsLast struct = true
  | _ => forallb isStackKind struct = true
  end.

(** The stack entries without a rank lie below (outside) those with one,
    and the ranks decrease from the innermost entry outwards. *)
Fixpoint stackForm (config : StructureConfig) (stack : list Ref) : Prop :=
  match stack with
  | [] => True
  | r :: below =>
      match rank config (ref_name r) with
      | Some x => Forall (λ y, y < x) (stackRanks config below)
      | None => stackRanks config below = []
      end ∧ stackForm config below
  end.

(** What is left of the input allows no stack element without a rank once
    the stack holds an entry with one. *)
Definition restRanked (config : StructureConfig) (stack : list Ref)
    (struct : list TeXElement) : Prop :=
  (stackRanks config stack = [] ∧ unrankedLead config struct = true) ∨
  forallb (λ x, implb (isStackKind x) (hasRank config x)) struct = true.

(** The kind and the name of an element: what the rank order reads. *)
Definition kindName (e : TeXElement) : TeXElementType.t * string := (type e, name e).

(** ** Examples *)

(** An element of [/main.tex] at the start of the file. *)
Definition exampleElement (t : TeXElementType.t) (name label : string)
    (children : list TeXElement) : TeXElement :=
  mkTeXElement t name label 0 0 0 "/main.tex" children.

(** A section macro with its three arguments: star, optional title, title. *)
Definition sectionMacro (name title : string) : Ast.Node :=
  Ast.Macro None name
    (Some [Ast.mkArgument [] "" ""; Ast.mkArgument [] "" "";
           Ast.mkArgument [Ast.String_ None title] "{" "}"]).

(** A host that knows no file and resolves no path. *)
Definition emptyHost : Host :=
  mkHost None
    (mkConfiguration [] ["chapter"; "section"; "subsection"] true true true true [])
    (λ _, None) (λ _, []) (λ _ _, true) (λ _, None) (λ _ _, None)
    (λ _, "/") (λ a b, a +:+ "/" +:+ b) (λ _ _ _, []).

(** The configuration of the examples: chapters, sections and subsections
    of ranks 0, 1 and 2, with sub-file merging. *)
Definition exampleConfig : StructureConfig :=
  refreshLaTeXModelConfig emptyHost true.

(** [/main.tex] holds [\input{main}], which resolves to [/main.tex]. *)
Definition selfIncludeHost : Host :=
  mkHost (Some "/main.tex")
    (mkConfiguration [] ["chapter"; "section"; "subsection"] true true true true [])
    (λ _, None) (λ _, []) (λ _ _, true)
    (λ file,
       if decide (file = "/main.tex") then
         Some (mkCache (Some "\input{main}")
                 (Some [Ast.Macro None "input"
                          (Some [Ast.mkArgument [Ast.String_ None "main"] "{" "}"])]))
       else None)
    (λ _ arg, if decide (arg = "main") then Some "/main.tex" else None)
    (λ _, "/") (λ a b, a +:+ "/" +:+ b) (λ _ _ _, []).

(** The cacher of a workspace in which [/part.tex] holds one section. *)
Definition partCacher (file : string) : option Cache :=
  if decide (file = "/part.tex") then
    Some (mkCache (Some "\section{A}")
            (Some [Ast.Macro None "section"
                     (Some [Ast.mkArgument [] "" "";
                            Ast.mkArgument [] "" "";
                            Ast.mkArgument [Ast.String_ None "A"] "{" "}"])]))
  else None.

(** [/part.tex] is there; no root file is known. *)
Definition rootlessHost : Host :=
  mkHost None
    (mkConfiguration [] ["chapter"; "section"; "subsection"] true true true true [])
    (λ _, None) (λ _, []) (λ _ _, true) partCacher
    (λ _ _, None) (λ _, "/") (λ a b, a +:+ "/" +:+ b) (λ _ _ _, []).

(** [/part.tex] is there; the root file is [/main.tex], of which the cacher
    holds nothing. *)
Definition otherRootHost : Host :=
  mkHost (Some "/main.tex")
    (mkConfiguration [] ["chapter"; "section"; "subsection"] true true true true [])
    (λ _, None) (λ _, []) (λ _ _, true) partCacher
    (λ _ _, None) (λ _, "/") (λ a b, a +:+ "/" +:+ b) (λ _ _ _, []).

(** Three files that include [/shared.tex]: [/main.tex] includes [/a.tex]
    and [/b.tex], and each of these includes [/shared.tex]. *)
Definition diamondHost : Host :=
  let input arg :=
    Ast.Macro None "input"
      (Some [Ast.mkArgument [Ast.String_ None arg] "{" "}"]) in
  mkHost (Some "/main.tex")
    (mkConfiguration [] ["chapter"; "section"; "subsection"] true true true true [])
    (λ _, None) (λ _, []) (λ _ _, true)
    (λ file,
       if decide (file = "/main.tex") then
         Some (mkCache (Some "text") (Some [input "a"; input "b"]))
       else if decide (file = "/a.tex") then
         Some (mkCache (Some "text") (Some [input "shared"]))
       else if decide (file = "/b.tex") then
         Some (mkCache (Some "text") (Some [input "shared"]))
       else if decide (file = "/shared.tex") then
         Some (mkCache (Some "text") (Some [sectionMacro "section" "S"]))
       else None)
    (λ _ arg, Some ("/" +:+ arg +:+ ".tex"))
    (λ _, "/") (λ a b, a +:+ "/" +:+ b) (λ _ _ _, []).

(** A text node that starts and ends on [line] (counted from one). *)
Definition textAt (line : Z) : Ast.Node :=
  Ast.String_
    (Some (Ast.mkPosition (Ast.mkPoint 0 line 1) (Ast.mkPoint 1 line 2))) "x".

(** [/doc.tex] holds two sections, a subsection with a figure, and
    [\input{sub}]; [/sub.tex] holds a chapter with two sections. *)
Definition docHost : Host :=
  mkHost (Some "/doc.tex")
    (mkConfiguration [] ["chapter"; "section"; "subsection"] true true true true [])
    (λ _, None) (λ _, []) (λ _ _, true)
    (λ file,
       if decide (file = "/doc.tex") then
         Some (mkCache (Some "text")
                 (Some [sectionMacro "section" "Intro";
                        sectionMacro "section" "Background";
                        sectionMacro "subsection" "Prior Work";
                        Ast.Environment None false "figure"
                          [Ast.Macro None "caption"
                             (Some [Ast.mkArgument [] "" "";
                                    Ast.mkArgument [Ast.String_ None "Cap"] "{" "}"])]
                          None;
                        Ast.Macro None "input"
                          (Some [Ast.mkArgument [Ast.String_ None "sub"] "{" "}"])]))
       else if decide (file = "/sub.tex") then
         Some (mkCache (Some "text")
                 (Some [sectionMacro "chapter" "Sub";
                        sectionMacro "section" "Mid";
                        sectionMacro "section" "After"]))
       else None)
    (λ _ arg, if decide (arg = "sub") then Some "/sub.tex" else None)
    (λ _, "/") (λ a b, a +:+ "/" +:+ b) (λ _ _ _, []).


(** ** Notions used to state further properties *)

(** An element without its label: what the two numbering passes keep. *)
Definition unlabel (e : TeXElement) : TeXElement := set_label e "".

(** Every element of every forest of the cache has the property [QQ] that
    goes with the file of the forest. *)
Definition CacheAll (QQ : string → TeXElement → Prop)
    (structs : gmap string (list TeXElement)) : Prop :=
  ∀ file forest, structs !! file = Some forest → Forall (QQ file) (nodes forest).

(** The kind of an element agrees with its name: what the conditions of
    [parseNode] say of the element they build. *)
Definition kindOk (config : StructureConfig) (e : TeXElement) : Prop :=
  match type e with
  | TeXElementType.Section | TeXElementType.SectionAst =>
      name e ∈ secs (macros config)
  | TeXElementType.Command =>
      name e ∈ cmds (macros config) ∧ ∃ rest, label e = "#" +:+ name e +:+ rest
  | TeXElementType.Environment =>
      name e ∈ envs (macros config) ∨ name e ∈ ["frame"; "macro"; "environment"]
  | TeXElementType.SubFile =>
      name e ∈ inputMacros ++ importMacros ++ subimportMacros ++ ["RnwChild"]
  end.

(** The elements pushed for popped entries of the queue [rnwSub]. *)
Definition isRnwChild (e : TeXElement) : bool :=
  bool_decide (type e = TeXElementType.SubFile)
  && bool_decide (name e = "RnwChild").

(** Two computations of the extractor agree, return or throw, and leave
    the cache [structs] alone. *)
Definition settles {A} (run run' : Extract A) : Prop :=
  ∀ st, run st = run' st ∧
        match run st with
        | Some (Ok (_, st')) => ps_structs st' = ps_structs st
        | Some (Throw _) => True
        | None => False
        end.

(** The label of the element pushed for an entry of the queue. *)
Definition rnwLabel (config : StructureConfig) (rnw : RnwChild) : string :=
  if subFile config then rnw_subFile rnw else rnw_path rnw.

(** The labels of the elements of a forest that stand for child chunks, in
    depth-first order. *)
Definition rnwLabels (forest : list TeXElement) : list string :=
  label <$> filter (λ e, isRnwChild e = true) (nodes forest).

(** A [SubFile] element whose label is a file of the cache: what
    [insertSubFile] replaces by the forest of that file. *)
Definition resolvable (structs : gmap string (list TeXElement)) (e : TeXElement)
    : Prop :=
  type e = TeXElementType.SubFile ∧ is_Some (structs !! label e).

(** The names of the top-level elements of a forest that take part in the
    stack of [nestSection] (sections and sub-files), in order. *)
Definition topNames (forest : list TeXElement) : list string :=
  name <$> filter (λ e, isStackKind e = true) forest.

(** Each name of the list has a rank at most that of the name before it. *)
Definition ranksDescend (config : StructureConfig) (names : list string) : Prop :=
  ∀ k a b, names !! k = Some a → names !! S k = Some b →
           js_le (rank config b) (rank config a) = true.

(** How many non-starred sections of rank [r] a list holds. *)
Definition countSections (config : StructureConfig) (r : nat)
    (l : list TeXElement) : nat :=
  length (filter (λ x, type x = TeXElementType.Section ∧
                       rank config (name x) = Some r) l).

(** ** Further examples *)

(** [/main.tex] is the root file and holds the empty string. *)
Definition emptyFileHost : Host :=
  mkHost (Some "/main.tex")
    (mkConfiguration [] ["chapter"; "section"; "subsection"] true true true true [])
    (λ _, None) (λ _, []) (λ _ _, true)
    (λ file, if decide (file = "/main.tex")
             then Some (mkCache (Some "") (Some [])) else None)
    (λ _ _, None) (λ _, "/") (λ a b, a +:+ "/" +:+ b) (λ _ _ _, []).

(** Two lines of text, each followed by a line feed. *)
Definition twoLines : string :=
  "a" +:+ String "010" ("b" +:+ String "010" "").

(** A host whose scan for child chunks finds one at the start of the
    content and one at position 3. *)
Definition rnwHost : Host :=
  mkHost (Some "/main.Rnw")
    (mkConfiguration [] ["chapter"; "section"; "subsection"] true true true true [])
    (λ _, None) (λ _, []) (λ _ _, true) (λ _, None)
    (λ _ _, None) (λ _, "/") (λ a b, a +:+ "/" +:+ b)
    (λ _ _ _, [mkChildMatch "/a.Rnw" "a.Rnw" 0; mkChildMatch "/b.Rnw" "b.Rnw" 3]).

(** A cache in which the root file [m] includes [a], which is there, and
    [missing], which is not. *)
Definition spliceCache : gmap string (list TeXElement) :=
  list_to_map
    [("a", [exampleElement TeXElementType.Section "section" "A" []]);
     ("m",
      [exampleElement TeXElementType.SubFile "input" "a" [];
       exampleElement TeXElementType.SubFile "input" "missing" []])].

(** A small document: the root file [m] holds a section, [\input{a}] and a
    figure; the file [a] holds a chapter and a section. *)
Definition smallHost : Host :=
  mkHost (Some "m")
    (mkConfiguration [] ["chapter"; "section"; "subsection"] true true true true [])
    (λ _, None) (λ _, []) (λ _ _, true)
    (λ file,
       if decide (file = "m") then
         Some (mkCache (Some "text")
                 (Some [sectionMacro "section" "Intro";
                        Ast.Macro None "input"
                          (Some [Ast.mkArgument [Ast.String_ None "a"] "{" "}"]);
                        Ast.Environment None false "figure" [] None]))
       else if decide (file = "a") then
         Some (mkCache (Some "text")
                 (Some [sectionMacro "chapter" "Part";
                        sectionMacro "section" "Detail"]))
       else None)
    (λ _ arg, if decide (arg = "a") then Some "a" else None)
    (λ _, "/") (λ a b, a +:+ "/" +:+ b) (λ _ _ _, []).

(** What [constructFile] leaves in an empty cache, or the empty cache. *)
Definition extracted (host : Host) (file : string) (subFile : bool)
    : gmap string (list TeXElement) :=
  match constructFile 3 host file (refreshLaTeXModelConfig host subFile) ∅ with
  | Some (Ok structs) => structs
  | _ => ∅
  end.

(** The outline of the small document, with sub-file merging. *)
Definition smallOutline : list TeXElement :=
  match construct 3 smallHost None true with
  | Some (Ok out) => out
  | _ => []
  end.

(** The cache of a document whose root file [m] includes a file that is
    not there. *)
Definition plainCache : gmap string (list TeXElement) :=
  list_to_map
    [("m",
      [exampleElement TeXElementType.Section "section" "A"
         [exampleElement TeXElementType.SubFile "input" "missing" []]])].

(** Three sections of rank 1, the second one starred, and a figure that
    holds a section. *)
Definition numberedScope : list TeXElement :=
  [exampleElement TeXElementType.Section "section" "A" [];
   exampleElement TeXElementType.SectionAst "section" "S" [];
   exampleElement TeXElementType.Section "section" "B" [];
   exampleElement TeXElementType.Environment "figure" "Figure"
     [exampleElement TeXElementType.Section "section" "C" []]].

(** ** The cache as the extractor builds it *)

(** The content of [file] can be had and is not empty: [constructFile]
    goes on to parse it. *)
Definition available (host : Host) (file : string) : Prop :=
  match loadSource host file with
  | (Some content, Some _) => content ≠ ""
  | _ => False
  end.

(** The forest of [file] when every call of [constructFile] for an
    included file returns at once. *)
Definition forestOf (host : Host) (config : StructureConfig) (file : string)
    : option (list TeXElement) :=
  match loadSource host file with
  | (Some content, Some ast) =>
      match parseNodes host config file (λ _ structs, Some (Ok structs)) ast
              (mkParseState
                 (parseRnwChildCommand host content file
                    (default "" (rootFile host))) ∅) with
      | Some (Ok (out, _)) => Some out
      | _ => None
      end
  | _ => None
  end.

(** Every entry of the cache is the forest of an available file. *)
Definition Canonical (host : Host) (config : StructureConfig)
    (structs : gmap string (list TeXElement)) : Prop :=
  ∀ file forest, structs !! file = Some forest →
                 available host file ∧ forestOf host config file = Some forest.

(** Every [SubFile] element of the cache names a file that the cache holds
    or that is not available. *)
Definition Closed (host : Host) (structs : gmap string (list TeXElement)) : Prop :=
  ∀ file forest x,
    structs !! file = Some forest → x ∈ nodes forest →
    type x = TeXElementType.SubFile →
    is_Some (structs !! label x) ∨ ¬ available host (label x).

(** The files of the cache can be numbered so that every file comes after
    the files that its [SubFile] elements name. *)
Definition Layered (structs : gmap string (list TeXElement)) : Prop :=
  ∃ layer : string → nat,
    (∀ file, is_Some (structs !! file) → layer file < size structs) ∧
    ∀ file forest x,
      structs !! file = Some forest → x ∈ nodes forest →
      type x = TeXElementType.SubFile → is_Some (structs !! label x) →
      layer (label x) < layer file.

(** The file [f] has content, and its forest holds a [SubFile] element
    whose label is the file [g], which has content too: with sub-file
    merging, the extraction of [f] calls for the extraction of [g]. *)
Definition includes (host : Host) (config : StructureConfig) (f g : string)
    : Prop :=
  available host f ∧ available host g ∧
  ∃ forest x,
    forestOf host config f = Some forest ∧ x ∈ nodes forest ∧
    type x = TeXElementType.SubFile ∧ label x = g.

(** Two files that include each other: [a] holds [\input{b}], and [b]
    holds a section and [\input{a}]. *)
Definition cycleHost : Host :=
  let input arg :=
    Ast.Macro None "input"
      (Some [Ast.mkArgument [Ast.String_ None arg] "{" "}"]) in
  mkHost (Some "a")
    (mkConfiguration [] ["chapter"; "section"; "subsection"] true true true true [])
    (λ _, None) (λ _, []) (λ _ _, true)
    (λ file,
       if decide (file = "a") then Some (mkCache (Some "text") (Some [input "b"]))
       else if decide (file = "b") then
         Some (mkCache (Some "text") (Some [sectionMacro "section" "S"; input "a"]))
       else None)
    (λ _ arg, Some arg)
    (λ _, "/") (λ a b, a +:+ "/" +:+ b) (λ _ _ _, []).


(** ** The passes on a store of shared objects *)

(** The elements of the source are objects: [insertSubFile] returns the
    objects of the cache themselves (line 287), and the passes that follow
    write into them ([children.push], [children =], [label =]).  An object
    that the forest holds at two places, as for a file that is included
    twice, shows every write at both.  The definitions of this module run
    the passes on a store of objects; each loop reads its array as it is
    when the loop starts. *)
Module Heap.

(** The location of an object in the store. *)
Abbreviation loc := nat.

(** A [TeXElement] object; [o_children] holds the locations of the objects
    of its [children] array. *)
Record Object := mkObject {
  o_type : TeXElementType.t;
  o_name : string;
  o_label : string;
  o_index : Z;
  o_lineFr : Z;
  o_lineTo : Z;
  o_filePath : string;
  o_children : list loc
}.

Abbreviation Store := (list Object).

Definition with_children (o : Object) (ch : list loc) : Object :=
  mkObject (o_type o) (o_name o) (o_label o) (o_index o) (o_lineFr o)
    (o_lineTo o) (o_filePath o) ch.

Definition with_label (o : Object) (l : string) : Object :=
  mkObject (o_type o) (o_name o) l (o_index o) (o_lineFr o) (o_lineTo o)
    (o_filePath o) (o_children o).

(** The element that an object is when its children are the elements [ch]. *)
Definition elementOf (o : Object) (ch : list TeXElement) : TeXElement :=
  mkTeXElement (o_type o) (o_name o) (o_label o) (o_index o) (o_lineFr o)
    (o_lineTo o) (o_filePath o) ch.

(** The fields of an object that are not [children]. *)
Definition shell (o : Object) : TeXElement := elementOf o [].

(** A computation on the store: [None] when the fuel ran out, an exception,
    or a value and the new store. *)
Definition Run (A : Type) : Type := Store → option (result (A * Store)).

#[global] Instance Run_ret : MRet Run := λ A a σ, Some (Ok (a, σ)).
#[global] Instance Run_bind : MBind Run := λ A B k m σ,
  match m σ with
  | Some (Ok (a, σ')) => k a σ'
  | Some (Throw e) => Some (Throw e)
  | None => None
  end.

(** Reading the fields of the object at [l].  Every location that the
    passes meet is one of the store. *)
Definition load (l : loc) : Run Object := λ σ,
  match σ !! l with
  | Some o => Some (Ok (o, σ))
  | None => None
  end.

(** A write into the object at [l]. *)
Definition update (l : loc) (f : Object → Object) : Run unit := λ σ,
  Some (Ok ((), alter f l σ)).

(** [obj.children.push(element)]. *)
Definition push (l element : loc) : Run unit :=
  update l (λ o, with_children o (o_children o ++ [element])).

(** An object literal. *)
Definition new (o : Object) : Run loc := λ σ, Some (Ok (length σ, σ ++ [o])).

Definition throw {A} (e : JsError) : Run A := λ _, Some (Throw e).

Definition lift {A} (r : result A) : Run A := λ σ,
  match r with
  | Ok a => Some (Ok (a, σ))
  | Throw e => Some (Throw e)
  end.

(** The call stack is exhausted. *)
Definition outOfFuel {A} : Run A := λ _, None.

(** *** Pass 1: [insertSubFile] *)

Section InsertSubFile.
Variable structs : gmap string (list loc).
(** [insertSubFile(structs, struct)], with the fuel that is left. *)
Variable rec : list loc → Run (list loc).

Fixpoint insertSubFile_loop (struct : list loc) : Run (list loc) :=
  match struct with
  | [] => mret []
  | element :: rest =>
      o ← load element;
      pushed ← match (if bool_decide (o_type o = TeXElementType.SubFile)
                      then structs !! o_label o else None) with
               | Some sub => rec sub
               | None =>
                   _ ← (if bool_decide (0 < length (o_children o)) then
                          ch ← rec (o_children o);
                          update element (λ o, with_children o ch)
                        else mret ());
                   mret [element]
               end;
      elements ← insertSubFile_loop rest;
      mret (pushed ++ elements)
  end.
End InsertSubFile.

(** [insertSubFile(structs, struct)] for a given [struct]; [fuel] bounds the
    depth of the calls. *)
Fixpoint insertSubFile_struct (fuel : nat) (host : Host)
    (structs : gmap string (list loc)) (struct : list loc) : Run (list loc) :=
  match fuel with
  | O => outOfFuel
  | S fuel' =>
      match rootFile host with
      | None => mret []
      | Some _ =>
          insertSubFile_loop structs (insertSubFile_struct fuel' host structs)
            struct
      end
  end.

(** [insertSubFile(structs, struct?)]. *)
Definition insertSubFile (fuel : nat) (host : Host)
    (structs : gmap string (list loc)) (struct : option (list loc))
    : Run (list loc) :=
  match rootFile host with
  | None => mret []
  | Some root =>
      insertSubFile_struct fuel host structs
        (default (default [] (structs !! root)) struct)
  end.

(** *** Pass 2: [nestNonSection] *)

Section NestNonSection.
(** [nestNonSection(element.children)], with the fuel that is left. *)
Variable rec : list loc → Run (list loc).

Fixpoint nestNonSection_loop (struct elements : list loc)
    (currentSection : option loc) : Run (list loc) :=
  match struct with
  | [] => mret elements
  | element :: rest =>
      o ← load element;
      '(elements', currentSection') ←
        (if isSection (shell o) then
           mret (elements ++ [element], Some element)
         else
           match currentSection with
           | None => mret (elements ++ [element], None)
           | Some section =>
               _ ← push section element;
               mret (elements, currentSection)
           end);
      o' ← load element;
      _ ← (if bool_decide (0 < length (o_children o')) then
             ch ← rec (o_children o');
             update element (λ o, with_children o ch)
           else mret ());
      nestNonSection_loop rest elements' currentSection'
  end.
End NestNonSection.

Fixpoint nestNonSection (fuel : nat) (struct : list loc) : Run (list loc) :=
  match fuel with
  | O => outOfFuel
  | S fuel' => nestNonSection_loop (nestNonSection fuel') struct [] None
  end.

(** *** Pass 3: [nestSection] *)

(** [config.secIndex[obj.name]] for the object at [l]. *)
Definition rankAt (config : StructureConfig) (l : loc) : Run (option nat) :=
  o ← load l; mret (rank config (o_name o)).

(** The [while] loop of the last branch; the array [stack] is kept
    innermost first. *)
Fixpoint popStack (config : StructureConfig) (r : option nat)
    (stack : list loc) : Run (list loc) :=
  match stack with
  | [] => throw TypeError
  | top :: below =>
      rtop ← rankAt config top;
      if js_le r rtop then popStack config r below else mret stack
  end.

(** [stack[top].children.push(element); stack.push(element)]. *)
Definition pushChild (element : loc) (stack : list loc) : Run (list loc) :=
  match stack with
  | [] => throw TypeError
  | top :: _ => _ ← push top element; mret (element :: stack)
  end.

(** One iteration of the [for] loop. *)
Definition nestSection_step (config : StructureConfig)
    (st : list loc * list loc) (element : loc) : Run (list loc * list loc) :=
  let '(elements, stack) := st in
  o ← load element;
  let r := rank config (o_name o) in
  if negb (isStackKind (shell o)) then mret (elements ++ [element], stack)
  else
    match last stack, head stack with
    | Some bottom, Some top =>
        rbottom ← rankAt config bottom;
        if js_le r rbottom then mret (elements ++ [element], [element])
        else
          rtop ← rankAt config top;
          if js_gt r rtop then
            stack' ← pushChild element stack; mret (elements, stack')
          else
            stack' ← popStack config r stack;
            stack'' ← pushChild element stack';
            mret (elements, stack'')
    | _, _ => mret (elements ++ [element], [element])
    end.

Fixpoint nestSection_loop (config : StructureConfig) (struct : list loc)
    (st : list loc * list loc) : Run (list loc * list loc) :=
  match struct with
  | [] => mret st
  | element :: rest =>
      st' ← nestSection_step config st element;
      nestSection_loop config rest st'
  end.

Definition nestSection (struct : list loc) (config : StructureConfig)
    : Run (list loc) :=
  st ← nestSection_loop config struct ([], []); mret st.1.

(** *** Numbering: [addFloatNumber] *)

Section AddFloatNumber.
(** [addFloatNumber(element.children, counter)], with the fuel that is
    left; the value is the dictionary [counter] as the call leaves it. *)
Variable rec : list loc → gmap string nat → Run (gmap string nat).

Fixpoint addFloatNumber_loop (struct : list loc) (counter : gmap string nat)
    : Run (gmap string nat) :=
  match struct with
  | [] => mret counter
  | element :: rest =>
      o ← load element;
      counter1 ←
        (if isNumberedFloat (shell o) then
           let c := default 0 (counter !! o_name o) + 1 in
           _ ← update element (λ o, with_label o (numberLabel (o_label o) c));
           mret (<[o_name o := c]> counter)
         else mret counter);
      o' ← load element;
      counter2 ← (if bool_decide (0 < length (o_children o'))
                  then rec (o_children o') counter1
                  else mret counter1);
      addFloatNumber_loop rest counter2
  end.
End AddFloatNumber.

Fixpoint addFloatNumber_from (fuel : nat) (struct : list loc)
    (counter : gmap string nat) : Run (gmap string nat) :=
  match fuel with
  | O => outOfFuel
  | S fuel' => addFloatNumber_loop (addFloatNumber_from fuel') struct counter
  end.

(** [addFloatNumber(struct)], which returns [struct]. *)
Definition addFloatNumber (fuel : nat) (struct : list loc) : Run (list loc) :=
  _ ← addFloatNumber_from fuel struct ∅; mret struct.

(** *** Numbering: [addSectionNumber] *)

Section AddSectionNumber.
Variable config : StructureConfig.
(** [addSectionNumber(element.children, config, tag, lowest)], with the
    fuel that is left. *)
Variable rec : list loc → string → JsNumber → Run unit.

Fixpoint addSectionNumber_loop (struct : list loc) (tag : string)
    (lowest : JsNumber) (counter : gmap nat nat) : Run unit :=
  match struct with
  | [] => mret ()
  | element :: rest =>
      o ← load element;
      match rank config (o_name o) with
      | None => addSectionNumber_loop rest tag lowest counter
      | Some r =>
          let counter' :=
            if bool_decide (o_type o = TeXElementType.Section)
            then <[r := default 0 (counter !! r) + 1]> counter
            else counter in
          padding ← lift (zeroPadding r lowest);
          count ← lift (counterToString counter' r);
          let sectionNumber := tag +:+ padding +:+ count in
          _ ← update element
                (λ o, with_label o
                        ((if bool_decide (o_type o = TeXElementType.Section)
                          then sectionNumber else "*") +:+ " " +:+ o_label o));
          o' ← load element;
          _ ← (if bool_decide (0 < length (o_children o'))
               then rec (o_children o') (sectionNumber +:+ ".")
                      (Finite (Z.of_nat r + 1))
               else mret ());
          addSectionNumber_loop rest tag lowest counter'
      end
  end.
End AddSectionNumber.

(** The call with both optional arguments given. *)
Fixpoint addSectionNumber_scope (fuel : nat) (config : StructureConfig)
    (struct : list loc) (tag : string) (lowest : JsNumber) : Run unit :=
  match fuel with
  | O => outOfFuel
  | S fuel' =>
      addSectionNumber_loop config (addSectionNumber_scope fuel' config)
        struct tag lowest ∅
  end.

(** The objects at the locations of an array. *)
Fixpoint loadAll (struct : list loc) : Run (list Object) :=
  match struct with
  | [] => mret []
  | element :: rest => o ← load element; os ← loadAll rest; mret (o :: os)
  end.

(** [addSectionNumber(struct, config, tag, lowest)] with its two optional
    arguments; it returns [struct]. *)
Definition addSectionNumber (fuel : nat) (struct : list loc)
    (config : StructureConfig) (tag : option string)
    (lowest : option JsNumber) : Run (list loc) :=
  os ← loadAll struct;
  _ ← addSectionNumber_scope fuel config struct (default "" tag)
        (default (minRank config (shell <$> os)) lowest);
  mret struct.

(** *** The entry point *)

(** The passes that follow the choice of [struct] in [construct]. *)
Definition assemble (fuel : nat) (host : Host) (config : StructureConfig)
    (subFile : bool) (struct : list loc) : Run (list loc) :=
  struct ← nestNonSection fuel struct;
  struct ← nestSection struct config;
  struct ← (if subFile && view_outline_floats_number_enabled (configuration host)
            then addFloatNumber fuel struct else mret struct);
  if subFile && view_outline_numbers_enabled (configuration host)
  then addSectionNumber fuel struct config None None
  else mret struct.

(** The objects of a forest that the extractor has built: [parseNode]
    makes every element by an object literal and pushes it onto one array,
    so each element is an object of its own. *)
Fixpoint alloc (e : TeXElement) : Run loc :=
  match e with
  | mkTeXElement t n l i lf lt fp ch =>
      ls ← (fix allocAll (ch : list TeXElement) : Run (list loc) :=
              match ch with
              | [] => mret []
              | c :: ch' => l ← alloc c; ls ← allocAll ch'; mret (l :: ls)
              end) ch;
      new (mkObject t n l i lf lt fp ls)
  end.

Fixpoint allocAll (forest : list TeXElement) : Run (list loc) :=
  match forest with
  | [] => mret []
  | e :: rest => l ← alloc e; ls ← allocAll rest; mret (l :: ls)
  end.

(** The cache that the extraction leaves, as arrays of objects. *)
Fixpoint allocFiles (files : list (string * list TeXElement))
    : Run (gmap string (list loc)) :=
  match files with
  | [] => mret ∅
  | (file, forest) :: rest =>
      ls ← allocAll forest;
      structs ← allocFiles rest;
      mret (<[file := ls]> structs)
  end.

Definition allocCache (structs : gmap string (list TeXElement))
    : Run (gmap string (list loc)) :=
  allocFiles (map_to_list structs).

(** [construct(filePath, subFile)]: the extraction, then the passes on the
    objects of the cache.  The value is the array that [construct] returns
    and the store it refers to. *)
Definition construct (fuel : nat) (host : Host) (filePath : option string)
    (subFile : bool) : option (result (list loc * Store)) :=
  match (match filePath with Some f => Some f | None => rootFile host end) with
  | None => Some (Ok ([], []))
  | Some filePath =>
      let config := refreshLaTeXModelConfig host subFile in
      match constructFile fuel host filePath config ∅ with
      | None => None
      | Some (Throw e) => Some (Throw e)
      | Some (Ok cache) =>
          (structs ← allocCache cache;
           struct ← (if subFile then insertSubFile fuel host structs None
                     else match structs !! filePath with
                          | Some struct => mret struct
                          | None => throw TypeError
                          end);
           assemble fuel host config subFile struct) []
      end
  end.

(** *** Reading a store *)

(** The tree below the object at [l], every object unfolded at each place
    it is reached; [None] when the tree is deeper than [fuel]. *)
Fixpoint read (fuel : nat) (σ : Store) (l : loc) : option TeXElement :=
  match fuel with
  | O => None
  | S fuel' =>
      o ← σ !! l;
      ch ← mapM (read fuel' σ) (o_children o);
      Some (elementOf o ch)
  end.

Definition readAll (fuel : nat) (σ : Store) (ls : list loc)
    : option (list TeXElement) :=
  mapM (read fuel σ) ls.

(** The outline that a run of [construct] returns, read from its store. *)
Definition outline (fuel : nat) (run : option (result (list loc * Store)))
    : option (list TeXElement) :=
  match run with
  | Some (Ok (ls, σ)) => readAll fuel σ ls
  | _ => None
  end.

(** The locations of the objects below [l] in depth-first order, an
    object listed at each place it is reached. *)
Fixpoint places (fuel : nat) (σ : Store) (l : loc) : option (list loc) :=
  match fuel with
  | O => None
  | S fuel' =>
      o ← σ !! l;
      ps ← mapM (places fuel' σ) (o_children o);
      Some (l :: concat ps)
  end.

Definition placesAll (fuel : nat) (σ : Store) (ls : list loc)
    : option (list loc) :=
  ps ← mapM (places fuel σ) ls; Some (concat ps).

(** The store holds the tree [t] at [l], on the objects [fp], and holds no
    object of the tree at two places. *)
Inductive stored (σ : Store) : loc → TeXElement → gset loc → Prop :=
| stored_object l o ch fp :
    σ !! l = Some o →
    storedAll σ (o_children o) ch fp →
    l ∉ fp →
    stored σ l (elementOf o ch) ({[l]} ∪ fp)
(** The same for an array and the forest it holds. *)
with storedAll (σ : Store) : list loc → list TeXElement → gset loc → Prop :=
| storedAll_nil : storedAll σ [] [] ∅
| storedAll_cons l ls t ts fp fps :
    stored σ l t fp →
    storedAll σ ls ts fps →
    fp ## fps →
    storedAll σ (l :: ls) (t :: ts) (fp ∪ fps).

End Heap.

(** Induction on a tree that the store holds and on its children. *)
Scheme stored_mut := Induction for Heap.stored Sort Prop
  with storedAll_mut := Induction for Heap.storedAll Sort Prop.

(** The object at [path] below the array [ls]: the index in [ls], then the
    indices in the [children] arrays. *)
Fixpoint locAt (σ : Heap.Store) (path : list nat) (ls : list Heap.loc)
    : option Heap.loc :=
  match path with
  | [] => None
  | i :: path' =>
      match ls !! i with
      | None => None
      | Some l =>
          match path' with
          | [] => Some l
          | _ => match σ !! l with
                 | Some o => locAt σ path' (Heap.o_children o)
                 | None => None
                 end
          end
      end
  end.

(** The entries of the stack of [nestSection] and the objects they point
    to: the object at the path of the entry, which bears its name. *)
Definition stackAt (σ : Heap.Store) (els : list Heap.loc)
    (stackT : list Ref) (stack : list Heap.loc) : Prop :=
  Forall2 (λ ref s, locAt σ (ref_path ref) els = Some s ∧
                    ∃ o, σ !! s = Some o ∧ Heap.o_name o = ref_name ref)
          stackT stack.

(** Every object is still there, under its name, and its children have
    been added to at the end only. *)
Definition grows (σ σ' : Heap.Store) : Prop :=
  ∀ k o, σ !! k = Some o →
         ∃ o', σ' !! k = Some o' ∧ Heap.o_name o' = Heap.o_name o ∧
               Heap.o_children o `prefix_of` Heap.o_children o'.

(** *** The passes on a store and on a forest *)

(** The objects outside [fp] are as they were. *)
Definition frame (fp : gset Heap.loc) (σ σ' : Heap.Store) : Prop :=
  length σ' = length σ ∧ ∀ k, k ∉ fp → σ' !! k = σ !! k.

(** A pass that writes labels runs on the store as it does on the forest
    that the store holds: it leaves the forest [ts'] at the same
    locations when the pass on the forest returns [Ok ts'], with enough
    fuel, and throws when that one throws. *)
Definition answers (fp : gset Heap.loc) (σ : Heap.Store) (ls : list Heap.loc)
    (r : result (list TeXElement))
    (run : nat → Heap.Run unit) : Prop :=
  match r with
  | Ok ts' =>
      ∃ σ', Heap.storedAll σ' ls ts' fp ∧ frame fp σ σ' ∧
            ∃ n, ∀ fuel, n ≤ fuel → run fuel σ = Some (Ok ((), σ'))
  | Throw e => ∃ n, ∀ fuel, n ≤ fuel → run fuel σ = Some (Throw e)
  end.

(** The same for a pass that returns an array: the array it returns holds
    the forest [out]. *)
Definition returns (fp : gset Heap.loc) (σ : Heap.Store)
    (r : result (list TeXElement))
    (run : nat → Heap.Run (list Heap.loc)) : Prop :=
  match r with
  | Ok out =>
      ∃ σ' ls', Heap.storedAll σ' ls' out fp ∧ frame fp σ σ' ∧
                ∃ n, ∀ fuel, n ≤ fuel → run fuel σ = Some (Ok (ls', σ'))
  | Throw e => ∃ n, ∀ fuel, n ≤ fuel → run fuel σ = Some (Throw e)
  end.

(** The variable [currentSection] and its position in [elements]. *)
Definition currentAt (els : list Heap.loc) (cur : option Heap.loc)
    (curT : option nat) : Prop :=
  match cur, curT with
  | None, None => True
  | Some s, Some i => els !! i = Some s
  | _, _ => False
  end.

(** *** Examples *)

(** A forest laid out in an empty store, one object for each element: the
    array of its top-level objects and the store. *)
Definition laidOut (forest : list TeXElement) : list Heap.loc * Heap.Store :=
  match Heap.allocAll forest [] with
  | Some (Ok r) => r
  | _ => ([], [])
  end.

(** The labels, in depth-first order, of the forest that a pass returns. *)
Definition labelsAfter (fuel : nat) (run : Heap.Run (list Heap.loc))
    (σ : Heap.Store) : option (list string) :=
  match run σ with
  | Some (Ok (ls, σ')) =>
      (λ ts, label <$> flatten ts) <$> Heap.readAll fuel σ' ls
  | _ => None
  end.

(** [\input{arg}]. *)
Definition inputMacro (arg : string) : Ast.Node :=
  Ast.Macro None "input" (Some [Ast.mkArgument [Ast.String_ None arg] "{" "}"]).

(** A figure with [\caption{caption}]. *)
Definition figureEnv (caption : string) : Ast.Node :=
  Ast.Environment None false "figure"
    [Ast.Macro None "caption"
       (Some [Ast.mkArgument [] "" "";
              Ast.mkArgument [Ast.String_ None caption] "{" "}"])] None.

(** A document that includes a file twice: the root file [m] holds
    [\input{a}\input{a}], and [a] holds a section and a figure. *)
Definition twiceHost : Host :=
  mkHost (Some "m")
    (mkConfiguration [] ["chapter"; "section"; "subsection"] true true true true [])
    (λ _, None) (λ _, []) (λ _ _, true)
    (λ file,
       if decide (file = "m") then
         Some (mkCache (Some "text") (Some [inputMacro "a"; inputMacro "a"]))
       else if decide (file = "a") then
         Some (mkCache (Some "text")
                 (Some [sectionMacro "section" "S"; figureEnv "Cap"]))
       else None)
    (λ _ arg, if decide (arg = "a") then Some "a" else None)
    (λ _, "/") (λ a b, a +:+ "/" +:+ b) (λ _ _ _, []).

(** The outline of the document that includes [a] twice, as [construct]
    leaves it: both top-level places hold the one section object of [a],
    and both places below it hold the one figure object. *)
Definition twiceOutline : list TeXElement :=
  let figure :=
    mkTeXElement TeXElementType.Environment "figure" "Figure 1 2 3 4: Cap"
      0 0 0 "a" [] in
  let section :=
    mkTeXElement TeXElementType.Section "section" "2 1 S" 0 0 0 "a"
      [figure; figure] in
  [section; section].

(** A store with one figure. *)
Definition figureStore : Heap.Store :=
  [Heap.mkObject TeXElementType.Environment "figure" "Figure: Cap" 0 0 0 "a" []].

(** A store with a section and a figure. *)
Definition sectionStore : Heap.Store :=
  [Heap.mkObject TeXElementType.Section "section" "S" 0 0 0 "a" [];
   Heap.mkObject TeXElementType.Environment "figure" "Figure" 0 0 0 "a" []].

(** A store with one [SubFile] object, whose file is not in the cache. *)
Definition subFileStore : Heap.Store :=
  [Heap.mkObject TeXElementType.SubFile "input" "f" 0 0 0 "a" []].




(** ** Induction on elements and the enumeration of a forest *)

Lemma TeXElement_forest_ind (P : TeXElement → Prop) :
  (∀ e, Forall P (children e) → P e) → ∀ e, P e.
Proof.
  intros step. fix IH 1. intros [t n l i lf lt fp ch]. apply step. simpl.
  induction ch as [|c ch IHch]; constructor; [apply IH | exact IHch].
Qed.

Lemma nodes_elem_unfold e : nodes_elem e = e :: nodes (children e).
Proof. by destruct e. Qed.

Lemma nodes_cons e forest : nodes (e :: forest) = e :: nodes (children e) ++ nodes forest.
Proof. unfold nodes at 1. simpl. by rewrite nodes_elem_unfold. Qed.

Lemma nodes_app f1 f2 : nodes (f1 ++ f2) = nodes f1 ++ nodes f2.
Proof. unfold nodes. by rewrite map_app, concat_app. Qed.

Lemma nodes_cons_app e forest : nodes (e :: forest) = nodes_elem e ++ nodes forest.
Proof. done. Qed.

Lemma elem_of_nodes x forest :
  x ∈ nodes forest ↔ ∃ e, e ∈ forest ∧ x ∈ nodes_elem e.
Proof.
  induction forest as [|e forest IH].
  { split; [by intros ?%elem_of_nil|by intros (? & ?%elem_of_nil & _)]. }
  rewrite nodes_cons_app, elem_of_app, IH. split.
  - intros [?|(e' & ? & ?)]; [exists e|exists e']; split; try done; by constructor.
  - intros (e' & [->|?]%elem_of_cons & ?); [by left|right; eauto].
Qed.

Lemma flatten_nil : flatten [] = [].
Proof. done. Qed.

Lemma flatten_cons e forest :
  flatten (e :: forest) = set_children e [] :: flatten (children e) ++ flatten forest.
Proof. unfold flatten. rewrite nodes_cons. simpl. by rewrite map_app. Qed.

Lemma flatten_app f1 f2 : flatten (f1 ++ f2) = flatten f1 ++ flatten f2.
Proof. unfold flatten. by rewrite nodes_app, map_app. Qed.

Lemma flatten_singleton e :
  flatten [e] = set_children e [] :: flatten (children e).
Proof. rewrite flatten_cons, flatten_nil. by rewrite app_nil_r. Qed.

Lemma flatten_cons_app e forest :
  flatten (e :: forest) = flatten [e] ++ flatten forest.
Proof. by rewrite flatten_cons, flatten_singleton. Qed.

Lemma flatten_set_children e ch :
  flatten [set_children e ch] = set_children e [] :: flatten ch.
Proof. by rewrite flatten_singleton. Qed.

(** ** [nestNonSection] keeps the elements and their order *)

Lemma nestNonSection_loop_flatten rec struct : 
  Forall (λ e, flatten [rec e] = flatten [e]) struct →
  ∀ elements currentSection,
    (currentSection = None ∨ currentSection = Some (pred (length elements)) ∧ elements ≠ []) →
    flatten (nestNonSection_loop rec struct elements currentSection)
    = flatten elements ++ flatten struct.
Proof.
  induction 1 as [|element rest Hrec _ IH]; intros elements cur Hcur; simpl.
  { by rewrite flatten_nil, app_nil_r. }
  rewrite (flatten_cons_app element), <- Hrec.
  destruct (isSection element).
  - rewrite IH.
    + by rewrite flatten_app, <- !app_assoc.
    + right. rewrite length_app. simpl. split; [f_equal; lia|]. by destruct elements.
  - destruct Hcur as [->|[-> Hne]].
    + rewrite IH by (by left). by rewrite flatten_app, <- !app_assoc.
    + destruct (exists_last Hne) as (init & s & ->).
      rewrite length_app. simpl. replace (pred (length init + 1)) with (length init + 0) by lia.
      rewrite alter_app_r. simpl. rewrite IH.
      * rewrite !flatten_app, flatten_set_children, flatten_app, (flatten_singleton s).
        by repeat (rewrite <- app_assoc; simpl).
      * right. rewrite !length_app. simpl. split; [f_equal; lia|]. by destruct init.
Qed.

Lemma nestNonSection_elem_flatten e : flatten [nestNonSection_elem e] = flatten [e].
Proof.
  induction e as [e IH] using TeXElement_forest_ind.
  destruct e as [t n l i lf lt fp ch]. simpl in *.
  rewrite !flatten_singleton. simpl. f_equal.
  case_bool_decide; [|done].
  rewrite nestNonSection_loop_flatten; [done|exact IH|by left].
Qed.

Lemma nestNonSection_flatten struct : flatten (nestNonSection struct) = flatten struct.
Proof.
  unfold nestNonSection. rewrite nestNonSection_loop_flatten; [done| |by left].
  apply Forall_forall. intros e _. apply nestNonSection_elem_flatten.
Qed.


(** ** Paths into a forest *)

Lemma elemAt_cons_inv i path forest x :
  elemAt (i :: path) forest = Some x →
  ∃ y, forest !! i = Some y ∧
       (path = [] ∧ x = y ∨ path ≠ [] ∧ elemAt path (children y) = Some x).
Proof.
  simpl. destruct (forest !! i) as [y|]; [|done]. intros H. exists y. split; [done|].
  destruct path; [left; by simplify_eq | right; done].
Qed.

Lemma elemAt_cons i path forest y :
  forest !! i = Some y →
  elemAt (i :: path) forest = match path with [] => Some y | _ => elemAt path (children y) end.
Proof. simpl. by intros ->. Qed.

Lemma alter_split {A} (f : A → A) i (l : list A) x :
  l !! i = Some x →
  ∃ l1 l2, l = l1 ++ x :: l2 ∧ length l1 = i ∧ alter f i l = l1 ++ f x :: l2.
Proof.
  intros H. destruct (list_elem_of_split_length _ _ _ H) as (l1 & l2 & -> & ->).
  exists l1, l2. split_and!; [done..|].
  replace (length l1) with (length l1 + 0) by lia. by rewrite alter_app_r.
Qed.

Lemma childrenAt_elemAt path forest x :
  elemAt path forest = Some x → childrenAt path forest = children x.
Proof.
  revert forest. induction path as [|i path IH]; intros forest H; [done|].
  destruct (elemAt_cons_inv _ _ _ _ H) as (y & Hy & [[-> ->]|[Hne Hx]]); simpl; rewrite Hy.
  - done.
  - by apply IH.
Qed.

Lemma validPath_cons_inv i path forest :
  validPath (i :: path) forest →
  ∃ y, forest !! i = Some y ∧ validPath path (children y).
Proof.
  intros [?|[x H]]; [done|].
  destruct (elemAt_cons_inv _ _ _ _ H) as (y & Hy & [[-> ->]|[Hne Hx]]);
    exists y; (split; [done|]); [by left | right; eauto].
Qed.

Lemma flatten_pushAt_perm path e forest :
  validPath path forest →
  flatten (pushAt path e forest) ≡ₚ flatten forest ++ flatten [e].
Proof.
  revert forest. induction path as [|i path IH]; intros forest Hv; simpl.
  { by rewrite flatten_app. }
  destruct (validPath_cons_inv _ _ _ Hv) as (y & Hy & Hv').
  destruct (alter_split (λ e0, set_children e0 (pushAt path e (children e0))) _ _ _ Hy)
    as (l1 & l2 & -> & _ & ->).
  rewrite !flatten_app, (flatten_cons_app y), (flatten_cons_app (set_children _ _)).
  rewrite flatten_set_children, flatten_singleton, (IH _ Hv').
  rewrite <- !app_assoc. simpl. f_equiv. f_equiv.
  rewrite <- !app_assoc. f_equiv. apply Permutation_app_comm.
Qed.

Lemma rightmost_validPath path forest : rightmost path forest → validPath path forest.
Proof.
  revert forest. induction path as [|i path IH]; intros forest; [by left|].
  simpl. intros [_ H]. destruct (forest !! i) as [y|] eqn:Hy; [|done].
  right. rewrite (elemAt_cons _ _ _ _ Hy). destruct path; [eauto|].
  destruct (IH _ H) as [?|?]; done.
Qed.

Lemma flatten_pushAt_rightmost path e forest :
  rightmost path forest →
  flatten (pushAt path e forest) = flatten forest ++ flatten [e].
Proof.
  revert forest. induction path as [|i path IH]; intros forest Hr; simpl.
  { by rewrite flatten_app. }
  destruct Hr as [Hlen Hr]. destruct (forest !! i) as [y|] eqn:Hy; [|done].
  destruct (alter_split (λ e0, set_children e0 (pushAt path e (children e0))) _ _ _ Hy)
    as (l1 & l2 & -> & Hl1 & ->).
  assert (l2 = []) as ->.
  { rewrite length_app in Hlen. simpl in Hlen. destruct l2; [done|simpl in Hlen; lia]. }
  rewrite !flatten_app, flatten_set_children, flatten_singleton, (IH _ Hr).
  by repeat (rewrite <- app_assoc; simpl).
Qed.


(** ** One iteration of [nestSection] *)

Lemma js_gt_le a b : js_gt a b = true → js_le a b = false.
Proof.
  destruct a, b; simpl; try done. intros H%bool_decide_eq_true.
  apply bool_decide_eq_false. lia.
Qed.

Lemma popStack_spec config element stack bottom :
  last stack = Some bottom →
  js_le (rank config (name element)) (rank config (ref_name bottom)) = false →
  ∃ top below,
    popStack config element stack = Ok (top :: below) ∧
    (top :: below) `suffix_of` stack ∧
    js_le (rank config (name element)) (rank config (ref_name top)) = false.
Proof.
  intros Hlast Hb. induction stack as [|top below IH]; [done|]. simpl.
  destruct (js_le _ (rank config (ref_name top))) eqn:Hle.
  - destruct below as [|top' below'].
    + simpl in Hlast. simplify_eq. congruence.
    + destruct IH as (t & b & -> & Hs & Ht); [done|].
      exists t, b. split_and!; [done| |done]. by apply suffix_cons_r.
  - exists top, below. done.
Qed.

Lemma nestSection_step_cases config elements stack element :
  ∃ elements' stack',
    nestSection_step config (elements, stack) element = Ok (elements', stack') ∧
    stepCase config elements stack element elements' stack'.
Proof.
  unfold nestSection_step.
  destruct (isStackKind element) eqn:Hk; simpl.
  2:{ eexists _, _. split; [done|]. by constructor. }
  destruct stack as [|top below].
  { simpl. eexists _, _. split; [done|]. constructor; auto. }
  destruct (last (top :: below)) as [bottom|] eqn:Hlast.
  2:{ by apply last_None in Hlast. }
  change (head (top :: below)) with (Some top). cbv beta iota.
  destruct (js_le _ (rank config (ref_name bottom))) eqn:Hb.
  { eexists _, _. split; [done|]. constructor; eauto. }
  destruct (js_gt (rank config (name element)) (rank config (ref_name top))) eqn:Hgt.
  { eexists _, _. split; [reflexivity|]. apply step_child; [done..|]. by apply js_gt_le. }
  destruct (popStack_spec _ _ _ _ Hlast Hb) as (t & b & -> & Hs & Ht).
  eexists _, _. split; [reflexivity|]. by apply step_child.
Qed.

Lemma nestSection_loop_app config pre post st :
  nestSection_loop config (pre ++ post) st
  = st' ← nestSection_loop config pre st; nestSection_loop config post st'.
Proof.
  revert st. induction pre as [|e pre IH]; intros st; simpl; [done|].
  destruct (nestSection_step config st e); simpl; [apply IH|done].
Qed.

Lemma nestSection_loop_cons config element rest st :
  nestSection_loop config (element :: rest) st
  = st' ← nestSection_step config st element; nestSection_loop config rest st'.
Proof. done. Qed.


(** ** The stack of [nestSection] points into the forest *)

Lemma elemAt_pushAt_other p e q forest x :
  elemAt q forest = Some x →
  ∃ x', elemAt q (pushAt p e forest) = Some x' ∧ name x' = name x ∧ type x' = type x.
Proof.
  revert q forest x. induction p as [|j p IH]; intros q forest x Hq.
  - destruct q as [|i q]; [done|].
    destruct (elemAt_cons_inv _ _ _ _ Hq) as (y & Hy & Hcase).
    exists x. split; [|done]. simpl pushAt.
    rewrite (elemAt_cons _ _ _ y) by (by apply lookup_app_l_Some).
    destruct Hcase as [[-> ->]|[Hne Hx]]; [done|]. by destruct q.
  - destruct q as [|i q]; [done|].
    destruct (elemAt_cons_inv _ _ _ _ Hq) as (y & Hy & Hcase). simpl pushAt.
    destruct (decide (j = i)) as [->|Hji].
    + set (g := λ e0, set_children e0 (pushAt p e (children e0))).
      rewrite (elemAt_cons _ _ _ (g y)) by (by rewrite list_lookup_alter_eq, Hy).
      destruct Hcase as [[-> ->]|[Hne Hx]]; [by exists (g y)|].
      destruct (IH _ _ _ Hx) as (x' & Hx' & Hn). exists x'. split; [|done].
      by destruct q.
    + exists x. split; [|done].
      rewrite (elemAt_cons _ _ _ y) by (by rewrite list_lookup_alter_ne).
      destruct Hcase as [[-> ->]|[Hne Hx]]; [done|]. by destruct q.
Qed.

Lemma elemAt_pushAt_new p e forest :
  validPath p forest →
  elemAt (p ++ [length (childrenAt p forest)]) (pushAt p e forest) = Some e.
Proof.
  revert forest. induction p as [|i p IH]; intros forest Hv.
  - simpl. by rewrite lookup_app_r, Nat.sub_diag.
  - destruct (validPath_cons_inv _ _ _ Hv) as (y & Hy & Hv').
    simpl pushAt. simpl childrenAt. rewrite Hy.
    set (g := λ e0, set_children e0 (pushAt p e (children e0))).
    change ((i :: p) ++ [length (childrenAt p (children y))])
      with (i :: (p ++ [length (childrenAt p (children y))])).
    rewrite (elemAt_cons _ _ _ (g y)) by (by rewrite list_lookup_alter_eq, Hy).
    specialize (IH _ Hv'). simpl. by destruct (p ++ _) eqn:E; [destruct p|].
Qed.

Lemma RefValid_validPath elements r : RefValid elements r → validPath (ref_path r) elements.
Proof. intros (x & Hx & _). right. eauto. Qed.

Lemma RefValid_pushAt p e elements r :
  RefValid elements r → RefValid (pushAt p e elements) r.
Proof.
  intros (x & Hx & Hn). destruct (elemAt_pushAt_other p e _ _ _ Hx) as (x' & Hx' & Hn' & _).
  exists x'. split; [done|congruence].
Qed.

Lemma stepCase_valid config elements stack element elements' stack' :
  stepCase config elements stack element elements' stack' →
  Forall (RefValid elements) stack →
  Forall (RefValid elements') stack'.
Proof.
  intros Hstep Hvalid. destruct Hstep as [Hk|Hk _|top below Hk Hsuf Hle].
  - eapply Forall_impl; [done|]. intros r. apply (RefValid_pushAt [] element).
  - constructor; [|done]. exists element. split; [|done]. simpl.
    by rewrite lookup_app_r, Nat.sub_diag.
  - assert (Forall (RefValid elements) (top :: below)) as Hv'.
    { destruct Hsuf as [k ->]. by apply Forall_app in Hvalid as [_ ?]. }
    constructor.
    + exists element. split; [|done]. simpl. apply elemAt_pushAt_new.
      apply RefValid_validPath. by inversion Hv'.
    + eapply Forall_impl; [done|]. intros r. apply RefValid_pushAt.
Qed.

(** ** [nestSection] never throws and keeps every element *)

Lemma stepCase_perm config elements stack element elements' stack' :
  stepCase config elements stack element elements' stack' →
  Forall (RefValid elements) stack →
  flatten elements' ≡ₚ flatten elements ++ flatten [element].
Proof.
  intros Hstep Hvalid. destruct Hstep as [Hk|Hk _|top below Hk Hsuf Hle].
  - by rewrite flatten_app.
  - by rewrite flatten_app.
  - apply flatten_pushAt_perm, RefValid_validPath.
    destruct Hsuf as [k ->]. apply Forall_app in Hvalid as [_ Hv]. by inversion Hv.
Qed.

Lemma nestSection_loop_perm config struct :
  ∀ elements stack,
    Forall (RefValid elements) stack →
    ∃ elements' stack',
      nestSection_loop config struct (elements, stack) = Ok (elements', stack') ∧
      Forall (RefValid elements') stack' ∧
      flatten elements' ≡ₚ flatten elements ++ flatten struct.
Proof.
  induction struct as [|element rest IH]; intros elements stack Hvalid.
  { exists elements, stack. by rewrite flatten_nil, app_nil_r. }
  rewrite nestSection_loop_cons.
  destruct (nestSection_step_cases config elements stack element)
    as (elements1 & stack1 & -> & Hstep). simpl.
  destruct (IH elements1 stack1) as (elements' & stack' & -> & Hv' & Hperm).
  { by eapply stepCase_valid. }
  exists elements', stack'. split_and!; [done..|].
  rewrite Hperm, (stepCase_perm _ _ _ _ _ _ Hstep Hvalid), (flatten_cons_app element rest).
  by rewrite (assoc_L (++)).
Qed.


(** ** [nestSection] keeps the order when the stack is the right spine *)

Lemma rightmost_pushAt_new p e forest :
  rightmost p forest →
  rightmost (p ++ [length (childrenAt p forest)]) (pushAt p e forest).
Proof.
  revert forest. induction p as [|i p IH]; intros forest Hr.
  - simpl. rewrite length_app, lookup_app_r, Nat.sub_diag by done. simpl.
    split; [lia|done].
  - destruct Hr as [Hlen Hr]. destruct (forest !! i) as [y|] eqn:Hy; [|done].
    simpl. rewrite Hy, length_alter, list_lookup_alter_eq, Hy. simpl.
    split; [done|]. by apply IH.
Qed.

Lemma rightmost_pushAt_prefix q p e forest :
  rightmost p forest → q `prefix_of` p → rightmost q (pushAt p e forest).
Proof.
  revert p forest. induction q as [|i q IH]; intros p forest Hr Hpre; [done|].
  destruct Hpre as [k ->]. simpl in *. destruct Hr as [Hlen Hr].
  destruct (forest !! i) as [y|] eqn:Hy; [|done].
  rewrite length_alter, list_lookup_alter_eq, Hy. simpl.
  split; [done|]. apply IH; [done|]. by exists k.
Qed.

Lemma chain_suffix stack1 stack2 : stack1 `suffix_of` stack2 → chain stack2 → chain stack1.
Proof.
  intros [k ->]. induction k as [|r k IH]; [done|]. simpl. intros [_ ?]. auto.
Qed.

Lemma stepCase_spine config elements stack element elements' stack' :
  stepCase config elements stack element elements' stack' →
  spineInv elements stack →
  (stack ≠ [] → isStackKind element = true) →
  spineInv elements' stack' ∧
  flatten elements' = flatten elements ++ flatten [element] ∧
  (isStackKind element = true → stack' ≠ []) ∧
  (stack = [] → isStackKind element = false → stack' = []).
Proof.
  intros Hstep [Hright Hchain] Hkind.
  destruct Hstep as [Hk|Hk _|top below Hk Hsuf Hle].
  - destruct stack as [|r stack]; [|specialize (Hkind ltac:(done)); congruence].
    split_and!; [by split|by rewrite flatten_app|congruence|done].
  - split_and!; [|by rewrite flatten_app|done|congruence].
    split; [|by repeat constructor]. repeat constructor; simpl.
    + rewrite length_app. simpl. lia.
    + by rewrite lookup_app_r, Nat.sub_diag.
  - assert (Forall (λ r, rightmost (ref_path r) elements) (top :: below)) as Hr'.
    { destruct Hsuf as [k ->]. by apply Forall_app in Hright as [_ ?]. }
    pose proof (chain_suffix _ _ Hsuf Hchain) as [Hpre Hchain'].
    inversion Hr' as [|? ? Htop Hbelow]; subst.
    split_and!; [|by apply flatten_pushAt_rightmost|done|congruence].
    split.
    + constructor; [by apply rightmost_pushAt_new|]. constructor.
      * apply rightmost_pushAt_prefix; [done|reflexivity].
      * apply Forall_forall. intros r Hr. apply rightmost_pushAt_prefix; [done|].
        by eapply Forall_forall in Hpre.
    + simpl. split_and!; [|done..]. constructor; [by apply prefix_app_r|].
      eapply Forall_impl; [exact Hpre|]. intros r ?. by apply prefix_app_r.
Qed.

Lemma nestSection_loop_order config struct :
  ∀ elements stack,
    spineInv elements stack → restOk stack struct →
    ∃ elements' stack',
      nestSection_loop config struct (elements, stack) = Ok (elements', stack') ∧
      flatten elements' = flatten elements ++ flatten struct.
Proof.
  induction struct as [|element rest IH]; intros elements stack Hinv Hrest.
  { exists elements, stack. by rewrite flatten_nil, app_nil_r. }
  rewrite nestSection_loop_cons.
  destruct (nestSection_step_cases config elements stack element)
    as (elements1 & stack1 & -> & Hstep). simpl.
  destruct (stepCase_spine _ _ _ _ _ _ Hstep Hinv) as (Hinv1 & Hflat & Hne & Hnil).
  { intros Hs. destruct stack; [done|]. simpl in Hrest. by apply andb_true_iff in Hrest as [? _]. }
  destruct (IH elements1 stack1 Hinv1) as (elements' & stack' & -> & Hflat').
  { destruct (isStackKind element) eqn:Hk.
    - specialize (Hne eq_refl). destruct stack1; [done|]. simpl.
      destruct stack; simpl in Hrest; [by rewrite Hk in Hrest|].
      rewrite Hk in Hrest. by apply andb_true_iff in Hrest as [_ ?].
    - destruct stack; simpl in Hrest; [|by rewrite Hk in Hrest].
      rewrite Hk in Hrest. by rewrite Hnil. }
  exists elements', stack'. split; [done|].
  rewrite Hflat', Hflat, (flatten_cons_app element rest). by rewrite <- app_assoc.
Qed.


(** ** [nestSection] orders the ranks of parents and children *)

Lemma forallb_Forall {A} (f : A → bool) l :
  forallb f l = true ↔ Forall (λ x, f x = true) l.
Proof.
  induction l as [|x l IH]; simpl; [by split|].
  rewrite andb_true_iff, IH, Forall_cons. done.
Qed.

Lemma pairOk_ext config p p' c c' :
  kindName p = kindName p' → kindName c = kindName c' →
  pairOk config p c = pairOk config p' c'.
Proof.
  unfold kindName, pairOk, isSection. intros [= -> ->] [= -> ->]. done.
Qed.

Lemma forallb_pairOk_ext config p p' l l' :
  kindName p = kindName p' → kindName <$> l = kindName <$> l' →
  forallb (pairOk config p) l = forallb (pairOk config p') l'.
Proof.
  intros Hp. revert l'. induction l as [|c l IH]; intros [|c' l'] Hl; try done.
  rewrite !fmap_cons in Hl. injection Hl as Ht Hn Hl. simpl.
  f_equal; [apply pairOk_ext; [done|unfold kindName; congruence]|by apply IH].
Qed.

Lemma rankOrdered_elem_unfold config e :
  rankOrdered_elem config e
  = forallb (pairOk config e) (children e) && rankOrdered config (children e).
Proof. by destruct e. Qed.

Lemma rankOrdered_app config f1 f2 :
  rankOrdered config (f1 ++ f2) = rankOrdered config f1 && rankOrdered config f2.
Proof. unfold rankOrdered. apply forallb_app. Qed.

Lemma rankOrdered_cons config e forest :
  rankOrdered config (e :: forest)
  = rankOrdered_elem config e && rankOrdered config forest.
Proof. done. Qed.

Lemma kindName_pushAt p e forest :
  p ≠ [] → kindName <$> pushAt p e forest = kindName <$> forest.
Proof.
  destruct p as [|i p]; [done|]. intros _. simpl.
  apply list_eq. intros j. rewrite !list_lookup_fmap.
  destruct (decide (i = j)) as [->|Hne].
  - rewrite list_lookup_alter_eq. by destruct (forest !! j).
  - by rewrite list_lookup_alter_ne.
Qed.

Lemma rankOrdered_pushAt config p e forest :
  validPath p forest →
  (∀ x, elemAt p forest = Some x → pairOk config x e = true) →
  rankOrdered config forest = true →
  rankOrdered_elem config e = true →
  rankOrdered config (pushAt p e forest) = true.
Proof.
  revert forest. induction p as [|i p IH]; intros forest Hv Hpar Hf He.
  { simpl. by rewrite rankOrdered_app, rankOrdered_cons, Hf, He. }
  destruct (validPath_cons_inv _ _ _ Hv) as (y & Hy & Hv').
  simpl pushAt.
  destruct (alter_split (λ e0, set_children e0 (pushAt p e (children e0))) _ _ _ Hy)
    as (l1 & l2 & -> & _ & ->).
  rewrite rankOrdered_app, rankOrdered_cons in Hf |- *.
  apply andb_true_iff in Hf as [Hl1 Hyl2]. apply andb_true_iff in Hyl2 as [Hyo Hl2].
  rewrite Hl1, Hl2, andb_true_r, andb_true_l.
  rewrite rankOrdered_elem_unfold in Hyo |- *. apply andb_true_iff in Hyo as [Hpairs Hch].
  simpl children. apply andb_true_iff. split.
  - destruct p as [|j p].
    + simpl. rewrite forallb_app. simpl. rewrite andb_true_r. apply andb_true_iff. split.
      * by rewrite <- Hpairs.
      * rewrite <- (Hpar y); [by apply pairOk_ext|]. by rewrite (elemAt_cons _ _ _ y).
    + rewrite <- Hpairs. apply forallb_pairOk_ext; [done|]. by apply kindName_pushAt.
  - apply IH; [done| |done..]. intros x Hx. apply Hpar.
    rewrite (elemAt_cons _ _ _ y) by done. destruct p; [done|exact Hx].
Qed.

Lemma stepCase_rankOrdered config elements stack element elements' stack' :
  stepCase config elements stack element elements' stack' →
  Forall (RefValid elements) stack →
  rankOrdered config elements = true →
  rankOrdered_elem config element = true →
  rankOrdered config elements' = true.
Proof.
  intros Hstep Hvalid Hf He. destruct Hstep as [Hk|Hk _|top below Hk Hsuf Hle].
  - by rewrite rankOrdered_app, rankOrdered_cons, Hf, He.
  - by rewrite rankOrdered_app, rankOrdered_cons, Hf, He.
  - assert (RefValid elements top) as (x & Hx & Hn).
    { destruct Hsuf as [k ->]. apply Forall_app in Hvalid as [_ Hv]. by inversion Hv. }
    apply rankOrdered_pushAt; [right; eauto| |done..].
    intros x' Hx'. rewrite Hx in Hx'. simplify_eq. unfold pairOk.
    destruct (isSection x' && isSection element); [|done].
    rewrite Hn. unfold js_le in Hle.
    destruct (rank config (ref_name top)), (rank config (name element)); try done.
    apply bool_decide_eq_false in Hle. apply bool_decide_eq_true. lia.
Qed.

Lemma nestSection_loop_rankOrdered config struct :
  ∀ elements stack,
    Forall (RefValid elements) stack →
    rankOrdered config elements = true →
    rankOrdered config struct = true →
    ∃ elements' stack',
      nestSection_loop config struct (elements, stack) = Ok (elements', stack') ∧
      rankOrdered config elements' = true.
Proof.
  induction struct as [|element rest IH]; intros elements stack Hvalid Hf Hs.
  { by exists elements, stack. }
  rewrite nestSection_loop_cons.
  destruct (nestSection_step_cases config elements stack element)
    as (elements1 & stack1 & -> & Hstep). simpl.
  rewrite rankOrdered_cons in Hs. apply andb_true_iff in Hs as [He Hrest].
  apply IH; [by eapply stepCase_valid|by eapply stepCase_rankOrdered|done].
Qed.

(** The decidable form of the invariant is the stated one. *)
Lemma pairOk_spec config parent child :
  pairOk config parent child = true ↔
  (isSection parent = true → isSection child = true →
   ∀ rp rc, rank config (name parent) = Some rp →
            rank config (name child) = Some rc → rp < rc).
Proof.
  unfold pairOk. destruct (isSection parent), (isSection child); simpl; try (split; done).
  destruct (rank config (name parent)) as [rp|], (rank config (name child)) as [rc|];
    try (split; done).
  rewrite bool_decide_eq_true. split; [intros ? _ _ ? ? [= <-] [= <-]; done|].
  intros H. by apply H.
Qed.

Lemma rankOrdered_elem_nodes config e :
  rankOrdered_elem config e = true ↔
  ∀ parent, parent ∈ nodes_elem e →
    Forall (λ child, pairOk config parent child = true) (children parent).
Proof.
  induction e as [e IH] using TeXElement_forest_ind.
  rewrite rankOrdered_elem_unfold, andb_true_iff, forallb_Forall, nodes_elem_unfold.
  unfold rankOrdered. rewrite forallb_Forall.
  split.
  - intros [Hpairs Hch] parent [->|Hin]%elem_of_cons; [done|].
    apply elem_of_nodes in Hin as (c & Hc & Hin).
    rewrite Forall_forall in IH, Hch. by apply (proj1 (IH c Hc) (Hch c Hc)).
  - intros H. split; [apply H; left|].
    rewrite Forall_forall in IH |- *. intros c Hc. apply (IH c Hc).
    intros parent Hp. apply H. right. apply elem_of_nodes. eauto.
Qed.

Lemma rankOrdered_spec config forest :
  rankOrdered config forest = true ↔ RankOrdered config forest.
Proof.
  unfold rankOrdered, RankOrdered. rewrite forallb_Forall, Forall_forall. split.
  - intros H parent child rp rc Hp Hc.
    apply elem_of_nodes in Hp as (e & He & Hp).
    pose proof (proj1 (rankOrdered_elem_nodes config e) (H e He) parent Hp) as Hall.
    rewrite Forall_forall in Hall. intros ? ?.
    by apply (proj1 (pairOk_spec config parent child) (Hall child Hc)).
  - intros H e He. apply rankOrdered_elem_nodes. intros parent Hp.
    apply Forall_forall. intros child Hc. apply pairOk_spec. intros ? ? rp rc ? ?.
    apply (H parent child rp rc); try done. apply elem_of_nodes. eauto.
Qed.


(** ** The ranks on the stack of [nestSection] *)

Lemma stackRanks_cons config r below :
  stackRanks config (r :: below)
  = match rank config (ref_name r) with
    | Some x => x :: stackRanks config below
    | None => stackRanks config below
    end.
Proof. done. Qed.

Lemma stackRanks_suffix_nil config stack1 stack2 :
  stack1 `suffix_of` stack2 → stackRanks config stack2 = [] →
  stackRanks config stack1 = [].
Proof.
  intros [k ->]. unfold stackRanks. rewrite omap_app.
  by intros [_ ?]%app_eq_nil.
Qed.

Lemma stackForm_suffix config stack1 stack2 :
  stack1 `suffix_of` stack2 → stackForm config stack2 → stackForm config stack1.
Proof.
  intros [k ->]. induction k as [|r k IH]; [done|]. simpl. intros [_ ?]. auto.
Qed.

Lemma stackForm_sorted config stack :
  stackForm config stack →
  StronglySorted lt (reverse (stackRanks config stack)).
Proof.
  induction stack as [|r below IH]; [constructor|].
  intros [Hr Hbelow]. rewrite stackRanks_cons.
  destruct (rank config (ref_name r)) as [x|]; [|by apply IH].
  rewrite reverse_cons. apply StronglySorted_app_2; [|by apply IH|repeat constructor].
  intros x1 x2 Hx1 ->%list_elem_of_singleton. rewrite elem_of_reverse in Hx1.
  by eapply Forall_forall in Hr.
Qed.

Lemma hasRank_true config e :
  hasRank config e = true ↔ is_Some (rank config (name e)).
Proof. apply bool_decide_eq_true. Qed.

Lemma stackForm_intro config r below :
  (∀ x, rank config (ref_name r) = Some x →
        Forall (λ y, y < x) (stackRanks config below)) →
  (rank config (ref_name r) = None → stackRanks config below = []) →
  stackForm config below →
  stackForm config (r :: below).
Proof.
  intros Hsome Hnone Hbelow. split; [|done].
  destruct (rank config (ref_name r)); [by apply Hsome|by apply Hnone].
Qed.

Lemma restRanked_push config path element below rest :
  (∀ x, rank config (name element) = Some x →
        forallb (λ x, implb (isStackKind x) (hasRank config x)) rest = true) →
  (rank config (name element) = None →
   stackRanks config below = [] ∧ unrankedLead config rest = true) →
  restRanked config (mkRef path (name element) :: below) rest.
Proof.
  intros Hsome Hnone. destruct (rank config (name element)) as [x|] eqn:Hr.
  - right. by eapply Hsome.
  - left. destruct Hnone as [Hs Hl]; [done|]. split; [|done].
    rewrite stackRanks_cons. simpl. by rewrite Hr.
Qed.

Lemma stepCase_stackForm config elements stack element rest elements' stack' :
  stepCase config elements stack element elements' stack' →
  stackForm config stack →
  restRanked config stack (element :: rest) →
  stackForm config stack' ∧ restRanked config stack' rest.
Proof.
  intros Hstep Hform Hrest.
  assert (isStackKind element = true → rank config (name element) = None →
          stackRanks config stack = [] ∧ unrankedLead config rest = true) as Hunranked.
  { intros Hk Hr. destruct Hrest as [[Hs Hl]|Hall].
    - split; [done|]. simpl in Hl. rewrite Hk in Hl. unfold hasRank in Hl.
      rewrite Hr in Hl. rewrite bool_decide_eq_false_2 in Hl by (by intros [? ?]). done.
    - simpl in Hall. rewrite Hk in Hall. apply andb_true_iff in Hall as [He _].
      apply hasRank_true in He as [? ?]. congruence. }
  assert (isStackKind element = true → ∀ x, rank config (name element) = Some x →
          forallb (λ x, implb (isStackKind x) (hasRank config x)) rest = true) as Hranked.
  { intros Hk x Hr. destruct Hrest as [[Hs Hl]|Hall].
    - simpl in Hl. rewrite Hk in Hl. unfold hasRank in Hl at 1.
      rewrite Hr in Hl. rewrite bool_decide_eq_true_2 in Hl by eauto. done.
    - simpl in Hall. by apply andb_true_iff in Hall as [_ ?]. }
  destruct Hstep as [Hk|Hk _|top below Hk Hsuf Hle].
  - split; [done|]. destruct Hrest as [[Hs Hl]|Hall].
    + left. split; [done|]. simpl in Hl. by rewrite Hk in Hl.
    + right. simpl in Hall. by apply andb_true_iff in Hall as [_ ?].
  - split.
    + apply stackForm_intro; [by constructor|done|done].
    + apply restRanked_push; [eauto|]. intros Hr. by destruct (Hunranked Hk Hr).
  - pose proof (stackForm_suffix _ _ _ Hsuf Hform) as Hform'.
    assert (rank config (name element) = None → stackRanks config (top :: below) = [])
      as Hnone.
    { intros Hr. destruct (Hunranked Hk Hr) as [Hs _].
      by apply (stackRanks_suffix_nil _ _ _ Hsuf Hs). }
    split.
    + apply stackForm_intro; [|done..]. intros x Hx. simpl in Hx.
      rewrite stackRanks_cons. destruct Hform' as [Htop _].
      rewrite Hx in Hle. unfold js_le in Hle.
      destruct (rank config (ref_name top)) as [t|].
      * apply bool_decide_eq_false in Hle. constructor; [lia|].
        eapply Forall_impl; [exact Htop|]. intros y ?. simpl in *. lia.
      * rewrite Htop. constructor.
    + apply restRanked_push; [eauto|]. intros Hr. split; [by apply Hnone|].
      by destruct (Hunranked Hk Hr).
Qed.

Lemma nestSection_loop_stackForm config struct :
  ∀ elements stack,
    stackForm config stack → restRanked config stack struct →
    ∃ elements' stack',
      nestSection_loop config struct (elements, stack) = Ok (elements', stack') ∧
      stackForm config stack'.
Proof.
  induction struct as [|element rest IH]; intros elements stack Hform Hrest.
  { by exists elements, stack. }
  rewrite nestSection_loop_cons.
  destruct (nestSection_step_cases config elements stack element)
    as (elements1 & stack1 & -> & Hstep). simpl.
  destruct (stepCase_stackForm _ _ _ _ _ _ _ Hstep Hform Hrest) as [Hform1 Hrest1].
  by apply IH.
Qed.

Lemma unrankedLead_app_l config pre post :
  unrankedLead config (pre ++ post) = true → unrankedLead config pre = true.
Proof.
  induction pre as [|e pre IH]; [done|]. simpl.
  destruct (isStackKind e && hasRank config e); [|done].
  rewrite forallb_app. by intros [? _]%andb_true_iff.
Qed.


(** C4. After [nestSection], a section that is the direct child of a
    section has the strictly greater rank, whenever both ranks are
    configured; the pass never throws.  While it runs, the ranks of the
    stack entries increase strictly from the outermost entry to the
    innermost one, as long as no stack element without a rank (an
    unresolved [SubFile]) follows one with a rank in the input. *)
Theorem nestSection_rank_order config struct :
  RankOrdered config struct →
  ∃ out,
    nestSection struct config = Ok out ∧
    RankOrdered config out ∧
    (unrankedLead config struct = true →
     ∀ pre post, struct = pre ++ post →
       ∃ elements stack,
         nestSection_loop config pre ([], []) = Ok (elements, stack) ∧
         StronglySorted lt (reverse (stackRanks config stack))).
Proof.
  intros Hin%rankOrdered_spec.
  destruct (nestSection_loop_rankOrdered config struct [] [])
    as (out & stack & Hrun & Hout); [constructor|done|done|].
  exists out. unfold nestSection. rewrite Hrun. split_and!; [done|by apply rankOrdered_spec|].
  intros Hlead pre post ->.
  destruct (nestSection_loop_stackForm config pre [] [])
    as (elements & stack' & Hpre & Hform); [done| |].
  { left. split; [done|]. by eapply unrankedLead_app_l. }
  exists elements, stack'. split; [done|]. by apply stackForm_sorted.
Qed.

Lemma nestSection_rank_order_witness :
  let struct :=
    [exampleElement TeXElementType.Section "section" "A" [];
     exampleElement TeXElementType.Section "subsection" "B" [];
     exampleElement TeXElementType.Section "subsection" "C" [];
     exampleElement TeXElementType.Section "chapter" "D" []] in
  RankOrdered exampleConfig struct ∧
  unrankedLead exampleConfig struct = true ∧
  ∃ out,
    nestSection struct exampleConfig = Ok out ∧
    RankOrdered exampleConfig out ∧
    ∃ elements stack,
      nestSection_loop exampleConfig (take 3 struct) ([], []) = Ok (elements, stack) ∧
      StronglySorted lt (reverse (stackRanks exampleConfig stack)).
Proof.
  intros struct.
  assert (RankOrdered exampleConfig struct) as Hin.
  { apply rankOrdered_spec. vm_compute. reflexivity. }
  assert (unrankedLead exampleConfig struct = true) as Hlead.
  { vm_compute. reflexivity. }
  split; [exact Hin|]. split; [exact Hlead|].
  destruct (nestSection_rank_order exampleConfig struct Hin) as (out & Hrun & Hout & Hstack).
  exists out. split; [exact Hrun|]. split; [exact Hout|].
  exact (Hstack Hlead (take 3 struct) (drop 3 struct) eq_refl).
Defined.

(** On a forest, [nestNonSection] keeps the depth-first sequence of the
    elements.  [nestSection] never throws and keeps every element exactly
    once; it keeps their depth-first order when no element of another kind
    follows a [Section], [SectionAst] or [SubFile] element at the top level
    of its input. *)
Lemma nesting_passes_flatten config struct :
  flatten (nestNonSection struct) = flatten struct ∧
  ∃ out,
    nestSection struct config = Ok out ∧
    flatten out ≡ₚ flatten struct ∧
    (stackElementsLast struct = true → flatten out = flatten struct).
Proof.
  split; [apply nestNonSection_flatten|].
  destruct (nestSection_loop_perm config struct [] [])
    as (out & stack & Hrun & _ & Hperm); [constructor|].
  exists out. unfold nestSection. rewrite Hrun. split_and!; [done..|].
  intros Hlast.
  destruct (nestSection_loop_order config struct [] [])
    as (out' & stack' & Hrun' & Hflat); [by split|done|].
  rewrite Hrun in Hrun'. by injection Hrun' as <- <-.
Qed.

(** C10, as stated, fails for [nestSection]: an unresolved [SubFile], a
    figure and a section, in this order, come out of pass 2 unchanged, and
    pass 3 puts the section under the [SubFile] element, before the
    figure. *)
Lemma nestSection_order_counterexample :
  let struct :=
    [exampleElement TeXElementType.SubFile "input" "x.tex" [];
     exampleElement TeXElementType.Environment "figure" "Figure" [];
     exampleElement TeXElementType.Section "section" "A" []] in
  let out :=
    [exampleElement TeXElementType.SubFile "input" "x.tex"
       [exampleElement TeXElementType.Section "section" "A" []];
     exampleElement TeXElementType.Environment "figure" "Figure" []] in
  nestNonSection struct = struct ∧
  nestSection struct exampleConfig = Ok out ∧
  label <$> flatten struct = ["x.tex"; "Figure"; "A"] ∧
  label <$> flatten out = ["x.tex"; "A"; "Figure"] ∧
  flatten out ≠ flatten struct.
Proof.
  intros struct out. split_and!; [reflexivity..|].
  intros H. apply (f_equal (fmap label)) in H. discriminate H.
Qed.


(** ** [addFloatNumber] *)

Lemma numberSequence_app l1 l2 counter :
  numberSequence (l1 ++ l2) counter
  = let '(l1', c1) := numberSequence l1 counter in
    let '(l2', c2) := numberSequence l2 c1 in
    (l1' ++ l2', c2).
Proof.
  revert counter. induction l1 as [|e l1 IH]; intros counter; simpl.
  { by destruct (numberSequence l2 counter). }
  destruct (isNumberedFloat e); rewrite IH;
    repeat match goal with |- context [numberSequence ?l ?c] =>
      destruct (numberSequence l c) end; done.
Qed.

Lemma addFloatNumber_loop_sequence visit struct :
  Forall (λ e, ∀ counter,
            (flatten [(visit e counter).1], (visit e counter).2)
            = numberSequence (flatten [e]) counter) struct →
  ∀ counter,
    (flatten (addFloatNumber_loop visit struct counter).1,
     (addFloatNumber_loop visit struct counter).2)
    = numberSequence (flatten struct) counter.
Proof.
  induction 1 as [|e rest He _ IH]; intros counter; simpl; [done|].
  rewrite (flatten_cons_app e rest), numberSequence_app, <- He.
  destruct (visit e counter) as [e' c1]. simpl. rewrite <- IH.
  destruct (addFloatNumber_loop visit rest c1) as [rest' c2]. simpl.
  by rewrite (flatten_cons_app e' rest').
Qed.

Lemma addFloatNumber_elem_sequence e counter :
  (flatten [(addFloatNumber_elem e counter).1], (addFloatNumber_elem e counter).2)
  = numberSequence (flatten [e]) counter.
Proof.
  revert counter. induction e as [e IH] using TeXElement_forest_ind. intros counter.
  destruct e as [t n l i lf lt fp ch]. simpl in IH.
  rewrite (flatten_singleton (mkTeXElement _ _ _ _ _ _ _ _)).
  cbn [numberSequence children].
  change (isNumberedFloat (set_children (mkTeXElement t n l i lf lt fp ch) []))
    with (isNumberedFloat (mkTeXElement t n l i lf lt fp ch)).
  cbn [addFloatNumber_elem].
  destruct (isNumberedFloat (mkTeXElement t n l i lf lt fp ch)); cbn [name label set_label set_children type index lineFr lineTo filePath];
  ( case_bool_decide as Hlen;
    [ match goal with |- context [addFloatNumber_loop _ ch ?c] =>
        rewrite <- (addFloatNumber_loop_sequence _ ch IH c);
        destruct (addFloatNumber_loop addFloatNumber_elem ch c) as [ch' c2] end;
      simpl; by rewrite flatten_singleton
    | destruct ch; [simpl; by rewrite flatten_singleton|simpl in Hlen; lia] ] ).
Qed.

Lemma addFloatNumber_sequence struct counter :
  (flatten (addFloatNumber struct counter).1, (addFloatNumber struct counter).2)
  = numberSequence (flatten struct) counter.
Proof.
  apply addFloatNumber_loop_sequence, Forall_forall.
  intros e _. apply addFloatNumber_elem_sequence.
Qed.

Lemma countFloats_cons nm e l :
  countFloats nm (e :: l)
  = (if decide (isNumberedFloat e = true ∧ name e = nm) then 1 else 0)
    + countFloats nm l.
Proof.
  unfold countFloats. rewrite filter_cons. by case_decide.
Qed.

Lemma numberSequence_lookup l :
  ∀ counter i e,
    l !! i = Some e →
    (numberSequence l counter).1 !! i
    = Some (if isNumberedFloat e
            then set_label e
                   (numberLabel (label e)
                      (default 0 (counter !! name e)
                       + countFloats (name e) (take i l) + 1))
            else e).
Proof.
  induction l as [|h rest IH]; intros counter i e Hi; [done|].
  cbn [numberSequence].
  destruct i as [|i]; simpl in Hi.
  - simplify_eq. destruct (isNumberedFloat e);
      destruct (numberSequence rest _); simpl; [|done].
    by rewrite Nat.add_0_r.
  - specialize (IH (if isNumberedFloat h
                    then <[name h := default 0 (counter !! name h) + 1]> counter
                    else counter) i e Hi).
    destruct (isNumberedFloat h) eqn:Hh;
      destruct (numberSequence rest _) as [rest' c']; simpl in *; rewrite IH;
      destruct (isNumberedFloat e) eqn:He; try done; do 3 f_equal;
      rewrite countFloats_cons.
    + case_decide as Hd.
      * destruct Hd as [_ ->]. rewrite lookup_insert_eq. simpl. lia.
      * rewrite lookup_insert_ne by (intros ?; apply Hd; done). lia.
    + case_decide as Hd; [destruct Hd; congruence|]. lia.
Qed.

Lemma split_cons_inv sep s :
  ∃ part parts, split sep s = part :: parts.
Proof.
  destruct s as [|c s]; simpl; [eauto|].
  case_decide; [eauto|]. destruct (split sep s); eauto.
Qed.

Lemma string_app_cons c (s1 s2 : string) : String c s1 +:+ s2 = String c (s1 +:+ s2).
Proof. done. Qed.

Lemma string_app_nil_l (s : string) : "" +:+ s = s.
Proof. done. Qed.

Lemma string_app_assoc (s1 s2 s3 : string) : (s1 +:+ s2) +:+ s3 = s1 +:+ s2 +:+ s3.
Proof.
  induction s1 as [|c s1 IH]; [done|]. by rewrite !string_app_cons, IH.
Qed.

Lemma string_app_nil_r (s : string) : s +:+ "" = s.
Proof.
  induction s as [|c s IH]; [done|]. by rewrite string_app_cons, IH.
Qed.

Lemma join_cons_app sep x y parts :
  join sep ((x +:+ y) :: parts) = x +:+ join sep (y :: parts).
Proof.
  unfold join. simpl. destruct parts; [done|]. by rewrite string_app_assoc.
Qed.

Lemma join_split sep s : join (String sep "") (split sep s) = s.
Proof.
  induction s as [|c s IH]; [done|]. simpl. case_decide as Hc.
  - subst c. unfold join in *. simpl.
    destruct (split_cons_inv sep s) as (part & parts & Hs). rewrite Hs in IH |- *.
    by rewrite IH.
  - destruct (split_cons_inv sep s) as (part & parts & Hs). rewrite Hs in IH |- *.
    change (String c part) with (String c "" +:+ part).
    by rewrite join_cons_app, IH.
Qed.

(** [split] cuts at the first separator; [join] puts the rest back. *)
Lemma split_first sep s :
  ∃ prefix suffix parts,
    split sep s = prefix :: parts ∧
    s = prefix +:+ suffix ∧
    (sep ∉ String.list_ascii_of_string prefix) ∧
    (suffix = "" ∨ ∃ s', suffix = String sep s') ∧
    ∀ x, join (String sep "") (x :: parts) = x +:+ suffix.
Proof.
  induction s as [|c s IH].
  { exists "", "", []. simpl. split_and!; [done|done|apply not_elem_of_nil|by left|].
    intros x. unfold join. simpl. by rewrite string_app_nil_r. }
  simpl. case_decide as Hc.
  - subst c. exists "", (String sep s), (split sep s).
    split_and!; [done|done|apply not_elem_of_nil|right; eauto|].
    intros x. pose proof (join_split sep s) as Hjs. unfold join in *. simpl.
    destruct (split_cons_inv sep s) as (part & parts & Hs). rewrite Hs in Hjs |- *.
    by rewrite Hjs.
  - destruct IH as (prefix & suffix & parts & -> & -> & Hnot & Hsuf & Hjoin).
    exists (String c prefix), suffix, parts.
    split_and!; [done|done| |done|].
    + simpl. rewrite not_elem_of_cons. split; [congruence|done].
    + intros x. apply Hjoin.
Qed.

Lemma numberLabel_spec l n :
  ∃ prefix suffix,
    l = prefix +:+ suffix ∧
    (":"%char ∉ String.list_ascii_of_string prefix) ∧
    (suffix = "" ∨ ∃ s', suffix = String ":" s') ∧
    numberLabel l n = prefix +:+ " " +:+ toString n +:+ suffix.
Proof.
  destruct (split_first ":" l) as (prefix & suffix & parts & Hs & -> & Hnot & Hsuf & Hjoin).
  exists prefix, suffix. split_and!; [done..|].
  unfold numberLabel. rewrite Hs, Hjoin. by rewrite !string_app_assoc.
Qed.

(** [addFloatNumber] on a forest, started with an empty counter, leaves
    the depth-first sequence of the elements as it is but for labels: the
    element at position [i] that is an [Environment] other than [macro] and
    [environment] receives the number one more than the count of such
    elements of the same name before it, written, after a space, behind
    the part of the label that precedes the first colon, or at the end if
    there is no colon; every other element keeps its label. *)
Lemma addFloatNumber_numbers_forest struct i e :
  flatten struct !! i = Some e →
  ∃ e',
    flatten (addFloatNumber struct ∅).1 !! i = Some e' ∧
    if isNumberedFloat e then
      ∃ prefix suffix,
        label e = prefix +:+ suffix ∧
        (":"%char ∉ String.list_ascii_of_string prefix) ∧
        (suffix = "" ∨ ∃ s', suffix = String ":" s') ∧
        e' = set_label e
               (prefix +:+ " "
                +:+ toString (S (countFloats (name e) (take i (flatten struct))))
                +:+ suffix)
    else e' = e.
Proof.
  intros Hi.
  pose proof (addFloatNumber_sequence struct ∅) as Hseq.
  apply (f_equal fst) in Hseq. simpl in Hseq. rewrite Hseq.
  rewrite (numberSequence_lookup _ ∅ i e Hi).
  eexists. split; [done|].
  destruct (isNumberedFloat e); [|done].
  destruct (numberLabel_spec (label e)
              (S (countFloats (name e) (take i (flatten struct)))))
    as (prefix & suffix & Hl & Hnot & Hsuf & Hnum).
  exists prefix, suffix. split_and!; [done..|].
  rewrite lookup_empty. simpl. rewrite <- Hnum. do 2 f_equal. lia.
Qed.


(** ** [addSectionNumber] *)

Lemma addSectionNumber_loop_lookup visit struct :
  ∀ tag lowest counter out i element,
    addSectionNumber_loop visit struct tag lowest counter = Ok out →
    struct !! i = Some element →
    ∃ counter_i element' counter',
      visit element tag lowest counter_i = Ok (element', counter') ∧
      out !! i = Some element'.
Proof.
  induction struct as [|e rest IH]; intros tag lowest counter out i element Hrun Hi;
    [done|].
  simpl in Hrun.
  destruct (visit e tag lowest counter) as [[e' c1]|] eqn:He; [|done]. simpl in Hrun.
  destruct (addSectionNumber_loop visit rest tag lowest c1) as [rest'|] eqn:Hrest;
    [|done].
  simpl in Hrun. injection Hrun as <-.
  destruct i as [|i]; simpl in Hi.
  - simplify_eq. eauto.
  - destruct (IH _ _ _ _ _ _ Hrest Hi) as (ci & el' & c' & Hv & Ho). eauto.
Qed.

Lemma addSectionNumber_elem_section config element tag lowest counter r element' counter' :
  type element = TeXElementType.Section →
  rank config (name element) = Some r →
  addSectionNumber_elem config element tag lowest counter = Ok (element', counter') →
  ∃ number,
    label element' = number +:+ " " +:+ label element ∧
    addSectionNumber (children element) config (Some (number +:+ "."))
      (Some (Finite (Z.of_nat r + 1)))
    = Ok (children element').
Proof.
  destruct element as [t n l i lf lt fp ch]. simpl. intros -> Hr. rewrite Hr.
  rewrite bool_decide_eq_true_2 by done.
  destruct (zeroPadding r lowest) as [padding|]; [|done]. simpl.
  destruct (counterToString _ r) as [count|]; [|done]. simpl.
  unfold addSectionNumber. simpl.
  case_bool_decide as Hlen.
  - destruct (addSectionNumber_loop _ ch _ _ _) as [ch'|] eqn:Hch; [|done]. simpl.
    intros [= <- <-]. eexists. split; [done|]. simpl. exact Hch.
  - intros [= <- <-]. eexists. split; [done|]. simpl.
    destruct ch; [done|simpl in Hlen; lia].
Qed.

(** C2 (amended). When [addSectionNumber] has numbered a [Section] element
    of rank [r], its children are what the pass yields for them with the
    prefix that is the parent's number followed by a dot, and with the
    lowest rank of their scope set to [r + 1], the rank of the parent plus
    one. *)
Theorem addSectionNumber_child_scope config struct tag lowest out i element r :
  addSectionNumber struct config tag lowest = Ok out →
  struct !! i = Some element →
  type element = TeXElementType.Section →
  rank config (name element) = Some r →
  ∃ number element',
    out !! i = Some element' ∧
    label element' = number +:+ " " +:+ label element ∧
    addSectionNumber (children element) config (Some (number +:+ "."))
      (Some (Finite (Z.of_nat r + 1)))
    = Ok (children element').
Proof.
  intros Hrun Hi Ht Hr. unfold addSectionNumber in Hrun.
  destruct (addSectionNumber_loop_lookup _ _ _ _ _ _ _ _ Hrun Hi)
    as (ci & element' & c' & Hv & Ho).
  destruct (addSectionNumber_elem_section _ _ _ _ _ _ _ _ Ht Hr Hv) as (number & Hl & Hch).
  eauto.
Qed.

Lemma addSectionNumber_child_scope_witness :
  let sub := exampleElement TeXElementType.Section "subsection" "B" [] in
  let top := exampleElement TeXElementType.Section "chapter" "A" [sub] in
  ∃ number element',
    [exampleElement TeXElementType.Section "chapter" "1 A"
       [exampleElement TeXElementType.Section "subsection" "1.0.1 B" []]] !! 0
    = Some element' ∧
    label element' = number +:+ " " +:+ "A" ∧
    addSectionNumber [sub] exampleConfig (Some (number +:+ "."))
      (Some (Finite (Z.of_nat 0 + 1)))
    = Ok (children element').
Proof.
  intros sub top.
  exact (addSectionNumber_child_scope exampleConfig [top] None None _ 0 top 0
           eq_refl eq_refl eq_refl eq_refl).
Defined.

(** C2, as stated, fails: under a chapter (rank 0) whose only child is a
    subsection (rank 2), the child is numbered [1.0.1], with the lowest rank
    1 derived from the parent; the minimum rank among the children, 2, would
    give [1.1]. *)
Lemma addSectionNumber_child_lowest_counterexample :
  let sub := exampleElement TeXElementType.Section "subsection" "B" [] in
  let top := exampleElement TeXElementType.Section "chapter" "A" [sub] in
  addSectionNumber [top] exampleConfig None None
  = Ok [exampleElement TeXElementType.Section "chapter" "1 A"
          [exampleElement TeXElementType.Section "subsection" "1.0.1 B" []]] ∧
  minRank exampleConfig [sub] = Finite 2 ∧
  addSectionNumber [sub] exampleConfig (Some "1.") (Some (minRank exampleConfig [sub]))
  = Ok [exampleElement TeXElementType.Section "subsection" "1.1 B" []].
Proof. split_and!; reflexivity. Qed.

Lemma minRank_cons_ranked config e rest r :
  rank config (name e) = Some r →
  ∃ m, minRank config (e :: rest) = Finite m ∧ (m ≤ Z.of_nat r)%Z.
Proof.
  intros Hr. unfold minRank. simpl. rewrite Hr. simpl.
  destruct (foldr _ Infinity _) as [z|]; eexists; split; try done; lia.
Qed.

(** C5 at its failing inputs: a forest that starts with a starred section
    (here [\section*], of rank 1) makes [addSectionNumber] throw a
    [TypeError], whatever follows: no section of that rank has set the
    counter that the pass then reads. *)
Theorem addSectionNumber_starred_throws l i lf lt fp ch rest :
  addSectionNumber
    (mkTeXElement TeXElementType.SectionAst "section" l i lf lt fp ch :: rest)
    exampleConfig None None
  = Throw TypeError.
Proof.
  unfold addSectionNumber.
  destruct (minRank_cons_ranked exampleConfig
              (mkTeXElement TeXElementType.SectionAst "section" l i lf lt fp ch)
              rest 1 eq_refl) as (m & Hmin & Hle).
  cbn [default]. rewrite Hmin.
  cbn [addSectionNumber_loop addSectionNumber_elem].
  change (rank exampleConfig "section") with (Some 1).
  cbv beta iota. unfold zeroPadding, js_repeat.
  destruct (decide (Z.of_nat 1 - m < 0)%Z); [lia|]. done.
Qed.

(** ** The node renderer *)

Lemma argContentToStr_drop_empty node pre post :
  nodeToStr node = Ok "" →
  argContentToStr (pre ++ node :: post) = argContentToStr (pre ++ post).
Proof.
  intros Hnode. unfold argContentToStr.
  induction pre as [|n pre IH]; simpl.
  - rewrite Hnode. simpl. by destruct (argContentToStr_of nodeToStr post).
  - by rewrite IH.
Qed.

(** C8. The renderer maps an environment, verbatim environment or math
    environment node to [\environment{<env>}] whatever its body, inline
    math to its rendered content between dollar signs, a group to its
    rendered content, and a node of a kind outside the case list (a root
    node) to the empty string, without an exception of its own: in a
    sequence of nodes, such a node leaves the rendered string as it is
    without it. *)
Theorem nodeToStr_cases position env :
  (∀ mathenv content args,
     nodeToStr (Ast.Environment position mathenv env content args)
     = Ok ("\environment{" +:+ env +:+ "}")) ∧
  (∀ content,
     nodeToStr (Ast.Verbatim position env content)
     = Ok ("\environment{" +:+ env +:+ "}")) ∧
  (∀ content,
     nodeToStr (Ast.InlineMath position content)
     = s ← argContentToStr content; Ok ("$" +:+ s +:+ "$")) ∧
  (∀ content,
     nodeToStr (Ast.Group position content) = argContentToStr content) ∧
  (∀ content, nodeToStr (Ast.Root position content) = Ok "") ∧
  (∀ node rest,
     argContentToStr (node :: rest)
     = s ← nodeToStr node; t ← argContentToStr rest; Ok (s +:+ t)) ∧
  (∀ content pre post,
     argContentToStr (pre ++ Ast.Root position content :: post)
     = argContentToStr (pre ++ post)).
Proof.
  split_and!; try reflexivity.
  intros content pre post. by apply argContentToStr_drop_empty.
Qed.

Lemma Node_args_ind (P : Ast.Node → Prop) :
  (∀ node,
     (∀ content, Ast.contentNodes node = Some content → Forall P content) →
     Forall (λ a, Forall P (Ast.arg_content a)) (nodeArgs node) →
     P node) →
  ∀ node, P node.
Proof.
  intros step. fix IH 1. intros node. apply step.
  - destruct node; intros content' [= <-];
      match goal with
      | |- Forall P ?c => induction c; constructor; [apply IH|assumption]
      end.
  - destruct node as [| | | | |p c [args|]|p m e c [args|]| | | | |]; simpl;
      try constructor;
      ( induction args as [|[content o cl] args IHargs]; constructor; [|assumption];
        simpl; induction content; constructor; [apply IH|assumption] ).
Qed.

Lemma argContentToStr_of_total render content :
  Forall (λ node, ∃ s, render node = Ok s) content →
  ∃ s, argContentToStr_of render content = Ok s.
Proof.
  induction 1 as [|node rest [s Hs] _ [t Ht]]; simpl; [eauto|].
  rewrite Hs. simpl. rewrite Ht. simpl. eauto.
Qed.

Lemma argsToStr_of_total render args :
  Forall (λ a, Forall (λ node, ∃ s, render node = Ok s) (Ast.arg_content a)) args →
  ∃ s, argsToStr_of render args = Ok s.
Proof.
  induction 1 as [|[c o cl] rest Hc _ [t Ht]]; simpl; [eauto|].
  destruct (argContentToStr_of_total render c Hc) as [s Hs].
  rewrite Hs. simpl. rewrite Ht. simpl. eauto.
Qed.

Lemma texorpdfstringToStr_total args :
  match args with None => True | Some l => 2 ≤ length l end →
  ∃ s, texorpdfstringToStr args = Ok s.
Proof.
  unfold texorpdfstringToStr. destruct args as [l|]; [|eauto].
  intros Hlen. destruct (l !! 1) as [arg|] eqn:Harg.
  - destruct (Ast.arg_content arg) as [|first ?]; [eauto|].
    destruct (Ast.contentString first), (Ast.contentNodes first); eauto.
  - apply lookup_ge_None in Harg. lia.
Qed.

(** The renderer returns a string, and throws nothing, on every node in
    which the [texorpdfstring] macros it reaches are well formed. *)
Lemma nodeToStr_total node :
  renderable node = true → ∃ s, nodeToStr node = Ok s.
Proof.
  induction node as [node IHcontent IHargs] using Node_args_ind.
  assert (∀ content, Ast.contentNodes node = Some content →
            forallb renderable content = true →
            ∃ s, argContentToStr_of nodeToStr content = Ok s) as Hcontent.
  { intros content Hc Hok. apply argContentToStr_of_total.
    specialize (IHcontent content Hc). apply forallb_Forall in Hok.
    rewrite Forall_forall in IHcontent, Hok |- *. intros n Hn. by apply IHcontent, Hok. }
  destruct node; simpl; eauto.
  - intros Hok. unfold macroToStr_of. case_decide.
    + apply texorpdfstringToStr_total. destruct args; [|done].
      by apply bool_decide_eq_true in Hok.
    + destruct args as [l|]; [|eauto]. simpl in IHargs.
      destruct (argsToStr_of_total nodeToStr l) as [s Hs]; [|rewrite Hs; simpl; eauto].
      apply forallb_Forall in Hok. rewrite Forall_forall in IHargs, Hok |- *.
      intros a Ha. specialize (IHargs a Ha). specialize (Hok a Ha).
      apply forallb_Forall in Hok. rewrite Forall_forall in IHargs, Hok |- *.
      intros n Hn. by apply IHargs, Hok.
  - intros Hok. destruct (Hcontent _ eq_refl Hok) as [s ->]. simpl. eauto.
  - intros Hok. destruct (Hcontent _ eq_refl Hok) as [s ->]. simpl. eauto.
Qed.

Lemma nodeToStr_total_witness :
  ∃ s,
    nodeToStr
      (Ast.InlineMath None
         [Ast.Macro None "frac"
            (Some [Ast.mkArgument [Ast.String_ None "a"] "{" "}";
                   Ast.mkArgument
                     [Ast.Environment None true "cases" [Ast.String_ None "b"] None]
                     "{" "}"])])
    = Ok s.
Proof.
  exact (nodeToStr_total
           (Ast.InlineMath None
              [Ast.Macro None "frac"
                 (Some [Ast.mkArgument [Ast.String_ None "a"] "{" "}";
                        Ast.mkArgument
                          [Ast.Environment None true "cases" [Ast.String_ None "b"] None]
                          "{" "}"])])
           eq_refl).
Defined.


(** ** The per-file extractor *)

Lemma takeRnwChild_spec node st :
  ∃ r st',
    takeRnwChild node st = Some (Ok (r, st')) ∧
    ps_structs st' = ps_structs st ∧
    match r with
    | Some rnw =>
        last (ps_rnwSub st) = Some rnw ∧
        (nodeLineFr node ≤ Z.of_nat (rnw_line rnw))%Z ∧
        ps_rnwSub st' = removelast (ps_rnwSub st)
    | None =>
        st' = st ∧
        ∀ rnw, last (ps_rnwSub st) = Some rnw →
               (Z.of_nat (rnw_line rnw) < nodeLineFr node)%Z
    end.
Proof.
  unfold takeRnwChild. destruct (last (ps_rnwSub st)) as [rnw|] eqn:Hlast.
  - case_bool_decide as Hle.
    + eexists (Some rnw), _. split_and!; done.
    + eexists None, _. split_and!; try done. intros ? [= <-]. lia.
  - eexists None, _. split_and!; done.
Qed.

Lemma parseNode_unfold host config filePath rec node :
  parseNode host config filePath rec node
  = ('(element, file) ← liftResult (classify host config filePath node);
     _ ← match file with
         | Some file => callConstructFile rec file
         | None => mret ()
         end;
     rnw ← takeRnwChild node;
     pushed ← match rnw with
              | Some rnw =>
                  _ ← (if subFile config
                       then callConstructFile rec (rnw_subFile rnw) else mret ());
                  mret [rnwElement config filePath rnw node]
              | None => mret []
              end;
     below ← match node with
             | Ast.Root _ content | Ast.Environment _ _ _ content _
             | Ast.InlineMath _ content | Ast.DisplayMath _ content
             | Ast.Group _ content =>
                 parseNodes host config filePath rec content
             | _ => mret []
             end;
     mret (pushed ++ match element with
                     | Some element => [set_children element below]
                     | None => below
                     end)).
Proof. by destruct node. Qed.

Lemma Extract_bind_inv {A B} (m : Extract A) (k : A → Extract B) st b st' :
  (m ≫= k) st = Some (Ok (b, st')) →
  ∃ a st1, m st = Some (Ok (a, st1)) ∧ k a st1 = Some (Ok (b, st')).
Proof.
  unfold mbind, Extract_bind. destruct (m st) as [[[a st1]|]|]; [eauto|done..].
Qed.

Lemma callConstructFile_rnwSub rec file st u st' :
  callConstructFile rec file st = Some (Ok (u, st')) → ps_rnwSub st' = ps_rnwSub st.
Proof.
  unfold callConstructFile. destruct (rec file (ps_structs st)) as [[s|]|]; [|done..].
  by intros [= _ <-].
Qed.

(** C3 (amended). At a node, [parseNode] pops the last entry of the queue
    exactly when the queue is not empty and the line of that entry is at or
    after (greater than or equal to) the zero-based start line of the node;
    the [SubFile] element of the popped entry is then the first element the
    call pushes. *)
Theorem parseNode_takes_rnw_child host config filePath rec node :
  (∀ st, ∃ r st',
     takeRnwChild node st = Some (Ok (r, st')) ∧
     (is_Some r ↔
      ∃ rnw, last (ps_rnwSub st) = Some rnw ∧
             (nodeLineFr node ≤ Z.of_nat (rnw_line rnw))%Z) ∧
     ps_rnwSub st'
     = match r with
       | Some _ => removelast (ps_rnwSub st)
       | None => ps_rnwSub st
       end) ∧
  (∀ st out st' rnw,
     parseNode host config filePath rec node st = Some (Ok (out, st')) →
     last (ps_rnwSub st) = Some rnw →
     (nodeLineFr node ≤ Z.of_nat (rnw_line rnw))%Z →
     ∃ rest, out = rnwElement config filePath rnw node :: rest).
Proof.
  split.
  - intros st. destruct (takeRnwChild_spec node st) as (r & st' & Hrun & _ & Hr).
    exists r, st'. split; [done|]. destruct r as [rnw|].
    + destruct Hr as (Hlast & Hle & Hpop). split; [|done]. split; eauto.
    + destruct Hr as [-> Hlt]. split; [|done]. split; [by intros [? ?]|].
      intros (rnw & Hlast & Hle). specialize (Hlt _ Hlast). lia.
  - intros st out st' rnw Hrun Hlast Hle. rewrite parseNode_unfold in Hrun.
    apply Extract_bind_inv in Hrun as ([element file] & st1 & Hclass & Hrun).
    assert (st1 = st) as ->.
    { unfold liftResult in Hclass. destruct (classify _ _ _ _); by simplify_eq. }
    apply Extract_bind_inv in Hrun as (u & st2 & Hfile & Hrun).
    assert (ps_rnwSub st2 = ps_rnwSub st) as Hq.
    { destruct file; [by eapply callConstructFile_rnwSub|]. by injection Hfile as _ <-. }
    apply Extract_bind_inv in Hrun as (r & st3 & Htake & Hrun).
    unfold takeRnwChild in Htake. rewrite Hq, Hlast in Htake.
    rewrite bool_decide_eq_true_2 in Htake by done. injection Htake as <- <-.
    apply Extract_bind_inv in Hrun as (pushed & st4 & Hpush & Hrun).
    apply Extract_bind_inv in Hpush as (u' & st5 & _ & Hpush).
    injection Hpush as <- <-.
    apply Extract_bind_inv in Hrun as (below & st6 & _ & Hrun).
    injection Hrun as <- <-. eauto.
Qed.

Lemma parseNode_takes_rnw_child_witness :
  let st := mkParseState [mkRnwChild "/child.Rnw" "child.Rnw" 5] ∅ in
  let config := refreshLaTeXModelConfig emptyHost false in
  ∃ rest,
    [rnwElement config "/main.Rnw" (mkRnwChild "/child.Rnw" "child.Rnw" 5) (textAt 3)]
    = rnwElement config "/main.Rnw" (mkRnwChild "/child.Rnw" "child.Rnw" 5) (textAt 3)
      :: rest.
Proof.
  intros st config.
  refine (proj2 (parseNode_takes_rnw_child emptyHost config "/main.Rnw"
                   (λ _ _, None) (textAt 3))
            st _ (mkParseState [] ∅) (mkRnwChild "/child.Rnw" "child.Rnw" 5)
            eq_refl eq_refl _).
  vm_compute. discriminate.
Defined.

(** C3, as stated, fails in both directions: a queued entry of line 5 is
    popped at a node that starts on line 2 (counted from zero), though 5 is
    not at or before 2; and a queued entry of line 1 stays in the queue at
    that node, though 1 is before 2. *)
Lemma parseNode_rnw_counterexample :
  let config := refreshLaTeXModelConfig emptyHost false in
  let late := mkRnwChild "/child.Rnw" "child.Rnw" 5 in
  let early := mkRnwChild "/child.Rnw" "child.Rnw" 1 in
  nodeLineFr (textAt 3) = 2%Z ∧
  parseNode emptyHost config "/main.Rnw" (λ _ _, None) (textAt 3)
    (mkParseState [late] ∅)
  = Some (Ok ([mkTeXElement TeXElementType.SubFile "RnwChild" "child.Rnw"
                 (-1) 2 2 "/main.Rnw" []],
              mkParseState [] ∅)) ∧
  parseNode emptyHost config "/main.Rnw" (λ _ _, None) (textAt 3)
    (mkParseState [early] ∅)
  = Some (Ok ([], mkParseState [early] ∅)).
Proof. split_and!; reflexivity. Qed.


(** ** Inclusion cycles *)

Lemma selfInclude_parseNodes rec st :
  rec "/main.tex" (ps_structs st) = None →
  parseNodes selfIncludeHost (refreshLaTeXModelConfig selfIncludeHost true)
    "/main.tex" rec
    [Ast.Macro None "input"
       (Some [Ast.mkArgument [Ast.String_ None "main"] "{" "}"])]
    st
  = None.
Proof.
  intros Hrec. cbn [parseNodes]. rewrite parseNode_unfold.
  unfold mbind at 1, Extract_bind at 1.
  unfold mbind at 1, Extract_bind at 1.
  change (liftResult _ st)
    with (Some (Ok ((Some (mkTeXElement TeXElementType.SubFile "input" "/main.tex"
                             0 0 0 "/main.tex" []), Some "/main.tex"), st))).
  cbv beta iota.
  unfold mbind at 1, Extract_bind at 1.
  unfold callConstructFile at 1. by rewrite Hrec.
Qed.

(** C1 at its failing input: when [/main.tex] includes itself, no amount of
    fuel lets [constructFile] return; the cache holds no entry for the file
    while its own nodes are parsed, so every nested call extracts it
    again. *)
Theorem constructFile_self_inclusion_diverges fuel :
  constructFile fuel selfIncludeHost "/main.tex"
    (refreshLaTeXModelConfig selfIncludeHost true) ∅
  = None.
Proof.
  induction fuel as [|fuel IH]; [done|].
  cbn [constructFile]. rewrite lookup_empty.
  change (loadSource selfIncludeHost "/main.tex")
    with (Some "\input{main}",
          Some [Ast.Macro None "input"
                  (Some [Ast.mkArgument [Ast.String_ None "main"] "{" "}"])]).
  cbv beta iota. rewrite bool_decide_eq_false_2 by done.
  by rewrite selfInclude_parseNodes.
Qed.

(** ** [construct] *)

Lemma constructFile_unavailable fuel host filePath config structs :
  dirtyText host filePath = None →
  cacherGet host filePath = None →
  constructFile (S fuel) host filePath config structs = Some (Ok structs).
Proof.
  intros Hdirty Hget. simpl. destruct (structs !! filePath); [done|].
  unfold loadSource. by rewrite Hdirty, Hget.
Qed.

Lemma assemble_nil host config subFile : assemble host config subFile [] = Ok [].
Proof.
  unfold assemble. simpl.
  destruct (subFile && view_outline_floats_number_enabled (configuration host));
    destruct (subFile && view_outline_numbers_enabled (configuration host)); done.
Qed.

(** C6 at its failing input: when the content of the root file [/main.tex]
    is unavailable, [construct] throws a [TypeError] if sub-file merging is
    disabled; with merging enabled it returns the empty list. *)
Theorem construct_unavailable_root_throws fuel :
  construct (S fuel) otherRootHost None false = Some (Throw TypeError) ∧
  construct (S fuel) otherRootHost None true = Some (Ok []).
Proof.
  unfold construct. change (rootFile otherRootHost) with (Some "/main.tex").
  cbv beta iota. rewrite !constructFile_unavailable by done. split; [done|].
  unfold insertSubFile. change (rootFile otherRootHost) with (Some "/main.tex").
  cbn [insertSubFile_struct]. change (rootFile otherRootHost) with (Some "/main.tex").
  rewrite lookup_empty. cbn [default insertSubFile_loop mbind option_bind].
  by rewrite assemble_nil.
Qed.


(** Inclusion in a diamond is extracted once per file: the second
    [\input{shared}] finds the cache filled. *)
Lemma constructFile_diamond_example :
  dom <$> (match constructFile 3 diamondHost "/main.tex"
                   (refreshLaTeXModelConfig diamondHost true) ∅ with
           | Some (Ok structs) => Some structs
           | _ => None
           end)
  = Some ({[ "/main.tex"; "/a.tex"; "/b.tex"; "/shared.tex" ]} : gset string).
Proof. vm_compute. reflexivity. Qed.


(** ** What pass 2 hands to pass 3 *)

Lemma sectionsBare_elem_unfold e :
  sectionsBare_elem e
  = (if isSection e then bool_decide (children e = []) else true)
    && sectionsBare (children e).
Proof. by destruct e. Qed.

Lemma sectionsApart_elem_unfold e :
  sectionsApart_elem e
  = (if isSection e then forallb (λ c, negb (isSection c)) (children e) else true)
    && sectionsApart (children e).
Proof. by destruct e. Qed.

Lemma sectionsApart_app f1 f2 :
  sectionsApart (f1 ++ f2) = sectionsApart f1 && sectionsApart f2.
Proof. apply forallb_app. Qed.

Lemma sectionsApart_cons e forest :
  sectionsApart (e :: forest) = sectionsApart_elem e && sectionsApart forest.
Proof. done. Qed.

Lemma nestNonSection_elem_isSection e :
  isSection (nestNonSection_elem e) = isSection e.
Proof. by destruct e. Qed.

Lemma nestNonSection_loop_apart rec struct :
  Forall (λ e, sectionsApart_elem (rec e) = true ∧
               isSection (rec e) = isSection e ∧
               (isSection e = true → children (rec e) = [])) struct →
  ∀ elements currentSection,
    sectionsApart elements = true →
    (∀ i, currentSection = Some i →
          ∃ s, elements !! i = Some s ∧ isSection s = true) →
    sectionsApart (nestNonSection_loop rec struct elements currentSection) = true.
Proof.
  induction 1 as [|element rest (Hapart & Hkind & Hbare) _ IH];
    intros elements cur Hel Hcur; simpl; [done|].
  destruct (isSection element) eqn:Hsec.
  - apply IH.
    + by rewrite sectionsApart_app, sectionsApart_cons, Hel, Hapart.
    + intros i [= <-]. exists (rec element).
      rewrite lookup_app_r, Nat.sub_diag by done. split; [done|congruence].
  - destruct cur as [i|].
    + destruct (Hcur i eq_refl) as (s & Hs & Hss).
      destruct (alter_split (λ s0, set_children s0 (children s0 ++ [rec element]))
                  _ _ _ Hs) as (l1 & l2 & -> & Hlen & Halter).
      apply IH.
      * rewrite Halter. rewrite sectionsApart_app, sectionsApart_cons in Hel |- *.
        apply andb_true_iff in Hel as [Hl1 Hsl2].
        apply andb_true_iff in Hsl2 as [Hso Hl2].
        rewrite Hl1, Hl2, andb_true_r, andb_true_l.
        rewrite sectionsApart_elem_unfold in Hso |- *.
        change (isSection (set_children s (children s ++ [rec element])))
          with (isSection s).
        rewrite Hss in Hso |- *.
        apply andb_true_iff in Hso as [Hplain Hch].
        change (children (set_children s (children s ++ [rec element])))
          with (children s ++ [rec element]).
        rewrite forallb_app, sectionsApart_app, sectionsApart_cons, Hplain, Hch, Hapart.
        cbn [forallb]. by rewrite Hkind.
      * intros j [= <-]. rewrite Halter. eexists.
        rewrite lookup_app_r by lia. rewrite Hlen, Nat.sub_diag. done.
    + apply IH; [|done].
      by rewrite sectionsApart_app, sectionsApart_cons, Hel, Hapart.
Qed.

Lemma nestNonSection_elem_apart e :
  sectionsBare_elem e = true →
  sectionsApart_elem (nestNonSection_elem e) = true ∧
  (isSection e = true → children (nestNonSection_elem e) = []).
Proof.
  induction e as [e IH] using TeXElement_forest_ind.
  rewrite sectionsBare_elem_unfold. intros [Hbare Hch]%andb_true_iff.
  destruct e as [t n l i lf lt fp ch]. simpl in IH, Hch, Hbare.
  cbn [nestNonSection_elem]. rewrite sectionsApart_elem_unfold.
  change (isSection (mkTeXElement t n l i lf lt fp _))
    with (isSection (mkTeXElement t n l i lf lt fp ch)).
  cbn [children].
  destruct (isSection (mkTeXElement t n l i lf lt fp ch)) eqn:Hsec.
  - apply bool_decide_eq_true in Hbare as ->. done.
  - split; [|done]. simpl. case_bool_decide as Hlen.
    2:{ destruct ch; [done|simpl in Hlen; lia]. }
    apply nestNonSection_loop_apart; [|done|done].
    unfold sectionsBare in Hch. apply forallb_Forall in Hch.
    rewrite Forall_forall in IH, Hch |- *. intros c Hc.
    destruct (IH c Hc (Hch c Hc)) as [? ?].
    split_and!; [done|apply nestNonSection_elem_isSection|done].
Qed.

Lemma nestNonSection_apart struct :
  sectionsBare struct = true → sectionsApart (nestNonSection struct) = true.
Proof.
  intros Hbare. apply nestNonSection_loop_apart; [|done|done].
  apply forallb_Forall in Hbare. rewrite Forall_forall in Hbare |- *.
  intros e He. destruct (nestNonSection_elem_apart e (Hbare e He)) as [? ?].
  split_and!; [done|apply nestNonSection_elem_isSection|done].
Qed.

Lemma sectionsApart_rankOrdered config forest :
  sectionsApart forest = true → rankOrdered config forest = true.
Proof.
  unfold sectionsApart, rankOrdered. rewrite !forallb_Forall.
  intros Hall. eapply Forall_impl; [exact Hall|]. clear Hall forest.
  intros e. induction e as [e IH] using TeXElement_forest_ind.
  rewrite sectionsApart_elem_unfold, rankOrdered_elem_unfold.
  intros [Hplain Hch]%andb_true_iff. apply andb_true_iff. split.
  - apply forallb_Forall, Forall_forall. intros c Hc. unfold pairOk.
    destruct (isSection e); [|done].
    apply forallb_Forall in Hplain. rewrite Forall_forall in Hplain.
    specialize (Hplain c Hc). by destruct (isSection c).
  - unfold sectionsApart, rankOrdered in *. apply forallb_Forall in Hch.
    apply forallb_Forall. rewrite Forall_forall in IH, Hch |- *.
    intros c Hc. by apply IH, Hch.
Qed.

(** Pass 3 after pass 2: on a forest whose sections are still without
    children, the two nesting passes leave the ranks of section parents and
    section children in strictly increasing order. *)
Lemma nestSection_after_nestNonSection config struct :
  sectionsBare struct = true →
  ∃ out,
    nestSection (nestNonSection struct) config = Ok out ∧
    RankOrdered config out.
Proof.
  intros Hbare.
  destruct (nestSection_loop_rankOrdered config (nestNonSection struct) [] [])
    as (out & stack & Hrun & Hout); [constructor|done| |].
  { by apply sectionsApart_rankOrdered, nestNonSection_apart. }
  exists out. unfold nestSection. rewrite Hrun. split; [done|].
  by apply rankOrdered_spec.
Qed.


(** ** The numbering passes keep kinds, names and shape *)

Lemma skeleton_elem_unfold e :
  skeleton_elem e
  = mkTeXElement (type e) (name e) "" 0 0 0 "" (skeleton (children e)).
Proof. by destruct e. Qed.

Lemma rankOrdered_skeleton config forest :
  rankOrdered config (skeleton forest) = rankOrdered config forest.
Proof.
  unfold rankOrdered, skeleton. induction forest as [|e forest IHf]; [done|].
  simpl. f_equal; [|done]. clear IHf forest.
  induction e as [e IH] using TeXElement_forest_ind.
  rewrite (rankOrdered_elem_unfold config e), skeleton_elem_unfold,
    rankOrdered_elem_unfold.
  cbn [children]. f_equal.
  - apply forallb_pairOk_ext; [done|]. unfold skeleton.
    rewrite <- list_fmap_compose. apply list_fmap_ext. intros ? c _. by destruct c.
  - unfold rankOrdered, skeleton. induction IH as [|c ch Hc _ IHch]; [done|].
    simpl. by rewrite Hc, IHch.
Qed.

Lemma addFloatNumber_loop_skeleton visit struct :
  Forall (λ e, ∀ counter, skeleton_elem (visit e counter).1 = skeleton_elem e) struct →
  ∀ counter, skeleton (addFloatNumber_loop visit struct counter).1 = skeleton struct.
Proof.
  induction 1 as [|e rest He _ IH]; intros counter; simpl; [done|].
  specialize (He counter). destruct (visit e counter) as [e' c1]. simpl in He.
  specialize (IH c1). destruct (addFloatNumber_loop visit rest c1) as [rest' c2].
  simpl in *. by rewrite He, IH.
Qed.

Lemma addFloatNumber_elem_skeleton e counter :
  skeleton_elem (addFloatNumber_elem e counter).1 = skeleton_elem e.
Proof.
  revert counter. induction e as [e IH] using TeXElement_forest_ind. intros counter.
  destruct e as [t n l i lf lt fp ch]. simpl in IH. cbn [addFloatNumber_elem].
  destruct (isNumberedFloat _);
    ( case_bool_decide;
      [ match goal with |- context [addFloatNumber_loop _ ch ?c] =>
          pose proof (addFloatNumber_loop_skeleton _ ch IH c) as Hsk;
          destruct (addFloatNumber_loop addFloatNumber_elem ch c) as [ch' c2] end;
        simpl in *; unfold skeleton in Hsk; by rewrite Hsk
      | done ] ).
Qed.

Lemma addFloatNumber_skeleton struct counter :
  skeleton (addFloatNumber struct counter).1 = skeleton struct.
Proof.
  apply addFloatNumber_loop_skeleton, Forall_forall.
  intros e _ c. apply addFloatNumber_elem_skeleton.
Qed.

Lemma addSectionNumber_loop_skeleton visit struct :
  Forall (λ e, ∀ tag lowest counter e' counter',
            visit e tag lowest counter = Ok (e', counter') →
            skeleton_elem e' = skeleton_elem e) struct →
  ∀ tag lowest counter out,
    addSectionNumber_loop visit struct tag lowest counter = Ok out →
    skeleton out = skeleton struct.
Proof.
  induction 1 as [|e rest He _ IH]; intros tag lowest counter out Hrun; simpl in *.
  { by injection Hrun as <-. }
  destruct (visit e tag lowest counter) as [[e' c1]|] eqn:Hv; [|done]. simpl in Hrun.
  destruct (addSectionNumber_loop visit rest tag lowest c1) as [rest'|] eqn:Hr; [|done].
  simpl in Hrun. injection Hrun as <-. simpl.
  by rewrite (He _ _ _ _ _ Hv), (IH _ _ _ _ Hr).
Qed.

Lemma addSectionNumber_elem_skeleton config e :
  ∀ tag lowest counter e' counter',
    addSectionNumber_elem config e tag lowest counter = Ok (e', counter') →
    skeleton_elem e' = skeleton_elem e.
Proof.
  induction e as [e IH] using TeXElement_forest_ind.
  intros tag lowest counter e' counter'.
  destruct e as [t n l i lf lt fp ch]. simpl in IH. cbn [addSectionNumber_elem].
  destruct (rank config n) as [r|]; [|by intros [= <- <-]].
  destruct (zeroPadding r lowest) as [padding|]; [|done]. simpl.
  destruct (counterToString _ r) as [count|]; [|done]. simpl.
  destruct (bool_decide (0 < length ch)).
  - destruct (addSectionNumber_loop _ ch _ _ _) as [ch'|] eqn:Hch; simpl; [|done].
    intros [= <- <-]. simpl.
    pose proof (addSectionNumber_loop_skeleton _ ch IH _ _ _ _ Hch) as Hsk.
    unfold skeleton in Hsk. by rewrite Hsk.
  - by intros [= <- <-].
Qed.

Lemma addSectionNumber_skeleton struct config tag lowest out :
  addSectionNumber struct config tag lowest = Ok out →
  skeleton out = skeleton struct.
Proof.
  apply addSectionNumber_loop_skeleton, Forall_forall.
  intros e _. apply addSectionNumber_elem_skeleton.
Qed.

Lemma assemble_rankOrdered host config subFile struct out :
  sectionsBare struct = true →
  assemble host config subFile struct = Ok out →
  rankOrdered config out = true.
Proof.
  intros Hbare. unfold assemble.
  destruct (nestSection_after_nestNonSection config struct Hbare)
    as (nested & -> & Hnested%rankOrdered_spec).
  simpl.
  set (numbered := if subFile && _ then (addFloatNumber nested ∅).1 else nested).
  assert (rankOrdered config numbered = true) as Hnum.
  { subst numbered. destruct (subFile && _); [|done].
    by rewrite <- rankOrdered_skeleton, addFloatNumber_skeleton, rankOrdered_skeleton. }
  destruct (subFile && view_outline_numbers_enabled _).
  - intros Hrun%addSectionNumber_skeleton.
    by rewrite <- rankOrdered_skeleton, Hrun, rankOrdered_skeleton.
  - by intros [= <-].
Qed.


(** ** The extractor leaves sections without children *)

Lemma subFileElement_shape config name raw resolved node filePath e file :
  subFileElement config name raw resolved node filePath = (Some e, file) →
  children e = [] ∧ isSection e = false.
Proof.
  unfold subFileElement. destruct resolved; [|done].
  case_bool_decide; [done|]. by intros [= <- _].
Qed.

Lemma classify_shape host config filePath node e file :
  classify host config filePath node = Ok (Some e, file) →
  children e = [] ∧
  (isSection e = true → Ast.contentNodes node = None).
Proof.
  unfold classify. destruct node; try done.
  - repeat case_bool_decide;
      repeat match goal with
             | |- context [argContentToStr ?x] => destruct (argContentToStr x); simpl; [|done]
             end;
      try (intros [= <-]; done);
      try (intros [= Hsub]; apply subFileElement_shape in Hsub as [? ?]; by split).
  - repeat match goal with
           | |- context [if ?b then _ else _] => destruct b
           | |- context [argContentToStr ?x] => destruct (argContentToStr x); simpl
           | |- context [docCaption ?x] => destruct (docCaption x); simpl
           end;
      try done; intros [= <-]; done.
Qed.

Lemma sectionsBare_app f1 f2 :
  sectionsBare (f1 ++ f2) = sectionsBare f1 && sectionsBare f2.
Proof. apply forallb_app. Qed.

Lemma callConstructFile_bare rec file st u st' :
  KeepsBare rec →
  callConstructFile rec file st = Some (Ok (u, st')) →
  CacheBare (ps_structs st) → CacheBare (ps_structs st').
Proof.
  intros Hrec. unfold callConstructFile.
  destruct (rec file (ps_structs st)) as [[s|]|] eqn:Hcall; [|done..].
  intros [= _ <-] Hbare. simpl. by eapply Hrec.
Qed.

Section ParseNodeBare.
Variable host : Host.
Variable config : StructureConfig.
Variable filePath : string.
Variable rec : string → gmap string (list TeXElement) →
               option (result (gmap string (list TeXElement))).
Hypothesis Hrec : KeepsBare rec.

Lemma parseNodes_bare content :
  Forall (parseBare host config filePath rec) content →
  ∀ st out st',
    parseNodes host config filePath rec content st = Some (Ok (out, st')) →
    CacheBare (ps_structs st) →
    sectionsBare out = true ∧ CacheBare (ps_structs st').
Proof.
  induction 1 as [|node rest Hnode _ IH]; intros st out st' Hrun Hbare.
  { by injection Hrun as <- <-. }
  cbn [parseNodes] in Hrun.
  apply Extract_bind_inv in Hrun as (l & st1 & Hl & Hrun).
  apply Extract_bind_inv in Hrun as (l' & st2 & Hl' & Hrun).
  injection Hrun as <- <-.
  destruct (Hnode _ _ _ Hl Hbare) as [Hb1 Hc1].
  destruct (IH _ _ _ Hl' Hc1) as [Hb2 Hc2].
  by rewrite sectionsBare_app, Hb1, Hb2.
Qed.

Lemma parseNode_bare node : parseBare host config filePath rec node.
Proof.
  induction node as [node IH _] using Node_args_ind.
  intros st out st' Hrun Hbare. rewrite parseNode_unfold in Hrun.
  apply Extract_bind_inv in Hrun as ([element file] & st1 & Hclass & Hrun).
  assert (st1 = st ∧ classify host config filePath node = Ok (element, file))
    as [-> Hclassify].
  { unfold liftResult in Hclass. destruct (classify _ _ _ _); by simplify_eq. }
  apply Extract_bind_inv in Hrun as (u & st2 & Hfile & Hrun).
  assert (CacheBare (ps_structs st2)) as Hbare2.
  { destruct file; [by eapply callConstructFile_bare|]. by injection Hfile as _ <-. }
  apply Extract_bind_inv in Hrun as (r & st3 & Htake & Hrun).
  assert (CacheBare (ps_structs st3)) as Hbare3.
  { destruct (takeRnwChild_spec node st2) as (r' & st3' & Htake' & Hs & _).
    rewrite Htake in Htake'. injection Htake' as -> ->. by rewrite Hs. }
  apply Extract_bind_inv in Hrun as (pushed & st4 & Hpush & Hrun).
  assert (sectionsBare pushed = true ∧ CacheBare (ps_structs st4)) as [Hpushed Hbare4].
  { destruct r as [rnw|]; [|by injection Hpush as <- <-].
    apply Extract_bind_inv in Hpush as (u' & st5 & Hcall & Hpush).
    injection Hpush as <- <-. split; [done|].
    destruct (subFile config); [by eapply callConstructFile_bare|].
    by injection Hcall as _ <-. }
  apply Extract_bind_inv in Hrun as (below & st5 & Hbelow & Hrun).
  injection Hrun as <- <-.
  assert (sectionsBare below = true ∧ CacheBare (ps_structs st5) ∧
          (Ast.contentNodes node = None → below = [])) as (Hb & Hc & Hnone).
  { destruct node; simpl in Hbelow;
      try (injection Hbelow as <- <-; done);
      (destruct (parseNodes_bare _ (IH _ eq_refl) _ _ _ Hbelow Hbare4); done). }
  split; [|done]. rewrite sectionsBare_app, Hpushed. simpl.
  destruct element as [element|]; [|done].
  destruct (classify_shape _ _ _ _ _ _ Hclassify) as [Hch Hsec].
  unfold sectionsBare. cbn [forallb]. rewrite andb_true_r, sectionsBare_elem_unfold.
  change (isSection (set_children element below)) with (isSection element).
  cbn [children set_children]. fold (sectionsBare below). rewrite Hb, andb_true_r.
  destruct (isSection element) eqn:Hs; [|done].
  rewrite (Hnone (Hsec eq_refl)). done.
Qed.
End ParseNodeBare.

Lemma constructFile_bare fuel host config :
  KeepsBare (λ file, constructFile fuel host file config).
Proof.
  induction fuel as [|fuel IH]; intros file structs structs' Hrun Hbare; [done|].
  cbn [constructFile] in Hrun.
  destruct (structs !! file); [by injection Hrun as <-|].
  destruct (loadSource host file) as [[content|] [ast|]];
    try (by injection Hrun as <-).
  case_bool_decide; [by injection Hrun as <-|].
  destruct (parseNodes _ _ _ _ _ _) as [[[rootChildren st]|]|] eqn:Hparse; [|done..].
  injection Hrun as <-.
  assert (Forall (parseBare host config file
                    (λ file0, constructFile fuel host file0 config)) ast) as Hast.
  { apply Forall_forall. intros node _. by apply parseNode_bare. }
  destruct (parseNodes_bare host config file _ ast Hast _ _ _ Hparse Hbare) as [Hb Hc].
  intros f forest. destruct (decide (file = f)) as [->|Hne].
  - rewrite lookup_insert_eq. by intros [= <-].
  - rewrite lookup_insert_ne by done. apply Hc.
Qed.


(** ** The splice pass leaves sections without children *)

Lemma insertSubFile_loop_bare visit struct :
  Forall (λ e, ∀ out, visit e = Some out → sectionsBare out = true) struct →
  ∀ out, insertSubFile_loop visit struct = Some out → sectionsBare out = true.
Proof.
  induction 1 as [|e rest He _ IH]; intros out Hrun; simpl in Hrun.
  { by injection Hrun as <-. }
  destruct (visit e) as [l|] eqn:Hv; [|done]. simpl in Hrun.
  destruct (insertSubFile_loop visit rest) as [l'|]; [|done].
  injection Hrun as <-. by rewrite sectionsBare_app, (He _ eq_refl), (IH _ eq_refl).
Qed.

Lemma insertSubFile_elem_bare structs spliceFile e :
  CacheBare structs →
  (∀ sub out, spliceFile sub = Some out → sectionsBare sub = true →
              sectionsBare out = true) →
  sectionsBare_elem e = true →
  ∀ out, insertSubFile_elem structs spliceFile e = Some out →
         sectionsBare out = true.
Proof.
  intros Hcache Hsplice. induction e as [e IH] using TeXElement_forest_ind.
  rewrite sectionsBare_elem_unfold. intros [Hbare Hch]%andb_true_iff out.
  destruct e as [t n l i lf lt fp ch]. simpl in IH, Hch. cbn [insertSubFile_elem].
  destruct (if bool_decide (t = TeXElementType.SubFile) then structs !! l else None)
    as [sub|] eqn:Hsub.
  { intros Hrun. apply (Hsplice _ _ Hrun). case_bool_decide; [|done].
    by eapply Hcache. }
  destruct (bool_decide (0 < length ch)) eqn:Hlen; simpl.
  - destruct (insertSubFile_loop _ ch) as [ch'|] eqn:Hloop; [|done]. simpl.
    intros [= <-]. unfold sectionsBare. cbn [forallb].
    rewrite andb_true_r, sectionsBare_elem_unfold.
    change (isSection (mkTeXElement t n l i lf lt fp ch'))
      with (isSection (mkTeXElement t n l i lf lt fp ch)) .
    cbn [children] in *.
    destruct (isSection (mkTeXElement t n l i lf lt fp ch)).
    { apply bool_decide_eq_true in Hbare. subst ch. done. }
    simpl. eapply insertSubFile_loop_bare; [|exact Hloop].
    unfold sectionsBare in Hch. apply forallb_Forall in Hch.
    rewrite Forall_forall in IH, Hch |- *. intros c Hc. by apply IH, Hch.
  - apply bool_decide_eq_false in Hlen. destruct ch; [|simpl in Hlen; lia].
    intros [= <-]. unfold sectionsBare. cbn [forallb sectionsBare_elem].
    by destruct (isSection _).
Qed.

Lemma insertSubFile_struct_bare fuel host structs :
  CacheBare structs →
  ∀ struct out,
    insertSubFile_struct fuel host structs struct = Some out →
    sectionsBare struct = true → sectionsBare out = true.
Proof.
  intros Hcache. induction fuel as [|fuel IH]; intros struct out Hrun Hbare; [done|].
  cbn [insertSubFile_struct] in Hrun.
  destruct (rootFile host); [|by injection Hrun as <-].
  eapply insertSubFile_loop_bare; [|exact Hrun].
  apply forallb_Forall in Hbare. rewrite Forall_forall in Hbare |- *.
  intros e He out'. by apply insertSubFile_elem_bare, Hbare.
Qed.

(** The invariant of pass 3 holds for whatever [construct] returns: a
    section that is the direct child of a section has the greater rank. *)
Lemma construct_rank_order fuel host filePath subFile out :
  construct fuel host filePath subFile = Some (Ok out) →
  RankOrdered (refreshLaTeXModelConfig host subFile) out.
Proof.
  unfold construct.
  destruct (match filePath with Some f => Some f | None => rootFile host end)
    as [file|]; [|intros [= <-]; by apply rankOrdered_spec].
  destruct (constructFile fuel host file _ ∅) as [[structs|]|] eqn:Hextract; [|done..].
  assert (CacheBare structs) as Hcache.
  { eapply (constructFile_bare fuel host _ file ∅ structs Hextract).
    intros f forest. by rewrite lookup_empty. }
  intros Hrun. apply rankOrdered_spec. destruct subFile.
  - unfold insertSubFile in Hrun.
    destruct (rootFile host) as [root|].
    + destruct (insertSubFile_struct _ _ _ _) as [struct|] eqn:Hsplice; [|done].
      simpl in Hrun. injection Hrun as Hrun.
      eapply assemble_rankOrdered; [|exact Hrun].
      eapply insertSubFile_struct_bare; [done|exact Hsplice|].
      destruct (structs !! root) as [forest|] eqn:Hroot; [|done]. by eapply Hcache.
    + simpl in Hrun. injection Hrun as Hrun.
      by eapply assemble_rankOrdered; [|exact Hrun].
  - destruct (structs !! file) as [struct|] eqn:Hfile; [|done].
    injection Hrun as Hrun. eapply assemble_rankOrdered; [|exact Hrun].
    by eapply Hcache.
Qed.

Lemma construct_rank_order_witness :
  label <$> flatten (default [] (match construct 3 docHost None true with
                                 | Some (Ok out) => Some out
                                 | _ => None
                                 end))
  = ["0.1 Intro"; "0.2 Background"; "0.2.1 Prior Work"; "Figure 1: Cap";
     "1 Sub"; "1.1 Mid"; "1.2 After"] ∧
  ∃ out,
    construct 3 docHost None true = Some (Ok out) ∧
    RankOrdered (refreshLaTeXModelConfig docHost true) out.
Proof.
  split; [vm_compute; reflexivity|].
  eexists. split; [vm_compute; reflexivity|].
  apply (construct_rank_order 3 docHost None true). vm_compute. reflexivity.
Defined.


(** ** The configuration of the outline *)

Lemma foldl_insert_lookup (index : nat) (l : list string) (m : gmap string nat) cmd :
  foldl (λ acc c, <[c := index]> acc) m l !! cmd
  = if decide (cmd ∈ l) then Some index else m !! cmd.
Proof.
  revert m. induction l as [|c l IH]; intros m; simpl.
  { destruct (decide (cmd ∈ [])) as [H%elem_of_nil|]; done. }
  rewrite IH. destruct (decide (cmd ∈ l)) as [Hin|Hnin].
  - rewrite decide_True; [done|by right].
  - destruct (decide (c = cmd)) as [->|Hne].
    + rewrite lookup_insert_eq, decide_True; [done|by left].
    + rewrite lookup_insert_ne by done. rewrite decide_False; [done|].
      intros [->|?]%elem_of_cons; done.
Qed.

Lemma secIndex_lookup (hierarchy : list string) cmd i :
  foldl (λ acc '(index, sec),
           foldl (λ acc cmd, <[cmd := index]> acc) acc (split "|" sec))
        (∅ : gmap string nat) (imap (λ index sec, (index, sec)) hierarchy) !! cmd = Some i
  ↔ (∃ sec, hierarchy !! i = Some sec ∧ cmd ∈ split "|" sec) ∧
    (∀ j sec, i < j → hierarchy !! j = Some sec → cmd ∉ split "|" sec).
Proof.
  revert i. induction hierarchy as [|sec init IH] using rev_ind; intros i.
  { simpl. rewrite lookup_empty. split; [done|]. by intros [(sec & ? & _) _]. }
  rewrite imap_app, foldl_app. cbn [imap foldl]. rewrite Nat.add_0_r.
  rewrite foldl_insert_lookup. destruct (decide (cmd ∈ split "|" sec)) as [Hin|Hnin].
  - split.
    + intros [= <-]. split.
      * exists sec. split; [|done]. by rewrite lookup_app_r, Nat.sub_diag.
      * intros j sec' Hj Hsec'. apply lookup_lt_Some in Hsec'.
        rewrite length_app in Hsec'. simpl in Hsec'. lia.
    + intros [(sec' & Hi & Hcmd) Hlast].
      destruct (decide (i = length init)) as [->|Hne]; [done|].
      assert (i < length init).
      { apply lookup_lt_Some in Hi. rewrite length_app in Hi. simpl in Hi. lia. }
      exfalso. apply (Hlast (length init) sec); [done| |done].
      by rewrite lookup_app_r, Nat.sub_diag.
  - rewrite IH. split.
    + intros [(sec' & Hi & Hcmd) Hlast]. split.
      * exists sec'. split; [|done]. by apply lookup_app_l_Some.
      * intros j sec'' Hj Hsec''.
        destruct (decide (j < length init)) as [Hlt|Hge].
        -- rewrite lookup_app_l in Hsec'' by done. by eapply Hlast.
        -- assert (j = length init) as ->.
           { apply lookup_lt_Some in Hsec''. rewrite length_app in Hsec''.
             simpl in Hsec''. lia. }
           rewrite lookup_app_r, Nat.sub_diag in Hsec'' by done. by injection Hsec'' as <-.
    + intros [(sec' & Hi & Hcmd) Hlast].
      assert (i < length init) as Hlt.
      { destruct (decide (i < length init)); [done|].
        assert (i = length init) as ->.
        { apply lookup_lt_Some in Hi. rewrite length_app in Hi. simpl in Hi. lia. }
        rewrite lookup_app_r, Nat.sub_diag in Hi by done. by injection Hi as <-. }
      rewrite lookup_app_l in Hi by done. split; [eauto|].
      intros j sec'' Hj Hsec''. apply (Hlast j sec''); [done|].
      by apply lookup_app_l_Some.
Qed.

Lemma elem_of_concat_split (hierarchy : list string) cmd :
  cmd ∈ concat (map (split "|") hierarchy)
  ↔ ∃ i sec, hierarchy !! i = Some sec ∧ cmd ∈ split "|" sec.
Proof.
  induction hierarchy as [|sec rest IH]; simpl.
  { split; [by intros ?%elem_of_nil|by intros (? & ? & ? & _)]. }
  rewrite elem_of_app, IH. split.
  - intros [Hin|(i & sec' & Hi & Hin)]; [by exists 0, sec|by exists (S i), sec'].
  - intros ([|i] & sec' & Hi & Hin); simpl in Hi; [left; by simplify_eq|right; eauto].
Qed.

Lemma rank_last_entry (hierarchy : list string) cmd i sec :
  hierarchy !! i = Some sec → cmd ∈ split "|" sec →
  ∃ k, (∃ sec, hierarchy !! k = Some sec ∧ cmd ∈ split "|" sec) ∧
       ∀ j sec, k < j → hierarchy !! j = Some sec → cmd ∉ split "|" sec.
Proof.
  revert i sec.
  induction hierarchy as [|s init IH] using rev_ind; intros i sec Hi Hin; [done|].
  destruct (decide (cmd ∈ split "|" s)) as [Hs|Hs].
  - exists (length init). split.
    + exists s. split; [|done]. by rewrite lookup_app_r, Nat.sub_diag.
    + intros j sec' Hj Hsec'. apply lookup_lt_Some in Hsec'.
      rewrite length_app in Hsec'. simpl in Hsec'. lia.
  - assert (i < length init) as Hlt.
    { destruct (decide (i < length init)); [done|].
      assert (i = length init) as ->.
      { apply lookup_lt_Some in Hi. rewrite length_app in Hi. simpl in Hi. lia. }
      rewrite lookup_app_r, Nat.sub_diag in Hi by done. by injection Hi as <-. }
    rewrite lookup_app_l in Hi by done.
    destruct (IH _ _ Hi Hin) as (k & (sec' & Hk & Hin') & Hlast).
    exists k. split.
    + exists sec'. split; [|done]. by apply lookup_app_l_Some.
    + intros j sec'' Hj Hsec''.
      destruct (decide (j < length init)) as [Hlt'|Hge].
      * rewrite lookup_app_l in Hsec'' by done. by eapply Hlast.
      * assert (j = length init) as ->.
        { apply lookup_lt_Some in Hsec''. rewrite length_app in Hsec''.
          simpl in Hsec''. lia. }
        rewrite lookup_app_r, Nat.sub_diag in Hsec'' by done.
        by injection Hsec'' as <-.
Qed.

Lemma refreshLaTeXModelConfig_secs_ranked host subFile cmd :
  cmd ∈ secs (macros (refreshLaTeXModelConfig host subFile))
  ↔ is_Some (rank (refreshLaTeXModelConfig host subFile) cmd).
Proof.
  unfold refreshLaTeXModelConfig at 1. cbn [macros secs].
  rewrite elem_of_concat_split. split.
  - intros (i & sec & Hi & Hin).
    destruct (rank_last_entry _ _ _ _ Hi Hin) as (k & Hk).
    exists k. by apply secIndex_lookup.
  - intros [i Hi]. apply secIndex_lookup in Hi as [(sec & Hi & Hin) _]. eauto.
Qed.

(** A macro has a rank exactly when it is one of the section macros, and
    its rank is the position of the last entry of the setting
    [view.outline.sections] that lists it among its alternatives. *)
Theorem refreshLaTeXModelConfig_rank host subFile cmd :
  let config := refreshLaTeXModelConfig host subFile in
  let hierarchy := view_outline_sections (configuration host) in
  (cmd ∈ secs (macros config) ↔ is_Some (rank config cmd)) ∧
  ∀ i, rank config cmd = Some i ↔
       (∃ sec, hierarchy !! i = Some sec ∧ cmd ∈ split "|" sec) ∧
       (∀ j sec, i < j → hierarchy !! j = Some sec → cmd ∉ split "|" sec).
Proof.
  intros config hierarchy. split; [apply refreshLaTeXModelConfig_secs_ranked|].
  intros i. apply secIndex_lookup.
Qed.


(** ** The queue of child chunks *)

Lemma countNewlines_mono s i j : i ≤ j → countNewlines s i ≤ countNewlines s j.
Proof.
  revert i j. induction s as [|c s IH]; intros i j Hij.
  { by destruct i, j. }
  destruct i as [|i]; [simpl; lia|]. destruct j as [|j]; [lia|]. simpl.
  specialize (IH i j). lia.
Qed.

Lemma countNewlines_bound s i j : String.length s ≤ i → countNewlines s j ≤ countNewlines s i.
Proof.
  revert i j. induction s as [|c s IH]; intros i j Hi.
  { by destruct i, j. }
  simpl in Hi. destruct i as [|i]; [lia|]. destruct j as [|j]; [simpl; lia|]. simpl.
  specialize (IH i j). lia.
Qed.

(** [parseRnwChildCommand] returns one entry for each match, in the order
    of the matches; the line of an entry is the number of line feeds before
    the match, so it is at most the number of line feeds of the content,
    and matches at ascending positions give a queue of ascending lines. *)
Theorem parseRnwChildCommand_lines host content file rootFile :
  let found := execChild host content file rootFile in
  let queue := parseRnwChildCommand host content file rootFile in
  rnw_subFile <$> queue = match_file <$> found ∧
  rnw_path <$> queue = match_path <$> found ∧
  Forall (λ rnw, rnw_line rnw ≤ countNewlines content (String.length content)) queue ∧
  (StronglySorted le (match_index <$> found) → StronglySorted le (rnw_line <$> queue)).
Proof.
  intros found queue. unfold queue, parseRnwChildCommand. fold found.
  clearbody found. clear queue. split_and!.
  - induction found; simpl; by f_equal.
  - induction found; simpl; by f_equal.
  - induction found; simpl; constructor; [|done]. by apply countNewlines_bound.
  - induction found as [|m found IH]; simpl; [constructor|].
    intros Hs. apply StronglySorted_inv in Hs as [Hs Hall]. constructor; [by apply IH|].
    clear IH Hs. induction found as [|m' found IH]; simpl; [constructor|].
    apply Forall_cons in Hall as [Hm Hall]. constructor; [|by apply IH].
    by apply countNewlines_mono.
Qed.


(** ** Rendering a sequence of nodes *)

Lemma argContentToStr_of_app render a b :
  argContentToStr_of render (a ++ b)
  = (s ← argContentToStr_of render a; t ← argContentToStr_of render b; Ok (s +:+ t)).
Proof.
  induction a as [|node a IH]; simpl.
  { destruct (argContentToStr_of render b) as [t|]; simpl; [|done].
    by rewrite string_app_nil_l. }
  destruct (render node) as [s|]; simpl; [|done]. rewrite IH.
  destruct (argContentToStr_of render a) as [s'|]; simpl; [|done].
  destruct (argContentToStr_of render b) as [t|]; simpl; [|done].
  by rewrite string_app_assoc.
Qed.

(** The renderer works node by node: the string of a sequence of nodes is
    the string of its first part followed by the string of the rest, and
    an exception in the first part wins over one in the rest.  A run of
    text nodes is rendered as the concatenation of their texts. *)
Theorem argContentToStr_app a b :
  argContentToStr (a ++ b)
  = (s ← argContentToStr a; t ← argContentToStr b; Ok (s +:+ t)) ∧
  ∀ texts, argContentToStr (Ast.String_ None <$> texts) = Ok (String.concat "" texts).
Proof.
  split; [apply argContentToStr_of_app|].
  intros texts. unfold argContentToStr. induction texts as [|t texts IH]; [done|].
  cbn [fmap list_fmap argContentToStr_of nodeToStr]. 
  change (list_fmap _ _ (Ast.String_ None) texts) with (Ast.String_ None <$> texts).
  rewrite IH. simpl. destruct texts; [by rewrite string_app_nil_r|done].
Qed.


(** ** Invariants of the walk over the nodes of a file *)

Section ParseNodeInv.
Variable host : Host.
Variable config : StructureConfig.
Variable filePath : string.
Variable rec : string → gmap string (list TeXElement) →
               option (result (gmap string (list TeXElement))).
(** A relation between the state before and after a step, and a property
    of the elements pushed that does not read their [children]. *)
Variable R : ParseState → ParseState → Prop.
Variable Q : TeXElement → Prop.
Hypothesis R_refl : ∀ st, R st st.
Hypothesis R_trans : ∀ st1 st2 st3, R st1 st2 → R st2 st3 → R st1 st3.
Hypothesis R_call : ∀ file st u st',
  callConstructFile rec file st = Some (Ok (u, st')) → R st st'.
Hypothesis R_take : ∀ node st r st',
  takeRnwChild node st = Some (Ok (r, st')) → R st st'.
Hypothesis Q_classify : ∀ node e file ch,
  classify host config filePath node = Ok (Some e, file) → Q (set_children e ch).
Hypothesis Q_rnw : ∀ rnw node, Q (rnwElement config filePath rnw node).

Lemma parseNodes_inv content :
  Forall (λ node, ∀ st out st',
            parseNode host config filePath rec node st = Some (Ok (out, st')) →
            R st st' ∧ Forall Q (nodes out)) content →
  ∀ st out st',
    parseNodes host config filePath rec content st = Some (Ok (out, st')) →
    R st st' ∧ Forall Q (nodes out).
Proof.
  induction 1 as [|node rest Hnode _ IH]; intros st out st' Hrun.
  { injection Hrun as <- <-. split; [done|constructor]. }
  cbn [parseNodes] in Hrun.
  apply Extract_bind_inv in Hrun as (l & st1 & Hl & Hrun).
  apply Extract_bind_inv in Hrun as (l' & st2 & Hl' & Hrun).
  injection Hrun as <- <-.
  destruct (Hnode _ _ _ Hl) as [HR1 HQ1]. destruct (IH _ _ _ Hl') as [HR2 HQ2].
  split; [by eapply R_trans|]. rewrite nodes_app. by apply Forall_app.
Qed.

Lemma parseNode_inv node :
  ∀ st out st',
    parseNode host config filePath rec node st = Some (Ok (out, st')) →
    R st st' ∧ Forall Q (nodes out).
Proof.
  induction node as [node IH _] using Node_args_ind.
  intros st out st' Hrun. rewrite parseNode_unfold in Hrun.
  apply Extract_bind_inv in Hrun as ([element file] & st1 & Hclass & Hrun).
  assert (st1 = st ∧ classify host config filePath node = Ok (element, file))
    as [-> Hclassify].
  { unfold liftResult in Hclass. destruct (classify _ _ _ _); by simplify_eq. }
  apply Extract_bind_inv in Hrun as (u & st2 & Hfile & Hrun).
  assert (R st st2) as HR2.
  { destruct file; [by eapply R_call|]. injection Hfile as _ <-. apply R_refl. }
  apply Extract_bind_inv in Hrun as (r & st3 & Htake & Hrun).
  assert (R st2 st3) as HR3 by (by eapply R_take).
  apply Extract_bind_inv in Hrun as (pushed & st4 & Hpush & Hrun).
  assert (R st3 st4 ∧ Forall Q (nodes pushed)) as [HR4 Hpushed].
  { destruct r as [rnw|]; [|injection Hpush as <- <-; split; [done|constructor]].
    apply Extract_bind_inv in Hpush as (u' & st5 & Hcall & Hpush).
    injection Hpush as <- <-. split.
    - destruct (subFile config); [by eapply R_call|]. injection Hcall as _ <-. apply R_refl.
    - unfold nodes. simpl. constructor; [apply Q_rnw|constructor]. }
  apply Extract_bind_inv in Hrun as (below & st5 & Hbelow & Hrun).
  injection Hrun as <- <-.
  assert (R st4 st5 ∧ Forall Q (nodes below)) as [HR5 Hb].
  { destruct node; simpl in Hbelow;
      try (injection Hbelow as <- <-; split; [done|constructor]);
      exact (parseNodes_inv _ (IH _ eq_refl) _ _ _ Hbelow). }
  split; [eauto|]. rewrite nodes_app. apply Forall_app. split; [done|].
  destruct element as [element|]; [|done].
  rewrite nodes_cons. unfold nodes at 2. simpl. rewrite app_nil_r.
  constructor; [by eapply Q_classify|].
  by destruct element.
Qed.
End ParseNodeInv.


(** ** What the extractor stores in the cache *)

Lemma subFileElement_kind config macro raw resolved node path e file :
  subFileElement config macro raw resolved node path = (Some e, file) →
  type e = TeXElementType.SubFile ∧ name e = macro ∧ filePath e = path.
Proof.
  unfold subFileElement. destruct resolved; [|done].
  case_bool_decide; [done|]. by intros [= <- _].
Qed.

Lemma classify_kind host config path node e file :
  classify host config path node = Ok (Some e, file) →
  filePath e = path ∧ kindOk config e.
Proof.
  unfold classify. destruct node as [| | | | |p c args|p m env content args| | | | |]; try done.
  - case_bool_decide as Hsec.
    { destruct (argContentToStr _); simpl; [|done]. intros [= <- _]. split; [done|].
      unfold kindOk. simpl. destruct (argContent args 0) as [[|]|]; exact Hsec. }
    case_bool_decide as Hcmd.
    { destruct (argContentToStr _) as [argStr|]; simpl; [|done]. intros [= <- _].
      split; [done|]. unfold kindOk. simpl. split; [done|]. eauto. }
    repeat case_bool_decide;
      repeat match goal with
             | |- context [argContentToStr ?x] => destruct (argContentToStr x); simpl; [|done]
             end;
      try done;
      ( intros [= Hsub]; apply subFileElement_kind in Hsub as (Ht & Hn & Hf);
        split; [done|]; unfold kindOk; rewrite Ht, Hn;
        rewrite !elem_of_app; eauto ).
  - destruct (negb m && bool_decide (env = "frame")) eqn:Hframe.
    { apply andb_true_iff in Hframe as [_ ->%bool_decide_eq_true].
      destruct (argContentToStr (default [] (argContent args 3))) as [caption3|];
        simpl; [|done].
      destruct (if bool_decide (caption3 = "") then _ else _); simpl; [|done].
      intros [= <- _]. split; [done|]. right. by left. }
    destruct (negb m && (_ || _)) eqn:Hfloat.
    { destruct (argContentToStr _); simpl; [|done]. intros [= <- _]. split; [done|].
      left. simpl.
      apply andb_true_iff in Hfloat as [_ Hfloat].
      apply orb_true_iff in Hfloat as [H|H];
        apply andb_true_iff in H as [Henv Hin];
        apply bool_decide_eq_true in Hin;
        apply orb_true_iff in Henv as [Henv|Henv];
        apply bool_decide_eq_true in Henv; subst env; exact Hin. }
    destruct (negb m && (bool_decide (env = "macro") || _)) eqn:Hdoc.
    { destruct (docCaption _); simpl; [|done]. intros [= <- _]. split; [done|].
      right. simpl.
      apply andb_true_iff in Hdoc as [_ Hdoc].
      apply orb_true_iff in Hdoc as [Henv|Henv];
        apply bool_decide_eq_true in Henv; subst env; set_solver. }
    destruct (bool_decide (env ∈ envs (macros config))) eqn:Henv; [|done].
    apply bool_decide_eq_true in Henv.
    intros [= <- _]. split; [done|]. by left.
Qed.

Lemma kindOk_set_children config e ch : kindOk config e → kindOk config (set_children e ch).
Proof. done. Qed.

Lemma rnwElement_kind config path rnw node :
  filePath (rnwElement config path rnw node) = path ∧
  kindOk config (rnwElement config path rnw node).
Proof. split; [done|]. unfold kindOk. simpl. set_solver. Qed.

Section ConstructFileInv.
Variable host : Host.
Variable config : StructureConfig.
Variable QQ : string → TeXElement → Prop.
Hypothesis QQ_classify : ∀ filePath node e file ch,
  classify host config filePath node = Ok (Some e, file) → QQ filePath (set_children e ch).
Hypothesis QQ_rnw : ∀ filePath rnw node, QQ filePath (rnwElement config filePath rnw node).

Lemma constructFile_inv fuel :
  ∀ file structs structs',
    constructFile fuel host file config structs = Some (Ok structs') →
    (CacheAll QQ structs → CacheAll QQ structs') ∧ structs ⊆ structs'.
Proof.
  induction fuel as [|fuel IH]; intros file structs structs' Hrun; [done|].
  cbn [constructFile] in Hrun.
  destruct (structs !! file) eqn:Hfile; [by injection Hrun as <-|].
  destruct (loadSource host file) as [[content|] [ast|]];
    try (by injection Hrun as <-).
  case_bool_decide; [by injection Hrun as <-|].
  destruct (parseNodes _ _ _ _ _ _) as [[[rootChildren st]|]|] eqn:Hparse; [|done..].
  injection Hrun as <-.
  pose (R := λ st st' : ParseState,
          (CacheAll QQ (ps_structs st) → CacheAll QQ (ps_structs st')) ∧
          ps_structs st ⊆ ps_structs st').
  assert (∀ st, R st st) as Hrefl by (intros ?; by split).
  assert (∀ st1 st2 st3, R st1 st2 → R st2 st3 → R st1 st3) as Htrans.
  { intros st1 st2 st3 [? ?] [? ?]. split; [auto|]. by etrans. }
  assert (R (mkParseState (parseRnwChildCommand host content file
                             (default "" (rootFile host))) structs) st
          ∧ Forall (QQ file) (nodes rootChildren)) as [[Hall Hsub] Hroot].
  { eapply (parseNodes_inv host config file _ R (QQ file) Hrefl Htrans); [|exact Hparse].
    apply Forall_forall. intros node _.
    apply (parseNode_inv host config file _ R (QQ file) Hrefl Htrans).
    - intros f st1 u st2. unfold callConstructFile.
      destruct (constructFile fuel host f config (ps_structs st1)) as [[s|]|] eqn:Hcall;
        [|done..].
      intros [= _ <-]. simpl. by apply (IH f).
    - intros node' st1 r st2 Htake.
      destruct (takeRnwChild_spec node' st1) as (r' & st2' & Htake' & Hs & _).
      rewrite Htake in Htake'. injection Htake' as -> ->. split; by rewrite Hs.
    - apply QQ_classify.
    - apply QQ_rnw. }
  simpl in Hall, Hsub. split.
  - intros Hcache f forest. destruct (decide (file = f)) as [->|Hne].
    + rewrite lookup_insert_eq. by intros [= <-].
    + rewrite lookup_insert_ne by done. by apply Hall.
  - apply map_subseteq_spec. intros k v Hk.
    destruct (decide (file = k)) as [->|Hne]; [congruence|].
    rewrite lookup_insert_ne by done. by eapply lookup_weaken.
Qed.
End ConstructFileInv.


(** Every element that [constructFile] stores under a file carries the
    path of that file, provided the cache it started from was in that
    state. *)
Theorem constructFile_elements_filePath fuel host file config structs structs' :
  constructFile fuel host file config structs = Some (Ok structs') →
  CacheAll (λ f e, filePath e = f) structs →
  CacheAll (λ f e, filePath e = f) structs'.
Proof.
  intros Hrun. refine (proj1 (constructFile_inv host config _ _ _ fuel _ _ _ Hrun)).
  - intros fp node e f ch Hclass. apply classify_kind in Hclass as [He _]. exact He.
  - done.
Qed.

(** The kind of every element that [constructFile] stores agrees with its
    name: a section element is named by a section macro, a command element
    by a configured command (and its label starts with [#] and the name),
    an environment element by a configured float or by [frame], [macro] or
    [environment], a sub-file element by an inclusion macro or [RnwChild]. *)
Theorem constructFile_elements_kind fuel host file config structs structs' :
  constructFile fuel host file config structs = Some (Ok structs') →
  CacheAll (λ _, kindOk config) structs →
  CacheAll (λ _, kindOk config) structs'.
Proof.
  intros Hrun. refine (proj1 (constructFile_inv host config _ _ _ fuel _ _ _ Hrun)).
  - intros fp node e f ch Hclass. apply classify_kind in Hclass as [_ He]. exact He.
  - intros fp rnw node. apply rnwElement_kind.
Qed.

(** A run of [constructFile] that returns leaves every entry that the
    cache held as it was, and a second run on the cache it leaves returns
    at once with the same cache. *)
Theorem constructFile_cache_grows fuel host file config structs structs' :
  constructFile fuel host file config structs = Some (Ok structs') →
  structs ⊆ structs' ∧
  ∀ fuel', constructFile (S fuel') host file config structs' = Some (Ok structs').
Proof.
  intros Hrun. split.
  { refine (proj2 (constructFile_inv host config (λ _ _, True) _ _ fuel _ _ _ Hrun)); done. }
  intros fuel'. destruct fuel as [|fuel]; [done|].
  cbn [constructFile] in Hrun |- *.
  destruct (structs !! file) eqn:Hfile.
  { injection Hrun as <-. by rewrite Hfile. }
  destruct (loadSource host file) as [[content|] [ast|]] eqn:Hload;
    try (injection Hrun as <-; by rewrite Hfile).
  case_bool_decide as Hc.
  { injection Hrun as <-. by rewrite Hfile. }
  destruct (parseNodes _ _ _ _ _ _) as [[[rootChildren st]|]|]; [|done..].
  injection Hrun as <-. by rewrite lookup_insert_eq.
Qed.


(** ** Extraction without sub-file merging *)

Lemma subFileElement_file config name raw resolved node filePath e file :
  subFile config = false →
  subFileElement config name raw resolved node filePath = (e, file) → file = None.
Proof.
  intros Hsub. unfold subFileElement. rewrite Hsub. destruct resolved; [|by intros [= _ <-]].
  case_bool_decide; by intros [= _ <-].
Qed.

Lemma classify_file host config filePath node e file :
  subFile config = false →
  classify host config filePath node = Ok (e, file) → file = None.
Proof.
  intros Hsub. unfold classify.
  destruct node as [| | | | |p c args|p m env content args| | | | |];
    try (by intros [= _ <-]).
  - repeat case_bool_decide;
      repeat match goal with
             | |- context [argContentToStr ?x] => destruct (argContentToStr x); simpl; [|done]
             end;
      try (by intros [= _ <-]);
      (intros [= Hs]; by eapply subFileElement_file).
  - repeat match goal with
           | |- context [if ?b then _ else _] => destruct b
           | |- context [argContentToStr ?x] => destruct (argContentToStr x); simpl
           | |- context [docCaption ?x] => destruct (docCaption x); simpl
           end;
      try done; by intros [= _ <-].
Qed.

Lemma settles_bind {A B} (m m' : Extract A) (k k' : A → Extract B) :
  settles m m' →
  (∀ a, (∃ st st', m st = Some (Ok (a, st'))) → settles (k a) (k' a)) →
  settles (m ≫= k) (m' ≫= k').
Proof.
  intros Hm Hk st. unfold mbind, Extract_bind.
  destruct (Hm st) as [<- Hst]. destruct (m st) as [[[a st1]|]|] eqn:Hrun; [|done..].
  destruct (Hk a (ex_intro _ st (ex_intro _ st1 Hrun)) st1) as [<- Hst1].
  split; [done|]. destruct (k a st1) as [[[b st2]|]|]; [|done..]. congruence.
Qed.

Lemma settles_ret {A} (a : A) : settles (mret a) (mret a).
Proof. by intros st. Qed.

Lemma settles_lift {A} (r : result A) : settles (liftResult r) (liftResult r).
Proof. intros st. by destruct r. Qed.

Lemma settles_take node : settles (takeRnwChild node) (takeRnwChild node).
Proof.
  intros st. split; [done|].
  by destruct (takeRnwChild_spec node st) as (r & st1 & -> & Hs1 & _).
Qed.

Section WithoutMerging.
Variable host : Host.
Variable config : StructureConfig.
Variable filePath : string.
Variables rec rec' : string → gmap string (list TeXElement) →
                     option (result (gmap string (list TeXElement))).
Hypothesis Hsub : subFile config = false.

Lemma parseNodes_settles content :
  Forall (λ node, settles (parseNode host config filePath rec node)
                          (parseNode host config filePath rec' node)) content →
  settles (parseNodes host config filePath rec content)
          (parseNodes host config filePath rec' content).
Proof.
  induction 1 as [|node rest Hnode _ IH]; [apply settles_ret|].
  cbn [parseNodes]. apply settles_bind; [done|]. intros l _.
  apply settles_bind; [done|]. intros l' _. apply settles_ret.
Qed.

Lemma parseNode_settles node :
  settles (parseNode host config filePath rec node)
          (parseNode host config filePath rec' node).
Proof.
  induction node as [node IH _] using Node_args_ind.
  rewrite !parseNode_unfold.
  apply settles_bind; [apply settles_lift|]. intros [element file] (st & st' & Hclass).
  assert (file = None) as ->.
  { unfold liftResult in Hclass.
    destruct (classify host config filePath node) as [[e f]|] eqn:Hc; [|done].
    injection Hclass as -> -> _. by eapply classify_file. }
  apply settles_bind; [apply settles_ret|]. intros _ _.
  apply settles_bind; [apply settles_take|]. intros r _.
  apply settles_bind.
  { destruct r as [rnw|]; [|apply settles_ret]. rewrite Hsub.
    apply settles_bind; [apply settles_ret|]. intros _ _. apply settles_ret. }
  intros pushed _. apply settles_bind; [|intros below _; apply settles_ret].
  destruct node; try apply settles_ret; apply parseNodes_settles, IH; done.
Qed.
End WithoutMerging.

Lemma constructFile_without_merging fuel host file config structs :
  subFile config = false →
  constructFile (S fuel) host file config structs
  = constructFile 1 host file config structs ∧
  match constructFile 1 host file config structs with
  | Some (Ok structs') => ∀ f, f ≠ file → structs' !! f = structs !! f
  | Some (Throw _) => True
  | None => False
  end.
Proof.
  intros Hsub. cbn [constructFile].
  destruct (structs !! file); [done|].
  destruct (loadSource host file) as [[content|] [ast|]]; try done.
  case_bool_decide; [done|].
  destruct (parseNodes_settles host config file
              (λ f, constructFile fuel host f config) (λ _ _, None) ast) with
    (st := mkParseState (parseRnwChildCommand host content file
                           (default "" (rootFile host))) structs) as [-> Hst].
  { apply Forall_forall. intros node _. by apply parseNode_settles. }
  split; [done|].
  destruct (parseNodes _ _ _ _ _ _) as [[[rootChildren st]|]|]; [|done..].
  intros f Hf. rewrite lookup_insert_ne by done. by rewrite Hst.
Qed.

(** Without sub-file merging, [construct] extracts no other file than the
    one it is given: it returns or throws however little fuel it has, with
    the same result. *)
Theorem construct_without_merging_settles fuel host filePath :
  construct (S fuel) host filePath false = construct 1 host filePath false ∧
  construct 1 host filePath false ≠ None.
Proof.
  unfold construct.
  destruct (match filePath with Some f => Some f | None => rootFile host end)
    as [file|]; [|done].
  destruct (constructFile_without_merging fuel host file
              (refreshLaTeXModelConfig host false) ∅ eq_refl) as [-> Hone].
  split; [done|].
  destruct (constructFile 1 host file _ ∅) as [[structs|]|]; [|done..].
  by destruct (structs !! file).
Qed.


(** ** The queue of child chunks during the walk *)

Lemma rnwLabels_app f1 f2 : rnwLabels (f1 ++ f2) = rnwLabels f1 ++ rnwLabels f2.
Proof. unfold rnwLabels. by rewrite nodes_app, filter_app, fmap_app. Qed.

Lemma classify_not_rnw host config filePath node e file :
  classify host config filePath node = Ok (Some e, file) → isRnwChild e = false.
Proof.
  intros Hclass. unfold isRnwChild.
  destruct (bool_decide (type e = TeXElementType.SubFile)) eqn:Ht; [|done].
  apply bool_decide_eq_true in Ht. simpl. apply bool_decide_eq_false. intros Hn.
  revert Hclass. unfold classify.
  destruct node as [| | | | |p c args|p m env content args| | | | |]; try done.
  - repeat case_bool_decide;
      repeat match goal with
             | |- context [argContentToStr ?x] => destruct (argContentToStr x); simpl; [|done]
             end;
      try done;
      try (intros [= <- _]; simpl in Ht; by destruct (argContent args 0) as [[|]|]);
      ( intros [= Hsub]; apply subFileElement_kind in Hsub as (_ & Hname & _);
        rewrite Hn in Hname; subst c;
        match goal with
        | H : "RnwChild" ∈ _ |- _ =>
            apply (bool_decide_pack _) in H; vm_compute in H; done
        end ).
  - repeat match goal with
           | |- context [if ?b then _ else _] => destruct b
           | |- context [argContentToStr ?x] => destruct (argContentToStr x); simpl
           | |- context [docCaption ?x] => destruct (docCaption x); simpl
           end;
      try done; intros [= <- _]; done.
Qed.

Lemma last_removelast {A} (l : list A) x : last l = Some x → l = removelast l ++ [x].
Proof.
  intros Hlast. destruct (decide (l = [])) as [->|Hne]; [done|].
  destruct (exists_last Hne) as (init & y & ->).
  rewrite last_snoc in Hlast. injection Hlast as ->. by rewrite removelast_last.
Qed.

Section ParseNodeQueue.
Variable host : Host.
Variable config : StructureConfig.
Variable filePath : string.
Variable rec : string → gmap string (list TeXElement) →
               option (result (gmap string (list TeXElement))).

Lemma parseNodes_queue content :
  Forall (λ node, ∀ st out st',
            parseNode host config filePath rec node st = Some (Ok (out, st')) →
            ∃ popped, ps_rnwSub st = ps_rnwSub st' ++ popped ∧
                      rnwLabels out = rnwLabel config <$> reverse popped) content →
  ∀ st out st',
    parseNodes host config filePath rec content st = Some (Ok (out, st')) →
    ∃ popped, ps_rnwSub st = ps_rnwSub st' ++ popped ∧
              rnwLabels out = rnwLabel config <$> reverse popped.
Proof.
  induction 1 as [|node rest Hnode _ IH]; intros st out st' Hrun.
  { injection Hrun as <- <-. exists []. by rewrite app_nil_r. }
  cbn [parseNodes] in Hrun.
  apply Extract_bind_inv in Hrun as (l & st1 & Hl & Hrun).
  apply Extract_bind_inv in Hrun as (l' & st2 & Hl' & Hrun).
  injection Hrun as <- <-.
  destruct (Hnode _ _ _ Hl) as (p1 & Hq1 & Hl1). destruct (IH _ _ _ Hl') as (p2 & Hq2 & Hl2).
  exists (p2 ++ p1). split; [by rewrite Hq1, Hq2, (assoc_L (++))|].
  by rewrite rnwLabels_app, reverse_app, fmap_app, Hl1, Hl2.
Qed.

Lemma parseNode_queue node :
  ∀ st out st',
    parseNode host config filePath rec node st = Some (Ok (out, st')) →
    ∃ popped, ps_rnwSub st = ps_rnwSub st' ++ popped ∧
              rnwLabels out = rnwLabel config <$> reverse popped.
Proof.
  induction node as [node IH _] using Node_args_ind.
  intros st out st' Hrun. rewrite parseNode_unfold in Hrun.
  apply Extract_bind_inv in Hrun as ([element file] & st1 & Hclass & Hrun).
  assert (st1 = st ∧ classify host config filePath node = Ok (element, file))
    as [-> Hclassify].
  { unfold liftResult in Hclass. destruct (classify _ _ _ _); by simplify_eq. }
  apply Extract_bind_inv in Hrun as (u & st2 & Hfile & Hrun).
  assert (ps_rnwSub st2 = ps_rnwSub st) as Hq2.
  { destruct file; [by eapply callConstructFile_rnwSub|]. by injection Hfile as _ <-. }
  apply Extract_bind_inv in Hrun as (r & st3 & Htake & Hrun).
  apply Extract_bind_inv in Hrun as (pushed & st4 & Hpush & Hrun).
  assert (∃ p, ps_rnwSub st2 = ps_rnwSub st4 ++ p ∧
               rnwLabels pushed = rnwLabel config <$> reverse p) as (p & Hq4 & Hp).
  { destruct (takeRnwChild_spec node st2) as (r' & st3' & Htake' & _ & Hr).
    rewrite Htake in Htake'. injection Htake' as <- <-.
    destruct r as [rnw|].
    - destruct Hr as (Hlast & _ & Hpop).
      apply Extract_bind_inv in Hpush as (u' & st5 & Hcall & Hpush).
      injection Hpush as <- <-. exists [rnw]. split; [|done].
      assert (ps_rnwSub st5 = ps_rnwSub st3) as ->.
      { destruct (subFile config); [by eapply callConstructFile_rnwSub|].
        by injection Hcall as _ <-. }
      rewrite Hpop. by apply last_removelast.
    - destruct Hr as [-> _]. injection Hpush as <- <-. exists []. by rewrite app_nil_r. }
  apply Extract_bind_inv in Hrun as (below & st5 & Hbelow & Hrun).
  injection Hrun as <- <-.
  assert (∃ p', ps_rnwSub st4 = ps_rnwSub st5 ++ p' ∧
                rnwLabels below = rnwLabel config <$> reverse p') as (p' & Hq5 & Hb).
  { destruct node; simpl in Hbelow;
      try (injection Hbelow as <- <-; exists []; by rewrite app_nil_r);
      exact (parseNodes_queue _ (IH _ eq_refl) _ _ _ Hbelow). }
  exists (p' ++ p). split; [by rewrite <- Hq2, Hq4, Hq5, (assoc_L (++))|].
  rewrite rnwLabels_app, reverse_app, fmap_app, Hp. f_equal.
  destruct element as [element|]; [|done].
  rewrite <- Hb. unfold rnwLabels. rewrite nodes_cons. unfold nodes at 2. simpl.
  rewrite app_nil_r, filter_cons_False; [by destruct element|].
  change (isRnwChild (set_children element below)) with (isRnwChild element).
  by rewrite (classify_not_rnw _ _ _ _ _ _ Hclassify).
Qed.
End ParseNodeQueue.

(** The walk over the nodes of a file only pops entries from the end of
    the queue of child chunks, and each popped entry is in what the walk
    pushes as one [RnwChild] element: read depth first, the labels of these
    elements are those of the popped entries, last entry first. *)
Theorem parseNodes_rnw_queue host config filePath rec content st out st' :
  parseNodes host config filePath rec content st = Some (Ok (out, st')) →
  ∃ popped,
    ps_rnwSub st = ps_rnwSub st' ++ popped ∧
    rnwLabels out = rnwLabel config <$> reverse popped.
Proof.
  apply parseNodes_queue, Forall_forall. intros node _. apply parseNode_queue.
Qed.


(** ** What the splice pass leaves *)

Lemma insertSubFile_loop_resolved (P : TeXElement → Prop) visit struct :
  Forall (λ e, ∀ out, visit e = Some out → Forall P (nodes out)) struct →
  ∀ out, insertSubFile_loop visit struct = Some out → Forall P (nodes out).
Proof.
  induction 1 as [|e rest He _ IH]; intros out Hrun; simpl in Hrun.
  { injection Hrun as <-. constructor. }
  destruct (visit e) as [l|] eqn:Hv; [|done]. simpl in Hrun.
  destruct (insertSubFile_loop visit rest) as [l'|]; [|done].
  injection Hrun as <-. rewrite nodes_app. apply Forall_app. eauto.
Qed.

Lemma insertSubFile_elem_resolved structs spliceFile e :
  (∀ sub out, spliceFile sub = Some out →
              Forall (λ x, ¬ resolvable structs x) (nodes out)) →
  ∀ out, insertSubFile_elem structs spliceFile e = Some out →
         Forall (λ x, ¬ resolvable structs x) (nodes out).
Proof.
  intros Hsplice. induction e as [e IH] using TeXElement_forest_ind. intros out.
  destruct e as [t n l i lf lt fp ch]. simpl in IH. cbn [insertSubFile_elem].
  destruct (if bool_decide (t = TeXElementType.SubFile) then structs !! l else None)
    as [sub|] eqn:Hsub; [by apply Hsplice|].
  assert (∀ ch', ¬ resolvable structs (mkTeXElement t n l i lf lt fp ch')) as Hself.
  { intros ch' [Ht [sub Hl]]. simpl in Ht, Hl.
    rewrite bool_decide_eq_true_2 in Hsub by done. congruence. }
  destruct (bool_decide (0 < length ch)) eqn:Hlen; simpl.
  - destruct (insertSubFile_loop _ ch) as [ch'|] eqn:Hloop; [|done]. simpl.
    intros [= <-]. rewrite nodes_cons. unfold nodes at 2. simpl. rewrite app_nil_r.
    constructor; [apply Hself|].
    by eapply insertSubFile_loop_resolved; [|exact Hloop].
  - apply bool_decide_eq_false in Hlen. destruct ch; [|simpl in Hlen; lia].
    intros [= <-]. unfold nodes. simpl. constructor; [apply Hself|constructor].
Qed.

Lemma insertSubFile_struct_resolved fuel host structs struct out :
  insertSubFile_struct fuel host structs struct = Some out →
  Forall (λ x, ¬ resolvable structs x) (nodes out).
Proof.
  revert struct out. induction fuel as [|fuel IH]; intros struct out Hrun; [done|].
  cbn [insertSubFile_struct] in Hrun.
  destruct (rootFile host); [|injection Hrun as <-; constructor].
  eapply insertSubFile_loop_resolved; [|exact Hrun].
  apply Forall_forall. intros e _ out'. apply insertSubFile_elem_resolved. apply IH.
Qed.

Lemma insertSubFile_loop_id visit struct :
  Forall (λ e, visit e = Some [e]) struct →
  insertSubFile_loop visit struct = Some struct.
Proof.
  induction 1 as [|e rest He _ IH]; simpl; [done|]. by rewrite He, IH.
Qed.

Lemma insertSubFile_elem_id structs spliceFile e :
  Forall (λ x, ¬ resolvable structs x) (nodes_elem e) →
  insertSubFile_elem structs spliceFile e = Some [e].
Proof.
  induction e as [e IH] using TeXElement_forest_ind.
  rewrite nodes_elem_unfold. intros [Hself Hch]%Forall_cons.
  destruct e as [t n l i lf lt fp ch]. simpl in IH, Hch. cbn [insertSubFile_elem].
  destruct (if bool_decide (t = TeXElementType.SubFile) then structs !! l else None)
    as [sub|] eqn:Hsub.
  { exfalso. apply Hself. case_bool_decide; [|done]. split; [done|]. by exists sub. }
  destruct (bool_decide (0 < length ch)); simpl; [|done].
  rewrite insertSubFile_loop_id; [done|].
  rewrite Forall_forall in IH |- *. intros c Hc. apply IH; [done|].
  rewrite Forall_forall in Hch |- *. intros x Hx. apply Hch.
  apply elem_of_nodes. eauto.
Qed.

Lemma insertSubFile_struct_id fuel host structs struct :
  is_Some (rootFile host) →
  Forall (λ x, ¬ resolvable structs x) (nodes struct) →
  insertSubFile_struct (S fuel) host structs struct = Some struct.
Proof.
  intros [root Hroot] Hall. cbn [insertSubFile_struct]. rewrite Hroot.
  apply insertSubFile_loop_id. rewrite Forall_forall in Hall |- *.
  intros e He. apply insertSubFile_elem_id. rewrite Forall_forall.
  intros x Hx. apply Hall, elem_of_nodes. eauto.
Qed.

(** When [insertSubFile] returns, it has replaced every [SubFile] element
    whose label is a file of the cache, at every depth and in the spliced
    forests too: none is left in the result, and splicing the result again
    changes nothing. *)
Theorem insertSubFile_resolves fuel host structs struct out :
  insertSubFile fuel host structs struct = Some out →
  Forall (λ x, ¬ resolvable structs x) (nodes out) ∧
  ∀ fuel', insertSubFile (S fuel') host structs (Some out) = Some out.
Proof.
  unfold insertSubFile. destruct (rootFile host) as [root|] eqn:Hroot.
  - intros Hrun%insertSubFile_struct_resolved. split; [done|].
    intros fuel'. simpl. apply insertSubFile_struct_id; [by rewrite Hroot|done].
  - intros [= <-]. split; [constructor|done].
Qed.

(** A forest without a [SubFile] element that the cache resolves is
    returned as it is; so is the forest of the root file of a document that
    includes no file. *)
Theorem insertSubFile_nothing_to_splice fuel host structs struct root :
  rootFile host = Some root →
  Forall (λ x, ¬ resolvable structs x)
    (nodes (default (default [] (structs !! root)) struct)) →
  insertSubFile (S fuel) host structs struct
  = Some (default (default [] (structs !! root)) struct).
Proof.
  intros Hroot Hall. unfold insertSubFile. rewrite Hroot.
  apply insertSubFile_struct_id; [by rewrite Hroot|done].
Qed.


(** ** [nestNonSection], section by section *)

Lemma nestNonSection_loop_frame rec rest :
  ∀ pre acc cur,
    nestNonSection_loop rec rest (pre ++ acc) ((λ i, length pre + i) <$> cur)
    = pre ++ nestNonSection_loop rec rest acc cur.
Proof.
  induction rest as [|e rest IH]; intros pre acc cur; simpl; [done|].
  destruct (isSection e).
  - rewrite <- (assoc_L (++)).
    replace (Some (length (pre ++ acc)))
      with ((λ i, length pre + i) <$> Some (length acc))
      by (simpl; by rewrite length_app).
    apply IH.
  - destruct cur as [i|]; simpl.
    + rewrite alter_app_r. apply (IH pre _ (Some i)).
    + rewrite <- (assoc_L (++)). apply (IH pre _ None).
Qed.

Lemma nestNonSection_loop_followers rec followers :
  Forall (λ e, isSection e = false) followers →
  ∀ rest elements x,
    nestNonSection_loop rec (followers ++ rest) (elements ++ [x])
      (Some (length elements))
    = nestNonSection_loop rec rest
        (elements ++ [set_children x (children x ++ (rec <$> followers))])
        (Some (length elements)).
Proof.
  induction 1 as [|e followers He _ IH]; intros rest elements x; simpl.
  { rewrite app_nil_r. by destruct x. }
  rewrite He.
  replace (length elements) with (length elements + 0) at 1 by lia.
  rewrite alter_app_r. simpl. rewrite IH. simpl.
  by rewrite <- (assoc_L (++)).
Qed.

Lemma nestNonSection_loop_lead rec lead :
  Forall (λ e, isSection e = false) lead →
  ∀ rest elements,
    nestNonSection_loop rec (lead ++ rest) elements None
    = nestNonSection_loop rec rest (elements ++ (rec <$> lead)) None.
Proof.
  induction 1 as [|e lead He _ IH]; intros rest elements; simpl.
  { by rewrite app_nil_r. }
  rewrite He, IH. by rewrite <- (assoc_L (++)).
Qed.

Lemma nestNonSection_loop_split rec pre :
  ∀ elements cur, ∃ cur',
    ∀ rest,
      nestNonSection_loop rec (pre ++ rest) elements cur
      = nestNonSection_loop rec rest (nestNonSection_loop rec pre elements cur) cur'.
Proof.
  induction pre as [|e pre IH]; intros elements cur; simpl.
  { by exists cur. }
  destruct (isSection e); [apply IH|]. destruct cur; apply IH.
Qed.

(** On a forest, [nestNonSection] works section by section: elements that
    no section precedes stay where they are, and the elements that follow
    a section, up to the next section, become its children, after the
    children it has; in both cases the pass has been applied to their own
    children. *)
Lemma nestNonSection_sections :
  (∀ lead, Forall (λ e, isSection e = false) lead →
           nestNonSection lead = nestNonSection_elem <$> lead) ∧
  (∀ pre s followers post,
     isSection s = true →
     Forall (λ e, isSection e = false) followers →
     match post with [] => True | next :: _ => isSection next = true end →
     nestNonSection (pre ++ s :: followers ++ post)
     = nestNonSection pre
       ++ set_children s (children (nestNonSection_elem s)
                          ++ (nestNonSection_elem <$> followers))
       :: nestNonSection post).
Proof.
  split.
  - intros lead Hlead. unfold nestNonSection.
    rewrite <- (app_nil_r lead) at 1. by rewrite nestNonSection_loop_lead.
  - intros pre s followers post Hs Hfollowers Hpost. unfold nestNonSection.
    destruct (nestNonSection_loop_split nestNonSection_elem pre [] None) as [cur' ->].
    set (out_pre := nestNonSection_loop nestNonSection_elem pre [] None).
    cbn [nestNonSection_loop]. rewrite Hs.
    rewrite nestNonSection_loop_followers by done.
    set (s' := set_children (nestNonSection_elem s) _).
    assert (s' = set_children s (children (nestNonSection_elem s)
                                 ++ (nestNonSection_elem <$> followers))) as <-.
    { subst s'. by destruct s. }
    replace (Some (length out_pre))
      with ((λ i, length out_pre + i) <$> Some 0) by (simpl; f_equal; lia).
    rewrite nestNonSection_loop_frame. f_equal.
    destruct post as [|next post]; [done|]. cbn [nestNonSection_loop]. rewrite Hpost.
    apply (nestNonSection_loop_frame nestNonSection_elem post [s'] [_] (Some 0)).
Qed.


(** ** The top level of what [nestSection] returns *)

Lemma topNames_app f1 f2 : topNames (f1 ++ f2) = topNames f1 ++ topNames f2.
Proof. unfold topNames. by rewrite filter_app, fmap_app. Qed.

Lemma topNames_kindName f1 f2 :
  kindName <$> f1 = kindName <$> f2 → topNames f1 = topNames f2.
Proof.
  revert f2. induction f1 as [|x f1 IH]; intros [|y f2]; try done.
  intros [= Ht Hn Hrest]. unfold topNames. rewrite !filter_cons.
  assert (isStackKind x = isStackKind y) as ->.
  { unfold isStackKind, isSection. by rewrite Ht. }
  destruct (decide (isStackKind y = true)); simpl; [f_equal; [done|]|]; by apply IH.
Qed.

Lemma filter_alter_other {A} (P : A → Prop) `{∀ x, Decision (P x)} f i (l : list A) x :
  l !! i = Some x → ¬ P x → ¬ P (f x) → filter P (alter f i l) = filter P l.
Proof.
  revert i. induction l as [|y l IH]; intros [|i] Hi Hx Hfx; try done.
  - injection Hi as ->. change (alter f 0 (x :: l)) with (f x :: l).
    by rewrite !filter_cons_False.
  - change (alter f (S i) (y :: l)) with (y :: alter f i l).
    rewrite !filter_cons. by rewrite (IH i).
Qed.

Lemma ranksDescend_snoc config names b :
  ranksDescend config names →
  (∀ a, last names = Some a → js_le (rank config b) (rank config a) = true) →
  ranksDescend config (names ++ [b]).
Proof.
  intros Hchain Hlast k x y Hx Hy.
  destruct (decide (S k < length names)) as [Hlt|Hge].
  - rewrite lookup_app_l in Hx, Hy by lia. by eapply Hchain.
  - assert (S k = length names) as Hk.
    { apply lookup_lt_Some in Hy. rewrite length_app in Hy. simpl in Hy. lia. }
    rewrite lookup_app_l in Hx by lia.
    rewrite lookup_app_r, Hk, Nat.sub_diag in Hy by lia. injection Hy as <-.
    apply Hlast. rewrite last_lookup. rewrite <- Hx. f_equal. lia.
Qed.

(** What the loop of [nestSection] keeps true of the top level of
    [elements] and of [stack], once it has gone through [processed]. *)
Lemma stepCase_top config elements stack element elements' stack' processed :
  stepCase config elements stack element elements' stack' →
  Forall (λ r, ∃ i p x, ref_path r = i :: p ∧ elements !! i = Some x ∧
                        isStackKind x = true) stack →
  filter (λ e, isStackKind e = false) elements
  = filter (λ e, isStackKind e = false) processed →
  ranksDescend config (topNames elements) →
  match last stack with
  | Some bottom => last (topNames elements) = Some (ref_name bottom)
  | None => topNames elements = []
  end →
  Forall (λ r, ∃ i p x, ref_path r = i :: p ∧ elements' !! i = Some x ∧
                        isStackKind x = true) stack' ∧
  filter (λ e, isStackKind e = false) elements'
  = filter (λ e, isStackKind e = false) (processed ++ [element]) ∧
  ranksDescend config (topNames elements') ∧
  match last stack' with
  | Some bottom => last (topNames elements') = Some (ref_name bottom)
  | None => topNames elements' = []
  end.
Proof.
  intros Hstep Hrefs Hplain Hchain Hlast.
  destruct Hstep as [Hk|Hk Hopen|top below Hk Hsuf Hle].
  - split_and!.
    + eapply Forall_impl; [done|]. intros r (i & p & x & ? & ? & ?).
      exists i, p, x. split_and!; [done| |done]. by apply lookup_app_l_Some.
    + rewrite !filter_app, Hplain. done.
    + rewrite topNames_app. unfold topNames at 2.
      rewrite filter_cons_False by congruence. by rewrite app_nil_r.
    + rewrite topNames_app. unfold topNames at 2 4.
      rewrite filter_cons_False by congruence. by rewrite app_nil_r.
  - split_and!.
    + constructor; [|done]. exists (length elements), [], element.
      split_and!; [done| |done]. by rewrite lookup_app_r, Nat.sub_diag.
    + rewrite !filter_app, Hplain. done.
    + rewrite topNames_app. unfold topNames at 2.
      rewrite filter_cons_True by done. apply ranksDescend_snoc; [done|].
      intros a Ha. destruct Hopen as [->|(bottom & Hb & Hle)].
      * simpl in Hlast. by rewrite Hlast in Ha.
      * rewrite Hb in Hlast. rewrite Hlast in Ha. by injection Ha as <-.
    + simpl. rewrite topNames_app. unfold topNames at 2.
      rewrite filter_cons_True by done. simpl. by rewrite last_snoc.
  - assert (∃ i p x, ref_path top = i :: p ∧ elements !! i = Some x ∧
                     isStackKind x = true) as (i & p & x & Hp & Hi & Hx).
    { destruct Hsuf as [k ->]. apply Forall_app in Hrefs as [_ Hr]. by inversion Hr. }
    assert (kindName <$> pushAt (ref_path top) element elements = kindName <$> elements)
      as Hkinds.
    { apply kindName_pushAt. by rewrite Hp. }
    assert (∀ j y, elements !! j = Some y → isStackKind y = true →
                   ∃ y', pushAt (ref_path top) element elements !! j = Some y' ∧
                         isStackKind y' = true) as Hkeep.
    { intros j y Hj Hy. apply (f_equal (λ l, l !! j)) in Hkinds.
      rewrite !list_lookup_fmap, Hj in Hkinds.
      destruct (pushAt _ _ _ !! j) as [y'|]; [|done]. injection Hkinds as Ht Hn.
      exists y'. split; [done|]. unfold isStackKind, isSection in *. by rewrite Ht. }
    assert (last (top :: below) = last stack) as Hsame.
    { destruct Hsuf as [k ->]. rewrite last_app.
      destruct (last (top :: below)) eqn:Hl; [done|]. by apply last_None in Hl. }
    split_and!.
    + constructor.
      * destruct (Hkeep _ _ Hi Hx) as (x' & Hi' & Hx').
        exists i, (p ++ [length (childrenAt (ref_path top) elements)]), x'.
        split_and!; [|done..]. simpl. by rewrite Hp.
      * destruct Hsuf as [k ->]. apply Forall_app in Hrefs as [_ Hr].
        eapply Forall_impl; [exact Hr|]. intros r (j & q & y & ? & Hj & Hy).
        destruct (Hkeep _ _ Hj Hy) as (y' & ? & ?). by exists j, q, y'.
    + rewrite filter_app, (filter_cons_False _ element) by congruence.
      rewrite filter_nil, app_nil_r, <- Hplain.
      rewrite Hp. cbn [pushAt].
      eapply filter_alter_other; [done|congruence|].
      change (isStackKind (set_children x _)) with (isStackKind x). congruence.
    + by rewrite (topNames_kindName _ _ Hkinds).
    + rewrite (topNames_kindName _ _ Hkinds).
      change (last (_ :: top :: below)) with (last (top :: below)).
      rewrite Hsame. exact Hlast.
Qed.

Lemma nestSection_loop_top config struct :
  ∀ elements stack processed,
    Forall (λ r, ∃ i p x, ref_path r = i :: p ∧ elements !! i = Some x ∧
                          isStackKind x = true) stack →
    filter (λ e, isStackKind e = false) elements
    = filter (λ e, isStackKind e = false) processed →
    ranksDescend config (topNames elements) →
    match last stack with
    | Some bottom => last (topNames elements) = Some (ref_name bottom)
    | None => topNames elements = []
    end →
    ∃ elements' stack',
      nestSection_loop config struct (elements, stack) = Ok (elements', stack') ∧
      filter (λ e, isStackKind e = false) elements'
      = filter (λ e, isStackKind e = false) (processed ++ struct) ∧
      ranksDescend config (topNames elements').
Proof.
  induction struct as [|element rest IH]; intros elements stack processed H1 H2 H3 H4.
  { exists elements, stack. by rewrite app_nil_r. }
  rewrite nestSection_loop_cons.
  destruct (nestSection_step_cases config elements stack element)
    as (elements1 & stack1 & -> & Hstep). simpl.
  destruct (stepCase_top _ _ _ _ _ _ processed Hstep H1 H2 H3 H4) as (H1' & H2' & H3' & H4').
  destruct (IH elements1 stack1 (processed ++ [element]) H1' H2' H3' H4')
    as (elements' & stack' & -> & Hplain & Hchain).
  exists elements', stack'. split_and!; [done| |done].
  by rewrite Hplain, <- (assoc_L (++)).
Qed.

(** On a forest, [nestSection] nests sections and sub-files only: the
    elements of the other kinds that its input holds (at top level) are
    the elements of these kinds at the top level of its result, unchanged
    and in their order. *)
Lemma nestSection_others_top config struct :
  ∃ out,
    nestSection struct config = Ok out ∧
    filter (λ e, isStackKind e = false) out
    = filter (λ e, isStackKind e = false) struct.
Proof.
  destruct (nestSection_loop_top config struct [] [] [])
    as (out & stack & Hrun & Hplain & _); [constructor|done|by intros [|?]|done|].
  exists out. unfold nestSection. by rewrite Hrun.
Qed.

(** The sections and sub-files that [nestSection] leaves at the top level
    have ranks that never increase: of any two that follow one another,
    both have a rank, and the rank of the second is at most that of the
    first.  One without a rank is thus at the top level only when it is
    the only one there. *)
Theorem nestSection_top_ranks_descend config struct :
  ∃ out,
    nestSection struct config = Ok out ∧
    ranksDescend config (topNames out).
Proof.
  destruct (nestSection_loop_top config struct [] [] [])
    as (out & stack & Hrun & _ & Hchain); [constructor|done|by intros [|?]|done|].
  exists out. unfold nestSection. by rewrite Hrun.
Qed.


(** ** The numbers of [addSectionNumber] *)

Lemma addSectionNumber_elem_spec config e tag lowest c e' c' :
  addSectionNumber_elem config e tag lowest c = Ok (e', c') →
  match rank config (name e) with
  | None => e' = e ∧ c' = c
  | Some r =>
      c' = (if bool_decide (type e = TeXElementType.Section)
            then <[r := default 0 (c !! r) + 1]> c else c) ∧
      ∃ padding count,
        zeroPadding r lowest = Ok padding ∧
        counterToString c' r = Ok count ∧
        label e' = (if bool_decide (type e = TeXElementType.Section)
                    then tag +:+ padding +:+ count else "*")
                   +:+ " " +:+ label e
  end.
Proof.
  destruct e as [t n l i lf lt fp ch]. cbn [addSectionNumber_elem name type label].
  destruct (rank config n) as [r|]; [|by intros [= <- <-]].
  destruct (zeroPadding r lowest) as [padding|]; [|done]. simpl.
  destruct (counterToString _ r) as [count|] eqn:Hcount; [|done]. simpl.
  destruct (if bool_decide (0 < length ch) then _ else _) as [ch'|]; [|done]. simpl.
  intros [= <- <-]. split; [done|]. exists padding, count. by rewrite Hcount.
Qed.

Lemma countSections_cons config r e l :
  countSections config r (e :: l)
  = (if bool_decide (type e = TeXElementType.Section ∧ rank config (name e) = Some r)
     then 1 else 0) + countSections config r l.
Proof.
  unfold countSections. rewrite filter_cons. case_bool_decide.
  - by rewrite decide_True.
  - by rewrite decide_False.
Qed.

Lemma countSections_take_S config r struct i e :
  struct !! i = Some e →
  countSections config r (take (S i) struct)
  = countSections config r (take i struct)
    + (if bool_decide (type e = TeXElementType.Section ∧ rank config (name e) = Some r)
       then 1 else 0).
Proof.
  intros Hi. rewrite (take_S_r _ _ _ Hi). unfold countSections.
  rewrite filter_app, length_app. f_equal.
  rewrite filter_cons, filter_nil. case_bool_decide.
  - by rewrite decide_True.
  - by rewrite decide_False.
Qed.

Lemma addSectionNumber_loop_counter config struct :
  ∀ tag lowest c0 out i e,
    addSectionNumber_loop (addSectionNumber_elem config) struct tag lowest c0 = Ok out →
    struct !! i = Some e →
    ∃ ci e' ci',
      addSectionNumber_elem config e tag lowest ci = Ok (e', ci') ∧
      out !! i = Some e' ∧
      ∀ r, default 0 (ci !! r)
           = default 0 (c0 !! r) + countSections config r (take i struct).
Proof.
  induction struct as [|x rest IH]; intros tag lowest c0 out i e Hrun Hi; [done|].
  simpl in Hrun.
  destruct (addSectionNumber_elem config x tag lowest c0) as [[x' c1]|] eqn:Hx; [|done].
  simpl in Hrun.
  destruct (addSectionNumber_loop _ rest tag lowest c1) as [rest'|] eqn:Hrest; [|done].
  simpl in Hrun. injection Hrun as <-.
  destruct i as [|i]; simpl in Hi.
  - injection Hi as <-. exists c0, x', c1. split_and!; [done..|].
    intros r. unfold countSections. simpl. lia.
  - destruct (IH _ _ _ _ _ _ Hrest Hi) as (ci & e' & ci' & Hv & Ho & Hc).
    exists ci, e', ci'. split_and!; [done..|]. intros r. rewrite Hc.
    cbn [take]. rewrite countSections_cons.
    apply addSectionNumber_elem_spec in Hx.
    destruct (rank config (name x)) as [rx|] eqn:Hrx.
    + destruct Hx as [-> _]. case_bool_decide as Hsec.
      * destruct (decide (rx = r)) as [->|Hne].
        -- rewrite lookup_insert_eq, bool_decide_eq_true_2 by done. simpl. lia.
        -- rewrite lookup_insert_ne by done.
           rewrite bool_decide_eq_false_2; [lia|]. intros [_ ?]. congruence.
      * rewrite bool_decide_eq_false_2; [lia|]. by intros [? _].
    + destruct Hx as [_ ->]. rewrite bool_decide_eq_false_2; [lia|]. by intros [_ ?].
Qed.

(** In a scope of a forest that [addSectionNumber] has numbered, a
    non-starred section of rank [r] bears, before its label, the prefix of
    the scope, one [0.] for each rank between the lowest rank of the
    scope and [r], and the count of the non-starred sections of rank [r]
    of the scope up to and including it; any other element with a rank
    bears a star instead. *)
Lemma addSectionNumber_labels_forest config struct tag lowest out i e r :
  addSectionNumber struct config tag lowest = Ok out →
  struct !! i = Some e →
  rank config (name e) = Some r →
  ∃ e', out !! i = Some e' ∧
    if bool_decide (type e = TeXElementType.Section) then
      ∃ padding,
        zeroPadding r (default (minRank config struct) lowest) = Ok padding ∧
        label e'
        = default "" tag +:+ padding
          +:+ toString (countSections config r (take (S i) struct))
          +:+ " " +:+ label e
    else label e' = "* " +:+ label e.
Proof.
  unfold addSectionNumber. intros Hrun Hi Hr.
  destruct (addSectionNumber_loop_counter _ _ _ _ _ _ _ _ Hrun Hi)
    as (ci & e' & ci' & Hv & Ho & Hc).
  exists e'. split; [done|].
  apply addSectionNumber_elem_spec in Hv. rewrite Hr in Hv.
  destruct Hv as (-> & padding & count & Hpad & Hcount & Hlabel).
  case_bool_decide as Hsec; [|done].
  exists padding. split; [done|]. rewrite Hlabel.
  unfold counterToString in Hcount. rewrite lookup_insert_eq in Hcount.
  injection Hcount as <-. rewrite Hc, lookup_empty. simpl.
  rewrite (countSections_take_S _ _ _ _ _ Hi), bool_decide_eq_true_2 by done.
  by rewrite !string_app_assoc.
Qed.

(** On a forest, [addSectionNumber] passes over an element whose name has
    no rank: it comes out as it went in, children included. *)
Lemma addSectionNumber_unranked_forest config struct tag lowest out i e :
  addSectionNumber struct config tag lowest = Ok out →
  struct !! i = Some e →
  rank config (name e) = None →
  out !! i = Some e.
Proof.
  unfold addSectionNumber. intros Hrun Hi Hr.
  destruct (addSectionNumber_loop_counter _ _ _ _ _ _ _ _ Hrun Hi)
    as (ci & e' & ci' & Hv & Ho & _).
  apply addSectionNumber_elem_spec in Hv. rewrite Hr in Hv. by destruct Hv as [-> _].
Qed.

Lemma minRank_cons config x rest :
  minRank config (x :: rest)
  = match rank config (name x) with
    | None => minRank config rest
    | Some rx =>
        match minRank config rest with
        | Infinity => Finite (Z.of_nat rx)
        | Finite z => Finite (Z.min (Z.of_nat rx) z)
        end
    end.
Proof. unfold minRank. simpl. by destruct (rank config (name x)). Qed.

Lemma minRank_le config struct e r :
  e ∈ struct → rank config (name e) = Some r →
  ∃ m, minRank config struct = Finite m ∧ (m ≤ Z.of_nat r)%Z.
Proof.
  intros Hin Hr. induction struct as [|x rest IH]; [by apply elem_of_nil in Hin|].
  rewrite minRank_cons. apply elem_of_cons in Hin as [<-|Hin].
  - rewrite Hr. destruct (minRank config rest) as [z|]; eexists; split; try done; lia.
  - destruct (IH Hin) as (m & -> & Hle).
    destruct (rank config (name x)) as [rx|]; [|eauto].
    eexists. split; [done|]. lia.
Qed.

Lemma addSectionNumber_loop_returns visit struct tag lowest :
  Forall (λ e, ∀ c, ∃ e' c', visit e tag lowest c = Ok (e', c')) struct →
  ∀ c, ∃ out, addSectionNumber_loop visit struct tag lowest c = Ok out.
Proof.
  induction 1 as [|e rest He _ IH]; intros c; simpl; [eauto|].
  destruct (He c) as (e' & c' & ->). simpl.
  destruct (IH c') as (out & ->). simpl. eauto.
Qed.

Lemma addSectionNumber_elem_returns config e :
  Forall (λ x, is_Some (rank config (name x)) → type x = TeXElementType.Section)
    (nodes_elem e) →
  rankOrdered_elem config e = true →
  ∀ tag (lowest : Z) c,
    (∀ r, rank config (name e) = Some r → (lowest ≤ Z.of_nat r)%Z) →
    ∃ e' c', addSectionNumber_elem config e tag (Finite lowest) c = Ok (e', c').
Proof.
  induction e as [e IH] using TeXElement_forest_ind.
  rewrite nodes_elem_unfold, rankOrdered_elem_unfold.
  intros [Hself Hbelow]%Forall_cons [Hpairs Hord]%andb_true_iff tag lowest c Hlow.
  apply forallb_Forall in Hpairs. unfold rankOrdered in Hord. apply forallb_Forall in Hord.
  destruct e as [t n l i lf lt fp ch].
  cbn [children name type] in *. cbn [addSectionNumber_elem].
  destruct (rank config n) as [r|] eqn:Hr; [|eauto].
  specialize (Hself (ex_intro _ r eq_refl)). subst t.
  rewrite bool_decide_eq_true_2 by done.
  unfold zeroPadding, js_repeat. rewrite decide_False by (specialize (Hlow r eq_refl); lia).
  cbn [mbind result_bind]. unfold counterToString. rewrite lookup_insert_eq.
  cbn [mbind result_bind].
  destruct (bool_decide (0 < length ch)); [|cbn [mbind result_bind]; eauto].
  match goal with
  | |- context [addSectionNumber_loop _ ch ?tg ?lw ?c0] =>
      destruct (addSectionNumber_loop_returns (addSectionNumber_elem config) ch tg lw)
        with (c := c0) as (ch' & ->); [|cbn [mbind result_bind]; eauto]
  end.
  rewrite Forall_forall in IH, Hpairs, Hord, Hbelow |- *.
  intros child Hchild c0. apply IH; [done| |by apply Hord|].
  - apply Forall_forall. intros x Hx. apply Hbelow, elem_of_nodes. eauto.
  - intros rc Hrc.
    assert (type child = TeXElementType.Section) as Hc.
    { apply Hbelow; [|eauto]. apply elem_of_nodes. exists child. split; [done|].
      rewrite nodes_elem_unfold. by left. }
    pose proof (proj1 (pairOk_spec config _ child) (Hpairs child Hchild)) as Hpair.
    unfold isSection in Hpair. cbn [type name] in Hpair. rewrite Hc in Hpair.
    specialize (Hpair eq_refl eq_refl r rc Hr Hrc). lia.
Qed.

(** [addSectionNumber] returns, throwing nothing, on a forest whose
    elements with a rank are all non-starred sections, and in which a
    section under a section has the greater rank (as pass 3 leaves it). *)
Theorem addSectionNumber_returns config struct :
  Forall (λ x, is_Some (rank config (name x)) → type x = TeXElementType.Section)
    (nodes struct) →
  RankOrdered config struct →
  ∃ out, addSectionNumber struct config None None = Ok out.
Proof.
  intros Hall Hord%rankOrdered_spec. unfold addSectionNumber. simpl.
  unfold rankOrdered in Hord. apply forallb_Forall in Hord.
  destruct (minRank config struct) as [m|] eqn:Hmin.
  - apply addSectionNumber_loop_returns.
    rewrite Forall_forall in Hall, Hord |- *. intros e He c.
    apply addSectionNumber_elem_returns; [|by apply Hord|].
    + apply Forall_forall. intros x Hx. apply Hall, elem_of_nodes. eauto.
    + intros r Hr. destruct (minRank_le config struct e r He Hr) as (m' & Hm' & Hle).
      congruence.
  - (* no element of the scope has a rank *)
    apply addSectionNumber_loop_returns.
    rewrite Forall_forall. intros e He c.
    destruct (rank config (name e)) as [r|] eqn:Hr.
    + destruct (minRank_le config struct e r He Hr) as (m' & Hm' & _). congruence.
    + destruct e as [t n l i lf lt fp ch]. simpl in *. rewrite Hr. eauto.
Qed.


(** ** The outline holds the elements that were extracted *)

Lemma numberSequence_unlabel l counter :
  unlabel <$> (numberSequence l counter).1 = unlabel <$> l.
Proof.
  revert counter. induction l as [|e l IH]; intros counter; [done|].
  cbn [numberSequence].
  destruct (isNumberedFloat e);
    match goal with |- context [numberSequence l ?c] =>
      specialize (IH c); destruct (numberSequence l c) as [rest' c2] end;
    cbn [fst] in *; rewrite !fmap_cons; by f_equal.
Qed.

Lemma addFloatNumber_unlabel struct counter :
  unlabel <$> flatten (addFloatNumber struct counter).1 = unlabel <$> flatten struct.
Proof.
  pose proof (addFloatNumber_sequence struct counter) as Hseq.
  apply (f_equal fst) in Hseq. simpl in Hseq. rewrite Hseq.
  apply numberSequence_unlabel.
Qed.

Lemma addSectionNumber_loop_unlabel visit struct :
  Forall (λ e, ∀ tag lowest counter e' counter',
            visit e tag lowest counter = Ok (e', counter') →
            unlabel <$> flatten [e'] = unlabel <$> flatten [e]) struct →
  ∀ tag lowest counter out,
    addSectionNumber_loop visit struct tag lowest counter = Ok out →
    unlabel <$> flatten out = unlabel <$> flatten struct.
Proof.
  induction 1 as [|e rest He _ IH]; intros tag lowest counter out Hrun; simpl in *.
  { by injection Hrun as <-. }
  destruct (visit e tag lowest counter) as [[e' c1]|] eqn:Hv; [|done]. simpl in Hrun.
  destruct (addSectionNumber_loop visit rest tag lowest c1) as [rest'|] eqn:Hr; [|done].
  simpl in Hrun. injection Hrun as <-.
  rewrite (flatten_cons_app e'), (flatten_cons_app e), !fmap_app.
  by rewrite (He _ _ _ _ _ Hv), (IH _ _ _ _ Hr).
Qed.

Lemma addSectionNumber_elem_unlabel config e :
  ∀ tag lowest counter e' counter',
    addSectionNumber_elem config e tag lowest counter = Ok (e', counter') →
    unlabel <$> flatten [e'] = unlabel <$> flatten [e].
Proof.
  induction e as [e IH] using TeXElement_forest_ind.
  intros tag lowest counter e' counter' Hrun.
  destruct e as [t n l i lf lt fp ch]. cbn [children] in IH.
  cbn [addSectionNumber_elem] in Hrun.
  destruct (rank config n) as [r|]; [|by injection Hrun as <- <-].
  destruct (zeroPadding r lowest) as [padding|]; [|done]. simpl in Hrun.
  destruct (counterToString _ r) as [count|]; [|done]. simpl in Hrun.
  destruct (bool_decide (0 < length ch)).
  - destruct (addSectionNumber_loop _ ch _ _ _) as [ch'|] eqn:Hch; simpl in Hrun; [|done].
    injection Hrun as <- <-. rewrite !flatten_singleton. cbn [children].
    rewrite !fmap_cons. f_equal.
    exact (addSectionNumber_loop_unlabel _ ch IH _ _ _ _ Hch).
  - simpl in Hrun. injection Hrun as <- <-. by rewrite !flatten_singleton.
Qed.

Lemma addSectionNumber_unlabel struct config tag lowest out :
  addSectionNumber struct config tag lowest = Ok out →
  unlabel <$> flatten out = unlabel <$> flatten struct.
Proof.
  apply addSectionNumber_loop_unlabel, Forall_forall.
  intros e _. apply addSectionNumber_elem_unlabel.
Qed.

Lemma assemble_flatten host config subFile struct out :
  assemble host config subFile struct = Ok out →
  unlabel <$> flatten out ≡ₚ unlabel <$> flatten struct ∧
  (subFile = false → flatten out ≡ₚ flatten struct).
Proof.
  unfold assemble.
  destruct (nestSection_loop_perm config (nestNonSection struct) [] [])
    as (nested & stack & Hrun & _ & Hperm); [constructor|].
  unfold nestSection. rewrite Hrun. simpl. simpl in Hperm.
  rewrite nestNonSection_flatten in Hperm.
  destruct subFile; simpl.
  - set (numbered := if view_outline_floats_number_enabled _
                     then (addFloatNumber nested ∅).1 else nested).
    assert (unlabel <$> flatten numbered = unlabel <$> flatten nested) as Hnum.
    { subst numbered. destruct (view_outline_floats_number_enabled _); [|done].
      apply addFloatNumber_unlabel. }
    destruct (view_outline_numbers_enabled _).
    + intros Hout%addSectionNumber_unlabel. split; [|done].
      by rewrite Hout, Hnum, Hperm.
    + intros [= <-]. split; [|done]. by rewrite Hnum, Hperm.
  - intros [= <-]. split; [by rewrite Hperm|done].
Qed.


(** ** Every section of the outline has a rank *)

Section InsertSubFileAll.
Variable P : TeXElement → Prop.
Hypothesis P_children : ∀ e ch, P e → P (set_children e ch).
Variable structs : gmap string (list TeXElement).
Hypothesis P_cache : ∀ f forest, structs !! f = Some forest → Forall P (nodes forest).

Lemma insertSubFile_elem_all spliceFile e :
  (∀ sub out, spliceFile sub = Some out → Forall P (nodes sub) → Forall P (nodes out)) →
  Forall P (nodes_elem e) →
  ∀ out, insertSubFile_elem structs spliceFile e = Some out → Forall P (nodes out).
Proof.
  intros Hsplice. induction e as [e IH] using TeXElement_forest_ind.
  rewrite nodes_elem_unfold. intros [Hself Hbelow]%Forall_cons out.
  destruct e as [t n l i lf lt fp ch]. cbn [children] in *. cbn [insertSubFile_elem].
  destruct (if bool_decide (t = TeXElementType.SubFile) then structs !! l else None)
    as [sub|] eqn:Hsub.
  { intros Hrun. apply (Hsplice _ _ Hrun). case_bool_decide; [|done]. by eapply P_cache. }
  destruct (bool_decide (0 < length ch)) eqn:Hlen; simpl.
  - destruct (insertSubFile_loop _ ch) as [ch'|] eqn:Hloop; [|done]. simpl.
    intros [= <-]. rewrite nodes_cons. unfold nodes at 2. simpl. rewrite app_nil_r.
    constructor; [exact (P_children _ ch' Hself)|].
    eapply insertSubFile_loop_resolved; [|exact Hloop].
    rewrite Forall_forall in IH |- *. intros c Hc. apply IH; [done|].
    apply Forall_forall. intros x Hx. rewrite Forall_forall in Hbelow.
    apply Hbelow, elem_of_nodes. eauto.
  - intros [= <-]. unfold nodes. simpl. rewrite app_nil_r. by constructor.
Qed.

Lemma insertSubFile_struct_all fuel host struct out :
  insertSubFile_struct fuel host structs struct = Some out →
  Forall P (nodes struct) → Forall P (nodes out).
Proof.
  revert struct out. induction fuel as [|fuel IH]; intros struct out Hrun Hall; [done|].
  cbn [insertSubFile_struct] in Hrun.
  destruct (rootFile host); [|injection Hrun as <-; constructor].
  eapply insertSubFile_loop_resolved; [|exact Hrun].
  rewrite Forall_forall in Hall |- *. intros e He out'.
  apply insertSubFile_elem_all; [apply IH|].
  apply Forall_forall. intros x Hx. apply Hall, elem_of_nodes. eauto.
Qed.
End InsertSubFileAll.

Lemma unlabel_flatten_kinds (Q : TeXElementType.t → string → Prop) out struct :
  unlabel <$> flatten out ≡ₚ unlabel <$> flatten struct →
  Forall (λ x, Q (type x) (name x)) (nodes struct) →
  Forall (λ x, Q (type x) (name x)) (nodes out).
Proof.
  intros Hperm Hall. rewrite Forall_forall in Hall |- *. intros x Hx.
  assert (unlabel (set_children x []) ∈ unlabel <$> flatten out) as Hin.
  { unfold flatten. rewrite <- list_fmap_compose. apply list_elem_of_fmap.
    by exists x. }
  rewrite Hperm in Hin. unfold flatten in Hin. rewrite <- list_fmap_compose in Hin.
  apply list_elem_of_fmap in Hin as (y & Hxy & Hy).
  specialize (Hall y Hy). simpl in Hxy.
  apply (f_equal type) in Hxy as Ht. apply (f_equal name) in Hxy as Hn.
  simpl in Ht, Hn. by rewrite Ht, Hn.
Qed.

(** Every section of what [construct] returns, starred or not, bears the
    name of a section macro of the configuration, and so has a rank. *)
Theorem construct_sections_ranked fuel host filePath subFile out :
  construct fuel host filePath subFile = Some (Ok out) →
  ∀ x, x ∈ nodes out → isSection x = true →
       name x ∈ secs (macros (refreshLaTeXModelConfig host subFile)) ∧
       is_Some (rank (refreshLaTeXModelConfig host subFile) (name x)).
Proof.
  intros Hrun.
  set (config := refreshLaTeXModelConfig host subFile).
  set (Q := λ (t : TeXElementType.t) (n : string),
         t = TeXElementType.Section ∨ t = TeXElementType.SectionAst →
         n ∈ secs (macros config)).
  assert (Forall (λ x, Q (type x) (name x)) (nodes out)) as Hout.
  { revert Hrun. unfold construct.
    destruct (match filePath with Some f => Some f | None => rootFile host end)
      as [file|]; [|intros [= <-]; constructor].
    fold config.
    destruct (constructFile fuel host file config ∅) as [[structs|]|] eqn:Hextract;
      [|done..].
    assert (CacheAll (λ _ x, Q (type x) (name x)) structs) as Hcache.
    { refine (proj1 (constructFile_inv host config _ _ _ fuel _ _ _ Hextract) _).
      - intros fp node e f ch Hclass. apply classify_kind in Hclass as [_ Hk].
        unfold Q. change (type (set_children e ch)) with (type e).
        change (name (set_children e ch)) with (name e).
        unfold kindOk in Hk. intros [Ht|Ht]; by rewrite Ht in Hk.
      - intros fp rnw node [?|?]; done.
      - intros f forest. by rewrite lookup_empty. }
    destruct subFile.
    - unfold insertSubFile. destruct (rootFile host) as [root|] eqn:Hroot.
      + destruct (insertSubFile_struct _ _ _ _) as [struct|] eqn:Hsplice; [|done].
        simpl. intros [= Hrun]. apply assemble_flatten in Hrun as [Hperm _].
        eapply unlabel_flatten_kinds; [exact Hperm|].
        apply (insertSubFile_struct_all (λ x, Q (type x) (name x)) (λ e ch H, H)
                 structs Hcache _ _ _ _ Hsplice).
        destruct (structs !! root) as [forest|] eqn:Hf; [by eapply Hcache|constructor].
      + simpl. intros [= Hrun]. apply assemble_flatten in Hrun as [Hperm _].
        eapply unlabel_flatten_kinds; [exact Hperm|constructor].
    - destruct (structs !! file) as [struct|] eqn:Hfile; [|done].
      intros [= Hrun]. apply assemble_flatten in Hrun as [Hperm _].
      eapply unlabel_flatten_kinds; [exact Hperm|]. by eapply Hcache. }
  intros x Hx Hsec. rewrite Forall_forall in Hout.
  assert (name x ∈ secs (macros config)) as Hin.
  { apply (Hout x Hx). unfold isSection in Hsec.
    apply orb_true_iff in Hsec as [?%bool_decide_eq_true|?%bool_decide_eq_true]; auto. }
  split; [done|]. by apply refreshLaTeXModelConfig_secs_ranked.
Qed.


(** ** Waiting for the cache, and files without content *)

Lemma waitForCache_spec ready budget :
  ∀ waited,
    let '(w, forced) := waitForCache ready waited budget in
    waited ≤ w ∧ w ≤ waited + budget ∧
    (∀ k, waited ≤ k → k < w → ready k = false) ∧
    if forced then w = waited + budget else ready w = true ∧ w < waited + budget.
Proof.
  induction budget as [|budget IH]; intros waited; simpl.
  { split_and!; [lia..| |lia]. intros k ? ?. lia. }
  destruct (ready waited) eqn:Hready.
  { split_and!; [lia|lia|intros k ? ?; lia|done|lia]. }
  specialize (IH (S waited)). destruct (waitForCache ready (S waited) budget) as [w forced].
  destruct IH as (H1 & H2 & H3 & H4). split_and!; [lia..| |].
  - intros k Hk Hw. destruct (decide (k = waited)) as [->|Hne]; [done|]. apply H3; lia.
  - destruct forced; [lia|]. destruct H4. split; [done|lia].
Qed.

(** The polling loop of [constructFile] waits at most twenty times; it
    stops at the first poll that finds the cache of the file ready or being
    filled, and forces a refresh exactly when none of twenty polls does. *)
Theorem waitForCache_bounded ready :
  let '(waited, forced) := waitForCache ready 0 20 in
  waited ≤ 20 ∧
  (∀ k, k < waited → ready k = false) ∧
  (if forced then waited = 20 else ready waited = true) ∧
  (forced = true ↔ ∀ k, k < 20 → ready k = false).
Proof.
  pose proof (waitForCache_spec ready 20 0) as Hspec.
  destruct (waitForCache ready 0 20) as [waited forced].
  destruct Hspec as (_ & Hle & Hnot & Hend). split_and!; [lia| | |].
  - intros k Hk. apply Hnot; lia.
  - destruct forced; [done|]. by destruct Hend.
  - destruct forced.
    + split; [|done]. intros _ k Hk. apply Hnot; lia.
    + split; [done|]. intros Hall. destruct Hend as [Hready Hlt].
      rewrite Hall in Hready by lia. done.
Qed.

(** A file without content, with empty content or without a parsed tree
    gets no entry in the cache: asked for its outline, [construct] throws
    a [TypeError] without sub-file merging, and returns the empty list with
    it. *)
Theorem construct_without_content fuel host filePath file :
  match filePath with Some f => Some f | None => rootFile host end = Some file →
  match loadSource host file with
  | (Some content, Some _) => content = ""
  | _ => True
  end →
  construct (S fuel) host filePath false = Some (Throw TypeError) ∧
  construct (S fuel) host filePath true = Some (Ok []).
Proof.
  intros Hfile Hload. unfold construct. rewrite Hfile.
  assert (∀ subFile,
            constructFile (S fuel) host file (refreshLaTeXModelConfig host subFile) ∅
            = Some (Ok ∅)) as Hextract.
  { intros subFile. cbn [constructFile]. rewrite lookup_empty.
    destruct (loadSource host file) as [[content|] [ast|]]; try done.
    by rewrite bool_decide_eq_true_2. }
  rewrite !Hextract. split.
  - by rewrite lookup_empty.
  - unfold insertSubFile. destruct (rootFile host) as [root|] eqn:Hroot.
    + cbn [insertSubFile_struct]. rewrite Hroot, lookup_empty. simpl.
      by rewrite assemble_nil.
    + simpl. by rewrite assemble_nil.
Qed.

(** A DocTeX environment ([macro] or [environment]) whose body starts with
    a node that has no [content] (white space or a paragraph break) makes
    [parseNode] throw a [TypeError]: the caption is read from the content
    of the first node of the body without a guard. *)
Theorem parseNode_doctex_throws host config filePath rec position env first rest args st :
  env = "macro" ∨ env = "environment" →
  Ast.contentNodes first = None →
  Ast.contentString first = None →
  parseNode host config filePath rec
    (Ast.Environment position false env (first :: rest) args) st
  = Some (Throw TypeError).
Proof.
  intros Henv Hnodes Hstring. rewrite parseNode_unfold.
  assert (classify host config filePath
            (Ast.Environment position false env (first :: rest) args)
          = Throw TypeError) as Hclass.
  { unfold classify, docCaption. rewrite Hnodes, Hstring.
    destruct Henv as [-> | ->]; simpl;
      repeat match goal with
             | |- context [bool_decide ?P] => destruct (bool_decide P)
             end; done. }
  unfold mbind at 1, Extract_bind at 1. by rewrite Hclass.
Qed.


(** ** The forest of a file does not depend on the cache *)

Lemma Extract_bind_intro {A B} (m : Extract A) (k : A → Extract B) st a st1 r :
  m st = Some (Ok (a, st1)) → k a st1 = r → (m ≫= k) st = r.
Proof. intros Hm Hk. unfold mbind, Extract_bind. by rewrite Hm. Qed.

Lemma takeRnwChild_queue node st r st1 st0 :
  takeRnwChild node st = Some (Ok (r, st1)) →
  ps_rnwSub st0 = ps_rnwSub st →
  ∃ st01, takeRnwChild node st0 = Some (Ok (r, st01)) ∧
          ps_rnwSub st01 = ps_rnwSub st1.
Proof.
  unfold takeRnwChild. intros Hrun Hq. rewrite Hq.
  destruct (last (ps_rnwSub st)) as [rnw|].
  - case_bool_decide; injection Hrun as <- <-; eexists; split; try done.
  - injection Hrun as <- <-. by eexists.
Qed.

Section ParseNodeForest.
Variable host : Host.
Variable config : StructureConfig.
Variable filePath : string.
Variable rec : string → gmap string (list TeXElement) →
               option (result (gmap string (list TeXElement))).

Lemma callConstructFile_at_once file st :
  ∃ st', callConstructFile (λ _ structs, Some (Ok structs)) file st = Some (Ok ((), st')) ∧
         ps_rnwSub st' = ps_rnwSub st.
Proof. unfold callConstructFile. by eexists. Qed.

Lemma parseNodes_forest content :
  Forall (λ node, ∀ st out st',
            parseNode host config filePath rec node st = Some (Ok (out, st')) →
            ∀ st0, ps_rnwSub st0 = ps_rnwSub st →
              ∃ st0', parseNode host config filePath (λ _ structs, Some (Ok structs))
                        node st0 = Some (Ok (out, st0')) ∧
                      ps_rnwSub st0' = ps_rnwSub st') content →
  ∀ st out st',
    parseNodes host config filePath rec content st = Some (Ok (out, st')) →
    ∀ st0, ps_rnwSub st0 = ps_rnwSub st →
      ∃ st0', parseNodes host config filePath (λ _ structs, Some (Ok structs))
                content st0 = Some (Ok (out, st0')) ∧
              ps_rnwSub st0' = ps_rnwSub st'.
Proof.
  induction 1 as [|node rest Hnode _ IH]; intros st out st' Hrun st0 Hq.
  { injection Hrun as <- <-. by exists st0. }
  cbn [parseNodes] in Hrun |- *.
  apply Extract_bind_inv in Hrun as (l & st1 & Hl & Hrun).
  apply Extract_bind_inv in Hrun as (l' & st2 & Hl' & Hrun).
  injection Hrun as <- <-.
  destruct (Hnode _ _ _ Hl st0 Hq) as (st01 & Hl0 & Hq1).
  destruct (IH _ _ _ Hl' st01 Hq1) as (st02 & Hl0' & Hq2).
  exists st02. split; [|done].
  eapply Extract_bind_intro; [exact Hl0|].
  eapply Extract_bind_intro; [exact Hl0'|]. done.
Qed.

Lemma parseNode_forest node :
  ∀ st out st',
    parseNode host config filePath rec node st = Some (Ok (out, st')) →
    ∀ st0, ps_rnwSub st0 = ps_rnwSub st →
      ∃ st0', parseNode host config filePath (λ _ structs, Some (Ok structs))
                node st0 = Some (Ok (out, st0')) ∧
              ps_rnwSub st0' = ps_rnwSub st'.
Proof.
  induction node as [node IH _] using Node_args_ind.
  intros st out st' Hrun st0 Hq. rewrite parseNode_unfold in Hrun.
  apply Extract_bind_inv in Hrun as ([element file] & st1 & Hclass & Hrun).
  assert (st1 = st ∧ classify host config filePath node = Ok (element, file))
    as [-> Hclassify].
  { unfold liftResult in Hclass. destruct (classify _ _ _ _); by simplify_eq. }
  apply Extract_bind_inv in Hrun as (u & st2 & Hfile & Hrun).
  assert (ps_rnwSub st2 = ps_rnwSub st) as Hq2.
  { destruct file; [by eapply callConstructFile_rnwSub|]. by injection Hfile as _ <-. }
  apply Extract_bind_inv in Hrun as (r & st3 & Htake & Hrun).
  apply Extract_bind_inv in Hrun as (pushed & st4 & Hpush & Hrun).
  apply Extract_bind_inv in Hrun as (below & st5 & Hbelow & Hrun).
  injection Hrun as <- <-.
  (* the same steps, with calls that return at once *)
  assert (∃ st02, (match file with
                   | Some file => callConstructFile (λ _ structs, Some (Ok structs)) file
                   | None => mret ()
                   end) st0 = Some (Ok ((), st02)) ∧ ps_rnwSub st02 = ps_rnwSub st2)
    as (st02 & Hfile0 & Hq02).
  { destruct file as [file|].
    - destruct (callConstructFile_at_once file st0) as (st02 & ? & ?).
      exists st02. split; [done|congruence].
    - exists st0. split; [done|congruence]. }
  destruct (takeRnwChild_queue node st2 r st3 st02 Htake Hq02) as (st03 & Htake0 & Hq03).
  assert (∃ st04, (match r with
                   | Some rnw =>
                       _ ← (if subFile config
                            then callConstructFile (λ _ structs, Some (Ok structs))
                                   (rnw_subFile rnw)
                            else mret ());
                       mret [rnwElement config filePath rnw node]
                   | None => mret []
                   end) st03 = Some (Ok (pushed, st04)) ∧ ps_rnwSub st04 = ps_rnwSub st4)
    as (st04 & Hpush0 & Hq04).
  { destruct r as [rnw|].
    - apply Extract_bind_inv in Hpush as (u' & st6 & Hcall & Hpush).
      injection Hpush as <- <-.
      assert (ps_rnwSub st6 = ps_rnwSub st3) as Hq6.
      { destruct (subFile config); [by eapply callConstructFile_rnwSub|].
        by injection Hcall as _ <-. }
      destruct (subFile config).
      + destruct (callConstructFile_at_once (rnw_subFile rnw) st03) as (st04 & Hc & Hq4).
        exists st04. split; [|congruence].
        eapply Extract_bind_intro; [exact Hc|]. done.
      + exists st03. split; [done|congruence].
    - injection Hpush as <- <-. exists st03. split; [done|congruence]. }
  assert (∃ st05, (match node with
                   | Ast.Root _ content | Ast.Environment _ _ _ content _
                   | Ast.InlineMath _ content | Ast.DisplayMath _ content
                   | Ast.Group _ content =>
                       parseNodes host config filePath (λ _ structs, Some (Ok structs))
                         content
                   | _ => mret []
                   end) st04 = Some (Ok (below, st05)) ∧ ps_rnwSub st05 = ps_rnwSub st5)
    as (st05 & Hbelow0 & Hq05).
  { destruct node; simpl in Hbelow |- *;
      try (injection Hbelow as <- <-; exists st04; split; [done|congruence]);
      exact (parseNodes_forest _ (IH _ eq_refl) _ _ _ Hbelow st04 Hq04). }
  exists st05. split; [|done]. rewrite parseNode_unfold.
  eapply Extract_bind_intro; [by unfold liftResult; rewrite Hclassify|].
  eapply Extract_bind_intro; [exact Hfile0|].
  eapply Extract_bind_intro; [exact Htake0|].
  eapply Extract_bind_intro; [exact Hpush0|].
  eapply Extract_bind_intro; [exact Hbelow0|]. done.
Qed.
End ParseNodeForest.


(** ** The cache that the extractor builds is layered *)

Lemma classify_subFile host config filePath node e file :
  subFile config = true →
  classify host config filePath node = Ok (Some e, file) →
  type e = TeXElementType.SubFile →
  file = Some (label e).
Proof.
  intros Hsub. unfold classify.
  assert (∀ name raw resolved,
            subFileElement config name raw resolved node filePath = (Some e, file) →
            file = Some (label e)) as Hfile.
  { intros n raw resolved. unfold subFileElement. rewrite Hsub.
    destruct resolved; [|done]. case_bool_decide; [done|]. by intros [= <- <-]. }
  destruct node as [| | | | |p c args|p m env content args| | | | |]; try done.
  - repeat case_bool_decide;
      repeat match goal with
             | |- context [argContentToStr ?x] => destruct (argContentToStr x); simpl; [|done]
             end;
      try done;
      try (intros [= <- _] Ht; simpl in Ht; by destruct (argContent args 0) as [[|]|]);
      (intros [= Hs] _; by eapply Hfile).
  - repeat match goal with
           | |- context [if ?b then _ else _] => destruct b
           | |- context [argContentToStr ?x] => destruct (argContentToStr x); simpl
           | |- context [docCaption ?x] => destruct (docCaption x); simpl
           end;
      try done; intros [= <- _]; done.
Qed.

Section ParseNodeClosed.
Variable host : Host.
Variable config : StructureConfig.
Variable filePath : string.
Variable rec : string → gmap string (list TeXElement) →
               option (result (gmap string (list TeXElement))).
Hypothesis Hsub : subFile config = true.
Hypothesis Hrec : ∀ file structs structs',
  rec file structs = Some (Ok structs') →
  structs ⊆ structs' ∧ (is_Some (structs' !! file) ∨ ¬ available host file).

Lemma callConstructFile_closed file st u st' :
  callConstructFile rec file st = Some (Ok (u, st')) →
  ps_structs st ⊆ ps_structs st' ∧
  (is_Some (ps_structs st' !! file) ∨ ¬ available host file).
Proof.
  unfold callConstructFile.
  destruct (rec file (ps_structs st)) as [[s|]|] eqn:Hcall; [|done..].
  intros [= _ <-]. simpl. by apply Hrec.
Qed.

Lemma is_Some_weaken (m1 m2 : gmap string (list TeXElement)) k :
  m1 ⊆ m2 → is_Some (m1 !! k) → is_Some (m2 !! k).
Proof. intros Hsub' [v Hv]. exists v. by eapply lookup_weaken. Qed.

Lemma parseNodes_closed content :
  Forall (λ node, ∀ st out st',
            parseNode host config filePath rec node st = Some (Ok (out, st')) →
            ps_structs st ⊆ ps_structs st' ∧
            ∀ x, x ∈ nodes out → type x = TeXElementType.SubFile →
                 is_Some (ps_structs st' !! label x) ∨ ¬ available host (label x))
         content →
  ∀ st out st',
    parseNodes host config filePath rec content st = Some (Ok (out, st')) →
    ps_structs st ⊆ ps_structs st' ∧
    ∀ x, x ∈ nodes out → type x = TeXElementType.SubFile →
         is_Some (ps_structs st' !! label x) ∨ ¬ available host (label x).
Proof.
  induction 1 as [|node rest Hnode _ IH]; intros st out st' Hrun.
  { injection Hrun as <- <-. split; [done|]. by intros x ?%elem_of_nil. }
  cbn [parseNodes] in Hrun.
  apply Extract_bind_inv in Hrun as (l & st1 & Hl & Hrun).
  apply Extract_bind_inv in Hrun as (l' & st2 & Hl' & Hrun).
  injection Hrun as <- <-.
  destruct (Hnode _ _ _ Hl) as [Hs1 Hc1]. destruct (IH _ _ _ Hl') as [Hs2 Hc2].
  split; [by etrans|]. intros x Hx Ht. rewrite nodes_app in Hx.
  apply elem_of_app in Hx as [Hx|Hx]; [|by apply Hc2].
  destruct (Hc1 x Hx Ht) as [Hin|Hun]; [left|by right]. by eapply is_Some_weaken.
Qed.

Lemma parseNode_closed node :
  ∀ st out st',
    parseNode host config filePath rec node st = Some (Ok (out, st')) →
    ps_structs st ⊆ ps_structs st' ∧
    ∀ x, x ∈ nodes out → type x = TeXElementType.SubFile →
         is_Some (ps_structs st' !! label x) ∨ ¬ available host (label x).
Proof.
  induction node as [node IH _] using Node_args_ind.
  intros st out st' Hrun. rewrite parseNode_unfold in Hrun.
  apply Extract_bind_inv in Hrun as ([element file] & st1 & Hclass & Hrun).
  assert (st1 = st ∧ classify host config filePath node = Ok (element, file))
    as [-> Hclassify].
  { unfold liftResult in Hclass. destruct (classify _ _ _ _); by simplify_eq. }
  apply Extract_bind_inv in Hrun as (u & st2 & Hfile & Hrun).
  assert (ps_structs st ⊆ ps_structs st2 ∧
          ∀ f, file = Some f →
               is_Some (ps_structs st2 !! f) ∨ ¬ available host f) as [Hs2 Hc2].
  { destruct file as [f|].
    - apply callConstructFile_closed in Hfile as [? ?]. split; [done|]. by intros ? [= <-].
    - injection Hfile as _ <-. by split. }
  apply Extract_bind_inv in Hrun as (r & st3 & Htake & Hrun).
  assert (ps_structs st3 = ps_structs st2) as Hs3.
  { destruct (takeRnwChild_spec node st2) as (r' & st3' & Htake' & Hs & _).
    rewrite Htake in Htake'. by injection Htake' as -> ->. }
  apply Extract_bind_inv in Hrun as (pushed & st4 & Hpush & Hrun).
  assert (ps_structs st3 ⊆ ps_structs st4 ∧
          ∀ x, x ∈ nodes pushed → type x = TeXElementType.SubFile →
               is_Some (ps_structs st4 !! label x) ∨ ¬ available host (label x))
    as [Hs4 Hc4].
  { destruct r as [rnw|].
    - apply Extract_bind_inv in Hpush as (u' & st6 & Hcall & Hpush).
      injection Hpush as <- <-. rewrite Hsub in Hcall.
      apply callConstructFile_closed in Hcall as [? Hc]. split; [done|].
      intros x Hx _. unfold nodes in Hx. simpl in Hx.
      apply list_elem_of_singleton in Hx as ->. simpl. by rewrite Hsub.
    - injection Hpush as <- <-. split; [done|]. by intros x ?%elem_of_nil. }
  apply Extract_bind_inv in Hrun as (below & st5 & Hbelow & Hrun).
  injection Hrun as <- <-.
  assert (ps_structs st4 ⊆ ps_structs st5 ∧
          ∀ x, x ∈ nodes below → type x = TeXElementType.SubFile →
               is_Some (ps_structs st5 !! label x) ∨ ¬ available host (label x))
    as [Hs5 Hc5].
  { destruct node; simpl in Hbelow;
      try (injection Hbelow as <- <-; split; [done|]; by intros x ?%elem_of_nil);
      exact (parseNodes_closed _ (IH _ eq_refl) _ _ _ Hbelow). }
  split.
  { etrans; [exact Hs2|]. rewrite <- Hs3. by etrans. }
  intros x Hx Ht. rewrite nodes_app in Hx. apply elem_of_app in Hx as [Hx|Hx].
  { destruct (Hc4 x Hx Ht) as [Hin|Hun]; [left|by right]. by eapply is_Some_weaken. }
  destruct element as [element|]; [|by apply Hc5].
  rewrite nodes_cons in Hx. unfold nodes at 2 in Hx. simpl in Hx. rewrite app_nil_r in Hx.
  apply elem_of_cons in Hx as [->|Hx].
  - change (type (set_children element below)) with (type element) in Ht.
    change (label (set_children element below)) with (label element).
    pose proof (classify_subFile _ _ _ _ _ _ Hsub Hclassify Ht) as Hf.
    destruct (Hc2 _ Hf) as [Hin|Hun]; [left|by right].
    eapply is_Some_weaken; [|exact Hin]. rewrite <- Hs3. by etrans.
  - apply Hc5; [|done]. by destruct element.
Qed.
End ParseNodeClosed.


Lemma constructFile_layers host config fuel :
  subFile config = true →
  ∀ file structs structs',
    constructFile fuel host file config structs = Some (Ok structs') →
    structs ⊆ structs' ∧
    (is_Some (structs' !! file) ∨ ¬ available host file) ∧
    (Canonical host config structs ∧ Closed host structs ∧ Layered structs →
     Canonical host config structs' ∧ Closed host structs' ∧ Layered structs').
Proof.
  intros Hsub. induction fuel as [|fuel IH]; intros file structs structs' Hrun; [done|].
  cbn [constructFile] in Hrun.
  destruct (structs !! file) eqn:Hfile.
  { injection Hrun as <-. split_and!; [done| |done]. left. by rewrite Hfile. }
  unfold available.
  destruct (loadSource host file) as [[content|] [ast|]] eqn:Hload;
    try (injection Hrun as <-; split_and!; [done|right; tauto|done]).
  case_bool_decide as Hcontent.
  { injection Hrun as <-. split_and!; [done| |done]. right. by intros ?. }
  destruct (parseNodes _ _ _ _ _ _) as [[[rootChildren st]|]|] eqn:Hparse; [|done..].
  injection Hrun as <-.
  set (rec := λ f, constructFile fuel host f config) in Hparse.
  set (st0 := mkParseState _ structs) in Hparse.
  assert (∀ f s s', rec f s = Some (Ok s') →
                    s ⊆ s' ∧ (is_Some (s' !! f) ∨ ¬ available host f)) as Hrec.
  { intros f s s' Hcall. destruct (IH f s s' Hcall) as (? & ? & _). done. }
  (* the state after the walk *)
  assert (ps_structs st0 ⊆ ps_structs st ∧
          ∀ x, x ∈ nodes rootChildren → type x = TeXElementType.SubFile →
               is_Some (ps_structs st !! label x) ∨ ¬ available host (label x))
    as [Hgrow Hclosed].
  { eapply parseNodes_closed; [|exact Hparse].
    apply Forall_forall. intros node _. by apply parseNode_closed. }
  simpl in Hgrow.
  pose (R := λ st1 st2 : ParseState,
          Canonical host config (ps_structs st1) ∧ Closed host (ps_structs st1) ∧
          Layered (ps_structs st1) →
          Canonical host config (ps_structs st2) ∧ Closed host (ps_structs st2) ∧
          Layered (ps_structs st2)).
  assert (R st0 st) as Hkeep.
  { refine (proj1 (parseNodes_inv host config file rec R (λ _, True) _ _ ast _ _ _ _ Hparse)).
    - by intros ? ?.
    - intros st1 st2 st3 H12 H23 H1. by apply H23, H12.
    - apply Forall_forall. intros node _.
      apply (parseNode_inv host config file rec R (λ _, True)); try done.
      + by intros ? ?.
      + intros st1 st2 st3 H12 H23 H1. by apply H23, H12.
      + intros f st1 u st2. unfold callConstructFile.
        destruct (rec f (ps_structs st1)) as [[s|]|] eqn:Hcall; [|done..].
        intros [= _ <-]. simpl. intros H1. by apply (IH f _ _ Hcall).
      + intros node' st1 r st2 Htake.
        destruct (takeRnwChild_spec node' st1) as (r' & st2' & Htake' & Hs & _).
        rewrite Htake in Htake'. injection Htake' as -> ->. unfold R. by rewrite Hs. }
  (* the forest of the file, whatever the cache *)
  assert (available host file ∧ forestOf host config file = Some rootChildren)
    as [Havail Hforest].
  { unfold available, forestOf. rewrite Hload. split; [done|].
    assert (Forall (λ node, ∀ st out st',
              parseNode host config file rec node st = Some (Ok (out, st')) →
              ∀ st0, ps_rnwSub st0 = ps_rnwSub st →
                ∃ st0', parseNode host config file (λ _ structs, Some (Ok structs))
                          node st0 = Some (Ok (out, st0')) ∧
                        ps_rnwSub st0' = ps_rnwSub st') ast) as Hast.
    { apply Forall_forall. intros node _. apply parseNode_forest. }
    destruct (parseNodes_forest host config file rec ast Hast st0 rootChildren st Hparse
                (mkParseState (parseRnwChildCommand host content file
                                 (default "" (rootFile host))) gmap_empty) eq_refl)
      as (st1 & Hrun1 & _).
    cbv beta iota.
    match goal with
    | |- match ?run with _ => _ end = _ =>
        replace run with (Some (Ok (rootChildren, st1))) by (symmetry; exact Hrun1)
    end.
    done. }
  split_and!.
  - apply map_subseteq_spec. intros k v Hk.
    destruct (decide (file = k)) as [->|Hne]; [congruence|].
    rewrite lookup_insert_ne by done. by eapply lookup_weaken.
  - left. by rewrite lookup_insert_eq.
  - intros Hbefore. destruct (Hkeep Hbefore) as (Hcanon & Hclos & ρ & Hbound & Horder).
    simpl in Hcanon, Hclos, Hbound, Horder.
    destruct (ps_structs st !! file) as [old|] eqn:Hold.
    { (* a nested call has stored the same forest *)
      destruct (Hcanon _ _ Hold) as [_ Hsame].
      rewrite Hforest in Hsame. injection Hsame as ->.
      rewrite insert_id by done. split_and!; [done..|]. by exists ρ. }
    split_and!.
    + intros g forest. destruct (decide (file = g)) as [<-|Hne].
      * rewrite lookup_insert_eq. by intros [= <-].
      * rewrite lookup_insert_ne by done. apply Hcanon.
    + intros g forest x Hg Hx Ht.
      assert (is_Some (ps_structs st !! label x) ∨ ¬ available host (label x)) as [Hin|Hun].
      { destruct (decide (file = g)) as [<-|Hne].
        - rewrite lookup_insert_eq in Hg. injection Hg as <-. by apply Hclosed.
        - rewrite lookup_insert_ne in Hg by done. by eapply Hclos. }
      * left. destruct (decide (file = label x)) as [->|Hne].
        -- by rewrite lookup_insert_eq.
        -- by rewrite lookup_insert_ne.
      * by right.
    + exists (λ g, if decide (g = file) then size (ps_structs st) else ρ g).
      rewrite map_size_insert_None by done. split.
      * intros g Hg. destruct (decide (g = file)) as [->|Hne]; [lia|].
        rewrite lookup_insert_ne in Hg by done. specialize (Hbound g Hg). lia.
      * intros g forest x Hg Hx Ht Hl.
        assert (label x ≠ file) as Hne.
        { intros Heq.
          assert (is_Some (ps_structs st !! label x) ∨ ¬ available host (label x))
            as [[? Hin]|Hun].
          { destruct (decide (file = g)) as [<-|Hne'].
            - rewrite lookup_insert_eq in Hg. injection Hg as <-. by apply Hclosed.
            - rewrite lookup_insert_ne in Hg by done. by eapply Hclos. }
          - rewrite Heq in Hin. congruence.
          - rewrite Heq in Hun. done. }
        rewrite (decide_False (P := label x = file)) by done.
        rewrite lookup_insert_ne in Hl by done.
        destruct (decide (g = file)) as [->|Hne'].
        -- by apply Hbound.
        -- rewrite lookup_insert_ne in Hg by done. by eapply Horder.
Qed.


(** ** More fuel changes nothing *)

Section ParseNodeFuel.
Variable host : Host.
Variable config : StructureConfig.
Variable filePath : string.
Variables rec rec' : string → gmap string (list TeXElement) →
                     option (result (gmap string (list TeXElement))).
Hypothesis Hrec : ∀ file structs r, rec file structs = Some r → rec' file structs = Some r.




End ParseNodeFuel.








(** ** The splice pass returns on a layered cache *)




Lemma constructFile_canonical host config fuel :
  ∀ file structs structs',
    constructFile fuel host file config structs = Some (Ok structs') →
    Canonical host config structs → Canonical host config structs'.
Proof.
  induction fuel as [|fuel IH]; intros file structs structs' Hrun; [done|].
  cbn [constructFile] in Hrun.
  destruct (structs !! file) eqn:Hfile; [by injection Hrun as <-|].
  destruct (loadSource host file) as [[content|] [ast|]] eqn:Hload;
    try (by injection Hrun as <-).
  case_bool_decide as Hcontent; [by injection Hrun as <-|].
  destruct (parseNodes _ _ _ _ _ _) as [[[rootChildren st]|]|] eqn:Hparse; [|done..].
  injection Hrun as <-.
  set (rec := λ f, constructFile fuel host f config) in Hparse.
  set (st0 := mkParseState _ structs) in Hparse.
  pose (R := λ st1 st2 : ParseState,
          Canonical host config (ps_structs st1) → Canonical host config (ps_structs st2)).
  assert (R st0 st) as Hkeep.
  { refine (proj1 (parseNodes_inv host config file rec R (λ _, True) _ _ ast _ _ _ _ Hparse)).
    - by intros ? ?.
    - intros st1 st2 st3 H12 H23 H1. by apply H23, H12.
    - apply Forall_forall. intros node _.
      apply (parseNode_inv host config file rec R (λ _, True)); try done.
      + by intros ? ?.
      + intros st1 st2 st3 H12 H23 H1. by apply H23, H12.
      + intros f st1 u st2. unfold callConstructFile.
        destruct (rec f (ps_structs st1)) as [[s|]|] eqn:Hcall; [|done..].
        intros [= _ <-]. simpl. intros H1. by apply (IH f _ _ Hcall).
      + intros node' st1 r st2 Htake.
        destruct (takeRnwChild_spec node' st1) as (r' & st2' & Htake' & Hs & _).
        rewrite Htake in Htake'. injection Htake' as -> ->. unfold R. by rewrite Hs. }
  assert (available host file ∧ forestOf host config file = Some rootChildren)
    as [Havail Hforest].
  { unfold available, forestOf. rewrite Hload. split; [done|].
    assert (Forall (λ node, ∀ st out st',
              parseNode host config file rec node st = Some (Ok (out, st')) →
              ∀ st0, ps_rnwSub st0 = ps_rnwSub st →
                ∃ st0', parseNode host config file (λ _ structs, Some (Ok structs))
                          node st0 = Some (Ok (out, st0')) ∧
                        ps_rnwSub st0' = ps_rnwSub st') ast) as Hast.
    { apply Forall_forall. intros node _. apply parseNode_forest. }
    destruct (parseNodes_forest host config file rec ast Hast st0 rootChildren st Hparse
                (mkParseState (parseRnwChildCommand host content file
                                 (default "" (rootFile host))) gmap_empty) eq_refl)
      as (st1 & Hrun1 & _).
    cbv beta iota.
    match goal with
    | |- match ?run with _ => _ end = _ =>
        replace run with (Some (Ok (rootChildren, st1))) by (symmetry; exact Hrun1)
    end.
    done. }
  intros Hbefore g forest. destruct (decide (file = g)) as [<-|Hne].
  - rewrite lookup_insert_eq. by intros [= <-].
  - rewrite lookup_insert_ne by done. by apply Hkeep.
Qed.

(** The forest that [constructFile] stores for a file is the forest of
    that file alone: it is the same whatever the cache held and whatever
    the nested calls did, the one obtained when every nested call returns
    at once; and only files with content get an entry. *)
Theorem constructFile_stores_forestOf fuel host file config structs :
  constructFile fuel host file config ∅ = Some (Ok structs) →
  ∀ g forest, structs !! g = Some forest →
              available host g ∧ forestOf host config g = Some forest.
Proof.
  intros Hrun. apply (constructFile_canonical _ _ _ _ _ _ Hrun).
  intros g forest. by rewrite lookup_empty.
Qed.



(** ** Inclusion cycles, in general *)

Lemma includes_key host config structs f g :
  Canonical host config structs → Closed host structs →
  includes host config f g →
  is_Some (structs !! f) → is_Some (structs !! g).
Proof.
  intros Hcanon Hclosed (_ & Hg & forest & x & Hforest & Hx & Ht & <-) [stored Hf].
  destruct (Hcanon _ _ Hf) as [_ Hsame]. rewrite Hforest in Hsame. injection Hsame as ->.
  by destruct (Hclosed _ _ x Hf Hx Ht).
Qed.

Lemma includes_layer host config structs (layer : string → nat) f g :
  Canonical host config structs → Closed host structs →
  (∀ file forest x,
     structs !! file = Some forest → x ∈ nodes forest →
     type x = TeXElementType.SubFile → is_Some (structs !! label x) →
     layer (label x) < layer file) →
  tc (includes host config) f g →
  is_Some (structs !! f) →
  is_Some (structs !! g) ∧ layer g < layer f.
Proof.
  intros Hcanon Hclosed Horder.
  assert (∀ a b, includes host config a b → is_Some (structs !! a) →
                 is_Some (structs !! b) ∧ layer b < layer a) as Hstep.
  { intros a b Hab Ha. pose proof (includes_key _ _ _ _ _ Hcanon Hclosed Hab Ha) as Hb.
    split; [done|].
    destruct Hab as (_ & _ & forest & x & Hforest & Hx & Ht & <-). destruct Ha as [stored Ha].
    destruct (Hcanon _ _ Ha) as [_ Hsame]. rewrite Hforest in Hsame. injection Hsame as ->.
    by eapply Horder. }
  induction 1 as [a b Hab|a b c Hab _ IH]; intros Ha; [by apply Hstep|].
  destruct (Hstep _ _ Hab Ha) as [Hb Hlt]. destruct (IH Hb) as [Hc Hlt']. split; [done|lia].
Qed.

(** With sub-file merging, the extraction of a file never returns when a
    cycle of files that include one another can be reached from it,
    whatever the fuel: each call finds the cache without the files that
    are being extracted and extracts them again. *)
Theorem constructFile_cycle_never_returns fuel host config file g structs :
  subFile config = true →
  rtc (includes host config) file g →
  tc (includes host config) g g →
  constructFile fuel host file config ∅ ≠ Some (Ok structs).
Proof.
  intros Hsub Hreach Hcycle Hrun.
  destruct (constructFile_layers host config fuel Hsub _ _ _ Hrun)
    as (_ & Hfile & Hkeep).
  destruct Hkeep as (Hcanon & Hclosed & layer & _ & Horder).
  { split_and!.
    - intros f forest. by rewrite lookup_empty.
    - intros f forest x. by rewrite lookup_empty.
    - exists (λ _, 0). split; [intros f [? Hf]|intros f forest x Hf];
        by rewrite lookup_empty in Hf. }
  assert (available host file) as Havail.
  { destruct Hreach as [a|a b c Hfirst _]; [|by destruct Hfirst].
    inversion Hcycle as [x y Hfirst|x y z Hfirst _]; by destruct Hfirst. }
  assert (is_Some (structs !! file)) as Hkey by (by destruct Hfile).
  assert (is_Some (structs !! g)) as Hg.
  { clear Hfile Havail Hcycle Hrun. revert Hkey.
    induction Hreach as [|a b c Hab _ IH]; intros Hkey; [done|].
    apply IH. by eapply includes_key. }
  destruct (includes_layer _ _ _ layer _ _ Hcanon Hclosed Horder Hcycle Hg) as [_ Hlt]. lia.
Qed.


(** ** The store and the forests it holds *)

Lemma forest_ind (P : list TeXElement → Prop) :
  P [] → (∀ e rest, P (children e) → P rest → P (e :: rest)) → ∀ ts, P ts.
Proof.
  intros Hnil Hcons.
  assert (∀ e, ∀ rest, P rest → P (e :: rest)) as Helem.
  { induction e as [e IH] using TeXElement_forest_ind. intros rest Hrest.
    apply Hcons; [|done]. induction IH as [|c ch Hc _ IHch]; [done|]. by apply Hc. }
  induction ts as [|e ts IH]; [done|]. by apply Helem.
Qed.

Lemma frame_refl fp σ : frame fp σ σ.
Proof. by split. Qed.

Lemma frame_trans fp σ1 σ2 σ3 : frame fp σ1 σ2 → frame fp σ2 σ3 → frame fp σ1 σ3.
Proof.
  intros [Hl1 H1] [Hl2 H2]. split; [congruence|].
  intros k Hk. by rewrite H2, H1.
Qed.

Lemma frame_mono fp fp' σ σ' : fp ⊆ fp' → frame fp σ σ' → frame fp' σ σ'.
Proof. intros Hsub [Hl H]. split; [done|]. intros k Hk. apply H. set_solver. Qed.

Lemma frame_alter f l fp σ : l ∈ fp → frame fp σ (alter f l σ).
Proof.
  intros Hl. split; [by rewrite length_alter|].
  intros k Hk. apply list_lookup_alter_ne. intros ->. done.
Qed.

Lemma stored_agree_both σ σ' :
  (∀ l t fp, Heap.stored σ l t fp →
             (∀ k, k ∈ fp → σ' !! k = σ !! k) → Heap.stored σ' l t fp) ∧
  (∀ ls ts fp, Heap.storedAll σ ls ts fp →
               (∀ k, k ∈ fp → σ' !! k = σ !! k) → Heap.storedAll σ' ls ts fp).
Proof.
  assert (∀ l t fp (H : Heap.stored σ l t fp),
            (∀ k, k ∈ fp → σ' !! k = σ !! k) → Heap.stored σ' l t fp) as Hone.
  { intros l t fp H.
    induction H using stored_mut with
      (P0 := λ ls ts fp _, (∀ k, k ∈ fp → σ' !! k = σ !! k) → Heap.storedAll σ' ls ts fp).
    - intros Hag. constructor; [|apply IHstored; intros k Hk; apply Hag; set_solver|done].
      rewrite Hag; [done|set_solver].
    - intros _. constructor.
    - intros Hag. constructor; [apply IHstored|apply IHstored0|done];
        intros k Hk; apply Hag; set_solver. }
  split; [exact Hone|].
  intros ls ts fp H. induction H as [|l ls t ts fp fps Hl Hls IH Hdisj]; intros Hag.
  - constructor.
  - constructor; [eapply Hone; [done|]|apply IH|done]; intros k Hk; apply Hag; set_solver.
Qed.

Lemma stored_agree σ σ' l t fp :
  Heap.stored σ l t fp → (∀ k, k ∈ fp → σ' !! k = σ !! k) → Heap.stored σ' l t fp.
Proof. apply stored_agree_both. Qed.

Lemma storedAll_agree σ σ' ls ts fp :
  Heap.storedAll σ ls ts fp → (∀ k, k ∈ fp → σ' !! k = σ !! k) →
  Heap.storedAll σ' ls ts fp.
Proof. apply stored_agree_both. Qed.

(** A forest that lies outside the objects a pass may write stays. *)
Lemma storedAll_frame σ σ' ls ts fp fp' :
  Heap.storedAll σ ls ts fp → frame fp' σ σ' → fp ## fp' →
  Heap.storedAll σ' ls ts fp.
Proof.
  intros H [_ Hfr] Hdisj. eapply storedAll_agree; [done|].
  intros k Hk. apply Hfr. set_solver.
Qed.

Lemma stored_frame σ σ' l t fp fp' :
  Heap.stored σ l t fp → frame fp' σ σ' → fp ## fp' → Heap.stored σ' l t fp.
Proof.
  intros H [_ Hfr] Hdisj. eapply stored_agree; [done|].
  intros k Hk. apply Hfr. set_solver.
Qed.

Lemma stored_inv σ l t fp :
  Heap.stored σ l t fp →
  ∃ o ch fpc,
    t = Heap.elementOf o ch ∧ fp = {[l]} ∪ fpc ∧ σ !! l = Some o ∧
    Heap.storedAll σ (Heap.o_children o) ch fpc ∧ l ∉ fpc.
Proof. intros H. inversion H; subst. eauto 10. Qed.

Lemma stored_own σ l t fp : Heap.stored σ l t fp → l ∈ fp.
Proof. intros (o & ch & fpc & _ & -> & _)%stored_inv. set_solver. Qed.

Lemma storedAll_cons_inv σ l ls ts fp :
  Heap.storedAll σ (l :: ls) ts fp →
  ∃ t ts' fp1 fp2,
    ts = t :: ts' ∧ fp = fp1 ∪ fp2 ∧ Heap.stored σ l t fp1 ∧
    Heap.storedAll σ ls ts' fp2 ∧ fp1 ## fp2.
Proof. intros H. inversion H; subst. eauto 10. Qed.

Lemma storedAll_cons_inv_r σ ls t ts fp :
  Heap.storedAll σ ls (t :: ts) fp →
  ∃ l ls' fp1 fp2,
    ls = l :: ls' ∧ fp = fp1 ∪ fp2 ∧ Heap.stored σ l t fp1 ∧
    Heap.storedAll σ ls' ts fp2 ∧ fp1 ## fp2.
Proof. intros H. inversion H; subst. eauto 10. Qed.

Lemma storedAll_nil_inv σ ls fp : Heap.storedAll σ ls [] fp → ls = [] ∧ fp = ∅.
Proof. intros H. by inversion H. Qed.

Lemma storedAll_nil_inv_l σ ts fp : Heap.storedAll σ [] ts fp → ts = [] ∧ fp = ∅.
Proof. intros H. by inversion H. Qed.

Lemma storedAll_length σ ls ts fp :
  Heap.storedAll σ ls ts fp → length ls = length ts.
Proof. induction 1; simpl; congruence. Qed.

Lemma storedAll_app σ ls1 ls2 ts1 ts2 fp1 fp2 :
  Heap.storedAll σ ls1 ts1 fp1 → Heap.storedAll σ ls2 ts2 fp2 → fp1 ## fp2 →
  Heap.storedAll σ (ls1 ++ ls2) (ts1 ++ ts2) (fp1 ∪ fp2).
Proof.
  intros H1. revert fp2. induction H1 as [|l ls t ts fp fps Hl Hls IH Hdisj]; intros fp2 H2 Hd.
  - simpl. by rewrite (left_id_L ∅ (∪)).
  - simpl. rewrite <- (assoc_L (∪)). constructor; [done|apply IH; [done|set_solver]|].
    set_solver.
Qed.

Lemma storedAll_singleton σ l t fp :
  Heap.stored σ l t fp → Heap.storedAll σ [l] [t] fp.
Proof.
  intros H. rewrite <- (right_id_L ∅ (∪) fp). constructor; [done|constructor|set_solver].
Qed.

Lemma storedAll_app_inv σ ls1 ls2 ts fp :
  Heap.storedAll σ (ls1 ++ ls2) ts fp →
  ∃ ts1 ts2 fp1 fp2,
    ts = ts1 ++ ts2 ∧ fp = fp1 ∪ fp2 ∧ fp1 ## fp2 ∧
    Heap.storedAll σ ls1 ts1 fp1 ∧ Heap.storedAll σ ls2 ts2 fp2.
Proof.
  revert ts fp. induction ls1 as [|l ls1 IH]; intros ts fp H; simpl in H.
  - exists [], ts, ∅, fp. split_and!; [done|set_solver|set_solver|constructor|done].
  - apply storedAll_cons_inv in H as (t & ts' & fpa & fpb & -> & -> & Hl & Hrest & Hd).
    destruct (IH _ _ Hrest) as (ts1 & ts2 & fp1 & fp2 & -> & -> & Hd' & H1 & H2).
    exists (t :: ts1), ts2, (fpa ∪ fp1), fp2.
    split_and!; [done|set_solver|set_solver| |done].
    constructor; [done..|set_solver].
Qed.

(** ** Running a computation on the store *)

Lemma run_bind {A B} (m : Heap.Run A) (k : A → Heap.Run B) σ :
  (m ≫= k) σ = match m σ with
               | Some (Ok (a, σ')) => k a σ'
               | Some (Throw e) => Some (Throw e)
               | None => None
               end.
Proof. done. Qed.

Lemma run_ret {A} (a : A) σ : (mret a : Heap.Run A) σ = Some (Ok (a, σ)).
Proof. done. Qed.

Lemma run_load l o σ : σ !! l = Some o → Heap.load l σ = Some (Ok (o, σ)).
Proof. unfold Heap.load. by intros ->. Qed.

Lemma run_update l f σ : Heap.update l f σ = Some (Ok ((), alter f l σ)).
Proof. done. Qed.

Lemma alter_insert {A} (f : A → A) (l : nat) (σ : list A) o :
  σ !! l = Some o → alter f l σ = <[l := f o]> σ.
Proof.
  intros Hl. apply list_eq. intros i. destruct (decide (i = l)) as [->|Hne].
  - rewrite list_lookup_alter, Hl, decide_True by done.
    rewrite list_lookup_insert_eq; [done|by eapply lookup_lt_Some].
  - by rewrite list_lookup_alter_ne, list_lookup_insert_ne.
Qed.

Lemma run_update_at l f σ o :
  σ !! l = Some o → Heap.update l f σ = Some (Ok ((), <[l := f o]> σ)).
Proof. intros Hl. unfold Heap.update. by rewrite (alter_insert _ _ _ _ Hl). Qed.

Lemma frame_insert l o fp (σ : Heap.Store) : l ∈ fp → frame fp σ (<[l := o]> σ).
Proof.
  intros Hl. split; [apply length_insert|].
  intros k Hk. apply list_lookup_insert_ne. intros ->. done.
Qed.

Lemma run_lift_ok {A} (a : A) σ : Heap.lift (Ok a) σ = Some (Ok (a, σ)).
Proof. done. Qed.

Lemma run_lift_throw {A} e σ : Heap.lift (@Throw A e) σ = Some (Throw e).
Proof. done. Qed.


(** ** [addFloatNumber] on a store that holds every object once *)

Lemma addFloatNumber_cons e rest counter :
  addFloatNumber (e :: rest) counter
  = let r1 := addFloatNumber_elem e counter in
    let r2 := addFloatNumber rest r1.2 in
    (r1.1 :: r2.1, r2.2).
Proof.
  unfold addFloatNumber. cbn [addFloatNumber_loop].
  destruct (addFloatNumber_elem e counter) as [e' c']. simpl.
  destruct (addFloatNumber_loop addFloatNumber_elem rest c') as [r1 r2]. reflexivity.
Qed.

Lemma addFloatNumber_elem_unfold o ch counter :
  addFloatNumber_elem (Heap.elementOf o ch) counter
  = let counter1 :=
      if isNumberedFloat (Heap.shell o)
      then <[Heap.o_name o := default 0 (counter !! Heap.o_name o) + 1]> counter
      else counter in
    let o' :=
      if isNumberedFloat (Heap.shell o)
      then Heap.with_label o
             (numberLabel (Heap.o_label o)
                (default 0 (counter !! Heap.o_name o) + 1))
      else o in
    let r := if bool_decide (0 < length ch)
             then addFloatNumber ch counter1 else (ch, counter1) in
    (Heap.elementOf o' r.1, r.2).
Proof.
  unfold Heap.elementOf at 1. cbn [addFloatNumber_elem].
  change (isNumberedFloat (mkTeXElement _ _ _ _ _ _ _ ch))
    with (isNumberedFloat (Heap.shell o)).
  destruct (isNumberedFloat (Heap.shell o)); cbn zeta;
    (case_bool_decide; [unfold addFloatNumber;
       destruct (addFloatNumber_loop _ _ _) as [ch' c']|]); done.
Qed.

Lemma addFloatNumber_from_agree ts :
  ∀ σ ls fp counter,
    Heap.storedAll σ ls ts fp →
    ∃ σ',
      Heap.storedAll σ' ls (addFloatNumber ts counter).1 fp ∧
      frame fp σ σ' ∧
      ∃ n, ∀ fuel, n ≤ fuel →
        Heap.addFloatNumber_from fuel ls counter σ
        = Some (Ok ((addFloatNumber ts counter).2, σ')).
Proof.
  induction ts as [|e rest IHch IHrest] using forest_ind; intros σ ls fp counter Hst.
  { apply storedAll_nil_inv in Hst as [-> ->]. exists σ.
    split_and!; [constructor|apply frame_refl|].
    exists 1. by intros [|fuel] Hfuel; [lia|]. }
  apply storedAll_cons_inv_r in Hst
    as (l & ls' & fp1 & fp2 & -> & -> & Hl & Hrest & Hdisj).
  apply stored_inv in Hl as (o & ch & fpc & -> & -> & Hlo & Hch & Hnot).
  cbn [children Heap.elementOf] in IHch.
  rewrite addFloatNumber_cons, addFloatNumber_elem_unfold. cbn zeta.
  set (counter1 := if isNumberedFloat (Heap.shell o)
                   then <[Heap.o_name o := default 0 (counter !! Heap.o_name o) + 1]> counter
                   else counter).
  set (o1 := if isNumberedFloat (Heap.shell o)
             then Heap.with_label o
                    (numberLabel (Heap.o_label o)
                       (default 0 (counter !! Heap.o_name o) + 1))
             else o).
  set (σ1 := <[l := o1]> σ).
  assert (frame {[l]} σ σ1) as Hfr1.
  { split; [apply length_insert|]. intros k Hk. apply list_lookup_insert_ne. set_solver. }
  assert (σ1 !! l = Some o1) as Hl1.
  { apply list_lookup_insert_eq. by eapply lookup_lt_Some. }
  assert (Heap.o_children o1 = Heap.o_children o) as Hch1.
  { subst o1. by destruct (isNumberedFloat _). }
  assert (Heap.storedAll σ1 (Heap.o_children o) ch fpc) as Hch'.
  { eapply storedAll_frame; [done..|set_solver]. }
  (* the children *)
  set (r := if bool_decide (0 < length ch)
            then addFloatNumber ch counter1 else (ch, counter1)).
  assert (∃ σ2, Heap.storedAll σ2 (Heap.o_children o) r.1 fpc ∧ frame fpc σ1 σ2 ∧
            ∃ n, ∀ fuel, n ≤ fuel →
              (if bool_decide (0 < length (Heap.o_children o1))
               then Heap.addFloatNumber_from fuel (Heap.o_children o1) counter1
               else mret counter1) σ1
              = Some (Ok (r.2, σ2))) as (σ2 & Hst2 & Hfr2 & n1 & Hn1).
  { subst r. rewrite Hch1, (storedAll_length _ _ _ _ Hch). case_bool_decide.
    - apply (IHch σ1 _ _ counter1 Hch').
    - exists σ1. split_and!; [done|apply frame_refl|]. by exists 0. }
  (* the rest of the loop *)
  assert (Heap.storedAll σ2 ls' rest fp2) as Hrest2.
  { eapply storedAll_frame; [|exact Hfr2|set_solver].
    eapply storedAll_frame; [done..|set_solver]. }
  destruct (IHrest σ2 ls' fp2 r.2 Hrest2) as (σ3 & Hst3 & Hfr3 & n2 & Hn2).
  exists σ3. split_and!.
  - constructor; [|done|done].
    assert (σ3 !! l = Some o1) as Hl3.
    { destruct Hfr3 as [_ ->]; [|set_solver]. destruct Hfr2 as [_ ->]; [done|set_solver]. }
    pose proof (Heap.stored_object σ3 l o1 r.1 fpc Hl3) as Hobj.
    rewrite Hch1 in Hobj. apply Hobj; [|done].
    eapply storedAll_frame; [done..|set_solver].
  - apply (frame_trans _ _ σ1); [eapply frame_mono; [|exact Hfr1]; set_solver|].
    apply (frame_trans _ _ σ2); [eapply frame_mono; [|exact Hfr2]; set_solver|].
    eapply frame_mono; [|exact Hfr3]; set_solver.
  - exists (S (n1 `max` n2)). intros [|fuel] Hfuel; [lia|].
    cbn [Heap.addFloatNumber_from Heap.addFloatNumber_loop].
    rewrite run_bind, (run_load _ _ _ Hlo).
    assert ((if isNumberedFloat (Heap.shell o)
             then _ ← Heap.update l
                        (λ o0, Heap.with_label o0
                                 (numberLabel (Heap.o_label o0)
                                    (default 0 (counter !! Heap.o_name o) + 1)));
                  mret (<[Heap.o_name o := default 0 (counter !! Heap.o_name o) + 1]>
                          counter)
             else mret counter) σ = Some (Ok (counter1, σ1))) as Hnum.
    { subst counter1 σ1 o1. destruct (isNumberedFloat (Heap.shell o)).
      - cbn zeta. by rewrite run_bind, (run_update_at _ _ _ _ Hlo), run_ret.
      - rewrite run_ret. do 3 f_equal. symmetry. by apply list_insert_id. }
    rewrite run_bind, Hnum, run_bind, (run_load _ _ _ Hl1), run_bind.
    rewrite Hn1 by lia.
    change (Heap.addFloatNumber_loop (Heap.addFloatNumber_from fuel) ls' r.2 σ2)
      with (Heap.addFloatNumber_from (S fuel) ls' r.2 σ2).
    apply Hn2. lia.
Qed.


(** ** [addSectionNumber] on a store that holds every object once *)

Lemma addSectionNumber_elem_unfold config o ch tag lowest counter :
  addSectionNumber_elem config (Heap.elementOf o ch) tag lowest counter
  = match rank config (Heap.o_name o) with
    | None => Ok (Heap.elementOf o ch, counter)
    | Some r =>
        let counter' :=
          if bool_decide (Heap.o_type o = TeXElementType.Section)
          then <[r := default 0 (counter !! r) + 1]> counter
          else counter in
        padding ← zeroPadding r lowest;
        count ← counterToString counter' r;
        let sectionNumber := tag +:+ padding +:+ count in
        ch' ← (if bool_decide (0 < length ch)
               then addSectionNumber_loop (addSectionNumber_elem config) ch
                      (sectionNumber +:+ ".") (Finite (Z.of_nat r + 1)) ∅
               else Ok ch);
        Ok (Heap.elementOf
              (Heap.with_label o
                 ((if bool_decide (Heap.o_type o = TeXElementType.Section)
                   then sectionNumber else "*") +:+ " " +:+ Heap.o_label o))
              ch', counter')
    end.
Proof. done. Qed.

Lemma addSectionNumber_loop_agree config ts :
  ∀ σ ls fp tag lowest counter,
    Heap.storedAll σ ls ts fp →
    answers fp σ ls
      (addSectionNumber_loop (addSectionNumber_elem config) ts tag lowest counter)
      (λ fuel, Heap.addSectionNumber_loop config
                 (Heap.addSectionNumber_scope fuel config) ls tag lowest counter).
Proof.
  induction ts as [|e rest IHch IHrest] using forest_ind;
    intros σ ls fp tag lowest counter Hst.
  { apply storedAll_nil_inv in Hst as [-> ->]. exists σ.
    split_and!; [constructor|apply frame_refl|]. by exists 0. }
  apply storedAll_cons_inv_r in Hst
    as (l & ls' & fp1 & fp2 & -> & -> & Hl & Hrest & Hdisj).
  apply stored_inv in Hl as (o & ch & fpc & -> & -> & Hlo & Hch & Hnot).
  cbn [children Heap.elementOf] in IHch.
  cbn [addSectionNumber_loop]. rewrite addSectionNumber_elem_unfold.
  destruct (rank config (Heap.o_name o)) as [r|] eqn:Hr.
  2:{ (* no rank: the element is passed over *)
    cbn [mbind result_bind].
    specialize (IHrest σ ls' fp2 tag lowest counter Hrest).
    destruct (addSectionNumber_loop _ rest tag lowest counter) as [rest'|err];
      cbn [answers mbind result_bind] in *.
    - destruct IHrest as (σ' & Hst' & Hfr' & n & Hn). exists σ'. split_and!.
      + constructor; [|done|done].
        eapply stored_frame; [|exact Hfr'|set_solver]. by constructor.
      + eapply frame_mono; [|done]. set_solver.
      + exists n. intros fuel Hfuel. cbn [Heap.addSectionNumber_loop].
        rewrite run_bind, (run_load _ _ _ Hlo), Hr. cbn beta iota. by apply Hn.
    - destruct IHrest as (n & Hn). exists n. intros fuel Hfuel.
      cbn [Heap.addSectionNumber_loop]. rewrite run_bind, (run_load _ _ _ Hlo), Hr. cbn beta iota. by apply Hn. }
  cbn zeta.
  set (counter' := if bool_decide (Heap.o_type o = TeXElementType.Section)
                   then <[r := default 0 (counter !! r) + 1]> counter else counter).
  destruct (zeroPadding r lowest) as [padding|err] eqn:Hpad.
  2:{ exists 0. intros fuel _. cbn [Heap.addSectionNumber_loop].
      rewrite run_bind, (run_load _ _ _ Hlo), Hr.
      cbn beta iota zeta. by rewrite run_bind, Hpad. }
  destruct (counterToString counter' r) as [count|err] eqn:Hcount.
  2:{ exists 0. intros fuel _. cbn [Heap.addSectionNumber_loop].
      rewrite run_bind, (run_load _ _ _ Hlo), Hr.
      cbn beta iota zeta. fold counter'. rewrite run_bind, Hpad, run_lift_ok.
      by rewrite run_bind, Hcount. }
  cbn [mbind result_bind].
  set (sn := tag +:+ padding +:+ count).
  set (o1 := Heap.with_label o
               ((if bool_decide (Heap.o_type o = TeXElementType.Section)
                 then sn else "*") +:+ " " +:+ Heap.o_label o)).
  set (σ1 := <[l := o1]> σ).
  assert (frame {[l]} σ σ1) as Hfr1 by (apply frame_insert; set_solver).
  assert (σ1 !! l = Some o1) as Hl1.
  { apply list_lookup_insert_eq. by eapply lookup_lt_Some. }
  assert (Heap.storedAll σ1 (Heap.o_children o) ch fpc) as Hch'.
  { eapply storedAll_frame; [done..|set_solver]. }
  (* what the loop does up to the children *)
  assert (∀ fuel (k : Heap.Run unit),
            Heap.addSectionNumber_loop config (Heap.addSectionNumber_scope fuel config)
              (l :: ls') tag lowest counter σ
            = ((if bool_decide (0 < length ch)
                then Heap.addSectionNumber_scope fuel config (Heap.o_children o)
                       (sn +:+ ".") (Finite (Z.of_nat r + 1))
                else mret ()) ≫= λ _,
               Heap.addSectionNumber_loop config (Heap.addSectionNumber_scope fuel config)
                 ls' tag lowest counter') σ1) as Hhead.
  { intros fuel _. cbn [Heap.addSectionNumber_loop].
    rewrite run_bind, (run_load _ _ _ Hlo), Hr. cbn beta iota zeta. fold counter'.
    rewrite run_bind, Hpad, run_lift_ok, run_bind, Hcount, run_lift_ok.
    fold sn.
    rewrite run_bind, (run_update_at _ _ _ _ Hlo). fold o1. fold σ1.
    rewrite run_bind, (run_load _ _ _ Hl1).
    change (Heap.o_children o1) with (Heap.o_children o).
    by rewrite (storedAll_length _ _ _ _ Hch). }
  (* the children *)
  set (rch := if bool_decide (0 < length ch)
              then addSectionNumber_loop (addSectionNumber_elem config) ch
                     (sn +:+ ".") (Finite (Z.of_nat r + 1)) ∅
              else Ok ch) in *.
  assert (answers fpc σ1 (Heap.o_children o) rch
            (λ fuel, if bool_decide (0 < length ch)
                     then Heap.addSectionNumber_scope (S fuel) config (Heap.o_children o)
                            (sn +:+ ".") (Finite (Z.of_nat r + 1))
                     else mret ())) as Hchildren.
  { subst rch. case_bool_decide.
    - apply (IHch σ1 _ _ _ _ ∅ Hch').
    - exists σ1. split_and!; [done|apply frame_refl|]. by exists 0. }
  destruct rch as [ch'|err]; cbn [answers mbind result_bind] in *.
  2:{ destruct Hchildren as (n & Hn). exists (S n). intros [|fuel] Hfuel; [lia|].
      rewrite (Hhead _ (mret ())), run_bind, Hn; [done|lia]. }
  destruct Hchildren as (σ2 & Hst2 & Hfr2 & n1 & Hn1).
  assert (Heap.storedAll σ2 ls' rest fp2) as Hrest2.
  { eapply storedAll_frame; [|exact Hfr2|set_solver].
    eapply storedAll_frame; [done..|set_solver]. }
  specialize (IHrest σ2 ls' fp2 tag lowest counter' Hrest2).
  destruct (addSectionNumber_loop _ rest tag lowest counter') as [rest'|err];
    cbn [answers mbind result_bind] in *.
  2:{ destruct IHrest as (n2 & Hn2). exists (S (n1 `max` n2)).
      intros [|fuel] Hfuel; [lia|].
      rewrite (Hhead _ (mret ())), run_bind, Hn1 by lia. apply Hn2. lia. }
  destruct IHrest as (σ3 & Hst3 & Hfr3 & n2 & Hn2).
  exists σ3. split_and!.
  - constructor; [|done|done].
    assert (σ3 !! l = Some o1) as Hl3.
    { destruct Hfr3 as [_ ->]; [|set_solver]. destruct Hfr2 as [_ ->]; [done|set_solver]. }
    apply (Heap.stored_object σ3 l o1 ch' fpc Hl3); [|done].
    eapply storedAll_frame; [done..|set_solver].
  - apply (frame_trans _ _ σ1); [eapply frame_mono; [|exact Hfr1]; set_solver|].
    apply (frame_trans _ _ σ2); [eapply frame_mono; [|exact Hfr2]; set_solver|].
    eapply frame_mono; [|exact Hfr3]; set_solver.
  - exists (S (n1 `max` n2)). intros [|fuel] Hfuel; [lia|].
    rewrite (Hhead _ (mret ())), run_bind, Hn1 by lia. apply Hn2. lia.
Qed.


(** ** Pushing an object onto the children of another *)

Lemma storedAll_lookup σ els elsT fp i x :
  Heap.storedAll σ els elsT fp → els !! i = Some x →
  ∃ els1 els2 t1 tx t2 fp1 fpx fp2,
    els = els1 ++ x :: els2 ∧ elsT = t1 ++ tx :: t2 ∧
    length els1 = i ∧ length t1 = i ∧
    fp = fp1 ∪ fpx ∪ fp2 ∧ fp1 ## fpx ∧ fp1 ## fp2 ∧ fpx ## fp2 ∧
    Heap.storedAll σ els1 t1 fp1 ∧ Heap.stored σ x tx fpx ∧
    Heap.storedAll σ els2 t2 fp2.
Proof.
  intros Hst Hi.
  destruct (list_elem_of_split_length _ _ _ Hi) as (els1 & els2 & -> & ->).
  apply storedAll_app_inv in Hst as (t1 & t2' & fp1 & fp2' & -> & -> & Hd & H1 & H2).
  apply storedAll_cons_inv in H2 as (tx & t2 & fpx & fp2 & -> & -> & Hx & H2 & Hd2).
  exists els1, els2, t1, tx, t2, fp1, fpx, fp2.
  split_and!; try done; try set_solver.
  symmetry. by eapply storedAll_length.
Qed.

Lemma locAt_cons_inv σ i path els s :
  locAt σ (i :: path) els = Some s →
  ∃ x, els !! i = Some x ∧
       (path = [] ∧ s = x ∨
        path ≠ [] ∧ ∃ o, σ !! x = Some o ∧ locAt σ path (Heap.o_children o) = Some s).
Proof.
  simpl. destruct (els !! i) as [x|]; [|done]. intros H. exists x. split; [done|].
  destruct path as [|j path]; [left; by simplify_eq|right]. split; [done|].
  destruct (σ !! x) as [o|]; [|done]. eauto.
Qed.

(** The object at a path of an array is the one that holds the element at
    this path of the forest. *)
Lemma locAt_stored σ path :
  ∀ els elsT fp s,
    Heap.storedAll σ els elsT fp → locAt σ path els = Some s →
    ∃ t fps, Heap.stored σ s t fps ∧ fps ⊆ fp ∧ elemAt path elsT = Some t.
Proof.
  induction path as [|i path IH]; intros els elsT fp s Hst Hat; [done|].
  apply locAt_cons_inv in Hat as (x & Hx & Hcase).
  destruct (storedAll_lookup _ _ _ _ _ _ Hst Hx)
    as (els1 & els2 & t1 & tx & t2 & fp1 & fpx & fp2 & -> & -> & Hl1 & Hl2 & -> &
        Hd1 & Hd2 & Hd3 & H1 & Hsx & H2).
  assert ((t1 ++ tx :: t2) !! i = Some tx) as Htx.
  { rewrite lookup_app_r by lia. by replace (i - length t1) with 0 by lia. }
  destruct Hcase as [[-> ->]|(Hne & o & Ho & Hat)].
  - exists tx, fpx. split_and!; [done|set_solver|]. simpl. by rewrite Htx.
  - apply stored_inv in Hsx as (o' & ch & fpc & -> & -> & Ho' & Hch & Hnot).
    assert (o' = o) as -> by congruence.
    destruct (IH _ _ _ _ Hch Hat) as (t & fps & Hs & Hsub & Helem).
    exists t, fps. split_and!; [done|set_solver|].
    rewrite (elemAt_cons _ _ _ _ Htx). by destruct path.
Qed.

Lemma storedAll_pushAt σ σ' path :
  ∀ els elsT fpE s os l e fpe,
    Heap.storedAll σ els elsT fpE →
    locAt σ path els = Some s → σ !! s = Some os →
    σ' !! s = Some (Heap.with_children os (Heap.o_children os ++ [l])) →
    (∀ k, k ∈ fpE → k ≠ s → σ' !! k = σ !! k) →
    Heap.stored σ' l e fpe → fpe ## fpE →
    Heap.storedAll σ' els (pushAt path e elsT) (fpE ∪ fpe).
Proof.
  induction path as [|i path IH];
    intros els elsT fpE s os l e fpe Hst Hat Hos Hs' Hsame Hle Hdisj; [done|].
  destruct (locAt_stored _ _ _ _ _ _ Hst Hat) as (ts & fps & Hss & Hsub & _).
  pose proof (stored_own _ _ _ _ Hss) as Hsown.
  apply locAt_cons_inv in Hat as (x & Hx & Hcase).
  destruct (storedAll_lookup _ _ _ _ _ _ Hst Hx)
    as (els1 & els2 & t1 & tx & t2 & fp1 & fpx & fp2 & -> & -> & Hl1 & Hl2 & -> &
        Hd1 & Hd2 & Hd3 & H1 & Hsx & H2).
  assert (s ∈ fpx) as Hsx'.
  { destruct Hcase as [[-> ->]|(Hne & o & Ho & Hat)].
    - by eapply stored_own.
    - apply stored_inv in Hsx as (o' & ch & fpc & -> & -> & Ho' & Hch & Hnot).
      assert (o' = o) as -> by congruence.
      destruct (locAt_stored _ _ _ _ _ _ Hch Hat) as (t & fps' & Hs & Hsub' & _).
      apply stored_own in Hs. set_solver. }
  cbn [pushAt].
  replace i with (length t1 + 0) by lia. rewrite alter_app_r. cbn [alter list_alter].
  replace (fp1 ∪ fpx ∪ fp2 ∪ fpe) with (fp1 ∪ ((fpx ∪ fpe) ∪ fp2)) by set_solver.
  apply storedAll_app; [| |set_solver].
  { eapply storedAll_agree; [done|]. intros k Hk. apply Hsame; set_solver. }
  constructor; [| |set_solver].
  2:{ eapply storedAll_agree; [done|]. intros k Hk. apply Hsame; set_solver. }
  apply stored_inv in Hsx as (o' & ch & fpc & -> & -> & Ho' & Hch & Hnot).
  destruct Hcase as [[-> ->]|(Hne & o & Ho & Hat)].
  - assert (o' = os) as -> by congruence. cbn [pushAt children Heap.elementOf set_children type name label index lineFr lineTo filePath].
    replace ({[x]} ∪ fpc ∪ fpe) with ({[x]} ∪ (fpc ∪ fpe)) by set_solver.
    apply (Heap.stored_object σ' x _ (ch ++ [e]) (fpc ∪ fpe) Hs'); [|set_solver].
    cbn [Heap.o_children Heap.with_children].
    apply storedAll_app; [|by apply storedAll_singleton|set_solver].
    eapply storedAll_agree; [done|]. intros k Hk. apply Hsame; set_solver.
  - assert (o' = o) as -> by congruence.
    assert (s ∈ fpc) as Hsc.
    { destruct (locAt_stored _ _ _ _ _ _ Hch Hat) as (t & fps' & Hs & Hsub' & _).
      apply stored_own in Hs. set_solver. }
    assert (σ' !! x = Some o) as Hx'.
    { rewrite Hsame; [done|set_solver|]. intros ->. done. }
    cbn [children Heap.elementOf set_children type name label index lineFr lineTo filePath].
    replace ({[x]} ∪ fpc ∪ fpe) with ({[x]} ∪ (fpc ∪ fpe)) by set_solver.
    apply (Heap.stored_object σ' x o (pushAt path e ch) (fpc ∪ fpe) Hx'); [|set_solver].
    eapply (IH _ _ _ s os l e fpe Hch Hat Hos Hs'); [|done|set_solver].
    intros k Hk Hne'. apply Hsame; [set_solver|done].
Qed.


(** ** [nestNonSection] on a store that holds every object once *)

Lemma nestNonSection_elem_unfold o ch :
  nestNonSection_elem (Heap.elementOf o ch)
  = Heap.elementOf o (if bool_decide (0 < length ch) then nestNonSection ch else ch).
Proof. done. Qed.

Lemma nestNonSection_loop_agree ts :
  ∀ σ ls fpS els elsT fpE cur curT,
    Heap.storedAll σ ls ts fpS → Heap.storedAll σ els elsT fpE → fpS ## fpE →
    currentAt els cur curT →
    ∃ σ' ls',
      Heap.storedAll σ' ls' (nestNonSection_loop nestNonSection_elem ts elsT curT)
        (fpE ∪ fpS) ∧
      frame (fpE ∪ fpS) σ σ' ∧
      ∃ n, ∀ fuel, n ≤ fuel →
        Heap.nestNonSection_loop (Heap.nestNonSection fuel) ls els cur σ
        = Some (Ok (ls', σ')).
Proof.
  induction ts as [|e rest IHch IHrest] using forest_ind;
    intros σ ls fpS els elsT fpE cur curT Hst Hels Hdisj Hcur.
  { apply storedAll_nil_inv in Hst as [-> ->]. exists σ, els.
    rewrite (right_id_L ∅ (∪)). split_and!; [done|apply frame_refl|]. by exists 0. }
  apply storedAll_cons_inv_r in Hst
    as (l & ls' & fp1 & fp2 & -> & -> & Hl & Hrest & Hd12).
  apply stored_inv in Hl as (o & ch & fpc & -> & -> & Hlo & Hch & Hnot).
  cbn [children Heap.elementOf] in IHch.
  pose proof (storedAll_length _ _ _ _ Hels) as Hlen.
  (* where the element goes *)
  assert (∃ σa els1 elsT1 cur1 curT1,
            nestNonSection_loop nestNonSection_elem
              (Heap.elementOf o ch :: rest) elsT curT
            = nestNonSection_loop nestNonSection_elem rest
                (elsT1 (nestNonSection_elem (Heap.elementOf o ch))) curT1 ∧
            (∀ fuel,
               Heap.nestNonSection_loop (Heap.nestNonSection fuel) (l :: ls') els cur σ
               = (_ ← (if bool_decide (0 < length (Heap.o_children o)) then
                         chl ← Heap.nestNonSection fuel (Heap.o_children o);
                         Heap.update l (λ o, Heap.with_children o chl)
                       else mret ());
                  Heap.nestNonSection_loop (Heap.nestNonSection fuel) ls' els1 cur1) σa) ∧
            frame fpE σ σa ∧
            (∀ σc e',
               frame ({[l]} ∪ fpc) σa σc → Heap.stored σc l e' ({[l]} ∪ fpc) →
               nestNonSection_elem (Heap.elementOf o ch) = e' →
               Heap.storedAll σc els1 (elsT1 e') (fpE ∪ ({[l]} ∪ fpc)) ∧
               currentAt els1 cur1 curT1))
    as (σa & els1 & elsT1 & cur1 & curT1 & Hval & Hrun & Hfra & Hacc).
  { destruct (isSection (Heap.shell o)) eqn:Hsec; [|destruct cur as [s|]].
    - (* a section *)
      exists σ, (els ++ [l]), (λ e', elsT ++ [nestNonSection_elem (Heap.elementOf o ch)]),
        (Some l), (Some (length elsT)).
      split_and!.
      + cbn [nestNonSection_loop].
        change (isSection (Heap.elementOf o ch)) with (isSection (Heap.shell o)).
        by rewrite Hsec.
      + intros fuel. cbn [Heap.nestNonSection_loop].
        rewrite run_bind, (run_load _ _ _ Hlo), Hsec, run_bind, run_ret.
        by rewrite run_bind, (run_load _ _ _ Hlo).
      + apply frame_refl.
      + intros σc e' Hfr Hse' He'. rewrite He'. split.
        * apply storedAll_app; [|by apply storedAll_singleton|set_solver].
          eapply storedAll_frame; [done..|set_solver].
        * cbn. rewrite lookup_app_r by lia. by replace (length elsT - length els) with 0 by lia.
    - (* under the current section *)
      destruct curT as [i|]; [|done]. cbn in Hcur.
      destruct (storedAll_lookup _ _ _ _ _ _ Hels Hcur)
        as (els1' & els2' & t1 & tx & t2 & fpa & fpx & fpb & Hels_eq & HelsT_eq & Hl1 & Hl2 &
            HfpE & Hd1 & Hd2 & Hd3 & H1 & Hsx & H2).
      pose proof (stored_own _ _ _ _ Hsx) as Hsown.
      destruct (stored_inv _ _ _ _ Hsx) as (os & chs & fpcs & _ & _ & Hos & _ & _).
      assert (s ≠ l) as Hsl by set_solver.
      exists (<[s := Heap.with_children os (Heap.o_children os ++ [l])]> σ), els,
        (λ e', pushAt [i] e' elsT), (Some s), (Some i).
      split_and!.
      + cbn [nestNonSection_loop].
        change (isSection (Heap.elementOf o ch)) with (isSection (Heap.shell o)).
        by rewrite Hsec.
      + intros fuel. cbn [Heap.nestNonSection_loop].
        rewrite run_bind, (run_load _ _ _ Hlo), Hsec, run_bind. unfold Heap.push.
        rewrite run_bind, (run_update_at _ _ _ _ Hos), run_ret.
        rewrite run_bind, (run_load l o); [done|].
        by rewrite list_lookup_insert_ne.
      + apply frame_insert. set_solver.
      + intros σc e' Hfr Hse' He'. split; [|done].
        eapply (storedAll_pushAt σ σc [i] els elsT fpE s os l e' _ Hels); try done.
        * cbn. by rewrite Hcur.
        * destruct Hfr as [_ ->]; [|set_solver].
          apply list_lookup_insert_eq. by eapply lookup_lt_Some.
        * intros k Hk Hne. destruct Hfr as [_ ->]; [|set_solver].
          by apply list_lookup_insert_ne.
        * set_solver.
    - (* no section yet *)
      destruct curT as [i|]; [done|].
      exists σ, (els ++ [l]), (λ e', elsT ++ [nestNonSection_elem (Heap.elementOf o ch)]),
        None, None.
      split_and!.
      + cbn [nestNonSection_loop].
        change (isSection (Heap.elementOf o ch)) with (isSection (Heap.shell o)).
        by rewrite Hsec.
      + intros fuel. cbn [Heap.nestNonSection_loop].
        rewrite run_bind, (run_load _ _ _ Hlo), Hsec, run_bind, run_ret.
        by rewrite run_bind, (run_load _ _ _ Hlo).
      + apply frame_refl.
      + intros σc e' Hfr Hse' He'. rewrite He'. split; [|done].
        apply storedAll_app; [|by apply storedAll_singleton|set_solver].
        eapply storedAll_frame; [done..|set_solver]. }
  (* the children *)
  rewrite nestNonSection_elem_unfold in Hacc.
  set (ch' := if bool_decide (0 < length ch) then nestNonSection ch else ch) in *.
  assert (Heap.storedAll σa (Heap.o_children o) ch fpc) as Hcha.
  { eapply storedAll_frame; [done..|set_solver]. }
  assert (σa !! l = Some o) as Hla.
  { destruct Hfra as [_ ->]; [done|set_solver]. }
  assert (∃ σc, Heap.stored σc l (Heap.elementOf o ch') ({[l]} ∪ fpc) ∧
                frame ({[l]} ∪ fpc) σa σc ∧
                ∃ n, ∀ fuel, n ≤ fuel →
                  (if bool_decide (0 < length (Heap.o_children o)) then
                     chl ← Heap.nestNonSection fuel (Heap.o_children o);
                     Heap.update l (λ o, Heap.with_children o chl)
                   else mret ()) σa = Some (Ok ((), σc)))
    as (σc & Hsc & Hfrc & n1 & Hn1).
  { subst ch'. rewrite (storedAll_length _ _ _ _ Hcha). case_bool_decide.
    - destruct (IHch σa (Heap.o_children o) fpc [] [] ∅ None None Hcha)
        as (σb & chl & Hstb & Hfrb & n & Hn); [constructor|set_solver|done|].
      rewrite (left_id_L ∅ (∪)) in Hstb, Hfrb.
      assert (σb !! l = Some o) as Hlb.
      { destruct Hfrb as [_ ->]; [done|set_solver]. }
      exists (<[l := Heap.with_children o chl]> σb). split_and!.
      + apply (Heap.stored_object _ l (Heap.with_children o chl)
                 (nestNonSection ch) fpc); [|cbn|done].
        * apply list_lookup_insert_eq. by eapply lookup_lt_Some.
        * eapply storedAll_frame; [done|apply (frame_insert l _ {[l]}); set_solver|set_solver].
      + apply (frame_trans _ _ σb); [eapply frame_mono; [|done]; set_solver|].
        apply frame_insert. set_solver.
      + exists (S n). intros [|fuel] Hfuel; [lia|].
        rewrite run_bind. cbn [Heap.nestNonSection]. rewrite Hn by lia.
        by rewrite (run_update_at _ _ _ _ Hlb).
    - exists σa. split_and!; [by constructor|apply frame_refl|]. by exists 0. }
  destruct (Hacc σc _ Hfrc Hsc eq_refl) as (Hels1 & Hcur1).
  assert (Heap.storedAll σc ls' rest fp2) as Hrestc.
  { eapply storedAll_frame; [|exact Hfrc|set_solver].
    eapply storedAll_frame; [done..|set_solver]. }
  destruct (IHrest σc ls' fp2 els1 _ _ cur1 curT1 Hrestc Hels1) as
    (σ' & lsout & Hst' & Hfr' & n2 & Hn2); [set_solver|done|].
  exists σ', lsout. split_and!.
  - rewrite Hval, nestNonSection_elem_unfold. fold ch'.
    replace (fpE ∪ ({[l]} ∪ fpc ∪ fp2)) with (fpE ∪ ({[l]} ∪ fpc) ∪ fp2) by set_solver.
    done.
  - apply (frame_trans _ _ σa); [eapply frame_mono; [|done]; set_solver|].
    apply (frame_trans _ _ σc); [eapply frame_mono; [|done]; set_solver|].
    eapply frame_mono; [|done]. set_solver.
  - exists (n1 `max` n2). intros fuel Hfuel.
    rewrite Hrun, run_bind, Hn1 by lia. apply Hn2. lia.
Qed.


(** ** [nestSection] on a store that holds every object once *)

Lemma grows_refl σ : grows σ σ.
Proof. intros k o Hk. exists o. done. Qed.

Lemma grows_push (σ : Heap.Store) s os l :
  σ !! s = Some os →
  grows σ (<[s := Heap.with_children os (Heap.o_children os ++ [l])]> σ).
Proof.
  intros Hs k o Hk. destruct (decide (k = s)) as [->|Hne].
  - assert (o = os) as -> by congruence. eexists. split_and!.
    + apply list_lookup_insert_eq. by eapply lookup_lt_Some.
    + done.
    + by apply prefix_app_r.
  - exists o. by rewrite list_lookup_insert_ne.
Qed.

Lemma locAt_grows σ σ' path :
  ∀ els els' s,
    grows σ σ' → els `prefix_of` els' →
    locAt σ path els = Some s → locAt σ' path els' = Some s.
Proof.
  induction path as [|i path IH]; intros els els' s Hg Hpre Hat; [done|].
  apply locAt_cons_inv in Hat as (x & Hx & Hcase).
  assert (els' !! i = Some x) as Hx' by (by eapply prefix_lookup_Some).
  cbn [locAt]. rewrite Hx'.
  destruct Hcase as [[-> ->]|(Hne & o & Ho & Hat)]; [done|].
  destruct (Hg _ _ Ho) as (o' & Ho' & _ & Hch). rewrite Ho'.
  destruct path; [done|]. by eapply IH.
Qed.

Lemma locAt_snoc σ path :
  ∀ els s os k l,
    locAt σ path els = Some s → σ !! s = Some os →
    Heap.o_children os !! k = Some l →
    locAt σ (path ++ [k]) els = Some l.
Proof.
  induction path as [|i path IH]; intros els s os k l Hat Hs Hk; [done|].
  apply locAt_cons_inv in Hat as (x & Hx & Hcase).
  cbn [app locAt]. rewrite Hx.
  destruct Hcase as [[-> ->]|(Hne & o & Ho & Hat)].
  - cbn [app]. rewrite Hs. cbn. by rewrite Hk.
  - rewrite Ho. destruct path as [|j path]; [done|].
    cbn [app]. by eapply IH.
Qed.

Lemma stackAt_grows σ σ' els els' stackT stack :
  grows σ σ' → els `prefix_of` els' →
  stackAt σ els stackT stack → stackAt σ' els' stackT stack.
Proof.
  intros Hg Hpre. unfold stackAt. intros H. eapply Forall2_impl; [exact H|].
  intros ref s (Hat & o & Ho & Hname). split; [by eapply locAt_grows|].
  destruct (Hg _ _ Ho) as (o' & Ho' & Hn & _). exists o'. split; [done|congruence].
Qed.

Lemma stackAt_suffix σ els stackT1 stackT2 stack2 :
  stackT1 `suffix_of` stackT2 → stackAt σ els stackT2 stack2 →
  ∃ stack1, stack1 `suffix_of` stack2 ∧ stackAt σ els stackT1 stack1.
Proof.
  intros [pre ->] H. apply Forall2_app_inv_l in H as (k1 & k2 & _ & H2 & ->).
  exists k2. split; [by exists k1|done].
Qed.

Lemma rankAt_run config σ s o :
  σ !! s = Some o →
  Heap.rankAt config s σ = Some (Ok (rank config (Heap.o_name o), σ)).
Proof. intros Hs. unfold Heap.rankAt. by rewrite run_bind, (run_load _ _ _ Hs). Qed.

Lemma popStack_agree config σ els e stackT :
  ∀ stack,
    stackAt σ els stackT stack →
    match popStack config e stackT with
    | Ok stackT' =>
        ∃ stack',
          Heap.popStack config (rank config (name e)) stack σ
          = Some (Ok (stack', σ)) ∧
          stackAt σ els stackT' stack'
    | Throw err =>
        Heap.popStack config (rank config (name e)) stack σ = Some (Throw err)
    end.
Proof.
  induction stackT as [|top below IH]; intros stack Hst.
  { apply Forall2_nil_inv_l in Hst as ->. done. }
  apply Forall2_cons_inv_l in Hst as (s & stack' & (Hat & o & Ho & Hname) & Hbelow & ->).
  cbn [popStack Heap.popStack]. rewrite run_bind, (rankAt_run _ _ _ _ Ho), Hname.
  destruct (js_le _ _).
  - apply IH. done.
  - exists (s :: stack'). split; [done|]. constructor; [|done]. eauto.
Qed.

Lemma pushChild_agree σ els elsT fpE stackT stack l e o fpe :
  Heap.storedAll σ els elsT fpE → stackAt σ els stackT stack →
  Heap.stored σ l e fpe → fpe ## fpE →
  σ !! l = Some o → Heap.o_name o = name e →
  match pushChild e elsT stackT with
  | Ok (elsT', stackT') =>
      ∃ σ' stack',
        Heap.pushChild l stack σ = Some (Ok (stack', σ')) ∧
        Heap.storedAll σ' els elsT' (fpE ∪ fpe) ∧
        stackAt σ' els stackT' stack' ∧ frame fpE σ σ'
  | Throw err => Heap.pushChild l stack σ = Some (Throw err)
  end.
Proof.
  intros Hels Hst Hle Hdisj Hlo Hname.
  destruct stackT as [|top below].
  { apply Forall2_nil_inv_l in Hst as ->. done. }
  pose proof Hst as Hst0.
  apply Forall2_cons_inv_l in Hst as (s & stack' & (Hat & os & Hos & Hsname) & Hbelow & ->).
  cbn [pushChild Heap.pushChild]. unfold Heap.push.
  destruct (locAt_stored _ _ _ _ _ _ Hels Hat) as (ts & fps & Hss & Hsub & Helem).
  pose proof (stored_own _ _ _ _ Hss) as Hsown.
  pose proof (stored_own _ _ _ _ Hle) as Hlown.
  set (σ' := <[s := Heap.with_children os (Heap.o_children os ++ [l])]> σ).
  assert (frame fpE σ σ') as Hfr by (apply frame_insert; set_solver).
  assert (σ' !! s = Some (Heap.with_children os (Heap.o_children os ++ [l]))) as Hs'.
  { apply list_lookup_insert_eq. by eapply lookup_lt_Some. }
  assert (grows σ σ') as Hg by (by apply grows_push).
  exists σ', (l :: s :: stack').
  split_and!.
  - by rewrite run_bind, (run_update_at _ _ _ _ Hos).
  - eapply (storedAll_pushAt σ σ' _ els elsT fpE s os l e fpe Hels Hat Hos Hs'); [| |done].
    + intros k Hk Hne. by apply list_lookup_insert_ne.
    + eapply stored_frame; [done..|set_solver].
  - constructor.
    + split.
      * cbn [ref_path]. eapply (locAt_snoc σ' _ els s _ _ l); [|done|].
        -- eapply locAt_grows; [done|done|done].
        -- cbn [Heap.o_children Heap.with_children].
           rewrite (childrenAt_elemAt _ _ _ Helem).
           apply stored_inv in Hss as (os' & chs & fpcs & -> & _ & Hos' & Hchs & _).
           assert (os' = os) as -> by congruence. cbn [children Heap.elementOf].
           rewrite <- (storedAll_length _ _ _ _ Hchs).
           rewrite lookup_app_r by lia. by rewrite Nat.sub_diag.
      * exists o. split; [|done]. unfold σ'. rewrite list_lookup_insert_ne; [done|].
        intros ->. set_solver.
    + eapply stackAt_grows; [done|done|done].
  - done.
Qed.

Lemma stackAt_last σ els stackT stack bottom :
  stackAt σ els stackT stack → last stackT = Some bottom →
  ∃ s o, last stack = Some s ∧ σ !! s = Some o ∧ Heap.o_name o = ref_name bottom.
Proof.
  intros Hst Hlast. apply last_Some in Hlast as [pre ->].
  apply Forall2_app_inv_l in Hst as (k1 & k2 & _ & H2 & ->).
  apply Forall2_cons_inv_l in H2 as (s & k3 & (_ & o & Ho & Hn) & H3 & ->).
  apply Forall2_nil_inv_l in H3 as ->.
  exists s, o. split_and!; [|done..]. by rewrite last_snoc.
Qed.

Lemma nestSection_step_agree config σ els elsT fpE stackT stack l e fpe :
  Heap.storedAll σ els elsT fpE → stackAt σ els stackT stack →
  Heap.stored σ l e fpe → fpe ## fpE →
  match nestSection_step config (elsT, stackT) e with
  | Ok (elsT', stackT') =>
      ∃ σ' els' stack',
        Heap.nestSection_step config (els, stack) l σ
        = Some (Ok ((els', stack'), σ')) ∧
        Heap.storedAll σ' els' elsT' (fpE ∪ fpe) ∧
        stackAt σ' els' stackT' stack' ∧ frame fpE σ σ'
  | Throw err =>
      Heap.nestSection_step config (els, stack) l σ = Some (Throw err)
  end.
Proof.
  intros Hels Hst Hle Hdisj.
  destruct (stored_inv _ _ _ _ Hle) as (o & ch & fpc & He & Hfpe & Hlo & Hch & Hnot).
  assert (Heap.o_name o = name e) as Hname by (by subst e).
  assert (isStackKind (Heap.shell o) = isStackKind e) as Hkind by (by subst e).
  pose proof (storedAll_length _ _ _ _ Hels) as Hlen.
  assert (Heap.storedAll σ (els ++ [l]) (pushAt [] e elsT) (fpE ∪ fpe)) as Htop.
  { apply storedAll_app; [done|by apply storedAll_singleton|set_solver]. }
  assert (stackAt σ (els ++ [l]) [mkRef [length elsT] (name e)] [l]) as Hnew.
  { constructor; [|constructor]. split; [|eauto].
    cbn. rewrite lookup_app_r by lia. by replace (length elsT - length els) with 0 by lia. }
  unfold nestSection_step, Heap.nestSection_step.
  rewrite run_bind, (run_load _ _ _ Hlo). cbn zeta. rewrite Hkind, Hname.
  destruct (isStackKind e) eqn:Hk; cbn [negb].
  2:{ exists σ, (els ++ [l]), stack. split_and!; [done|done| |apply frame_refl].
      eapply stackAt_grows; [apply grows_refl|by apply prefix_app_r|done]. }
  destruct stackT as [|top below].
  { apply Forall2_nil_inv_l in Hst as ->. cbn [last head].
    exists σ, (els ++ [l]), [l]. split_and!; [done|done|done|apply frame_refl]. }
  destruct (last (top :: below)) as [bottom|] eqn:Hlast.
  2:{ by apply last_None in Hlast. }
  destruct (stackAt_last _ _ _ _ _ Hst Hlast) as (sb & ob & Hlastl & Hob & Hbname).
  pose proof Hst as Hst0.
  apply Forall2_cons_inv_l in Hst as (s & stack' & (Hat & os & Hos & Hsname) & Hbelow & ->).
  rewrite Hlastl. cbn [head].
  rewrite run_bind, (rankAt_run _ _ _ _ Hob), Hbname.
  destruct (js_le _ (rank config (ref_name bottom))) eqn:Hb.
  { exists σ, (els ++ [l]), [l]. split_and!; [done|done|done|apply frame_refl]. }
  rewrite run_bind, (rankAt_run _ _ _ _ Hos), Hsname.
  destruct (js_gt _ (rank config (ref_name top))) eqn:Hgt.
  { pose proof (pushChild_agree σ els elsT fpE _ _ l e o fpe Hels Hst0 Hle Hdisj
                  Hlo Hname) as Hpush.
    destruct (pushChild e elsT (top :: below)) as [[elsT' stackT']|err]; cbn beta iota.
    - destruct Hpush as (σ' & stack2 & Hrun & ? & ? & ?).
      exists σ', els, stack2. rewrite run_bind, Hrun. done.
    - by rewrite run_bind, Hpush. }
  pose proof (popStack_agree config σ els e (top :: below) _ Hst0) as Hpop.
  destruct (popStack config e (top :: below)) as [stackT1|err]; cbn [mbind result_bind].
  2:{ by rewrite run_bind, Hpop. }
  destruct Hpop as (stack1 & Hrun1 & Hst1).
  pose proof (pushChild_agree σ els elsT fpE _ _ l e o fpe Hels Hst1 Hle Hdisj
                Hlo Hname) as Hpush.
  rewrite run_bind, Hrun1.
  destruct (pushChild e elsT stackT1) as [[elsT' stackT']|err]; cbn beta iota.
  - destruct Hpush as (σ' & stack2 & Hrun & ? & ? & ?).
    exists σ', els, stack2. rewrite run_bind, Hrun. done.
  - by rewrite run_bind, Hpush.
Qed.

Lemma nestSection_loop_agree config ts :
  ∀ σ ls fpS els elsT fpE stackT stack,
    Heap.storedAll σ ls ts fpS → Heap.storedAll σ els elsT fpE →
    stackAt σ els stackT stack → fpS ## fpE →
    match nestSection_loop config ts (elsT, stackT) with
    | Ok (elsT', stackT') =>
        ∃ σ' els' stack',
          Heap.nestSection_loop config ls (els, stack) σ
          = Some (Ok ((els', stack'), σ')) ∧
          Heap.storedAll σ' els' elsT' (fpE ∪ fpS) ∧ frame (fpE ∪ fpS) σ σ'
    | Throw err =>
        Heap.nestSection_loop config ls (els, stack) σ = Some (Throw err)
    end.
Proof.
  induction ts as [|e rest IH]; intros σ ls fpS els elsT fpE stackT stack Hst Hels Hstack Hd.
  { apply storedAll_nil_inv in Hst as [-> ->]. cbn.
    exists σ, els, stack. rewrite (right_id_L ∅ (∪)).
    split_and!; [done|done|apply frame_refl]. }
  apply storedAll_cons_inv_r in Hst
    as (l & ls' & fp1 & fp2 & -> & -> & Hl & Hrest & Hd12).
  cbn [nestSection_loop Heap.nestSection_loop].
  pose proof (nestSection_step_agree config σ els elsT fpE stackT stack l e fp1
                Hels Hstack Hl) as Hstep.
  destruct (nestSection_step config (elsT, stackT) e) as [[elsT1 stackT1]|err];
    cbn [mbind result_bind].
  2:{ rewrite run_bind, Hstep; [done|set_solver]. }
  destruct Hstep as (σ1 & els1 & stack1 & Hrun1 & Hels1 & Hstack1 & Hfr1); [set_solver|].
  assert (Heap.storedAll σ1 ls' rest fp2) as Hrest1.
  { eapply storedAll_frame; [done..|set_solver]. }
  specialize (IH σ1 ls' fp2 els1 elsT1 (fpE ∪ fp1) stackT1 stack1 Hrest1 Hels1 Hstack1).
  rewrite run_bind, Hrun1.
  destruct (nestSection_loop config rest (elsT1, stackT1)) as [[elsT' stackT']|err].
  - destruct IH as (σ' & els' & stack' & Hrun & Hels' & Hfr'); [set_solver|].
    exists σ', els', stack'. split_and!; [done| |].
    + by replace (fpE ∪ (fp1 ∪ fp2)) with (fpE ∪ fp1 ∪ fp2) by set_solver.
    + apply (frame_trans _ _ σ1); [eapply frame_mono; [|done]; set_solver|].
      eapply frame_mono; [|done]. set_solver.
  - apply IH. set_solver.
Qed.

Lemma nestSection_agree config σ ls ts fp :
  Heap.storedAll σ ls ts fp →
  match nestSection ts config with
  | Ok out =>
      ∃ σ' ls',
        Heap.nestSection ls config σ = Some (Ok (ls', σ')) ∧
        Heap.storedAll σ' ls' out fp ∧ frame fp σ σ'
  | Throw err => Heap.nestSection ls config σ = Some (Throw err)
  end.
Proof.
  intros Hst.
  pose proof (nestSection_loop_agree config ts σ ls fp [] [] ∅ [] [] Hst) as H.
  unfold nestSection, Heap.nestSection.
  destruct (nestSection_loop config ts ([], [])) as [[elsT' stackT']|err]; cbn.
  - destruct H as (σ' & els' & stack' & Hrun & Hels' & Hfr');
      [constructor|constructor|set_solver|].
    rewrite (left_id_L ∅ (∪)) in Hels', Hfr'.
    exists σ', els'. by rewrite run_bind, Hrun.
  - rewrite run_bind, H; [done|constructor|constructor|set_solver].
Qed.


(** ** The passes of [construct] on a store that holds every object once *)

Lemma nestNonSection_agree σ ls ts fp :
  Heap.storedAll σ ls ts fp →
  returns fp σ (Ok (nestNonSection ts)) (λ fuel, Heap.nestNonSection fuel ls).
Proof.
  intros Hst.
  destruct (nestNonSection_loop_agree ts σ ls fp [] [] ∅ None None Hst)
    as (σ' & ls' & Hst' & Hfr' & n & Hn); [constructor|set_solver|done|].
  rewrite (left_id_L ∅ (∪)) in Hst', Hfr'.
  exists σ', ls'. split_and!; [done..|].
  exists (S n). intros [|fuel] Hfuel; [lia|]. apply Hn. lia.
Qed.

Lemma addFloatNumber_agree σ ls ts fp :
  Heap.storedAll σ ls ts fp →
  returns fp σ (Ok (addFloatNumber ts ∅).1) (λ fuel, Heap.addFloatNumber fuel ls).
Proof.
  intros Hst.
  destruct (addFloatNumber_from_agree ts σ ls fp ∅ Hst) as (σ' & Hst' & Hfr' & n & Hn).
  exists σ', ls. split_and!; [done..|].
  exists n. intros fuel Hfuel. unfold Heap.addFloatNumber.
  by rewrite run_bind, Hn.
Qed.

Lemma loadAll_stored config σ ls ts fp :
  Heap.storedAll σ ls ts fp →
  ∃ os, Heap.loadAll ls σ = Some (Ok (os, σ)) ∧
        minRank config (Heap.shell <$> os) = minRank config ts.
Proof.
  induction 1 as [|l ls t ts fp fps Hl Hls (os & Hrun & Hmin) Hd].
  { by exists []. }
  apply stored_inv in Hl as (o & ch & fpc & -> & _ & Hlo & _ & _).
  exists (o :: os). cbn [Heap.loadAll].
  rewrite run_bind, (run_load _ _ _ Hlo), run_bind, Hrun. split; [done|].
  unfold minRank in *. cbn [fmap list_fmap omap list_omap].
  change (name (Heap.shell o)) with (Heap.o_name o).
  change (name (Heap.elementOf o ch)) with (Heap.o_name o).
  destruct (rank config (Heap.o_name o)); cbn [foldr]; [by rewrite Hmin|done].
Qed.

Lemma addSectionNumber_agree config σ ls ts fp tag lowest :
  Heap.storedAll σ ls ts fp →
  returns fp σ (addSectionNumber ts config tag lowest)
    (λ fuel, Heap.addSectionNumber fuel ls config tag lowest).
Proof.
  intros Hst.
  destruct (loadAll_stored config _ _ _ _ Hst) as (os & Hload & Hmin).
  pose proof (addSectionNumber_loop_agree config ts σ ls fp (default "" tag)
                (default (minRank config ts) lowest) ∅ Hst) as H.
  unfold addSectionNumber, Heap.addSectionNumber.
  destruct (addSectionNumber_loop _ ts _ _ ∅) as [out|err]; cbn [answers returns] in *.
  - destruct H as (σ' & Hst' & Hfr' & n & Hn). exists σ', ls. split_and!; [done..|].
    exists (S n). intros [|fuel] Hfuel; [lia|].
    rewrite run_bind, Hload, run_bind, Hmin. cbn [Heap.addSectionNumber_scope].
    rewrite Hn by lia. done.
  - destruct H as (n & Hn). exists (S n). intros [|fuel] Hfuel; [lia|].
    rewrite run_bind, Hload, run_bind, Hmin. cbn [Heap.addSectionNumber_scope].
    rewrite Hn by lia. done.
Qed.

Lemma returns_ret fp σ ls ts :
  Heap.storedAll σ ls ts fp → returns fp σ (Ok ts) (λ _, mret ls).
Proof.
  intros Hst. exists σ, ls. split_and!; [done|apply frame_refl|]. by exists 0.
Qed.

(** Two passes in sequence. *)
Lemma returns_bind fp σ r1 run1 (k : list TeXElement → result (list TeXElement))
    (krun : nat → list Heap.loc → Heap.Run (list Heap.loc)) :
  returns fp σ r1 run1 →
  (∀ σ1 ls1 ts1, Heap.storedAll σ1 ls1 ts1 fp → r1 = Ok ts1 →
                 returns fp σ1 (k ts1) (λ fuel, krun fuel ls1)) →
  returns fp σ (r1 ≫= k) (λ fuel, run1 fuel ≫= krun fuel).
Proof.
  intros H1 Hk. destruct r1 as [ts1|err]; cbn [returns mbind result_bind] in *.
  - destruct H1 as (σ1 & ls1 & Hst1 & Hfr1 & n1 & Hn1).
    specialize (Hk σ1 ls1 ts1 Hst1 eq_refl).
    destruct (k ts1) as [out|err]; cbn [returns] in *.
    + destruct Hk as (σ2 & ls2 & Hst2 & Hfr2 & n2 & Hn2).
      exists σ2, ls2. split_and!; [done|by eapply frame_trans|].
      exists (n1 `max` n2). intros fuel Hfuel.
      rewrite run_bind, Hn1 by lia. apply Hn2. lia.
    + destruct Hk as (n2 & Hn2). exists (n1 `max` n2). intros fuel Hfuel.
      rewrite run_bind, Hn1 by lia. apply Hn2. lia.
  - destruct H1 as (n1 & Hn1). exists n1. intros fuel Hfuel.
    by rewrite run_bind, Hn1.
Qed.

Lemma assemble_agree host config subFile σ ls ts fp :
  Heap.storedAll σ ls ts fp →
  returns fp σ (assemble host config subFile ts)
    (λ fuel, Heap.assemble fuel host config subFile ls).
Proof.
  intros Hst. unfold assemble, Heap.assemble.
  change (returns fp σ
            (Ok (nestNonSection ts) ≫= λ struct,
             nestSection struct config ≫= λ struct,
             Ok (if subFile && view_outline_floats_number_enabled (configuration host)
                 then (addFloatNumber struct ∅).1 else struct) ≫= λ struct,
             if subFile && view_outline_numbers_enabled (configuration host)
             then addSectionNumber struct config None None else Ok struct)
            (λ fuel, Heap.nestNonSection fuel ls ≫= λ struct,
                     Heap.nestSection struct config ≫= λ struct,
                     (if subFile && view_outline_floats_number_enabled (configuration host)
                      then Heap.addFloatNumber fuel struct else mret struct) ≫= λ struct,
                     if subFile && view_outline_numbers_enabled (configuration host)
                     then Heap.addSectionNumber fuel struct config None None
                     else mret struct)).
  apply (returns_bind fp σ _ _ _ (λ fuel struct, _)); [by apply nestNonSection_agree|].
  intros σ1 ls1 ts1 Hst1 _.
  apply (returns_bind fp σ1 _ (λ _, Heap.nestSection ls1 config) _ (λ fuel struct, _)).
  { pose proof (nestSection_agree config σ1 ls1 ts1 fp Hst1) as H.
    destruct (nestSection ts1 config) as [out|err]; cbn [returns].
    - destruct H as (σ' & ls' & Hrun & Hst' & Hfr'). exists σ', ls'.
      split_and!; [done..|]. by exists 0.
    - by exists 0. }
  intros σ2 ls2 ts2 Hst2 _.
  apply (returns_bind fp σ2 _ _ _ (λ fuel struct, _)).
  { destruct (subFile && view_outline_floats_number_enabled (configuration host)).
    - by apply addFloatNumber_agree.
    - by apply returns_ret. }
  intros σ3 ls3 ts3 Hst3 _.
  destruct (subFile && view_outline_numbers_enabled (configuration host)).
  - by apply addSectionNumber_agree.
  - by apply returns_ret.
Qed.


(** ** Stores that hold every object once *)

(** A store whose objects are each reached once holds the forest that is
    read from it. *)
Lemma stored_intro fuel σ :
  ∀ l t ps,
    Heap.read fuel σ l = Some t → Heap.places fuel σ l = Some ps → NoDup ps →
    Heap.stored σ l t (list_to_set ps).
Proof.
  induction fuel as [|fuel IH]; intros l t ps Hread Hplaces Hnd; [done|].
  cbn [Heap.read Heap.places] in Hread, Hplaces.
  destruct (σ !! l) as [o|] eqn:Hlo; [|done]. cbn [mbind option_bind] in Hread, Hplaces.
  destruct (mapM (Heap.read fuel σ) (Heap.o_children o)) as [ch|] eqn:Hch; [|done].
  destruct (mapM (Heap.places fuel σ) (Heap.o_children o)) as [pss|] eqn:Hps; [|done].
  cbn in Hread, Hplaces. simplify_eq.
  apply NoDup_cons in Hnd as [Hnot Hnd].
  rewrite list_to_set_cons. constructor; [done| |set_solver].
  clear Hlo Hnot. apply mapM_Some in Hch, Hps.
  revert pss Hps Hnd. induction Hch as [|c t cs ts Hc Hcs IHcs]; intros pss Hps Hnd.
  { apply Forall2_nil_inv_l in Hps as ->. constructor. }
  apply Forall2_cons_inv_l in Hps as (p & pss' & Hp & Hps' & ->).
  cbn [concat] in Hnd |- *. apply NoDup_app in Hnd as (Hnd1 & Hdisj & Hnd2).
  rewrite list_to_set_app_L. constructor; [by apply IH|by apply IHcs|].
  set_solver.
Qed.

Lemma storedAll_intro fuel σ ls ts ps :
  Heap.readAll fuel σ ls = Some ts → Heap.placesAll fuel σ ls = Some ps → NoDup ps →
  Heap.storedAll σ ls ts (list_to_set ps).
Proof.
  unfold Heap.readAll, Heap.placesAll. intros Hread Hplaces Hnd.
  destruct (mapM (Heap.places fuel σ) ls) as [pss|] eqn:Hps; [|done].
  cbn in Hplaces. simplify_eq. apply mapM_Some in Hread, Hps.
  revert pss Hps Hnd. induction Hread as [|c t cs ts Hc Hcs IHcs]; intros pss Hps Hnd.
  { apply Forall2_nil_inv_l in Hps as ->. constructor. }
  apply Forall2_cons_inv_l in Hps as (p & pss' & Hp & Hps' & ->).
  cbn [concat] in Hnd |- *. apply NoDup_app in Hnd as (Hnd1 & Hdisj & Hnd2).
  rewrite list_to_set_app_L. constructor; [by eapply stored_intro|by apply IHcs|].
  set_solver.
Qed.


(** ** The passes on a store: what they do when no object is shared *)

Lemma returns_throws fp σ r run :
  returns fp σ r run →
  ∃ n, ∀ fuel, n ≤ fuel →
    match r with
    | Ok _ => ∃ ls σ', run fuel σ = Some (Ok (ls, σ'))
    | Throw e => run fuel σ = Some (Throw e)
    end.
Proof.
  destruct r as [out|e]; cbn.
  - intros (σ' & ls' & _ & _ & n & Hn). exists n. eauto.
  - done.
Qed.

(** C7 (amended). On a store that holds every object of the forest once,
    [addFloatNumber] returns and leaves the depth-first sequence of the
    elements as it is but for labels: the element at position [i] that is
    an [Environment] other than [macro] and [environment] receives the
    number one more than the count of such elements of the same name
    before it (so the N elements of a name get 1..N in document order,
    whatever their depth), written, after a space, behind the part of the
    label that precedes the first colon, or at the end if there is no
    colon; every other element keeps its label. *)
Theorem addFloatNumber_numbers σ ls struct fp i e :
  Heap.storedAll σ ls struct fp →
  flatten struct !! i = Some e →
  ∃ out,
    returns fp σ (Ok out) (λ fuel, Heap.addFloatNumber fuel ls) ∧
    ∃ e',
      flatten out !! i = Some e' ∧
      if isNumberedFloat e then
        ∃ prefix suffix,
          label e = prefix +:+ suffix ∧
          (":"%char ∉ String.list_ascii_of_string prefix) ∧
          (suffix = "" ∨ ∃ s', suffix = String ":" s') ∧
          e' = set_label e
                 (prefix +:+ " "
                  +:+ toString (S (countFloats (name e) (take i (flatten struct))))
                  +:+ suffix)
      else e' = e.
Proof.
  intros Hst Hi. exists (addFloatNumber struct ∅).1.
  split; [by apply addFloatNumber_agree|]. by apply addFloatNumber_numbers_forest.
Qed.

(** C10 (amended). On a store that holds every object of the forest once,
    [nestNonSection] returns and keeps the depth-first sequence of the
    elements; [nestSection] returns and keeps every element exactly once,
    and it keeps their depth-first order when no element of another kind
    follows a [Section], [SectionAst] or [SubFile] element at the top level
    of its input.  In both cases the result holds every object once. *)
Theorem nesting_passes_preserve_elements config σ ls struct fp :
  Heap.storedAll σ ls struct fp →
  (∃ out,
     returns fp σ (Ok out) (λ fuel, Heap.nestNonSection fuel ls) ∧
     flatten out = flatten struct) ∧
  (∃ out,
     returns fp σ (Ok out) (λ _, Heap.nestSection ls config) ∧
     flatten out ≡ₚ flatten struct ∧
     (stackElementsLast struct = true → flatten out = flatten struct)).
Proof.
  intros Hst. destruct (nesting_passes_flatten config struct)
    as (Hnon & out & Hrun & Hperm & Horder).
  split.
  - exists (nestNonSection struct). split; [by apply nestNonSection_agree|done].
  - exists out. split; [|done].
    pose proof (nestSection_agree config σ ls struct fp Hst) as H. rewrite Hrun in H.
    destruct H as (σ' & ls' & Hrun' & Hst' & Hfr'). exists σ', ls'.
    split_and!; [done..|]. by exists 0.
Qed.

(** On a store that holds every object of the forest once,
    [nestNonSection] returns and works section by section: elements that
    no section precedes stay where they are, and the elements that follow
    a section, up to the next section, become its children, after the
    children it has; the elements before the section and from the next
    section on are nested on their own, and the pass has been applied to
    the children of every element ([nestNonSection_elem]). *)
Theorem nestNonSection_by_section σ ls struct fp :
  Heap.storedAll σ ls struct fp →
  ∃ out,
    returns fp σ (Ok out) (λ fuel, Heap.nestNonSection fuel ls) ∧
    (Forall (λ e, isSection e = false) struct →
     out = nestNonSection_elem <$> struct) ∧
    (∀ pre s followers post,
       struct = pre ++ s :: followers ++ post →
       isSection s = true →
       Forall (λ e, isSection e = false) followers →
       match post with [] => True | next :: _ => isSection next = true end →
       out = nestNonSection pre
             ++ set_children s (children (nestNonSection_elem s)
                                ++ (nestNonSection_elem <$> followers))
             :: nestNonSection post).
Proof.
  intros Hst. exists (nestNonSection struct).
  split; [by apply nestNonSection_agree|].
  destruct nestNonSection_sections as [Hlead Hsec]. split.
  - apply Hlead.
  - intros pre s followers post -> Hs Hfollowers Hpost. by apply Hsec.
Qed.

(** On a store that holds every object of the forest once, [nestSection]
    returns and nests sections and sub-files only: the elements of the
    other kinds that its input holds (at top level) are the elements of
    these kinds at the top level of its result, unchanged and in their
    order. *)
Theorem nestSection_keeps_others_on_top config σ ls struct fp :
  Heap.storedAll σ ls struct fp →
  ∃ out,
    returns fp σ (Ok out) (λ _, Heap.nestSection ls config) ∧
    filter (λ e, isStackKind e = false) out
    = filter (λ e, isStackKind e = false) struct.
Proof.
  intros Hst. destruct (nestSection_others_top config struct) as (out & Hrun & Hfilter).
  exists out. split; [|done].
  pose proof (nestSection_agree config σ ls struct fp Hst) as H. rewrite Hrun in H.
  destruct H as (σ' & ls' & Hrun' & Hst' & Hfr'). exists σ', ls'.
  split_and!; [done..|]. by exists 0.
Qed.

(** On a store that holds every object of the scope once,
    [addSectionNumber] returns or throws, and when it returns, a
    non-starred section of rank [r] bears, before its label, the prefix
    of the scope, one [0.] for each rank between the lowest rank of the
    scope and [r], and the count of the non-starred sections of rank [r]
    of the scope up to and including it; any other element with a rank
    bears a star instead. *)
Theorem addSectionNumber_labels config σ ls struct fp tag lowest :
  Heap.storedAll σ ls struct fp →
  ∃ result,
    returns fp σ result (λ fuel, Heap.addSectionNumber fuel ls config tag lowest) ∧
    ∀ out i e r,
      result = Ok out → struct !! i = Some e → rank config (name e) = Some r →
      ∃ e', out !! i = Some e' ∧
        if bool_decide (type e = TeXElementType.Section) then
          ∃ padding,
            zeroPadding r (default (minRank config struct) lowest) = Ok padding ∧
            label e'
            = default "" tag +:+ padding
              +:+ toString (countSections config r (take (S i) struct))
              +:+ " " +:+ label e
        else label e' = "* " +:+ label e.
Proof.
  intros Hst. exists (addSectionNumber struct config tag lowest).
  split; [by apply addSectionNumber_agree|].
  intros out i e r Hrun Hi Hr. by eapply addSectionNumber_labels_forest.
Qed.

(** On a store that holds every object of the scope once,
    [addSectionNumber] passes over an element whose name has no rank:
    when the pass returns, the element is as it was, children included,
    so that no section below it is numbered. *)
Theorem addSectionNumber_skips_unranked config σ ls struct fp tag lowest :
  Heap.storedAll σ ls struct fp →
  ∃ result,
    returns fp σ result (λ fuel, Heap.addSectionNumber fuel ls config tag lowest) ∧
    ∀ out i e,
      result = Ok out → struct !! i = Some e → rank config (name e) = None →
      out !! i = Some e.
Proof.
  intros Hst. exists (addSectionNumber struct config tag lowest).
  split; [by apply addSectionNumber_agree|].
  intros out i e Hrun Hi Hr. by eapply addSectionNumber_unranked_forest.
Qed.

(** On a store that holds every object of the forest once, the passes of
    [construct] that follow the splice return or throw, and what they
    return holds, once each, the elements they were given, with their
    kinds, names, positions and files: the passes change the nesting and
    the labels only, and without sub-file merging the labels stay as
    well. *)
Theorem assemble_keeps_elements host config subFile σ ls struct fp :
  Heap.storedAll σ ls struct fp →
  ∃ result,
    returns fp σ result (λ fuel, Heap.assemble fuel host config subFile ls) ∧
    ∀ out,
      result = Ok out →
      unlabel <$> flatten out ≡ₚ unlabel <$> flatten struct ∧
      (subFile = false → flatten out ≡ₚ flatten struct).
Proof.
  intros Hst. exists (assemble host config subFile struct).
  split; [by apply assemble_agree|].
  intros out Hrun. by apply assemble_flatten in Hrun.
Qed.


(** ** Objects that the forest holds at two places *)

(** C7, as stated, fails when an object is at two places of the forest.
    The root file [m] includes [a] twice, and [a] holds a section and a
    figure: [insertSubFile] returns the two objects of [a] twice,
    [nestNonSection] pushes the figure onto the children of the section
    twice, and [addFloatNumber] visits the one figure object at each of
    its four places and writes each number into its one label.  The same
    on an array that holds one figure object twice. *)
Lemma addFloatNumber_shared_counterexample :
  Heap.outline 3 (Heap.construct 3 twiceHost None true) = Some twiceOutline ∧
  label <$> filter (λ e, isNumberedFloat e = true) (flatten twiceOutline)
  = ["Figure 1 2 3 4: Cap"; "Figure 1 2 3 4: Cap";
     "Figure 1 2 3 4: Cap"; "Figure 1 2 3 4: Cap"] ∧
  label <$> filter (λ e, isNumberedFloat e = true) (flatten twiceOutline)
  ≠ ["Figure 1: Cap"; "Figure 2: Cap"; "Figure 3: Cap"; "Figure 4: Cap"] ∧
  labelsAfter 2 (Heap.addFloatNumber 2 [0; 0]) figureStore
  = Some ["Figure 1 2: Cap"; "Figure 1 2: Cap"].
Proof.
  split_and!; [vm_compute; reflexivity|vm_compute; reflexivity| |vm_compute; reflexivity].
  vm_compute. discriminate.
Qed.

(** [nestNonSection] on an array that holds a section and a figure twice
    each: the figure is pushed onto the children of the one section
    object twice, and the result holds six places where the input held
    four. *)
Example nestNonSection_shared :
  Heap.nestNonSection 2 [0; 1; 0; 1] sectionStore
  = Some (Ok ([0; 0],
              [Heap.mkObject TeXElementType.Section "section" "S" 0 0 0 "a" [1; 1];
               Heap.mkObject TeXElementType.Environment "figure" "Figure" 0 0 0 "a" []])) ∧
  labelsAfter 3 (Heap.nestNonSection 2 [0; 1; 0; 1]) sectionStore
  = Some ["S"; "Figure"; "Figure"; "S"; "Figure"; "Figure"].
Proof. split; vm_compute; reflexivity. Qed.

(** [nestSection] on an array that holds an unresolved [SubFile] object
    twice pushes the object onto its own children; on the store it
    leaves, [addFloatNumber] does not return, whatever the fuel: in the
    source, the recursion exhausts the call stack. *)
Example nestSection_shared :
  Heap.nestSection [0; 0] exampleConfig subFileStore
  = Some (Ok ([0], [Heap.mkObject TeXElementType.SubFile "input" "f" 0 0 0 "a" [0]])) ∧
  ∀ fuel counter,
    Heap.addFloatNumber_from fuel [0] counter
      [Heap.mkObject TeXElementType.SubFile "input" "f" 0 0 0 "a" [0]]
    = None.
Proof.
  split; [vm_compute; reflexivity|].
  set (o := Heap.mkObject TeXElementType.SubFile "input" "f" 0 0 0 "a" [0]).
  induction fuel as [|fuel IH]; intros counter; [done|].
  cbn [Heap.addFloatNumber_from Heap.addFloatNumber_loop].
  rewrite run_bind, (run_load 0 o) by done.
  change (isNumberedFloat (Heap.shell o)) with false. cbn beta iota.
  rewrite run_bind, run_ret, run_bind, (run_load 0 o) by done.
  change (bool_decide (0 < length (Heap.o_children o))) with true. cbn beta iota.
  by rewrite run_bind, IH.
Qed.


(** ** The extraction of a file that another extraction has reached *)



Section ParseNodeReturns.
Variable host : Host.
Variable config : StructureConfig.
Variable filePath : string.
Variable rec : string → gmap string (list TeXElement) →
               option (result (gmap string (list TeXElement))).
(** What the cache keeps, and the files for which [constructFile] returns. *)
Variable Inv : gmap string (list TeXElement) → Prop.
Variable callable : string → Prop.
Hypothesis Hsub : subFile config = true.
Hypothesis Hrec : ∀ file structs,
  Inv structs → callable file →
  ∃ structs', rec file structs = Some (Ok structs') ∧ Inv structs'.



End ParseNodeReturns.


(** ** The splice of a forest reads the cache at the files it names *)





(** ** The forest that [construct] splices *)









(** ** The properties at work on examples *)

Lemma parseRnwChildCommand_lines_witness :
  rnw_line <$> parseRnwChildCommand rnwHost twoLines "/main.Rnw" "/main.Rnw" = [0; 1] ∧
  StronglySorted le
    (rnw_line <$> parseRnwChildCommand rnwHost twoLines "/main.Rnw" "/main.Rnw").
Proof.
  split; [reflexivity|].
  apply (parseRnwChildCommand_lines rnwHost twoLines "/main.Rnw" "/main.Rnw").
  vm_compute. repeat constructor.
Defined.

Lemma constructFile_elements_filePath_witness :
  constructFile 3 smallHost "m" (refreshLaTeXModelConfig smallHost true) ∅
  = Some (Ok (extracted smallHost "m" true)) ∧
  CacheAll (λ f e, filePath e = f) (extracted smallHost "m" true).
Proof.
  assert (constructFile 3 smallHost "m" (refreshLaTeXModelConfig smallHost true) ∅
          = Some (Ok (extracted smallHost "m" true))) as Hrun.
  { vm_compute. reflexivity. }
  split; [exact Hrun|].
  apply (constructFile_elements_filePath _ _ _ _ _ _ Hrun).
  intros f forest Hf. by rewrite lookup_empty in Hf.
Defined.

Lemma constructFile_elements_kind_witness :
  constructFile 3 smallHost "m" (refreshLaTeXModelConfig smallHost true) ∅
  = Some (Ok (extracted smallHost "m" true)) ∧
  CacheAll (λ _, kindOk (refreshLaTeXModelConfig smallHost true))
    (extracted smallHost "m" true).
Proof.
  assert (constructFile 3 smallHost "m" (refreshLaTeXModelConfig smallHost true) ∅
          = Some (Ok (extracted smallHost "m" true))) as Hrun.
  { vm_compute. reflexivity. }
  split; [exact Hrun|].
  apply (constructFile_elements_kind _ _ _ _ _ _ Hrun).
  intros f forest Hf. by rewrite lookup_empty in Hf.
Defined.

Lemma constructFile_cache_grows_witness :
  dom (extracted smallHost "m" true) = ({[ "m"; "a" ]} : gset string) ∧
  ∅ ⊆ extracted smallHost "m" true ∧
  constructFile 1 smallHost "m" (refreshLaTeXModelConfig smallHost true)
    (extracted smallHost "m" true)
  = Some (Ok (extracted smallHost "m" true)).
Proof.
  split; [vm_compute; reflexivity|].
  destruct (constructFile_cache_grows 3 smallHost "m"
              (refreshLaTeXModelConfig smallHost true) ∅ (extracted smallHost "m" true))
    as [Hsub Hagain].
  { vm_compute. reflexivity. }
  split; [exact Hsub|exact (Hagain 0)].
Defined.

Lemma parseNodes_rnw_queue_witness :
  let config := refreshLaTeXModelConfig emptyHost false in
  let first := mkRnwChild "/a.Rnw" "a.Rnw" 0 in
  let second := mkRnwChild "/b.Rnw" "b.Rnw" 5 in
  ∃ popped,
    [first; second] = [first] ++ popped ∧
    rnwLabels [rnwElement config "/main.Rnw" second (textAt 1)]
    = rnwLabel config <$> reverse popped.
Proof.
  intros config first second.
  exact (parseNodes_rnw_queue emptyHost config "/main.Rnw" (λ _ _, None)
           [textAt 1; textAt 2] (mkParseState [first; second] ∅)
           [rnwElement config "/main.Rnw" second (textAt 1)]
           (mkParseState [first] ∅) eq_refl).
Defined.

Lemma insertSubFile_resolves_witness :
  let out :=
    [exampleElement TeXElementType.Section "section" "A" [];
     exampleElement TeXElementType.SubFile "input" "missing" []] in
  insertSubFile 2 smallHost spliceCache None = Some out ∧
  Forall (λ x, ¬ resolvable spliceCache x) (nodes out) ∧
  insertSubFile 1 smallHost spliceCache (Some out) = Some out.
Proof.
  intros out.
  assert (insertSubFile 2 smallHost spliceCache None = Some out) as Hrun
    by (vm_compute; reflexivity).
  split; [exact Hrun|].
  destruct (insertSubFile_resolves 2 smallHost spliceCache None out Hrun) as [Hall Hagain].
  split; [exact Hall|exact (Hagain 0)].
Defined.

Lemma insertSubFile_nothing_to_splice_witness :
  insertSubFile 1 smallHost plainCache None
  = Some [exampleElement TeXElementType.Section "section" "A"
            [exampleElement TeXElementType.SubFile "input" "missing" []]].
Proof.
  apply (insertSubFile_nothing_to_splice 0 smallHost plainCache None "m").
  - reflexivity.
  - repeat constructor; intros [Ht [forest Hf]]; vm_compute in Ht, Hf; discriminate.
Defined.

Lemma addSectionNumber_returns_witness :
  let forest :=
    [exampleElement TeXElementType.Section "chapter" "A"
       [exampleElement TeXElementType.Section "subsection" "B" [];
        exampleElement TeXElementType.Command "label" "#label" []]] in
  RankOrdered exampleConfig forest ∧
  ∃ out, addSectionNumber forest exampleConfig None None = Ok out.
Proof.
  intros forest.
  assert (RankOrdered exampleConfig forest) as Hord.
  { apply rankOrdered_spec. reflexivity. }
  split; [exact Hord|].
  apply (addSectionNumber_returns exampleConfig forest); [|exact Hord].
  repeat constructor; try done; intros [r Hr]; vm_compute in Hr; discriminate.
Defined.

Lemma construct_sections_ranked_witness :
  ∃ x,
    smallOutline !! 1 = Some x ∧
    (type x, name x, label x) = (TeXElementType.Section, "chapter", "1 Part") ∧
    name x ∈ secs (macros (refreshLaTeXModelConfig smallHost true)) ∧
    is_Some (rank (refreshLaTeXModelConfig smallHost true) (name x)).
Proof.
  assert (construct 3 smallHost None true = Some (Ok smallOutline)) as Hrun
    by (vm_compute; reflexivity).
  eexists. split; [vm_compute; reflexivity|]. split; [reflexivity|].
  apply (construct_sections_ranked 3 smallHost None true smallOutline Hrun).
  - apply (list_elem_of_lookup_2 _ 1). vm_compute. reflexivity.
  - reflexivity.
Defined.

Lemma construct_without_content_witness :
  construct 1 emptyFileHost None false = Some (Throw TypeError) ∧
  construct 1 emptyFileHost None true = Some (Ok []).
Proof.
  apply (construct_without_content 0 emptyFileHost None "/main.tex").
  - reflexivity.
  - vm_compute. reflexivity.
Defined.

Lemma parseNode_doctex_throws_witness :
  parseNode emptyHost exampleConfig "/doc.dtx" (λ _ _, None)
    (Ast.Environment None false "macro"
       [Ast.Whitespace None;
        Ast.Group None [Ast.Macro None "foo" None]] None)
    (mkParseState [] ∅)
  = Some (Throw TypeError).
Proof.
  apply (parseNode_doctex_throws emptyHost exampleConfig "/doc.dtx" (λ _ _, None)
           None "macro" (Ast.Whitespace None)).
  - by left.
  - reflexivity.
  - reflexivity.
Defined.

Lemma constructFile_stores_forestOf_witness :
  let forest :=
    [mkTeXElement TeXElementType.Section "chapter" "Part" 0 0 0 "a" [];
     mkTeXElement TeXElementType.Section "section" "Detail" 0 0 0 "a" []] in
  extracted smallHost "m" true !! "a" = Some forest ∧
  available smallHost "a" ∧
  forestOf smallHost (refreshLaTeXModelConfig smallHost true) "a" = Some forest.
Proof.
  intros forest.
  assert (extracted smallHost "m" true !! "a" = Some forest) as Hlookup
    by (vm_compute; reflexivity).
  split; [exact Hlookup|].
  apply (constructFile_stores_forestOf 3 smallHost "m"
           (refreshLaTeXModelConfig smallHost true) (extracted smallHost "m" true));
    [|exact Hlookup].
  vm_compute. reflexivity.
Defined.

Lemma constructFile_cycle_never_returns_witness :
  let config := refreshLaTeXModelConfig cycleHost true in
  includes cycleHost config "a" "b" ∧
  includes cycleHost config "b" "a" ∧
  constructFile 9 cycleHost "a" config ∅ ≠ Some (Ok ∅).
Proof.
  intros config.
  assert (includes cycleHost config "a" "b") as Hab.
  { split_and!; [by vm_compute..|].
    eexists _, _. split_and!; [vm_compute; reflexivity|by left|reflexivity..]. }
  assert (includes cycleHost config "b" "a") as Hba.
  { split_and!; [by vm_compute..|].
    eexists _, _. split_and!; [vm_compute; reflexivity|by right; left|reflexivity..]. }
  split_and!; [exact Hab|exact Hba|].
  apply (constructFile_cycle_never_returns 9 cycleHost config "a" "a" ∅ eq_refl
           (rtc_refl _ _) (tc_l _ _ _ _ Hab (tc_once _ _ _ Hba))).
Defined.


(** ** The passes at work on stores *)

Lemma addFloatNumber_numbers_witness :
  let struct :=
    [exampleElement TeXElementType.Environment "figure" "Figure: a:b"
       [exampleElement TeXElementType.Environment "table" "Table" [];
        exampleElement TeXElementType.Environment "figure" "Figure" []];
     exampleElement TeXElementType.Environment "macro" "Macro" [];
     exampleElement TeXElementType.Environment "figure" "Figure: c" []] in
  let ls := (laidOut struct).1 in
  let σ := (laidOut struct).2 in
  labelsAfter 3 (Heap.addFloatNumber 3 ls) σ
  = Some ["Figure 1: a:b"; "Table 1"; "Figure 2"; "Macro"; "Figure 3: c"] ∧
  ∃ fp,
    Heap.storedAll σ ls struct fp ∧
    ∃ out,
      returns fp σ (Ok out) (λ fuel, Heap.addFloatNumber fuel ls) ∧
      ∃ e', flatten out !! 4 = Some e' ∧
            ∃ prefix suffix,
              "Figure: c" = prefix +:+ suffix ∧
              (":"%char ∉ String.list_ascii_of_string prefix) ∧
              (suffix = "" ∨ ∃ s', suffix = String ":" s') ∧
              e' = set_label
                     (exampleElement TeXElementType.Environment "figure" "Figure: c" [])
                     (prefix +:+ " " +:+ toString 3 +:+ suffix).
Proof.
  intros struct ls σ. split; [vm_compute; reflexivity|].
  exists (list_to_set [2; 0; 1; 3; 4]).
  assert (Heap.storedAll σ ls struct (list_to_set [2; 0; 1; 3; 4])) as Hst.
  { apply (storedAll_intro 3); [vm_compute; reflexivity..|].
    compute_done. }
  split; [exact Hst|].
  exact (addFloatNumber_numbers σ ls struct _ 4
           (exampleElement TeXElementType.Environment "figure" "Figure: c" [])
           Hst eq_refl).
Defined.

Lemma nesting_passes_preserve_elements_witness :
  let struct :=
    [exampleElement TeXElementType.Environment "figure" "Figure" [];
     exampleElement TeXElementType.Section "section" "A"
       [exampleElement TeXElementType.Command "label" "#label" []];
     exampleElement TeXElementType.Section "subsection" "B" []] in
  let ls := (laidOut struct).1 in
  let σ := (laidOut struct).2 in
  labelsAfter 3 (Heap.nestSection ls exampleConfig) σ
  = Some ["Figure"; "A"; "#label"; "B"] ∧
  stackElementsLast struct = true ∧
  ∃ fp,
    Heap.storedAll σ ls struct fp ∧
    (∃ out,
       returns fp σ (Ok out) (λ fuel, Heap.nestNonSection fuel ls) ∧
       flatten out = flatten struct) ∧
    (∃ out,
       returns fp σ (Ok out) (λ _, Heap.nestSection ls exampleConfig) ∧
       flatten out ≡ₚ flatten struct ∧
       (stackElementsLast struct = true → flatten out = flatten struct)).
Proof.
  intros struct ls σ. split; [vm_compute; reflexivity|]. split; [reflexivity|].
  exists (list_to_set [0; 2; 1; 3]).
  assert (Heap.storedAll σ ls struct (list_to_set [0; 2; 1; 3])) as Hst.
  { apply (storedAll_intro 3); [vm_compute; reflexivity..|]. compute_done. }
  split; [exact Hst|].
  exact (nesting_passes_preserve_elements exampleConfig σ ls struct _ Hst).
Defined.

Lemma nestNonSection_by_section_witness :
  let lead := exampleElement TeXElementType.Command "title" "#title" [] in
  let s := exampleElement TeXElementType.Section "section" "A" [] in
  let figure := exampleElement TeXElementType.Environment "figure" "Figure" [] in
  let input := exampleElement TeXElementType.SubFile "input" "x.tex" [] in
  let next := exampleElement TeXElementType.Section "section" "B" [] in
  let struct := [lead; s; figure; input; next] in
  let ls := (laidOut struct).1 in
  let σ := (laidOut struct).2 in
  ∃ fp,
    Heap.storedAll σ ls struct fp ∧
    ∃ out,
      returns fp σ (Ok out) (λ fuel, Heap.nestNonSection fuel ls) ∧
      out = [lead; set_children s [figure; input]; next].
Proof.
  intros lead s figure input next struct ls σ.
  exists (list_to_set [0; 1; 2; 3; 4]).
  assert (Heap.storedAll σ ls struct (list_to_set [0; 1; 2; 3; 4])) as Hst.
  { apply (storedAll_intro 3); [vm_compute; reflexivity..|]. compute_done. }
  split; [exact Hst|].
  destruct (nestNonSection_by_section σ ls struct _ Hst) as (out & Hrun & _ & Hsec).
  exists out. split; [exact Hrun|].
  apply (Hsec [lead] s [figure; input] [next]).
  - reflexivity.
  - reflexivity.
  - repeat constructor.
  - reflexivity.
Defined.

Lemma nestSection_keeps_others_on_top_witness :
  let struct :=
    [exampleElement TeXElementType.Section "section" "A" [];
     exampleElement TeXElementType.Environment "figure" "Figure" [];
     exampleElement TeXElementType.Section "subsection" "B" [];
     exampleElement TeXElementType.Command "label" "#label" []] in
  let ls := (laidOut struct).1 in
  let σ := (laidOut struct).2 in
  labelsAfter 3 (Heap.nestSection ls exampleConfig) σ
  = Some ["A"; "B"; "Figure"; "#label"] ∧
  ∃ fp,
    Heap.storedAll σ ls struct fp ∧
    ∃ out,
      returns fp σ (Ok out) (λ _, Heap.nestSection ls exampleConfig) ∧
      filter (λ e, isStackKind e = false) out
      = [exampleElement TeXElementType.Environment "figure" "Figure" [];
         exampleElement TeXElementType.Command "label" "#label" []].
Proof.
  intros struct ls σ. split; [vm_compute; reflexivity|].
  exists (list_to_set [0; 1; 2; 3]).
  assert (Heap.storedAll σ ls struct (list_to_set [0; 1; 2; 3])) as Hst.
  { apply (storedAll_intro 3); [vm_compute; reflexivity..|]. compute_done. }
  split; [exact Hst|].
  exact (nestSection_keeps_others_on_top exampleConfig σ ls struct _ Hst).
Defined.

Lemma addSectionNumber_labels_witness :
  let ls := (laidOut numberedScope).1 in
  let σ := (laidOut numberedScope).2 in
  labelsAfter 3 (Heap.addSectionNumber 3 ls exampleConfig None None) σ
  = Some ["1 A"; "* S"; "2 B"; "Figure"; "C"] ∧
  ∃ fp,
    Heap.storedAll σ ls numberedScope fp ∧
    ∃ result,
      returns fp σ result
        (λ fuel, Heap.addSectionNumber fuel ls exampleConfig None None) ∧
      ∀ out, result = Ok out →
        ∃ e', out !! 2 = Some e' ∧
          ∃ padding,
            zeroPadding 1 (default (minRank exampleConfig numberedScope) None)
            = Ok padding ∧
            label e'
            = default "" None +:+ padding
              +:+ toString (countSections exampleConfig 1 (take 3 numberedScope))
              +:+ " " +:+ "B".
Proof.
  intros ls σ. split; [vm_compute; reflexivity|].
  exists (list_to_set [0; 1; 2; 4; 3]).
  assert (Heap.storedAll σ ls numberedScope (list_to_set [0; 1; 2; 4; 3])) as Hst.
  { apply (storedAll_intro 3); [vm_compute; reflexivity..|]. compute_done. }
  split; [exact Hst|].
  destruct (addSectionNumber_labels exampleConfig σ ls numberedScope _ None None Hst)
    as (result & Hrun & Hlabels).
  exists result. split; [exact Hrun|]. intros out Hout.
  exact (Hlabels out 2 (exampleElement TeXElementType.Section "section" "B" []) 1
           Hout eq_refl eq_refl).
Defined.

Lemma addSectionNumber_skips_unranked_witness :
  let ls := (laidOut numberedScope).1 in
  let σ := (laidOut numberedScope).2 in
  ∃ fp,
    Heap.storedAll σ ls numberedScope fp ∧
    ∃ result,
      returns fp σ result
        (λ fuel, Heap.addSectionNumber fuel ls exampleConfig None None) ∧
      ∀ out, result = Ok out →
        out !! 3 = Some (exampleElement TeXElementType.Environment "figure" "Figure"
                           [exampleElement TeXElementType.Section "section" "C" []]).
Proof.
  intros ls σ.
  exists (list_to_set [0; 1; 2; 4; 3]).
  assert (Heap.storedAll σ ls numberedScope (list_to_set [0; 1; 2; 4; 3])) as Hst.
  { apply (storedAll_intro 3); [vm_compute; reflexivity..|]. compute_done. }
  split; [exact Hst|].
  destruct (addSectionNumber_skips_unranked exampleConfig σ ls numberedScope _ None None Hst)
    as (result & Hrun & Hskip).
  exists result. split; [exact Hrun|]. intros out Hout.
  exact (Hskip out 3 _ Hout eq_refl eq_refl).
Defined.

Lemma assemble_keeps_elements_witness :
  let struct :=
    [exampleElement TeXElementType.Section "section" "Intro" [];
     exampleElement TeXElementType.Section "chapter" "Part" [];
     exampleElement TeXElementType.Section "section" "Detail" [];
     exampleElement TeXElementType.Environment "figure" "Figure" []] in
  let ls := (laidOut struct).1 in
  let σ := (laidOut struct).2 in
  labelsAfter 3 (Heap.assemble 3 smallHost exampleConfig true ls) σ
  = Some ["0.1 Intro"; "1 Part"; "1.1 Detail"; "Figure 1"] ∧
  ∃ fp,
    Heap.storedAll σ ls struct fp ∧
    ∃ result,
      returns fp σ result (λ fuel, Heap.assemble fuel smallHost exampleConfig true ls) ∧
      ∀ out,
        result = Ok out →
        unlabel <$> flatten out ≡ₚ unlabel <$> flatten struct ∧
        (true = false → flatten out ≡ₚ flatten struct).
Proof.
  intros struct ls σ. split; [vm_compute; reflexivity|].
  exists (list_to_set [0; 1; 2; 3]).
  assert (Heap.storedAll σ ls struct (list_to_set [0; 1; 2; 3])) as Hst.
  { apply (storedAll_intro 3); [vm_compute; reflexivity..|]. compute_done. }
  split; [exact Hst|].
  exact (assemble_keeps_elements smallHost exampleConfig true σ ls struct _ Hst).
Defined.

